(** * WebArcade: the mine-clearing engines, the grid library and the Sudoku
      engine, embedded from the JavaScript sources.

    - [Grid]          grid.js         (HexGrid, TriangleGrid)
    - [Sapper]        sapper.js       (SapperGame, the square-grid engine)
    - [SapperShapes]  sappershapes.js (SapperShapesGame, the shape-grid engine)
    - [Sudoku]        sudoku.js

    The properties follow the embedding: [Deduction] states the deduction
    that the no-guess generators run, and [Inference] the deduction of a
    player who sees the numbers only; [SapperFacts], [ShapesFacts],
    [GridFacts], [SapperSolve], [ShapesSolve] and [SudokuFacts] prove the
    facts about each source file, and the modules from [GridMore] to
    [SudokuCarve] continue them; [Examples] holds concrete boards and runs;
    [Claims] states the properties of the specification, and the modules
    after it state further properties of the code.

    Conventions of the embedding.  Coordinates are integers ([Z]); board
    dimensions and counters are naturals.  A computation that can read a
    property of [undefined] or run an unbounded loop returns an [outcome].
    Every call of [Math.random] takes the next value of an explicit random
    source. *)

From Stdlib Require Import ZArith Lia.
From stdpp Require Import gmap list.

Local Open Scope Z_scope.

(** ** Outcomes of a JavaScript computation *)

Inductive outcome (A : Type) : Type :=
  | Done (a : A)     (* normal completion with a value *)
  | TypeError        (* a property was read from, or written to, [undefined] *)
  | OutOfFuel.       (* the model stopped following a loop or a recursion *)
Arguments Done {A} a.
Arguments TypeError {A}.
Arguments OutOfFuel {A}.

(** Sequencing: [x <- m ; k] runs [k] on the value of [m] and propagates a
    failure of [m]. *)
Definition bind {A B} (m : outcome A) (k : A -> outcome B) : outcome B :=
  match m with
  | Done a => k a
  | TypeError => TypeError
  | OutOfFuel => OutOfFuel
  end.

Notation "x <- m ; k" := (bind m (fun x => k))
  (at level 20, m at level 100, k at level 200, only parsing).
Notation "' x <- m ; k" := (bind m (fun x => k))
  (at level 20, x pattern, m at level 100, k at level 200, only parsing).

(** [for (const a of l) { st = body(st, a) }] with a body that may fail. *)
Fixpoint foldM {A S} (body : S -> A -> outcome S) (l : list A) (st : S) : outcome S :=
  match l with
  | [] => Done st
  | a :: l' => st' <- body st a; foldM body l' st'
  end.

(** A loop that returns [false] at the first element that [blocks] and
    [true] when it runs to its end. *)
Fixpoint allM {A} (blocks : A -> outcome bool) (l : list A) : outcome bool :=
  match l with
  | [] => Done true
  | a :: l' => b <- blocks a; if b then Done false else allM blocks l'
  end.

(** ** The random source

    [Math.floor(Math.random() * n)] is an integer of [0 .. n-1] (and [0] when
    [n] is [0]).  The source is an infinite sequence of naturals with a read
    position; a draw reduces the next natural modulo [n]. *)

Record rng := { draws : nat -> nat; pos : nat }.

Definition randomInt (n : nat) (r : rng) : Z * rng :=
  (match n with
   | O => 0
   | _ => Z.of_nat (draws r (pos r) mod n)
   end,
   {| draws := draws r; pos := S (pos r) |}).

(** ** Arrays

    [a[i]] for an integer [i]: [undefined] ([None]) outside [0 .. length-1]. *)

Definition idx {A} (a : list A) (i : Z) : option A :=
  if i <? 0 then None else a !! Z.to_nat i.

(** [a[y][x]] as an rvalue.  Reading [a[y]] when it is [undefined] raises a
    TypeError.  A missing element of an existing row would be [undefined];
    both engines keep their arrays rectangular and never read one, and the
    embedding reports it as the same failure. *)
Definition at2 {A} (a : list (list A)) (x y : Z) : outcome A :=
  match idx a y with
  | None => TypeError
  | Some row => match idx row x with
                | None => TypeError
                | Some v => Done v
                end
  end.

(** [a[y][x] = v] for an existing cell. *)
Definition set2 {A} (a : list (list A)) (x y : Z) (v : A) : outcome (list (list A)) :=
  match idx a y with
  | None => TypeError
  | Some row => match idx row x with
                | None => TypeError
                | Some _ => Done (<[Z.to_nat y := <[Z.to_nat x := v]> row]> a)
                end
  end.

(** [for (let i = 0; i < n; i++)] ranges over [range n]. *)
Definition range (n : nat) : list Z := Z.of_nat <$> seq 0 n.

(** Row-major enumeration: [for y < h) for (x < w)]. *)
Definition coords (w h : nat) : list (Z * Z) :=
  y ← range h; x ← range w; [(x, y)].

(** The eight offsets [(dx, dy)] visited by
    [for (dy = -1..1) for (dx = -1..1) { if (dx === 0 && dy === 0) continue; .. }]. *)
Definition offsets : list (Z * Z) :=
  dy ← [-1; 0; 1]; dx ← [-1; 0; 1];
  if (dx =? 0) && (dy =? 0) then [] else [(dx, dy)].

#[global] Arguments offsets : simpl never.
#[global] Arguments coords : simpl never.

(** * sapper.js *)

Module Sapper.

Record SapperGame := {
  width : nat;
  height : nat;
  totalMines : nat;
  noGuess : bool;
  maxGenerationAttempts : nat;
  grid : list (list Z);          (* -1 = mine, 0-8 = adjacent mine count *)
  revealed : list (list bool);
  flagged : list (list bool);
  mineLocations : list (Z * Z);
  gameOver : bool;
  won : bool;
  minesPlaced : bool
}.

(** The options object of the constructor; [None] is an absent option. *)
Record Options := {
  o_width : option nat;
  o_height : option nat;
  o_mines : option nat;
  o_noGuess : option bool;
  o_maxGenerationAttempts : option nat
}.

(** [v || d] on a number option: [undefined] and [0] are falsy. *)
Definition orElse (v : option nat) (d : nat) : nat :=
  match v with
  | Some (S n) => S n
  | _ => d
  end.

Definition constructor (options : Options) : SapperGame :=
  {| width := orElse (o_width options) 9;
     height := orElse (o_height options) 9;
     totalMines := orElse (o_mines options) 10;
     noGuess := default false (o_noGuess options);
     maxGenerationAttempts := orElse (o_maxGenerationAttempts options) 1000;
     grid := []; revealed := []; flagged := []; mineLocations := [];
     gameOver := false; won := false; minesPlaced := false |}.

Definition with_grid (s : SapperGame) g :=
  {| width := width s; height := height s; totalMines := totalMines s;
     noGuess := noGuess s; maxGenerationAttempts := maxGenerationAttempts s;
     grid := g; revealed := revealed s; flagged := flagged s;
     mineLocations := mineLocations s; gameOver := gameOver s; won := won s;
     minesPlaced := minesPlaced s |}.

Definition with_revealed (s : SapperGame) rv :=
  {| width := width s; height := height s; totalMines := totalMines s;
     noGuess := noGuess s; maxGenerationAttempts := maxGenerationAttempts s;
     grid := grid s; revealed := rv; flagged := flagged s;
     mineLocations := mineLocations s; gameOver := gameOver s; won := won s;
     minesPlaced := minesPlaced s |}.

Definition with_flagged (s : SapperGame) fl :=
  {| width := width s; height := height s; totalMines := totalMines s;
     noGuess := noGuess s; maxGenerationAttempts := maxGenerationAttempts s;
     grid := grid s; revealed := revealed s; flagged := fl;
     mineLocations := mineLocations s; gameOver := gameOver s; won := won s;
     minesPlaced := minesPlaced s |}.

Definition with_mineLocations (s : SapperGame) ml :=
  {| width := width s; height := height s; totalMines := totalMines s;
     noGuess := noGuess s; maxGenerationAttempts := maxGenerationAttempts s;
     grid := grid s; revealed := revealed s; flagged := flagged s;
     mineLocations := ml; gameOver := gameOver s; won := won s;
     minesPlaced := minesPlaced s |}.

Definition with_over (s : SapperGame) (go w : bool) :=
  {| width := width s; height := height s; totalMines := totalMines s;
     noGuess := noGuess s; maxGenerationAttempts := maxGenerationAttempts s;
     grid := grid s; revealed := revealed s; flagged := flagged s;
     mineLocations := mineLocations s; gameOver := go; won := w;
     minesPlaced := minesPlaced s |}.

Definition with_minesPlaced (s : SapperGame) (b : bool) :=
  {| width := width s; height := height s; totalMines := totalMines s;
     noGuess := noGuess s; maxGenerationAttempts := maxGenerationAttempts s;
     grid := grid s; revealed := revealed s; flagged := flagged s;
     mineLocations := mineLocations s; gameOver := gameOver s; won := won s;
     minesPlaced := b |}.

(** [{ hit, revealed, won, lost }] *)
Record RevealResult := {
  r_hit : bool;
  r_revealed : list (Z * Z);
  r_won : bool;
  r_lost : bool
}.

(** [{ success, revealed }] *)
Record FirstClickResult := {
  fc_success : bool;
  fc_revealed : list (Z * Z)
}.

(** [{ flagged, flagCount }] *)
Record FlagResult := {
  f_flagged : bool;
  f_flagCount : nat
}.

Definition noEffect : RevealResult :=
  {| r_hit := false; r_revealed := []; r_won := false; r_lost := false |}.

Definition initGrid (s : SapperGame) : SapperGame :=
  {| width := width s; height := height s; totalMines := totalMines s;
     noGuess := noGuess s; maxGenerationAttempts := maxGenerationAttempts s;
     grid := replicate (height s) (replicate (width s) 0);
     revealed := replicate (height s) (replicate (width s) false);
     flagged := replicate (height s) (replicate (width s) false);
     mineLocations := [];
     gameOver := false; won := false; minesPlaced := false |}.

Definition _inBounds (s : SapperGame) (x y : Z) : bool :=
  (0 <=? x) && (x <? Z.of_nat (width s)) && (0 <=? y) && (y <? Z.of_nat (height s)).

Fixpoint _revealCellRecursive (fuel : nat) (s : SapperGame) (x y : Z)
    (acc : list (Z * Z)) : outcome (bool * SapperGame * list (Z * Z)) :=
  match fuel with
  | O => OutOfFuel
  | S fuel' =>
    if negb (_inBounds s x y) then Done (false, s, acc) else
    r <- at2 (revealed s) x y;
    skip <- (if r then Done true else at2 (flagged s) x y);
    if skip then Done (false, s, acc) else
    rv <- set2 (revealed s) x y true;
    let s1 := with_revealed s rv in
    let acc1 := acc ++ [(x, y)] in
    g <- at2 (grid s1) x y;
    if g =? -1 then Done (true, s1, acc1) else
    if g =? 0 then
      '(s2, acc2) <-
        foldM (fun (st : SapperGame * list (Z * Z)) (d : Z * Z) =>
                 '(_, s', acc') <-
                   _revealCellRecursive fuel' st.1 (x + d.1) (y + d.2) st.2;
                 Done (s', acc'))
              offsets (s1, acc1);
      Done (false, s2, acc2)
    else Done (false, s1, acc1)
  end.

(** One test of the loop of [_checkWin]; [true] when the cell blocks the win. *)
Definition blocksWin (s : SapperGame) (p : Z * Z) : outcome bool :=
  r <- at2 (revealed s) p.1 p.2;
  if r then Done false else
  g <- at2 (grid s) p.1 p.2;
  Done (negb (g =? -1)).

Definition _checkWin (s : SapperGame) : outcome bool :=
  allM (blocksWin s) (coords (width s) (height s)).

Definition revealCell (fuel : nat) (s : SapperGame) (x y : Z)
    : outcome (RevealResult * SapperGame) :=
  if gameOver s then Done (noEffect, s) else
  '(hit, s1, revealed) <- _revealCellRecursive fuel s x y [];
  if hit then
    Done ({| r_hit := true; r_revealed := revealed; r_won := false; r_lost := true |},
          with_over s1 true false)
  else
    won <- _checkWin s1;
    let s2 := if won then with_over s1 true true else s1 in
    Done ({| r_hit := false; r_revealed := revealed; r_won := won; r_lost := false |}, s2).

(** [getFlagCount]: the number of flagged cells. *)
Definition getFlagCount (s : SapperGame) : outcome nat :=
  foldM (fun (count : nat) (p : Z * Z) =>
           f <- at2 (flagged s) p.1 p.2;
           Done (if f then S count else count))
        (coords (width s) (height s)) O.

Definition toggleFlag (s : SapperGame) (x y : Z) : outcome (FlagResult * SapperGame) :=
  let unchanged :=
    c <- getFlagCount s; Done ({| f_flagged := false; f_flagCount := c |}, s) in
  if gameOver s then unchanged else
  if negb (_inBounds s x y) then unchanged else
  r <- at2 (revealed s) x y;
  if r then unchanged else
  f <- at2 (flagged s) x y;
  fl <- set2 (flagged s) x y (negb f);
  let s1 := with_flagged s fl in
  f1 <- at2 (flagged s1) x y;
  c <- getFlagCount s1;
  Done ({| f_flagged := f1; f_flagCount := c |}, s1).

Definition _countAdjacentMinesIn (s : SapperGame) (g : list (list Z)) (x y : Z)
    : outcome nat :=
  foldM (fun (count : nat) (d : Z * Z) =>
           let nx := x + d.1 in
           let ny := y + d.2 in
           if _inBounds s nx ny then
             v <- at2 g nx ny; Done (if v =? -1 then S count else count)
           else Done count)
        offsets O.

Definition _countAdjacentMines (s : SapperGame) (x y : Z) : outcome nat :=
  _countAdjacentMinesIn s (grid s) x y.

Definition _countAdjacentFlags (s : SapperGame) (x y : Z) : outcome nat :=
  foldM (fun (count : nat) (d : Z * Z) =>
           let nx := x + d.1 in
           let ny := y + d.2 in
           if _inBounds s nx ny then
             f <- at2 (flagged s) nx ny; Done (if f then S count else count)
           else Done count)
        offsets O.

(** The body of the neighbor loop of [chordReveal]; the state carries
    [allRevealed] and [hitMine]. *)
Definition chordStep (fuel : nat) (x y : Z)
    (st : SapperGame * list (Z * Z) * bool) (d : Z * Z)
    : outcome (SapperGame * list (Z * Z) * bool) :=
  let '(s, allRevealed, hitMine) := st in
  let nx := x + d.1 in
  let ny := y + d.2 in
  if negb (_inBounds s nx ny) then Done st else
  f <- at2 (flagged s) nx ny;
  if f then Done st else
  '(result, s') <- revealCell fuel s nx ny;
  Done (s', allRevealed ++ r_revealed result, hitMine || r_hit result).

Definition chordReveal (fuel : nat) (s : SapperGame) (x y : Z)
    : outcome (RevealResult * SapperGame) :=
  if gameOver s then Done (noEffect, s) else
  if negb (_inBounds s x y) then Done (noEffect, s) else
  r <- at2 (revealed s) x y;
  g <- (if negb r then Done 0 else at2 (grid s) x y);
  if negb r || (g <=? 0) then Done (noEffect, s) else
  adjacentFlags <- _countAdjacentFlags s x y;
  if negb (Z.of_nat adjacentFlags =? g) then Done (noEffect, s) else
  '(s', allRevealed, hitMine) <- foldM (chordStep fuel x y) offsets (s, [], false);
  Done ({| r_hit := hitMine; r_revealed := allRevealed; r_won := won s';
           r_lost := hitMine |}, s').

Definition getRemainingMines (s : SapperGame) : outcome Z :=
  c <- getFlagCount s; Done (Z.of_nat (totalMines s) - Z.of_nat c).

(** [getCell]: [None] is [null]. *)
Definition getCell (s : SapperGame) (x y : Z) : outcome (option Z) :=
  if negb (_inBounds s x y) then Done None else
  v <- at2 (grid s) x y; Done (Some v).

Definition isRevealed (s : SapperGame) (x y : Z) : outcome bool :=
  if negb (_inBounds s x y) then Done false else at2 (revealed s) x y.

Definition isFlagged (s : SapperGame) (x y : Z) : outcome bool :=
  if negb (_inBounds s x y) then Done false else at2 (flagged s) x y.

Definition isMine (s : SapperGame) (x y : Z) : outcome bool :=
  if negb (_inBounds s x y) then Done false else
  v <- at2 (grid s) x y; Done (v =? -1).

(** [Math.min(this.totalMines, this.width * this.height - 9)] *)
Definition maxMinesOf (s : SapperGame) : Z :=
  Z.min (Z.of_nat (totalMines s)) (Z.of_nat (width s) * Z.of_nat (height s) - 9).

(** The rejection-sampling loop [while (placed < maxMines) { .. }], run by
    [_placeMinesRandomly] on the live grid and by [_generateSolvableBoard] on
    its trial grid.  The state is the grid, the list of mine coordinates,
    [placed] and the random source. *)
Fixpoint placeLoop (fuel : nat) (s : SapperGame) (excludeX excludeY maxMines : Z)
    (g : list (list Z)) (mines : list (Z * Z)) (placed : Z) (rnd : rng)
    : outcome (list (list Z) * list (Z * Z) * rng) :=
  if negb (placed <? maxMines) then Done (g, mines, rnd) else
  match fuel with
  | O => OutOfFuel
  | S fuel' =>
    let '(x, rnd1) := randomInt (width s) rnd in
    let '(y, rnd2) := randomInt (height s) rnd1 in
    if (Z.abs (x - excludeX) <=? 1) && (Z.abs (y - excludeY) <=? 1) then
      placeLoop fuel' s excludeX excludeY maxMines g mines placed rnd2
    else
      v <- at2 g x y;
      if v =? -1 then
        placeLoop fuel' s excludeX excludeY maxMines g mines placed rnd2
      else
        g' <- set2 g x y (-1);
        placeLoop fuel' s excludeX excludeY maxMines g' (mines ++ [(x, y)])
                  (placed + 1) rnd2
  end.

(** The double loop that writes the adjacency counts into the cells that
    hold no mine. *)
Definition calculateNumbersIn (s : SapperGame) (g : list (list Z))
    : outcome (list (list Z)) :=
  foldM (fun (g : list (list Z)) (p : Z * Z) =>
           v <- at2 g p.1 p.2;
           if negb (v =? -1) then
             count <- _countAdjacentMinesIn s g p.1 p.2;
             set2 g p.1 p.2 (Z.of_nat count)
           else Done g)
        (coords (width s) (height s)) g.

Definition _calculateNumbers (s : SapperGame) : outcome SapperGame :=
  g <- calculateNumbersIn s (grid s); Done (with_grid s g).

Definition _placeMinesRandomly (fuel : nat) (s : SapperGame) (excludeX excludeY : Z)
    (rnd : rng) : outcome (SapperGame * rng) :=
  let maxMines := maxMinesOf s in
  '(g, mines, rnd') <-
    placeLoop fuel s excludeX excludeY maxMines (grid s) (mineLocations s) 0 rnd;
  s' <- _calculateNumbers (with_mineLocations (with_grid s g) mines);
  Done (s', rnd').

(** ** The no-guess solver *)

Record Sim := {
  simRevealed : list (list bool);
  simKnownMines : list (list bool)
}.

(** The closure [simReveal] of [_simulateSolve]. *)
Fixpoint simReveal (fuel : nat) (s : SapperGame) (testGrid : list (list Z))
    (x y : Z) (st : Sim) : outcome Sim :=
  match fuel with
  | O => OutOfFuel
  | S fuel' =>
    if negb (_inBounds s x y) then Done st else
    r <- at2 (simRevealed st) x y;
    skip <- (if r then Done true else at2 (simKnownMines st) x y);
    if skip then Done st else
    v <- at2 testGrid x y;
    if v =? -1 then Done st else
    rv <- set2 (simRevealed st) x y true;
    let st1 := {| simRevealed := rv; simKnownMines := simKnownMines st |} in
    if v =? 0 then
      foldM (fun (st' : Sim) (d : Z * Z) =>
               simReveal fuel' s testGrid (x + d.1) (y + d.2) st')
            offsets st1
    else Done st1
  end.

(** The neighbor scan of one cell: [knownMineCount] and [hiddenCells]
    ([hiddenCount] is the length of [hiddenCells] throughout). *)
Definition scanNeighbors (s : SapperGame) (st : Sim) (x y : Z)
    : outcome (nat * list (Z * Z)) :=
  foldM (fun (c : nat * list (Z * Z)) (d : Z * Z) =>
           let nx := x + d.1 in
           let ny := y + d.2 in
           if negb (_inBounds s nx ny) then Done c else
           k <- at2 (simKnownMines st) nx ny;
           if k then Done (S c.1, c.2) else
           r <- at2 (simRevealed st) nx ny;
           if negb r then Done (c.1, c.2 ++ [(nx, ny)]) else Done c)
        offsets (O, []).

(** The body of the double loop of one pass, at cell [p]; the state carries
    the simulation arrays and [progress]. *)
Definition visitCell (fuel : nat) (s : SapperGame) (testGrid : list (list Z))
    (stp : Sim * bool) (p : Z * Z) : outcome (Sim * bool) :=
  let '(st, progress) := stp in
  let '(x, y) := p in
  r <- at2 (simRevealed st) x y;
  number <- (if negb r then Done 0 else at2 testGrid x y);
  if negb r || (number <=? 0) then Done stp else
  '(knownMineCount, hiddenCells) <- scanNeighbors s st x y;
  let hiddenCount := length hiddenCells in
  (* If hidden count equals remaining mines, all hidden are mines *)
  '(st1, progress1) <-
    (if (0 <? Z.of_nat hiddenCount)
        && (Z.of_nat hiddenCount =? number - Z.of_nat knownMineCount)
     then
       foldM (fun (a : Sim * bool) (c : Z * Z) =>
                k <- at2 (simKnownMines a.1) c.1 c.2;
                if negb k then
                  km <- set2 (simKnownMines a.1) c.1 c.2 true;
                  Done ({| simRevealed := simRevealed a.1; simKnownMines := km |}, true)
                else Done a)
             hiddenCells (st, progress)
     else Done (st, progress));
  (* If known mines equals the number, all hidden are safe *)
  if (Z.of_nat knownMineCount =? number) && (0 <? Z.of_nat hiddenCount) then
    foldM (fun (a : Sim * bool) (c : Z * Z) =>
             st' <- simReveal fuel s testGrid c.1 c.2 a.1; Done (st', true))
          hiddenCells (st1, progress1)
  else Done (st1, progress1).

(** [while (progress) { progress = false; <one pass> }] *)
Fixpoint solveLoop (fuel passes : nat) (s : SapperGame) (testGrid : list (list Z))
    (st : Sim) : outcome Sim :=
  match passes with
  | O => OutOfFuel
  | S passes' =>
    '(st', progress) <-
      foldM (visitCell fuel s testGrid) (coords (width s) (height s)) (st, false);
    if progress then solveLoop fuel passes' s testGrid st' else Done st'
  end.

Definition _simulateSolve (fuel : nat) (s : SapperGame) (testGrid : list (list Z))
    (startX startY : Z) : outcome bool :=
  let st0 :=
    {| simRevealed := replicate (height s) (replicate (width s) false);
       simKnownMines := replicate (height s) (replicate (width s) false) |} in
  st1 <- simReveal fuel s testGrid startX startY st0;
  st2 <- solveLoop fuel fuel s testGrid st1;
  allM (fun p : Z * Z =>
          v <- at2 testGrid p.1 p.2;
          if negb (v =? -1) then
            r <- at2 (simRevealed st2) p.1 p.2; Done (negb r)
          else Done false)
       (coords (width s) (height s)).

(** The loop [for (attempt = 0; attempt < maxGenerationAttempts; attempt++)]
    followed by the fallback; [attempts] counts the iterations left. *)
Fixpoint generateLoop (attempts fuel : nat) (s : SapperGame)
    (excludeX excludeY maxMines : Z) (rnd : rng) : outcome (bool * SapperGame * rng) :=
  match attempts with
  | O =>
    (* Fallback: use random placement *)
    '(s', rnd') <- _placeMinesRandomly fuel s excludeX excludeY rnd;
    Done (false, s', rnd')
  | S attempts' =>
    let testGrid0 := replicate (height s) (replicate (width s) 0) in
    '(testGrid1, testMines, rnd') <-
      placeLoop fuel s excludeX excludeY maxMines testGrid0 [] 0 rnd;
    testGrid <- calculateNumbersIn s testGrid1;
    ok <- _simulateSolve fuel s testGrid excludeX excludeY;
    if ok then Done (true, with_mineLocations (with_grid s testGrid) testMines, rnd')
    else generateLoop attempts' fuel s excludeX excludeY maxMines rnd'
  end.

Definition _generateSolvableBoard (fuel : nat) (s : SapperGame) (excludeX excludeY : Z)
    (rnd : rng) : outcome (bool * SapperGame * rng) :=
  generateLoop (maxGenerationAttempts s) fuel s excludeX excludeY (maxMinesOf s) rnd.

Definition handleFirstClick (fuel : nat) (s : SapperGame) (x y : Z) (rnd : rng)
    : outcome (FirstClickResult * SapperGame * rng) :=
  if minesPlaced s then Done ({| fc_success := false; fc_revealed := [] |}, s, rnd) else
  '(success, s1, rnd') <-
    (if noGuess s then _generateSolvableBoard fuel s x y rnd
     else '(s', rnd') <- _placeMinesRandomly fuel s x y rnd; Done (true, s', rnd'));
  let s2 := with_minesPlaced s1 true in
  '(result, s3) <- revealCell fuel s2 x y;
  Done ({| fc_success := success; fc_revealed := r_revealed result |}, s3, rnd').

End Sapper.

(** * grid.js *)

Module Grid.

(** What the shape-grid engine uses of a grid object: its dimensions, the
    bounds check and the neighbor enumerations.  [getExtendedNeighbors] is
    [None] for a grid class that does not define the method (HexGrid).  The
    cell size only feeds the pixel mapping and is left out. *)
Record GridObject := {
  width : nat;
  height : nat;
  isInBounds : Z -> Z -> bool;
  getNeighbors : Z -> Z -> list (Z * Z);
  getExtendedNeighbors : option (Z -> Z -> list (Z * Z))
}.

(** [isInBounds] of both classes. *)
Definition inBounds (w h : nat) (x y : Z) : bool :=
  (0 <=? x) && (x <? Z.of_nat w) && (0 <=? y) && (y <? Z.of_nat h).

(** [for (const {dx, dy} of offsets) { if (isInBounds(nx, ny)) push }] *)
Definition shifted (w h : nat) (x y : Z) (offs : list (Z * Z)) : list (Z * Z) :=
  filter (fun n : Z * Z => inBounds w h n.1 n.2 = true)
         ((fun d : Z * Z => (x + d.1, y + d.2)) <$> offs).

Module HexGrid.

(** Offsets of an odd row and of an even row, East first. *)
Definition oddOffsets : list (Z * Z) :=
  [(1, 0); (1, -1); (0, -1); (-1, 0); (0, 1); (1, 1)].
Definition evenOffsets : list (Z * Z) :=
  [(1, 0); (0, -1); (-1, -1); (-1, 0); (-1, 1); (0, 1)].

(** [y % 2 === 1]: the remainder of JavaScript takes the sign of [y]. *)
Definition isOddRow (y : Z) : bool := Z.rem y 2 =? 1.

Definition getNeighbors (w h : nat) (x y : Z) : list (Z * Z) :=
  shifted w h x y (if isOddRow y then oddOffsets else evenOffsets).

Definition new (w h : nat) : GridObject :=
  Build_GridObject w h (inBounds w h) (getNeighbors w h) None.

(** [toCube] of [distance]: offset coordinates to cube coordinates.  The
    difference [y - y % 2] is even, so the division by two is exact. *)
Definition toCube (x y : Z) : Z * Z * Z :=
  let cubeX := x - Z.quot (y - Z.rem y 2) 2 in
  let cubeZ := y in
  let cubeY := - cubeX - cubeZ in
  (cubeX, cubeY, cubeZ).

(** [distance]: half the sum of the absolute cube differences.  The three
    differences add up to zero, so the sum is even and the division exact.
    The code computes on doubles; the integers of the model are its values
    as long as every intermediate result stays below 2^53 in absolute
    value, which coordinates of at most 2^49 ensure. *)
Definition distance (x1 y1 x2 y2 : Z) : Z :=
  let c1 := toCube x1 y1 in
  let c2 := toCube x2 y2 in
  Z.quot (Z.abs (c1.1.1 - c2.1.1) + Z.abs (c1.1.2 - c2.1.2) + Z.abs (c1.2 - c2.2)) 2.

End HexGrid.

Module TriangleGrid.

Definition pointsUp (x y : Z) : bool := Z.rem (x + y) 2 =? 0.

Definition getNeighbors (w h : nat) (x y : Z) : list (Z * Z) :=
  let up := pointsUp x y in
  (if inBounds w h (x - 1) y then [(x - 1, y)] else [])
  ++ (if inBounds w h (x + 1) y then [(x + 1, y)] else [])
  ++ (if up then (if inBounds w h x (y + 1) then [(x, y + 1)] else [])
      else (if inBounds w h x (y - 1) then [(x, y - 1)] else [])).

Definition candidates : list (Z * Z) :=
  [(-2, 0); (-1, -1); (-1, 0); (-1, 1); (0, -1); (0, 1); (1, -1); (1, 0);
   (1, 1); (2, 0)].

Definition getExtendedNeighbors (w h : nat) (x y : Z) : list (Z * Z) :=
  shifted w h x y candidates.

Definition new (w h : nat) : GridObject :=
  Build_GridObject w h (inBounds w h) (getNeighbors w h)
                   (Some (getExtendedNeighbors w h)).

End TriangleGrid.

End Grid.

(** * sappershapes.js *)

Module SapperShapes.

(** A cell object [{ mine, revealed, flagged, count }]. *)
Record Cell := {
  mine : bool;
  revealed : bool;
  flagged : bool;
  count : nat
}.

(** A cell of a trial grid, [{ mine, count }]. *)
Record TestCell := {
  t_mine : bool;
  t_count : nat
}.

(** The [Map] from the key ["x,y"] to the cell object.  The key of a pair of
    integers determines the pair, so the map is keyed by the pair. *)
Record SapperShapesGame := {
  grid : Grid.GridObject;
  width : nat;
  height : nat;
  totalMines : nat;
  noGuess : bool;
  useExtendedNeighbors : bool;
  maxGenerationAttempts : nat;
  cells : gmap (Z * Z) Cell;
  mineLocations : list (Z * Z);
  gameOver : bool;
  won : bool;
  minesPlaced : bool
}.

Record Options := {
  o_mines : option nat;
  o_noGuess : option bool;
  o_useExtendedNeighbors : option bool;
  o_maxGenerationAttempts : option nat
}.

(** The constructor.  [defaultMines] stands for the value of the
    floating-point expression [Math.floor(grid.width * grid.height * 0.15)]. *)
Definition constructor (g : Grid.GridObject) (options : Options) (defaultMines : nat)
    : SapperShapesGame :=
  {| grid := g; width := Grid.width g; height := Grid.height g;
     totalMines := Sapper.orElse (o_mines options) defaultMines;
     noGuess := default false (o_noGuess options);
     useExtendedNeighbors := default false (o_useExtendedNeighbors options);
     maxGenerationAttempts := Sapper.orElse (o_maxGenerationAttempts options) 1000;
     cells := ∅; mineLocations := [];
     gameOver := false; won := false; minesPlaced := false |}.

Definition with_cells (s : SapperShapesGame) (c : gmap (Z * Z) Cell) :=
  {| grid := grid s; width := width s; height := height s;
     totalMines := totalMines s; noGuess := noGuess s;
     useExtendedNeighbors := useExtendedNeighbors s;
     maxGenerationAttempts := maxGenerationAttempts s;
     cells := c; mineLocations := mineLocations s;
     gameOver := gameOver s; won := won s; minesPlaced := minesPlaced s |}.

Definition with_mineLocations (s : SapperShapesGame) (ml : list (Z * Z)) :=
  {| grid := grid s; width := width s; height := height s;
     totalMines := totalMines s; noGuess := noGuess s;
     useExtendedNeighbors := useExtendedNeighbors s;
     maxGenerationAttempts := maxGenerationAttempts s;
     cells := cells s; mineLocations := ml;
     gameOver := gameOver s; won := won s; minesPlaced := minesPlaced s |}.

Definition with_over (s : SapperShapesGame) (go w : bool) :=
  {| grid := grid s; width := width s; height := height s;
     totalMines := totalMines s; noGuess := noGuess s;
     useExtendedNeighbors := useExtendedNeighbors s;
     maxGenerationAttempts := maxGenerationAttempts s;
     cells := cells s; mineLocations := mineLocations s;
     gameOver := go; won := w; minesPlaced := minesPlaced s |}.

Definition with_minesPlaced (s : SapperShapesGame) (b : bool) :=
  {| grid := grid s; width := width s; height := height s;
     totalMines := totalMines s; noGuess := noGuess s;
     useExtendedNeighbors := useExtendedNeighbors s;
     maxGenerationAttempts := maxGenerationAttempts s;
     cells := cells s; mineLocations := mineLocations s;
     gameOver := gameOver s; won := won s; minesPlaced := b |}.

Definition setMine (c : Cell) (b : bool) : Cell :=
  {| mine := b; revealed := revealed c; flagged := flagged c; count := count c |}.
Definition setRevealed (c : Cell) (b : bool) : Cell :=
  {| mine := mine c; revealed := b; flagged := flagged c; count := count c |}.
Definition setFlagged (c : Cell) (b : bool) : Cell :=
  {| mine := mine c; revealed := revealed c; flagged := b; count := count c |}.
Definition setCount (c : Cell) (n : nat) : Cell :=
  {| mine := mine c; revealed := revealed c; flagged := flagged c; count := n |}.

Record RevealResult := {
  r_hit : bool;
  r_revealed : list (Z * Z);
  r_won : bool;
  r_lost : bool
}.

Record FirstClickResult := {
  fc_success : bool;
  fc_revealed : list (Z * Z)
}.

Record FlagResult := {
  f_flagged : bool;
  f_flagCount : nat
}.

Definition noEffect : RevealResult :=
  {| r_hit := false; r_revealed := []; r_won := false; r_lost := false |}.

Definition emptyCell : Cell :=
  {| mine := false; revealed := false; flagged := false; count := 0 |}.

Definition initGrid (s : SapperShapesGame) : SapperShapesGame :=
  {| grid := grid s; width := width s; height := height s;
     totalMines := totalMines s; noGuess := noGuess s;
     useExtendedNeighbors := useExtendedNeighbors s;
     maxGenerationAttempts := maxGenerationAttempts s;
     cells := foldl (fun (m : gmap (Z * Z) Cell) (p : Z * Z) => <[p := emptyCell]> m)
                    ∅ (coords (width s) (height s));
     mineLocations := [];
     gameOver := false; won := false; minesPlaced := false |}.

Definition _getNeighbors (s : SapperShapesGame) (x y : Z) : list (Z * Z) :=
  match useExtendedNeighbors s, Grid.getExtendedNeighbors (grid s) with
  | true, Some ext => ext x y
  | _, _ => Grid.getNeighbors (grid s) x y
  end.

(** [const cell = this.cells.get(key)] followed by a property access. *)
Definition cellAt {C} (m : gmap (Z * Z) C) (x y : Z) : outcome C :=
  match m !! (x, y) with
  | Some c => Done c
  | None => TypeError
  end.

Fixpoint _revealCellRecursive (fuel : nat) (s : SapperShapesGame) (x y : Z)
    (acc : list (Z * Z)) : outcome (bool * SapperShapesGame * list (Z * Z)) :=
  match fuel with
  | O => OutOfFuel
  | S fuel' =>
    if negb (Grid.isInBounds (grid s) x y) then Done (false, s, acc) else
    cell <- cellAt (cells s) x y;
    if revealed cell || flagged cell then Done (false, s, acc) else
    let cell1 := setRevealed cell true in
    let s1 := with_cells s (<[(x, y) := cell1]> (cells s)) in
    let acc1 := acc ++ [(x, y)] in
    if mine cell1 then Done (true, s1, acc1) else
    if (count cell1 =? 0)%nat then
      '(s2, acc2) <-
        foldM (fun (st : SapperShapesGame * list (Z * Z)) (n : Z * Z) =>
                 '(_, s', acc') <- _revealCellRecursive fuel' st.1 n.1 n.2 st.2;
                 Done (s', acc'))
              (_getNeighbors s x y) (s1, acc1);
      Done (false, s2, acc2)
    else Done (false, s1, acc1)
  end.

(** [for (const [key, cell] of this.cells)]: the loops over the map compute
    a conjunction or a count, which do not depend on the iteration order. *)
Definition _checkWin (s : SapperShapesGame) : bool :=
  forallb (fun kc : Z * Z * Cell => mine kc.2 || revealed kc.2)
          (map_to_list (cells s)).

Definition getFlagCount (s : SapperShapesGame) : nat :=
  length (filter (fun kc : Z * Z * Cell => flagged kc.2 = true)
                 (map_to_list (cells s))).

Definition revealCell (fuel : nat) (s : SapperShapesGame) (x y : Z)
    : outcome (RevealResult * SapperShapesGame) :=
  if gameOver s then Done (noEffect, s) else
  '(hit, s1, revealed) <- _revealCellRecursive fuel s x y [];
  if hit then
    let s2 := with_over s1 true false in
    (* Reveal all mines on loss *)
    cells' <- foldM (fun (m : gmap (Z * Z) Cell) (p : Z * Z) =>
                       cell <- cellAt m p.1 p.2;
                       Done (<[p := setRevealed cell true]> m))
                    (mineLocations s2) (cells s2);
    Done ({| r_hit := true; r_revealed := revealed; r_won := false; r_lost := true |},
          with_cells s2 cells')
  else
    let won := _checkWin s1 in
    let s2 := if won then with_over s1 true true else s1 in
    Done ({| r_hit := false; r_revealed := revealed; r_won := won; r_lost := false |}, s2).

Definition toggleFlag (s : SapperShapesGame) (x y : Z)
    : outcome (FlagResult * SapperShapesGame) :=
  let unchanged := Done ({| f_flagged := false; f_flagCount := getFlagCount s |}, s) in
  if gameOver s then unchanged else
  if negb (Grid.isInBounds (grid s) x y) then unchanged else
  cell <- cellAt (cells s) x y;
  if revealed cell then unchanged else
  let cell1 := setFlagged cell (negb (flagged cell)) in
  let s1 := with_cells s (<[(x, y) := cell1]> (cells s)) in
  Done ({| f_flagged := flagged cell1; f_flagCount := getFlagCount s1 |}, s1).

(** [neighbor && neighbor.flagged] counted over the neighbors. *)
Definition countAdjacentFlags (s : SapperShapesGame) (x y : Z) : nat :=
  length (filter (fun n : Z * Z =>
                    match cells s !! n with
                    | Some neighbor => flagged neighbor
                    | None => false
                    end = true)
                 (_getNeighbors s x y)).

(** The body of the second neighbor loop of [chordReveal]. *)
Definition chordStep (fuel : nat)
    (st : SapperShapesGame * list (Z * Z) * bool) (n : Z * Z)
    : outcome (SapperShapesGame * list (Z * Z) * bool) :=
  let '(s, allRevealed, hitMine) := st in
  match cells s !! n with
  | Some neighbor =>
    if negb (flagged neighbor) then
      '(result, s') <- revealCell fuel s n.1 n.2;
      Done (s', allRevealed ++ r_revealed result, hitMine || r_hit result)
    else Done st
  | None => Done st
  end.

Definition chordReveal (fuel : nat) (s : SapperShapesGame) (x y : Z)
    : outcome (RevealResult * SapperShapesGame) :=
  if gameOver s then Done (noEffect, s) else
  if negb (Grid.isInBounds (grid s) x y) then Done (noEffect, s) else
  cell <- cellAt (cells s) x y;
  if negb (revealed cell) || (count cell <=? 0)%nat then Done (noEffect, s) else
  let adjacentFlags := countAdjacentFlags s x y in
  if negb (adjacentFlags =? count cell)%nat then Done (noEffect, s) else
  '(s', allRevealed, hitMine) <-
    foldM (chordStep fuel) (_getNeighbors s x y) (s, [], false);
  Done ({| r_hit := hitMine; r_revealed := allRevealed; r_won := won s';
           r_lost := hitMine |}, s').

Definition getRemainingMines (s : SapperShapesGame) : Z :=
  Z.of_nat (totalMines s) - Z.of_nat (getFlagCount s).

(** [getCell]: [None] is [undefined]. *)
Definition getCell (s : SapperShapesGame) (x y : Z) : option Cell :=
  cells s !! (x, y).

Definition isRevealed (s : SapperShapesGame) (x y : Z) : bool :=
  match cells s !! (x, y) with Some cell => revealed cell | None => false end.

Definition isFlagged (s : SapperShapesGame) (x y : Z) : bool :=
  match cells s !! (x, y) with Some cell => flagged cell | None => false end.

Definition isMine (s : SapperShapesGame) (x y : Z) : bool :=
  match cells s !! (x, y) with Some cell => mine cell | None => false end.

Definition getCount (s : SapperShapesGame) (x y : Z) : nat :=
  match cells s !! (x, y) with Some cell => count cell | None => O end.

(** The exclusion zone: the keys of the clicked cell and of its neighbors. *)
Definition exclusionZone (s : SapperShapesGame) (excludeX excludeY : Z) : gset (Z * Z) :=
  {[ (excludeX, excludeY) ]} ∪ list_to_set (_getNeighbors s excludeX excludeY).

(** The positions outside the exclusion zone, in row-major order. *)
Definition validPositions (s : SapperShapesGame) (excludeX excludeY : Z) : list (Z * Z) :=
  filter (fun p : Z * Z => p ∉ exclusionZone s excludeX excludeY)
         (coords (width s) (height s)).

(** [[a[i], a[j]] = [a[j], a[i]]] for two indices of the array. *)
Definition swap {A} (a : list A) (i j : nat) : list A :=
  match a !! i, a !! j with
  | Some ai, Some aj => <[j := ai]> (<[i := aj]> a)
  | _, _ => a
  end.

(** The Fisher-Yates loop
    [for (i = a.length - 1; i > 0; i--) { j = floor(random() * (i + 1)); swap }];
    [n] is the current [i]. *)
Fixpoint shuffleFrom {A} (n : nat) (a : list A) (rnd : rng) : list A * rng :=
  match n with
  | O => (a, rnd)
  | S n' =>
    let '(j, rnd') := randomInt (S n) rnd in
    shuffleFrom n' (swap a n (Z.to_nat j)) rnd'
  end.

Definition shuffle {A} (a : list A) (rnd : rng) : list A * rng :=
  shuffleFrom (length a - 1) a rnd.

(** The adjacency count of one cell of a map of cells with a [mine] field. *)
Definition countMinesAround {C} (isMineCell : C -> bool) (s : SapperShapesGame)
    (m : gmap (Z * Z) C) (x y : Z) : nat :=
  length (filter (fun n : Z * Z =>
                    match m !! n with
                    | Some neighbor => isMineCell neighbor
                    | None => false
                    end = true)
                 (_getNeighbors s x y)).

Definition _calculateNumbers (s : SapperShapesGame) : outcome SapperShapesGame :=
  m <- foldM (fun (m : gmap (Z * Z) Cell) (p : Z * Z) =>
                cell <- cellAt m p.1 p.2;
                if negb (mine cell) then
                  Done (<[p := setCount cell (countMinesAround mine s m p.1 p.2)]> m)
                else Done m)
             (coords (width s) (height s)) (cells s);
  Done (with_cells s m).

Definition _placeMinesRandomly (s : SapperShapesGame) (excludeX excludeY : Z)
    (rnd : rng) : outcome (SapperShapesGame * rng) :=
  let valid := validPositions s excludeX excludeY in
  (* Cap mines to available positions *)
  let maxMines := Nat.min (totalMines s) (length valid) in
  let '(shuffled, rnd') := shuffle valid rnd in
  '(m, mines) <-
    foldM (fun (st : gmap (Z * Z) Cell * list (Z * Z)) (p : Z * Z) =>
             cell <- cellAt st.1 p.1 p.2;
             Done (<[p := setMine cell true]> st.1, st.2 ++ [p]))
          (take maxMines shuffled) (cells s, mineLocations s);
  s' <- _calculateNumbers (with_mineLocations (with_cells s m) mines);
  Done (s', rnd').

(** ** The no-guess solver *)

Record Sim := {
  simRevealed : gmap (Z * Z) bool;
  simKnownMines : gmap (Z * Z) bool
}.

(** [map.get(key)] used as a condition: [undefined] is falsy. *)
Definition truthy (m : gmap (Z * Z) bool) (k : Z * Z) : bool :=
  default false (m !! k).

(** The closure [simReveal] of [_simulateSolve]. *)
Fixpoint simReveal (fuel : nat) (s : SapperShapesGame) (testCells : gmap (Z * Z) TestCell)
    (x y : Z) (st : Sim) : outcome Sim :=
  match fuel with
  | O => OutOfFuel
  | S fuel' =>
    if negb (Grid.isInBounds (grid s) x y) then Done st else
    if truthy (simRevealed st) (x, y) || truthy (simKnownMines st) (x, y)
    then Done st else
    cell <- cellAt testCells x y;
    if t_mine cell then Done st else
    let st1 := {| simRevealed := <[(x, y) := true]> (simRevealed st);
                  simKnownMines := simKnownMines st |} in
    if (t_count cell =? 0)%nat then
      foldM (fun (st' : Sim) (n : Z * Z) => simReveal fuel' s testCells n.1 n.2 st')
            (_getNeighbors s x y) st1
    else Done st1
  end.

(** The neighbor scan of one cell: [knownMineCount] and [hiddenCells]
    ([hiddenCount] is the length of [hiddenCells] throughout). *)
Definition scanNeighbors (s : SapperShapesGame) (st : Sim) (x y : Z)
    : nat * list (Z * Z) :=
  foldl (fun (c : nat * list (Z * Z)) (n : Z * Z) =>
           if truthy (simKnownMines st) n then (S c.1, c.2)
           else if negb (truthy (simRevealed st) n) then (c.1, c.2 ++ [n])
           else c)
        (O, []) (_getNeighbors s x y).

(** The body of the double loop of one pass, at cell [p]. *)
Definition visitCell (fuel : nat) (s : SapperShapesGame)
    (testCells : gmap (Z * Z) TestCell) (stp : Sim * bool) (p : Z * Z)
    : outcome (Sim * bool) :=
  let '(st, progress) := stp in
  if negb (truthy (simRevealed st) p) then Done stp else
  cell <- cellAt testCells p.1 p.2;
  if (t_count cell <=? 0)%nat then Done stp else
  let '(knownMineCount, hiddenCells) := scanNeighbors s st p.1 p.2 in
  let hiddenCount := length hiddenCells in
  (* If hidden count equals remaining mines, all hidden are mines *)
  let '(st1, progress1) :=
    if (0 <? hiddenCount)%nat
       && (Z.of_nat hiddenCount =? Z.of_nat (t_count cell) - Z.of_nat knownMineCount)
    then
      foldl (fun (a : Sim * bool) (c : Z * Z) =>
               if negb (truthy (simKnownMines a.1) c) then
                 ({| simRevealed := simRevealed a.1;
                     simKnownMines := <[c := true]> (simKnownMines a.1) |}, true)
               else a)
            (st, progress) hiddenCells
    else (st, progress) in
  (* If known mines equals the number, all hidden are safe *)
  if (knownMineCount =? t_count cell)%nat && (0 <? hiddenCount)%nat then
    foldM (fun (a : Sim * bool) (c : Z * Z) =>
             st' <- simReveal fuel s testCells c.1 c.2 a.1; Done (st', true))
          hiddenCells (st1, progress1)
  else Done (st1, progress1).

(** [while (progress) { progress = false; <one pass> }] *)
Fixpoint solveLoop (fuel passes : nat) (s : SapperShapesGame)
    (testCells : gmap (Z * Z) TestCell) (st : Sim) : outcome Sim :=
  match passes with
  | O => OutOfFuel
  | S passes' =>
    '(st', progress) <-
      foldM (visitCell fuel s testCells) (coords (width s) (height s)) (st, false);
    if progress then solveLoop fuel passes' s testCells st' else Done st'
  end.

Definition allFalse (s : SapperShapesGame) : gmap (Z * Z) bool :=
  foldl (fun (m : gmap (Z * Z) bool) (p : Z * Z) => <[p := false]> m)
        ∅ (coords (width s) (height s)).

Definition _simulateSolve (fuel : nat) (s : SapperShapesGame)
    (testCells : gmap (Z * Z) TestCell) (startX startY : Z) : outcome bool :=
  let st0 := {| simRevealed := allFalse s; simKnownMines := allFalse s |} in
  st1 <- simReveal fuel s testCells startX startY st0;
  st2 <- solveLoop fuel fuel s testCells st1;
  Done (forallb (fun kc : Z * Z * TestCell =>
                   t_mine kc.2 || truthy (simRevealed st2) kc.1)
                (map_to_list testCells)).

Definition emptyTestCells (s : SapperShapesGame) : gmap (Z * Z) TestCell :=
  foldl (fun (m : gmap (Z * Z) TestCell) (p : Z * Z) =>
           <[p := {| t_mine := false; t_count := 0 |}]> m)
        ∅ (coords (width s) (height s)).

(** The trial grid of one attempt: mines at [positions], then the counts. *)
Definition buildTestCells (s : SapperShapesGame) (mines : list (Z * Z))
    : outcome (gmap (Z * Z) TestCell) :=
  m <- foldM (fun (m : gmap (Z * Z) TestCell) (p : Z * Z) =>
                cell <- cellAt m p.1 p.2;
                Done (<[p := {| t_mine := true; t_count := t_count cell |}]> m))
             mines (emptyTestCells s);
  foldM (fun (m : gmap (Z * Z) TestCell) (p : Z * Z) =>
           cell <- cellAt m p.1 p.2;
           if negb (t_mine cell) then
             Done (<[p := {| t_mine := t_mine cell;
                             t_count := countMinesAround t_mine s m p.1 p.2 |}]> m)
           else Done m)
        (coords (width s) (height s)) m.

(** Copy to actual game state:
    [for (const [key, testCell] of testCells) { cell.mine = ..; cell.count = .. }] *)
Definition copyToCells (testCells : gmap (Z * Z) TestCell) (m : gmap (Z * Z) Cell)
    : outcome (gmap (Z * Z) Cell) :=
  foldM (fun (m : gmap (Z * Z) Cell) (kt : Z * Z * TestCell) =>
           cell <- cellAt m kt.1.1 kt.1.2;
           Done (<[kt.1 := setCount (setMine cell (t_mine kt.2)) (t_count kt.2)]> m))
        (map_to_list testCells) m.

Fixpoint generateLoop (attempts fuel : nat) (s : SapperShapesGame)
    (excludeX excludeY : Z) (allPositions : list (Z * Z)) (maxMines : nat) (rnd : rng)
    : outcome (bool * SapperShapesGame * rng) :=
  match attempts with
  | O =>
    (* Fallback: use random placement *)
    '(s', rnd') <- _placeMinesRandomly s excludeX excludeY rnd;
    Done (false, s', rnd')
  | S attempts' =>
    let '(positions, rnd') := shuffle allPositions rnd in
    let testMines := take maxMines positions in
    testCells <- buildTestCells s testMines;
    ok <- _simulateSolve fuel s testCells excludeX excludeY;
    if ok then
      m <- copyToCells testCells (cells s);
      Done (true, with_mineLocations (with_cells s m) testMines, rnd')
    else generateLoop attempts' fuel s excludeX excludeY allPositions maxMines rnd'
  end.

Definition _generateSolvableBoard (fuel : nat) (s : SapperShapesGame)
    (excludeX excludeY : Z) (rnd : rng) : outcome (bool * SapperShapesGame * rng) :=
  let allPositions := validPositions s excludeX excludeY in
  let maxMines := Nat.min (totalMines s) (length allPositions) in
  generateLoop (maxGenerationAttempts s) fuel s excludeX excludeY allPositions
               maxMines rnd.

Definition handleFirstClick (fuel : nat) (s : SapperShapesGame) (x y : Z) (rnd : rng)
    : outcome (FirstClickResult * SapperShapesGame * rng) :=
  if minesPlaced s then Done ({| fc_success := false; fc_revealed := [] |}, s, rnd) else
  '(success, s1, rnd') <-
    (if noGuess s then _generateSolvableBoard fuel s x y rnd
     else '(s', rnd') <- _placeMinesRandomly s x y rnd; Done (true, s', rnd'));
  let s2 := with_minesPlaced s1 true in
  '(result, s3) <- revealCell fuel s2 x y;
  Done ({| fc_success := success; fc_revealed := r_revealed result |}, s3, rnd').

End SapperShapes.

(** * sudoku.js *)

Module Sudoku.

Local Open Scope nat_scope.

(** A 9x9 grid of numbers, [0] for an empty cell.  Every board of this
    module is built by [generateCompleteSudoku] or copied from such a board,
    so it has nine rows of nine cells; [get] and [set] are [board[r][c]] and
    [board[r][c] = v] for row and column indices below nine. *)
Definition Board := list (list nat).

Definition get (board : Board) (r c : nat) : nat := nth c (nth r board []) 0.

Definition set (board : Board) (r c v : nat) : Board :=
  <[r := <[c := v]> (nth r board [])]> board.

(** The cells in the order of [for (r < 9) for (c < 9)]. *)
Definition cells : list (nat * nat) := r ← seq 0 9; c ← seq 0 9; [(r, c)].

Definition isValidPlacement (board : Board) (row col num : nat) : bool :=
  (* Check row *)
  forallb (fun c => negb (negb (c =? col) && (get board row c =? num))) (seq 0 9)
  (* Check column *)
  && forallb (fun r => negb (negb (r =? row) && (get board r col =? num))) (seq 0 9)
  (* Check 3x3 box *)
  && (let boxRow := row / 3 * 3 in
      let boxCol := col / 3 * 3 in
      forallb (fun r =>
                 forallb (fun c =>
                            negb ((negb (r =? row) || negb (c =? col))
                                  && (get board r c =? num)))
                         (seq boxCol 3))
              (seq boxRow 3)).

Definition getCandidates (board : Board) (row col : nat) : list nat :=
  if negb (get board row col =? 0) then []
  else List.filter (fun num => isValidPlacement board row col num) (seq 1 9).

Definition isSolved (board : Board) : bool :=
  forallb (fun p : nat * nat => negb (get board p.1 p.2 =? 0)) cells.

Definition isValidSolution (board : Board) : bool :=
  if negb (isSolved board) then false
  else forallb (fun p : nat * nat =>
                  isValidPlacement board p.1 p.2 (get board p.1 p.2)) cells.

(** The body of the double loop of the naked-singles pass; the state carries
    the board and [changed]. *)
Definition nakedStep (st : Board * bool) (p : nat * nat) : Board * bool :=
  let '(board, changed) := st in
  if get board p.1 p.2 =? 0 then
    match getCandidates board p.1 p.2 with
    | [num] => (set board p.1 p.2 num, true)
    | _ => st
    end
  else st.

Fixpoint solveNakedSingles (fuel : nat) (board : Board) : outcome Board :=
  match fuel with
  | O => OutOfFuel
  | S fuel' =>
    let '(board', changed) := foldl nakedStep (board, false) cells in
    if changed then solveNakedSingles fuel' board' else Done board'
  end.

(** One unit of the hidden-singles scan: [unit] lists the cells of a row, a
    column or a box; the single empty cell that admits [num] receives it. *)
Definition hiddenStep (unit : list (nat * nat)) (st : Board * bool) (num : nat)
    : Board * bool :=
  let '(board, changed) := st in
  let positions :=
    List.filter (fun p : nat * nat =>
                   (get board p.1 p.2 =? 0)
                   && existsb (Nat.eqb num) (getCandidates board p.1 p.2))
                unit in
  match positions with
  | [p] => (set board p.1 p.2 num, true)
  | _ => st
  end.

Definition rowUnit (r : nat) : list (nat * nat) := (fun c => (r, c)) <$> seq 0 9.
Definition colUnit (c : nat) : list (nat * nat) := (fun r => (r, c)) <$> seq 0 9.
Definition boxUnit (boxR boxC : nat) : list (nat * nat) :=
  r ← seq (boxR * 3) 3; c ← seq (boxC * 3) 3; [(r, c)].

Definition hiddenPass (st : Board * bool) : Board * bool :=
  let st1 := foldl (fun st r => foldl (hiddenStep (rowUnit r)) st (seq 1 9))
                   st (seq 0 9) in
  let st2 := foldl (fun st c => foldl (hiddenStep (colUnit c)) st (seq 1 9))
                   st1 (seq 0 9) in
  foldl (fun st boxR =>
           foldl (fun st boxC => foldl (hiddenStep (boxUnit boxR boxC)) st (seq 1 9))
                 st (seq 0 3))
        st2 (seq 0 3).

Fixpoint solveHiddenSingles (fuel : nat) (board : Board) : outcome Board :=
  match fuel with
  | O => OutOfFuel
  | S fuel' =>
    (* First try naked singles *)
    let '(board1, changed1) := foldl nakedStep (board, false) cells in
    if changed1 then solveHiddenSingles fuel' board1 else
    let '(board2, changed2) := hiddenPass (board1, false) in
    if changed2 then solveHiddenSingles fuel' board2 else Done board2
  end.

(** The first empty cell in row-major order, where the double loop of the
    backtracking functions stops. *)
Definition firstEmpty (board : Board) : option (nat * nat) :=
  List.find (fun p : nat * nat => get board p.1 p.2 =? 0) cells.

(** [for (const num of candidates) { board[r][c] = num; if (rec(board)) return
    true; board[r][c] = 0; }  return false;] *)
Fixpoint tryEach (rec : Board -> outcome (bool * Board)) (r c : nat)
    (candidates : list nat) (board : Board) : outcome (bool * Board) :=
  match candidates with
  | [] => Done (false, board)
  | num :: rest =>
    '(ok, board') <- rec (set board r c num);
    if ok then Done (true, board') else tryEach rec r c rest (set board' r c 0)
  end.

Fixpoint solveBacktrackingHelper (fuel : nat) (board : Board) : outcome (bool * Board) :=
  match fuel with
  | O => OutOfFuel
  | S fuel' =>
    match firstEmpty board with
    | Some (r, c) =>
      tryEach (solveBacktrackingHelper fuel') r c (getCandidates board r c) board
    | None => Done (true, board)
    end
  end.

(** [solveBacktracking]: [None] is [null]. *)
Definition solveBacktracking (fuel : nat) (board : Board) : outcome (option Board) :=
  '(ok, copy) <- solveBacktrackingHelper fuel board;
  Done (if ok then Some copy else None).

(** The inner [solve] of [countBacktracks]; the state adds [count]. *)
Fixpoint countEach (rec : Board * nat -> outcome (bool * (Board * nat))) (r c : nat)
    (candidates : list nat) (st : Board * nat) : outcome (bool * (Board * nat)) :=
  match candidates with
  | [] => Done (false, st)
  | num :: rest =>
    '(ok, st') <- rec (set st.1 r c num, st.2);
    if ok then Done (true, st')
    else countEach rec r c rest (set st'.1 r c 0, S st'.2)
  end.

Fixpoint countSolve (fuel : nat) (st : Board * nat) : outcome (bool * (Board * nat)) :=
  match fuel with
  | O => OutOfFuel
  | S fuel' =>
    match firstEmpty st.1 with
    | Some (r, c) => countEach (countSolve fuel') r c (getCandidates st.1 r c) st
    | None => Done (true, st)
    end
  end.

Definition countBacktracks (fuel : nat) (board : Board) : outcome nat :=
  '(_, st) <- countSolve fuel (board, 0); Done st.2.

Definition getDifficultyLevel (fuel : nat) (puzzle : Board) : outcome nat :=
  (* Try Level 1 (naked singles only) *)
  test1 <- solveNakedSingles fuel puzzle;
  if isSolved test1 then Done 1 else
  (* Try Level 2 (hidden singles) *)
  test2 <- solveHiddenSingles fuel puzzle;
  if isSolved test2 then Done 2 else
  backtrackCount <- countBacktracks fuel puzzle;
  if backtrackCount <? 10 then Done 3
  else if backtrackCount <? 50 then Done 4
  else Done 5.

(** [[...a].sort(() => Math.random() - 0.5)]: sorting with a comparator that
    answers at random.  The engine's sorting algorithm fixes which
    permutation of [a] comes out of which random values; the embedding only
    keeps that the result is a permutation of [a] chosen by the random
    source, and draws it by repeated selection. *)
Fixpoint randomOrder {A} (n : nat) (a : list A) (rnd : rng) : list A * rng :=
  match n with
  | O => ([], rnd)
  | S n' =>
    let '(j, rnd1) := randomInt (length a) rnd in
    match a !! Z.to_nat j with
    | Some x =>
      let '(rest, rnd2) := randomOrder n' (delete (Z.to_nat j) a) rnd1 in
      (x :: rest, rnd2)
    | None => ([], rnd1)
    end
  end.

Definition sortRandomly {A} (a : list A) (rnd : rng) : list A * rng :=
  randomOrder (length a) a rnd.

(** The candidate loop of [fillBoard]. *)
Fixpoint fillEach (rec : Board -> rng -> outcome (bool * Board * rng)) (r c : nat)
    (shuffled : list nat) (board : Board) (rnd : rng) : outcome (bool * Board * rng) :=
  match shuffled with
  | [] => Done (false, board, rnd)
  | num :: rest =>
    if isValidPlacement board r c num then
      '(ok, board', rnd') <- rec (set board r c num) rnd;
      if ok then Done (true, board', rnd')
      else fillEach rec r c rest (set board' r c 0) rnd'
    else fillEach rec r c rest board rnd
  end.

Fixpoint fillBoard (fuel : nat) (board : Board) (rnd : rng)
    : outcome (bool * Board * rng) :=
  match fuel with
  | O => OutOfFuel
  | S fuel' =>
    match firstEmpty board with
    | Some (r, c) =>
      let '(shuffled, rnd1) := sortRandomly (seq 1 9) rnd in
      fillEach (fillBoard fuel') r c shuffled board rnd1
    | None => Done (true, board, rnd)
    end
  end.

Definition generateCompleteSudoku (fuel : nat) (rnd : rng) : outcome (Board * rng) :=
  let board := replicate 9 (replicate 9 0) in
  '(_, board', rnd') <- fillBoard fuel board rnd;
  Done (board', rnd').

(** [TARGET_CLUES[targetDifficulty] || 30] *)
Definition targetClues (targetDifficulty : nat) : nat :=
  match targetDifficulty with
  | 1 => 36
  | 2 => 30
  | 3 => 26
  | 4 => 24
  | 5 => 22
  | _ => 30
  end.

(** [solved[r][c] !== complete[r][c]] nowhere. *)
Definition matchesComplete (solved complete : Board) : bool :=
  forallb (fun p : nat * nat => get solved p.1 p.2 =? get complete p.1 p.2) cells.

(** The loop [for (const pos of positions)] of [generatePuzzle]; the state is
    the puzzle and [currentClues]. *)
Fixpoint carve (fuel targetDifficulty minClues : nat) (complete : Board)
    (positions : list (nat * nat)) (puzzle : Board) (currentClues : nat)
    : outcome Board :=
  match positions with
  | [] => Done puzzle
  | pos :: rest =>
    if currentClues <=? minClues then Done puzzle else
    let backup := get puzzle pos.1 pos.2 in
    let puzzle1 := set puzzle pos.1 pos.2 0 in
    (* Check if puzzle still has unique solution *)
    solved <- solveBacktracking fuel puzzle1;
    match solved with
    | Some sol =>
      if matchesComplete sol complete then
        difficulty <- getDifficultyLevel fuel puzzle1;
        if difficulty <=? targetDifficulty then
          carve fuel targetDifficulty minClues complete rest puzzle1 (currentClues - 1)
        else
          carve fuel targetDifficulty minClues complete rest
                (set puzzle1 pos.1 pos.2 backup) currentClues
      else
        carve fuel targetDifficulty minClues complete rest
              (set puzzle1 pos.1 pos.2 backup) currentClues
    | None =>
      carve fuel targetDifficulty minClues complete rest
            (set puzzle1 pos.1 pos.2 backup) currentClues
    end
  end.

(** [countClues]: the number of cells that are not empty. *)
Definition countClues (board : Board) : nat :=
  length (List.filter (fun p : nat * nat => negb (get board p.1 p.2 =? 0)) cells).

(** [generatePuzzle]: the pair [{ puzzle, solution }]. *)
Definition generatePuzzle (fuel targetDifficulty : nat) (rnd : rng)
    : outcome (Board * Board * rng) :=
  '(complete, rnd1) <- generateCompleteSudoku fuel rnd;
  let '(positions, rnd2) := sortRandomly cells rnd1 in
  puzzle <- carve fuel targetDifficulty (targetClues targetDifficulty) complete
                  positions complete 81;
  Done (puzzle, complete, rnd2).

End Sudoku.

(** * Solving by deduction

    The deduction that the no-guess generators run, stated over sets of
    cells and independently of the arrays and maps of the engines.  Like
    the generators, its flood fill looks at the mines of the trial grid and
    stops at one; the module [Inference] below states the deduction of a
    player, who sees the numbers only, and relates the two. *)

Module Deduction.

(** What a solver knows: the cells it has revealed and the cells it has
    marked as mines. *)
Record know := {
  shown : gset (Z * Z);
  marked : gset (Z * Z)
}.

Definition start : know := {| shown := ∅; marked := ∅ |}.

Definition reveal (k : Z * Z) (st : know) : know :=
  {| shown := {[ k ]} ∪ shown st; marked := marked st |}.

Definition mark (l : list (Z * Z)) (st : know) : know :=
  {| shown := shown st; marked := list_to_set l ∪ marked st |}.

(** Marking an empty list, a known mine, or a new one. *)
Lemma marked_nil (M : gset (Z * Z)) : M = list_to_set [] ∪ M.
Proof. by rewrite list_to_set_nil, (left_id_L ∅ (∪)). Qed.

Lemma marked_new (c : Z * Z) (l : list (Z * Z)) (M : gset (Z * Z)) :
  list_to_set l ∪ ({[ c ]} ∪ M) = list_to_set (c :: l) ∪ M.
Proof.
  rewrite list_to_set_cons. rewrite (comm_L (∪) {[ c ]} (list_to_set l)).
  by rewrite <- (assoc_L (∪)).
Qed.

Lemma marked_known (c : Z * Z) (l : list (Z * Z)) (M : gset (Z * Z)) :
  c ∈ M -> list_to_set l ∪ M = list_to_set (c :: l) ∪ M.
Proof.
  intros Hc. rewrite <- marked_new. f_equal. symmetry.
  apply subseteq_union_1_L. by apply singleton_subseteq_l.
Qed.

Section Rules.

(** The board: its cells, the topology, the mines and the number that a
    revealed cell displays. *)
Variable board : Z * Z -> bool.
Variable adj : Z * Z -> list (Z * Z).
Variable mine : Z * Z -> bool.
Variable number : Z * Z -> Z.

(** Flood-fill reveal of a cell: nothing happens outside the board, at a
    cell already revealed or marked, and at a mine; a zero cascades to its
    neighbors. *)
Inductive floods : know -> Z * Z -> know -> Prop :=
  | flood_stop st k :
      board k = false \/ k ∈ shown st \/ k ∈ marked st \/ mine k = true ->
      floods st k st
  | flood_number st k :
      board k = true -> k ∉ shown st -> k ∉ marked st -> mine k = false ->
      number k <> 0 ->
      floods st k (reveal k st)
  | flood_zero st k st' :
      board k = true -> k ∉ shown st -> k ∉ marked st -> mine k = false ->
      number k = 0 ->
      floodsAll (reveal k st) (adj k) st' ->
      floods st k st'
with floodsAll : know -> list (Z * Z) -> know -> Prop :=
  | floodsAll_nil st : floodsAll st [] st
  | floodsAll_cons st k st1 l st2 :
      floods st k st1 -> floodsAll st1 l st2 -> floodsAll st (k :: l) st2.

(** The neighbors of [c] that are neither revealed nor marked, and the
    number of its marked neighbors. *)
Definition hiddenOf (st : know) (c : Z * Z) : list (Z * Z) :=
  filter (fun n => (n ∉ marked st) /\ (n ∉ shown st)) (adj c).

Definition knownCount (st : know) (c : Z * Z) : nat :=
  length (filter (fun n => n ∈ marked st) (adj c)).

(** Rule A applies at a revealed numbered cell whose hidden neighbors are
    as many as its mines still missing; Rule B when its marked neighbors
    are as many as its number. *)
Definition ruleA_applies (st : know) (c : Z * Z) : Prop :=
  c ∈ shown st /\ 0 < number c /\ hiddenOf st c <> [] /\
  Z.of_nat (length (hiddenOf st c)) = number c - Z.of_nat (knownCount st c).

Definition ruleB_applies (st : know) (c : Z * Z) : Prop :=
  c ∈ shown st /\ 0 < number c /\ hiddenOf st c <> [] /\
  Z.of_nat (knownCount st c) = number c.

(** One deduction: Rule A marks the hidden neighbors, Rule B reveals
    them, each by a flood fill. *)
Inductive deduce : know -> know -> Prop :=
  | ruleA st c : ruleA_applies st c -> deduce st (mark (hiddenOf st c) st)
  | ruleB st c st' :
      ruleB_applies st c -> floodsAll st (hiddenOf st c) st' -> deduce st st'.

Definition fixedPoint (st : know) : Prop :=
  forall c, ~ ruleA_applies st c /\ ~ ruleB_applies st c.

(** The layout is solvable from the click: the flood fill of the clicked
    cell followed by deductions reaches a state in which no rule applies
    and every cell of [cells] without a mine is revealed. *)
Definition solvable (cells : list (Z * Z)) (click : Z * Z) : Prop :=
  exists st1 st2,
    floods start click st1 /\ rtc deduce st1 st2 /\ fixedPoint st2 /\
    forall k, k ∈ cells -> mine k = false -> k ∈ shown st2.

Lemma floodsAll_app st1 l1 st2 l2 st3 :
  floodsAll st1 l1 st2 -> floodsAll st2 l2 st3 -> floodsAll st1 (l1 ++ l2) st3.
Proof.
  induction 1 as [|st k sta l stb Hk Hl IH]; simpl; [done|].
  intros H. econstructor; [exact Hk|]. by apply IH.
Qed.

(** Outside the board a flood fill does nothing. *)
Lemma floods_outside st k st' : board k = false -> floods st k st' -> st' = st.
Proof. intros Hb H. destruct H; congruence. Qed.

End Rules.

End Deduction.

(** * Facts about outcomes, arrays and enumerations *)

Lemma bind_Done {A B} (m : outcome A) (k : A -> outcome B) (b : B) :
  bind m k = Done b -> exists a, m = Done a /\ k a = Done b.
Proof. destruct m; simpl; intros H; try discriminate. eauto. Qed.

(** Decomposes a hypothesis [x <- m; k = Done v]. *)
Ltac inv_bind H :=
  let a := fresh "a" in
  let Ha := fresh "Ha" in
  apply bind_Done in H; destruct H as (a & Ha & H).

(** An invariant of the loop body is an invariant of the loop. *)
Lemma foldM_inv {A S} (P : S -> Prop) (body : S -> A -> outcome S) (l : list A) :
  (forall st a st', a ∈ l -> P st -> body st a = Done st' -> P st') ->
  forall st st', P st -> foldM body l st = Done st' -> P st'.
Proof.
  induction l as [|a l IH]; simpl; intros Hb st st' HP H.
  - congruence.
  - inv_bind H. eapply IH; [| |exact H].
    + intros. eapply Hb; eauto. by right.
    + eapply Hb; eauto. by left.
Qed.

(** A loop whose body always completes, completes. *)
Lemma foldM_total {A S} (P : S -> Prop) (body : S -> A -> outcome S) (l : list A) :
  (forall st a, a ∈ l -> P st -> exists st', body st a = Done st' /\ P st') ->
  forall st, P st -> exists st', foldM body l st = Done st' /\ P st'.
Proof.
  induction l as [|a l IH]; simpl; intros Hb st HP.
  - eauto.
  - destruct (Hb st a) as (st1 & -> & HP1); [by left|done|]. simpl.
    apply IH; [|done]. intros. apply Hb; [by right|done].
Qed.

Lemma idx_Some {A} (a : list A) (i : Z) (v : A) :
  idx a i = Some v <-> 0 <= i /\ a !! Z.to_nat i = Some v.
Proof.
  unfold idx. destruct (Z.ltb_spec i 0); split.
  - discriminate.
  - intros [? _]. lia.
  - intros. split; [lia|done].
  - intros [_ ?]. done.
Qed.

Lemma idx_is_Some {A} (a : list A) (i : Z) :
  is_Some (idx a i) <-> 0 <= i < Z.of_nat (length a).
Proof.
  unfold is_Some. setoid_rewrite idx_Some. split.
  - intros (v & ? & Hv). apply lookup_lt_Some in Hv. lia.
  - intros [? ?]. destruct (lookup_lt_is_Some_2 a (Z.to_nat i)) as [v Hv]; [lia|]. eauto.
Qed.

(** Rectangular arrays: [h] rows of [w] cells. *)
Definition rect {A} (w h : nat) (a : list (list A)) : Prop :=
  length a = h /\ Forall (fun row => length row = w) a.

Lemma rect_replicate {A} (w h : nat) (v : A) : rect w h (replicate h (replicate w v)).
Proof.
  split; [apply length_replicate|].
  apply Forall_replicate, length_replicate.
Qed.

Lemma at2_Done {A} (a : list (list A)) (x y : Z) (v : A) :
  at2 a x y = Done v <->
  exists row, idx a y = Some row /\ idx row x = Some v.
Proof.
  unfold at2. destruct (idx a y) as [row|]; [destruct (idx row x) eqn:E|]; split.
  - intros [= ->]. eauto.
  - intros (? & [= <-] & ?). congruence.
  - discriminate.
  - intros (? & [= <-] & ?). congruence.
  - discriminate.
  - intros (? & ? & _). discriminate.
Qed.

Lemma at2_cases {A} (a : list (list A)) (x y : Z) :
  (exists v, at2 a x y = Done v) \/ at2 a x y = TypeError.
Proof. unfold at2. destruct (idx a y) as [row|]; [destruct (idx row x)|]; eauto. Qed.

Lemma at2_rect {A} (w h : nat) (a : list (list A)) (x y : Z) :
  rect w h a -> 0 <= x < Z.of_nat w -> 0 <= y < Z.of_nat h ->
  exists v, at2 a x y = Done v.
Proof.
  intros [Hl Hr] Hx Hy.
  destruct (proj2 (idx_is_Some a y)) as [row Hrow]; [lia|].
  assert (length row = w) as Hw.
  { apply idx_Some in Hrow as [_ Hrow].
    eapply Forall_lookup_1 in Hr; eauto. }
  destruct (proj2 (idx_is_Some row x)) as [v Hv]; [lia|].
  exists v. apply at2_Done. eauto.
Qed.

Lemma at2_replicate {A} (w h : nat) (v u : A) (x y : Z) :
  at2 (replicate h (replicate w v)) x y = Done u -> u = v.
Proof.
  intros (row & Hrow & Hu)%at2_Done.
  apply idx_Some in Hrow as [_ Hrow]. apply lookup_replicate in Hrow as [-> _].
  apply idx_Some in Hu as [_ Hu]. by apply lookup_replicate in Hu as [-> _].
Qed.

Lemma set2_Done {A} (a a' : list (list A)) (x y : Z) (v : A) :
  set2 a x y v = Done a' ->
  exists u, at2 a x y = Done u /\
    at2 a' x y = Done v /\
    (forall x' y', (x', y') <> (x, y) -> at2 a' x' y' = at2 a x' y') /\
    (forall w h, rect w h a -> rect w h a').
Proof.
  unfold set2. destruct (idx a y) as [row|] eqn:Hy; [|done].
  destruct (idx row x) as [u|] eqn:Hx; [|done]. intros [= <-].
  pose proof Hy as [Hy0 Hy1]%idx_Some. pose proof Hx as [Hx0 Hx1]%idx_Some.
  exists u. split; [apply at2_Done; eauto|]. split; [|split].
  - apply at2_Done. exists (<[Z.to_nat x := v]> row). split; apply idx_Some; split; try done.
    + apply list_lookup_insert_eq. by eapply lookup_lt_Some.
    + apply list_lookup_insert_eq. by eapply lookup_lt_Some.
  - intros x' y' Hne. unfold at2, idx.
    destruct (Z.ltb_spec y' 0); [done|].
    destruct (decide (Z.to_nat y = Z.to_nat y')) as [Heq|Hney].
    + rewrite <- Heq, list_lookup_insert_eq, Hy1 by (by eapply lookup_lt_Some).
      destruct (Z.ltb_spec x' 0); [done|].
      rewrite list_lookup_insert_ne; [done|].
      intros Hxx. apply Hne. f_equal; lia.
    + by rewrite list_lookup_insert_ne.
  - intros w h [Hl Hr]. split; [by rewrite length_insert|].
    apply Forall_insert; [done|]. rewrite length_insert.
    eapply Forall_lookup_1 in Hr; eauto.
Qed.

Lemma set2_total {A} (a : list (list A)) (x y : Z) (u v : A) :
  at2 a x y = Done u -> exists a', set2 a x y v = Done a'.
Proof.
  intros (row & Hrow & Hu)%at2_Done. unfold set2. rewrite Hrow, Hu. eauto.
Qed.

Lemma elem_of_range (n : nat) (i : Z) : i ∈ range n <-> 0 <= i < Z.of_nat n.
Proof.
  unfold range. rewrite list_elem_of_fmap. setoid_rewrite elem_of_seq. split.
  - intros (k & -> & ?). lia.
  - intros ?. exists (Z.to_nat i). lia.
Qed.

Lemma elem_of_coords (w h : nat) (x y : Z) :
  (x, y) ∈ coords w h <-> 0 <= x < Z.of_nat w /\ 0 <= y < Z.of_nat h.
Proof.
  unfold coords. rewrite list_elem_of_bind. setoid_rewrite list_elem_of_bind.
  setoid_rewrite elem_of_range. setoid_rewrite list_elem_of_singleton. split.
  - intros (y' & (x' & [= -> ->] & ?) & ?). lia.
  - intros [? ?]. exists y. split; [|done]. exists x. done.
Qed.

Lemma NoDup_range (n : nat) : NoDup (range n).
Proof.
  unfold range. apply NoDup_fmap_2; [|apply NoDup_seq].
  intros ???. lia.
Qed.

Lemma NoDup_coords (w h : nat) : NoDup (coords w h).
Proof.
  unfold coords. apply NoDup_bind; [| |apply NoDup_range].
  - intros y1 y2 p _ _. rewrite !list_elem_of_bind.
    setoid_rewrite list_elem_of_singleton.
    intros (? & -> & _) (? & [= _ ->] & _). done.
  - intros y _. apply NoDup_bind; [| |apply NoDup_range].
    + intros x1 x2 p _ _. rewrite !list_elem_of_singleton. congruence.
    + intros. apply NoDup_singleton.
Qed.

(** Cells that satisfy a test, counted over an enumeration. *)
Definition countIf {A} (P : A -> bool) (l : list A) : nat :=
  length (List.filter P l).

Lemma countIf_ext {A} (P Q : A -> bool) (l : list A) :
  (forall a, a ∈ l -> P a = Q a) -> countIf P l = countIf Q l.
Proof.
  unfold countIf. induction l as [|a l IH]; simpl; intros H; [done|].
  rewrite (H a) by (by left). destruct (Q a); simpl; rewrite IH; try done;
    intros; apply H; by right.
Qed.

Lemma countIf_le {A} (P Q : A -> bool) (l : list A) :
  (forall a, a ∈ l -> Q a = true -> P a = true) -> (countIf Q l <= countIf P l)%nat.
Proof.
  unfold countIf. induction l as [|a l IH]; simpl; intros H; [done|].
  assert (length (List.filter Q l) <= length (List.filter P l))%nat as IH'.
  { apply IH. intros. apply H; [by right|done]. }
  destruct (Q a) eqn:HQ.
  - rewrite (H a) by (done || by left). simpl. lia.
  - destruct (P a); simpl; lia.
Qed.

(** Clearing the test at one enumerated cell lowers the count by one. *)
Lemma countIf_drop {A} (P Q : A -> bool) (l : list A) (k : A) :
  NoDup l -> k ∈ l -> P k = true -> Q k = false ->
  (forall a, a ≠ k -> Q a = P a) ->
  S (countIf Q l) = countIf P l.
Proof.
  unfold countIf. intros Hnd Hk HP HQ Hoth.
  induction Hnd as [|a l Hnotin Hnd IH]; [by apply elem_of_nil in Hk|].
  simpl. apply elem_of_cons in Hk as [<-|Hk].
  - rewrite HP, HQ. simpl. f_equal. apply (countIf_ext Q P).
    intros a Ha. apply Hoth. intros ->. done.
  - rewrite (Hoth a) by (intros ->; done).
    destruct (P a); simpl; rewrite <- IH; done.
Qed.

Lemma allM_total {A} (blocks : A -> outcome bool) (l : list A) :
  (forall a, a ∈ l -> exists b, blocks a = Done b) -> exists b, allM blocks l = Done b.
Proof.
  induction l as [|a l IH]; simpl; intros H; [eauto|].
  destruct (H a) as [b ->]; [by left|]. cbn [bind]. destruct b; [eauto|].
  apply IH. intros. apply H. by right.
Qed.

Lemma length_bind_const {A B} (f : A -> list B) (l : list A) (n : nat) :
  (forall a, length (f a) = n) -> length (l ≫= f) = (length l * n)%nat.
Proof.
  intros Hf. induction l as [|a l IH]; csimpl; [done|].
  rewrite length_app, IH, Hf. lia.
Qed.

Lemma length_range n : length (range n) = n.
Proof. unfold range. by rewrite length_fmap, length_seq. Qed.

Lemma length_coords w h : length (coords w h) = (w * h)%nat.
Proof.
  unfold coords. rewrite (length_bind_const _ _ w), length_range; [lia|].
  intros y. rewrite (length_bind_const _ _ 1), length_range; [lia|done].
Qed.

(** * Facts about sapper.js *)

Module SapperFacts.
Import Sapper.

(** Boards after [initGrid]: three rectangular arrays. *)
Definition wf (s : SapperGame) : Prop :=
  rect (width s) (height s) (grid s) /\
  rect (width s) (height s) (revealed s) /\
  rect (width s) (height s) (flagged s).

Lemma inBounds_spec (s : SapperGame) (x y : Z) :
  _inBounds s x y = true <->
  0 <= x < Z.of_nat (width s) /\ 0 <= y < Z.of_nat (height s).
Proof. unfold _inBounds. rewrite !andb_true_iff. lia. Qed.

Lemma initGrid_wf (s : SapperGame) : wf (initGrid s).
Proof. repeat split; simpl; try apply length_replicate; apply Forall_replicate, length_replicate. Qed.

(** How a reveal changes the [revealed] array [rv] into [rv'], given the
    flags [fl]: the same cells exist, revealed cells stay revealed, and a
    newly revealed cell carries no flag. *)
Definition grows (fl rv rv' : list (list bool)) : Prop :=
  (forall w h, rect w h rv -> rect w h rv') /\
  forall x y,
    (at2 rv x y = TypeError -> at2 rv' x y = TypeError) /\
    (forall b, at2 rv x y = Done b ->
       exists b', at2 rv' x y = Done b' /\ (b = true -> b' = true) /\
                  (b' = true -> b = true \/ at2 fl x y = Done false)).

Lemma grows_refl fl rv : grows fl rv rv.
Proof. split; [done|]. intros x y. split; [done|]. intros b Hb. exists b. auto. Qed.

Lemma grows_trans fl rv1 rv2 rv3 : grows fl rv1 rv2 -> grows fl rv2 rv3 -> grows fl rv1 rv3.
Proof.
  intros [Hr1 H1] [Hr2 H2]. split; [auto|]. intros x y.
  destruct (H1 x y) as [H1e H1d]. destruct (H2 x y) as [H2e H2d]. split; [auto|].
  intros b Hb. destruct (H1d b Hb) as (b' & Hb' & Hm1 & Hn1).
  destruct (H2d b' Hb') as (b'' & Hb'' & Hm2 & Hn2).
  exists b''. split; [done|]. split; [auto|].
  intros Hb3. destruct (Hn2 Hb3) as [Hb2|?]; auto.
Qed.

Lemma grows_set2 fl rv rv' x y :
  at2 rv x y = Done false -> at2 fl x y = Done false ->
  set2 rv x y true = Done rv' -> grows fl rv rv'.
Proof.
  intros Hrv Hfl (u & _ & Hnew & Hoth & Hrect)%set2_Done. split; [done|].
  intros x' y'. destruct (decide ((x', y') = (x, y))) as [[= -> ->]|Hne].
  - split; [congruence|]. intros b Hb. exists true. rewrite Hb in Hrv. auto.
  - rewrite (Hoth _ _ Hne). split; [done|]. intros b Hb. exists b. auto.
Qed.

(** The effect of a reveal on the whole game object: only [revealed] changes. *)
Definition revealStep (s s' : SapperGame) : Prop :=
  s' = with_revealed s (revealed s') /\ grows (flagged s) (revealed s) (revealed s').

Lemma revealStep_refl s : revealStep s s.
Proof. split; [by destruct s|apply grows_refl]. Qed.

Lemma revealStep_trans s1 s2 s3 : revealStep s1 s2 -> revealStep s2 s3 -> revealStep s1 s3.
Proof.
  intros [E1 G1] [E2 G2]. split.
  - rewrite E2 at 1. rewrite E1. done.
  - eapply grows_trans; [done|]. rewrite E1 in G2. done.
Qed.

Lemma revealCellRecursive_eq (fuel : nat) s x y acc :
  _revealCellRecursive (S fuel) s x y acc =
    if negb (_inBounds s x y) then Done (false, s, acc) else
    r <- at2 (revealed s) x y;
    skip <- (if r then Done true else at2 (flagged s) x y);
    if skip then Done (false, s, acc) else
    rv <- set2 (revealed s) x y true;
    let s1 := with_revealed s rv in
    let acc1 := acc ++ [(x, y)] in
    g <- at2 (grid s1) x y;
    if g =? -1 then Done (true, s1, acc1) else
    if g =? 0 then
      '(s2, acc2) <-
        foldM (fun (st : SapperGame * list (Z * Z)) (d : Z * Z) =>
                 '(_, s', acc') <-
                   _revealCellRecursive fuel st.1 (x + d.1) (y + d.2) st.2;
                 Done (s', acc'))
              offsets (s1, acc1);
      Done (false, s2, acc2)
    else Done (false, s1, acc1).
Proof. reflexivity. Qed.

Lemma revealCellRecursive_step (fuel : nat) :
  forall s x y acc hit s' acc',
    _revealCellRecursive fuel s x y acc = Done (hit, s', acc') -> revealStep s s'.
Proof.
  induction fuel as [|fuel IH]; intros s x y acc hit s' acc' H; [done|].
  rewrite revealCellRecursive_eq in H. destruct (_inBounds s x y); cbn [negb] in H;
    [|injection H as <- <- <-; apply revealStep_refl].
  inv_bind H. rename a into r. rename Ha into Hr.
  inv_bind H. rename a into skip. rename Ha into Hskip.
  destruct skip; [injection H as <- <- <-; apply revealStep_refl|].
  destruct r; [discriminate|].
  inv_bind H. rename a into rv. rename Ha into Hset.
  inv_bind H. rename a into g. rename Ha into Hg.
  assert (revealStep s (with_revealed s rv)) as Hstep1.
  { split; [done|]. simpl. eapply grows_set2; eauto. }
  destruct (g =? -1); [injection H as <- <- <-; done|].
  destruct (g =? 0); [|injection H as <- <- <-; done].
  inv_bind H. destruct a as [s2 acc2]. injection H as <- <- <-.
  eapply (foldM_inv (fun st => revealStep s st.1)) in Ha; [exact Ha| |exact Hstep1].
  intros [sa acca] d st' _ Hsa Hbody. simpl in *.
  inv_bind Hbody. destruct a as [[h sb] accb]. injection Hbody as <-.
  simpl. eapply revealStep_trans; [exact Hsa|]. eapply IH. exact Ha0.
Qed.

(** A completed reveal of an in-bounds cell without a flag leaves the cell
    revealed. *)
Lemma revealCellRecursive_self (fuel : nat) s x y acc hit s' acc' :
  _revealCellRecursive fuel s x y acc = Done (hit, s', acc') ->
  _inBounds s x y = true -> at2 (flagged s) x y = Done false ->
  at2 (revealed s') x y = Done true.
Proof.
  intros H Hin Hfl. pose proof (revealCellRecursive_step _ _ _ _ _ _ _ _ H) as [_ [_ Hg]].
  destruct fuel as [|fuel]; [done|].
  rewrite revealCellRecursive_eq, Hin in H. cbn [negb] in H.
  inv_bind H. rename a into r. rename Ha into Hr.
  destruct (Hg x y) as [_ Hd]. destruct (Hd r Hr) as (b' & Hb' & Hmono & _).
  destruct r; [rewrite Hb'; f_equal; auto|].
  rewrite Hfl in H. cbn [bind] in H.
  inv_bind H. rename a into rv. rename Ha into Hset.
  pose proof Hset as (_ & _ & Hnew & _ & _)%set2_Done.
  inv_bind H. rename a into g.
  assert (forall s2, revealStep (with_revealed s rv) s2 -> at2 (revealed s2) x y = Done true)
    as Hkeep.
  { intros s2 [_ [_ Hg2]]. destruct (Hg2 x y) as [_ Hd2].
    destruct (Hd2 true Hnew) as (b2 & -> & Hm & _). f_equal. auto. }
  destruct (g =? -1); [injection H as <- <- <-; apply Hkeep, revealStep_refl|].
  destruct (g =? 0); [|injection H as <- <- <-; apply Hkeep, revealStep_refl].
  inv_bind H. destruct a as [s2 acc2]. injection H as <- <- <-. apply Hkeep.
  eapply (foldM_inv (fun st => revealStep (with_revealed s rv) st.1)) in Ha0;
    [exact Ha0| |apply revealStep_refl].
  intros [sa acca] d st' _ Hsa Hbody. cbn [fst snd] in *.
  inv_bind Hbody. destruct a as [[h sb] accb]. injection Hbody as <-.
  eapply revealStep_trans; [exact Hsa|]. eapply revealCellRecursive_step. exact Ha1.
Qed.

(** The recursion reports a hit exactly for an in-bounds, hidden, unflagged
    mine, and then reveals that single cell. *)
Lemma revealCellRecursive_hit (fuel : nat) s x y acc s' acc' :
  _revealCellRecursive fuel s x y acc = Done (true, s', acc') ->
  _inBounds s x y = true /\ at2 (revealed s) x y = Done false /\
  at2 (flagged s) x y = Done false /\ at2 (grid s) x y = Done (-1).
Proof.
  destruct fuel as [|fuel]; [done|]. rewrite revealCellRecursive_eq.
  destruct (_inBounds s x y); cbn [negb]; [|done]. intros H.
  inv_bind H. rename a into r. rename Ha into Hr.
  inv_bind H. destruct a; [done|]. destruct r; [done|].
  inv_bind H. inv_bind H. rename a0 into g. simpl in Ha1.
  destruct (Z.eqb_spec g (-1)) as [->|]; [done|].
  destruct (g =? 0); [|done]. inv_bind H. by destruct a0.
Qed.

Lemma revealCellRecursive_mine (fuel : nat) s x y acc :
  _inBounds s x y = true -> at2 (revealed s) x y = Done false ->
  at2 (flagged s) x y = Done false -> at2 (grid s) x y = Done (-1) ->
  exists rv, set2 (revealed s) x y true = Done rv /\
    _revealCellRecursive (S fuel) s x y acc =
      Done (true, with_revealed s rv, acc ++ [(x, y)]).
Proof.
  intros Hin Hr Hf Hg. destruct (set2_total _ _ _ _ true Hr) as [rv Hrv].
  exists rv. split; [done|].
  rewrite revealCellRecursive_eq, Hin, Hr. cbn [negb bind]. rewrite Hf. cbn [bind].
  rewrite Hrv. cbn [bind]. simpl grid. rewrite Hg. done.
Qed.

(** The cells that a reveal can still change, counted for termination. *)
Definition hidden (rv : list (list bool)) (p : Z * Z) : bool :=
  match at2 rv p.1 p.2 with
  | Done false => true
  | _ => false
  end.

Definition hiddenCount (s : SapperGame) : nat :=
  countIf (hidden (revealed s)) (coords (width s) (height s)).

Lemma grows_hidden_le fl rv rv' l :
  grows fl rv rv' -> (countIf (hidden rv') l <= countIf (hidden rv) l)%nat.
Proof.
  intros [_ Hg]. apply countIf_le. intros [x y] _. unfold hidden. simpl.
  destruct (Hg x y) as [He Hd]. destruct (at2_cases rv x y) as [[b Hb]|Hb].
  - destruct (Hd b Hb) as (b' & -> & Hm & _). rewrite Hb.
    destruct b', b; try done; by specialize (Hm eq_refl).
  - by rewrite (He Hb).
Qed.

Lemma revealStep_hiddenCount s s' :
  revealStep s s' -> (hiddenCount s' <= hiddenCount s)%nat.
Proof.
  intros [E G]. unfold hiddenCount. rewrite E. simpl. by eapply grows_hidden_le.
Qed.

Lemma revealStep_wf s s' : revealStep s s' -> wf s -> wf s'.
Proof.
  intros [E [Hr _]] (Hg & Hrv & Hfl). rewrite E.
  split; [exact Hg|]. split; [exact (Hr _ _ Hrv)|exact Hfl].
Qed.

(** With more fuel than hidden cells the recursion completes. *)
Lemma revealCellRecursive_total (fuel : nat) :
  forall s x y acc, wf s -> (hiddenCount s < fuel)%nat ->
    exists hit s' acc', _revealCellRecursive fuel s x y acc = Done (hit, s', acc').
Proof.
  induction fuel as [|fuel IH]; intros s x y acc Hwf Hfuel; [lia|].
  rewrite revealCellRecursive_eq.
  destruct (_inBounds s x y) eqn:Hin; cbn [negb]; [|eauto].
  pose proof Hin as [Hx Hy]%inBounds_spec. destruct Hwf as (Hg & Hrv & Hfl).
  destruct (at2_rect _ _ _ x y Hrv Hx Hy) as [r Hr]. rewrite Hr. cbn [bind].
  destruct (at2_rect _ _ _ x y Hfl Hx Hy) as [f Hf].
  destruct r; cbn [bind]; [eauto|]. rewrite Hf. cbn [bind].
  destruct f; [eauto|].
  destruct (set2_total _ _ _ _ true Hr) as [rv Hset]. rewrite Hset. cbn [bind].
  destruct (at2_rect _ _ _ x y Hg Hx Hy) as [g Hgv]. simpl grid. rewrite Hgv. cbn [bind].
  destruct (g =? -1); [eauto|]. destruct (g =? 0); [|eauto].
  assert (revealStep s (with_revealed s rv)) as Hstep1.
  { split; [done|]. eapply grows_set2; eauto. }
  assert (hiddenCount (with_revealed s rv) < fuel)%nat as Hlt.
  { enough (S (hiddenCount (with_revealed s rv)) = hiddenCount s) by lia.
    pose proof Hset as (_ & _ & Hnew & Hoth & _)%set2_Done.
    unfold hiddenCount. simpl. apply (countIf_drop _ _ _ (x, y)).
    - apply NoDup_coords.
    - by apply elem_of_coords.
    - unfold hidden. simpl. by rewrite Hr.
    - unfold hidden. simpl. by rewrite Hnew.
    - intros [x' y'] Hne. unfold hidden. simpl. by rewrite Hoth. }
  match goal with
  | |- context [foldM ?body ?l ?st0] =>
    destruct (fun Hb => foldM_total
      (fun st : SapperGame * list (Z * Z) => revealStep (with_revealed s rv) st.1)
      body l Hb st0) as ([s2 acc2] & -> & _);
      [|apply revealStep_refl|cbn [bind]; eauto]
  end.
  intros [sa acca] d _ Hsa. cbn [fst snd] in *.
  destruct (IH sa (x + d.1) (y + d.2) acca) as (h & sb & accb & Hrec).
  { eapply revealStep_wf; [exact Hsa|]. eapply revealStep_wf; [exact Hstep1|]. done. }
  { apply revealStep_hiddenCount in Hsa. lia. }
  rewrite Hrec. cbn [bind]. eexists. split; [done|]. cbn [fst].
  eapply revealStep_trans; [exact Hsa|]. eapply revealCellRecursive_step. exact Hrec.
Qed.

Lemma checkWin_total s : wf s -> exists b, _checkWin s = Done b.
Proof.
  intros (Hg & Hrv & _). apply allM_total. intros [x y] [Hx Hy]%elem_of_coords.
  unfold blocksWin. simpl.
  destruct (at2_rect _ _ _ x y Hrv Hx Hy) as [r ->]. cbn [bind]. destruct r; [eauto|].
  destruct (at2_rect _ _ _ x y Hg Hx Hy) as [g ->]. cbn [bind]. eauto.
Qed.

(** The effect of a player action that reveals cells: [revealed] grows, the
    terminal flags may be set, nothing else changes. *)
Definition playStep (s s' : SapperGame) : Prop :=
  s' = with_over (with_revealed s (revealed s')) (gameOver s') (won s') /\
  grows (flagged s) (revealed s) (revealed s').

Lemma playStep_refl s : playStep s s.
Proof. split; [by destruct s|apply grows_refl]. Qed.

Lemma playStep_trans s1 s2 s3 : playStep s1 s2 -> playStep s2 s3 -> playStep s1 s3.
Proof.
  intros [E1 G1] [E2 G2]. split.
  - rewrite E2 at 1. rewrite E1. done.
  - eapply grows_trans; [done|]. rewrite E1 in G2. done.
Qed.

Lemma playStep_wf s s' : playStep s s' -> wf s -> wf s'.
Proof.
  intros [E [Hr _]] (Hg & Hrv & Hfl). rewrite E.
  split; [exact Hg|]. split; [exact (Hr _ _ Hrv)|exact Hfl].
Qed.

Lemma revealStep_playStep s s' go w : revealStep s s' -> playStep s (with_over s' go w).
Proof. intros [E G]. split; [|done]. simpl. rewrite E at 1. done. Qed.

Lemma revealCell_playStep fuel s x y r s' :
  revealCell fuel s x y = Done (r, s') -> playStep s s'.
Proof.
  unfold revealCell. destruct (gameOver s) eqn:Hgo.
  - intros [= <- <-]. apply playStep_refl.
  - intros H. inv_bind H. destruct a as [[hit s1] rev].
    apply revealCellRecursive_step in Ha.
    destruct hit.
    + injection H as <- <-. by apply revealStep_playStep.
    + inv_bind H. injection H as <- <-. destruct a.
      * by apply revealStep_playStep.
      * destruct Ha as [E G]. split; [|done].
        set (rv' := revealed s1) in *. rewrite E. reflexivity.
Qed.

(** What [revealCell] reports and sets: a hit ends the game as lost; without
    a hit the game ends only as won. *)
Lemma revealCell_result fuel s x y r s' :
  revealCell fuel s x y = Done (r, s') -> gameOver s = false ->
  (r_hit r = true /\ r_lost r = true /\ r_won r = false /\
   gameOver s' = true /\ won s' = false) \/
  (r_hit r = false /\ r_lost r = false /\ gameOver s' = r_won r /\
   (r_won r = true -> won s' = true) /\ (r_won r = false -> won s' = won s)).
Proof.
  unfold revealCell. intros H Hgo. rewrite Hgo in H.
  inv_bind H. destruct a as [[hit s1] rev].
  apply revealCellRecursive_step in Ha as [E _].
  destruct hit.
  - injection H as <- <-. left. done.
  - inv_bind H. injection H as <- <-. right. destruct a; simpl; [done|].
    rewrite E. simpl. done.
Qed.

Lemma hiddenCount_le s : (hiddenCount s <= width s * height s)%nat.
Proof.
  unfold hiddenCount, countIf. etrans; [apply List.filter_length_le|].
  by rewrite length_coords.
Qed.

Lemma revealCell_total fuel s x y :
  wf s -> (width s * height s < fuel)%nat ->
  exists r s', revealCell fuel s x y = Done (r, s').
Proof.
  intros Hwf Hfuel. unfold revealCell. destruct (gameOver s); [eauto|].
  destruct (revealCellRecursive_total fuel s x y [] Hwf) as (hit & s1 & rev & Hrec).
  { pose proof (hiddenCount_le s). lia. }
  rewrite Hrec. cbn [bind]. destruct hit; [eauto|].
  destruct (checkWin_total s1) as [b ->]; [|cbn [bind]; eauto].
  eapply revealStep_wf; [|exact Hwf]. eapply revealCellRecursive_step. exact Hrec.
Qed.

(** ** The flag invariant *)

Definition flagInv (s : SapperGame) : Prop :=
  forall x y, at2 (flagged s) x y = Done true -> at2 (revealed s) x y = Done true -> False.

Lemma flagInv_playStep s s' : playStep s s' -> flagInv s -> flagInv s'.
Proof.
  intros [E [_ G]] Hinv x y Hf Hr. rewrite E in Hf. simpl in Hf.
  destruct (G x y) as [He Hd]. destruct (at2_cases (revealed s) x y) as [[b Hb]|Hb].
  - destruct (Hd b Hb) as (b' & Hb' & _ & Hnew). rewrite Hr in Hb'. injection Hb' as <-.
    destruct (Hnew eq_refl) as [->|Hf']; [by eapply Hinv|congruence].
  - rewrite (He Hb) in Hr. done.
Qed.

Lemma flagInv_initGrid s : flagInv (initGrid s).
Proof. intros x y Hf _. simpl in Hf. by apply at2_replicate in Hf. Qed.

Lemma flagInv_constructor o : flagInv (constructor o).
Proof. intros x y Hf _. simpl in Hf. unfold at2, idx in Hf. destruct (y <? 0); done. Qed.

Lemma toggleFlag_state s x y r s' :
  toggleFlag s x y = Done (r, s') ->
  s' = s \/
  (gameOver s = false /\ _inBounds s x y = true /\ at2 (revealed s) x y = Done false /\
   exists f fl, at2 (flagged s) x y = Done f /\ set2 (flagged s) x y (negb f) = Done fl /\
                s' = with_flagged s fl /\ f_flagged r = negb f).
Proof.
  unfold toggleFlag. intros H.
  assert (forall r s', (c <- getFlagCount s;
            Done ({| f_flagged := false; f_flagCount := c |}, s)) = Done (r, s') -> s' = s)
    as Hsame.
  { intros r0 s0 H0. inv_bind H0. by injection H0 as <- <-. }
  destruct (gameOver s); [left; eauto|].
  destruct (_inBounds s x y); cbn [negb] in H; [|left; eauto].
  inv_bind H. rename a into rv. destruct rv; [left; eauto|].
  inv_bind H. rename a into f. inv_bind H. rename a into fl.
  inv_bind H. inv_bind H. injection H as <- <-. right.
  repeat split; try done. exists f, fl. repeat split; try done. simpl.
  apply set2_Done in Ha1 as (_ & _ & Hnew & _). simpl in Ha2. congruence.
Qed.

Lemma flagInv_toggleFlag s x y r s' :
  toggleFlag s x y = Done (r, s') -> flagInv s -> flagInv s'.
Proof.
  intros [->|(_ & _ & Hrv & f & fl & Hf & Hset & -> & _)]%toggleFlag_state Hinv; [done|].
  apply set2_Done in Hset as (_ & _ & Hnew & Hoth & _).
  intros x' y' Hf' Hr'. simpl in *.
  destruct (decide ((x', y') = (x, y))) as [[= -> ->]|Hne]; [congruence|].
  rewrite (Hoth _ _ Hne) in Hf'. by eapply Hinv.
Qed.

Lemma chordStep_playStep fuel x y st d st' :
  chordStep fuel x y st d = Done st' -> playStep st.1.1 st'.1.1.
Proof.
  destruct st as [[s all] hit]. unfold chordStep. intros H.
  destruct (_inBounds s (x + d.1) (y + d.2)); cbn [negb] in H;
    [|injection H as <-; apply playStep_refl].
  inv_bind H. destruct a; [injection H as <-; apply playStep_refl|].
  inv_bind H. destruct a as [res s1]. injection H as <-. simpl.
  by eapply revealCell_playStep.
Qed.

Lemma chordReveal_playStep fuel s x y r s' :
  chordReveal fuel s x y = Done (r, s') -> playStep s s'.
Proof.
  unfold chordReveal. intros H.
  destruct (gameOver s); [injection H as <- <-; apply playStep_refl|].
  destruct (_inBounds s x y); cbn [negb] in H; [|injection H as <- <-; apply playStep_refl].
  inv_bind H. inv_bind H.
  destruct (negb a || (a0 <=? 0)); [injection H as <- <-; apply playStep_refl|].
  inv_bind H.
  destruct (negb (Z.of_nat a1 =? a0)); [injection H as <- <-; apply playStep_refl|].
  inv_bind H. destruct a2 as [[s2 all] hit]. injection H as <- <-.
  eapply (foldM_inv (fun st => playStep s st.1.1)) in Ha2; [exact Ha2| |apply playStep_refl].
  intros st d st' _ Hst Hbody. eapply playStep_trans; [exact Hst|].
  by eapply chordStep_playStep.
Qed.

(** ** Mine placement *)

Lemma at2_rect_inv {A} (w h : nat) (a : list (list A)) (x y : Z) (v : A) :
  rect w h a -> at2 a x y = Done v -> 0 <= x < Z.of_nat w /\ 0 <= y < Z.of_nat h.
Proof.
  intros [Hl Hr] (row & Hrow & Hv)%at2_Done.
  assert (is_Some (idx a y)) as Hy%idx_is_Some by eauto.
  assert (is_Some (idx row x)) as Hx%idx_is_Some by eauto.
  apply idx_Some in Hrow as [_ Hrow]. eapply Forall_lookup_1 in Hr; eauto. lia.
Qed.

(** The exclusion test of the placement loops. *)
Definition inZone (excludeX excludeY x y : Z) : Prop :=
  Z.abs (x - excludeX) <= 1 /\ Z.abs (y - excludeY) <= 1.

(** No mine in the exclusion zone. *)
Definition zoneFree (excludeX excludeY : Z) (g : list (list Z)) : Prop :=
  forall x y, inZone excludeX excludeY x y -> at2 g x y <> Done (-1).

Definition mineAt (g : list (list Z)) (p : Z * Z) : bool :=
  match at2 g p.1 p.2 with
  | Done v => v =? -1
  | _ => false
  end.

(** The number of mines of a grid. *)
Definition mineCount (w h : nat) (g : list (list Z)) : nat :=
  countIf (mineAt g) (coords w h).


Lemma zoneFree_replicate ex ey w h : zoneFree ex ey (replicate h (replicate w 0)).
Proof. intros x y _ E. by apply at2_replicate in E. Qed.

Lemma placeLoop_eq fuel s ex ey maxMines g mines placed rnd :
  placeLoop (S fuel) s ex ey maxMines g mines placed rnd =
  if negb (placed <? maxMines) then Done (g, mines, rnd) else
    let '(x, rnd1) := randomInt (width s) rnd in
    let '(y, rnd2) := randomInt (height s) rnd1 in
    if (Z.abs (x - ex) <=? 1) && (Z.abs (y - ey) <=? 1) then
      placeLoop fuel s ex ey maxMines g mines placed rnd2
    else
      v <- at2 g x y;
      if v =? -1 then
        placeLoop fuel s ex ey maxMines g mines placed rnd2
      else
        g' <- set2 g x y (-1);
        placeLoop fuel s ex ey maxMines g' (mines ++ [(x, y)])
                  (placed + 1) rnd2.
Proof. reflexivity. Qed.

Lemma placeLoop_0 s ex ey maxMines g mines placed rnd :
  placeLoop 0 s ex ey maxMines g mines placed rnd =
  if negb (placed <? maxMines) then Done (g, mines, rnd) else OutOfFuel.
Proof. reflexivity. Qed.

(** What the rejection loop guarantees when it completes: the grid stays
    rectangular, the zone stays free, and the mines added make up the
    difference between [maxMines] and [placed]. *)
Lemma placeLoop_spec (fuel : nat) s ex ey maxMines :
  forall g mines placed rnd g' mines' rnd',
    placeLoop fuel s ex ey maxMines g mines placed rnd = Done (g', mines', rnd') ->
    rect (width s) (height s) g -> zoneFree ex ey g ->
    rect (width s) (height s) g' /\ zoneFree ex ey g' /\
    Z.of_nat (mineCount (width s) (height s) g') =
      Z.of_nat (mineCount (width s) (height s) g) + Z.max 0 (maxMines - placed) /\
    Z.of_nat (length mines') = Z.of_nat (length mines) + Z.max 0 (maxMines - placed).
Proof.
  induction fuel as [|fuel IH]; intros g mines placed rnd g' mines' rnd' H Hrect Hzone.
  - rewrite placeLoop_0 in H. destruct (Z.ltb_spec placed maxMines); [done|].
    injection H as <- <- <-. split; [done|]. split; [done|]. split; lia.
  - rewrite placeLoop_eq in H. destruct (Z.ltb_spec placed maxMines); cbn [negb] in H.
    2:{ injection H as <- <- <-. split; [done|]. split; [done|]. split; lia. }
    destruct (randomInt (width s) rnd) as [x rnd1].
    destruct (randomInt (height s) rnd1) as [y rnd2].
    destruct ((Z.abs (x - ex) <=? 1) && (Z.abs (y - ey) <=? 1)) eqn:Hz.
    { by eapply IH. }
    inv_bind H. rename a into v. rename Ha into Hv.
    destruct (Z.eqb_spec v (-1)) as [->|Hnm].
    { by eapply IH. }
    inv_bind H. rename a into g1. rename Ha into Hset.
    pose proof Hset as (_ & _ & Hnew & Hoth & Hr)%set2_Done.
    assert (rect (width s) (height s) g1) as Hr1 by (by apply Hr).
    assert (zoneFree ex ey g1) as Hz1.
    { intros x' y' Hin. destruct (decide ((x', y') = (x, y))) as [[= -> ->]|Hne].
      - destruct Hin as [Hx Hy]. apply andb_false_iff in Hz as [Hz|Hz];
          apply Z.leb_gt in Hz; lia.
      - rewrite (Hoth _ _ Hne). by apply Hzone. }
    destruct (IH _ _ _ _ _ _ _ H Hr1 Hz1) as (Hr' & Hz' & Hc & Hl).
    split; [done|]. split; [done|]. rewrite length_app in Hl. simpl in Hl.
    split; [|lia]. rewrite Hc.
    enough (mineCount (width s) (height s) g1 = S (mineCount (width s) (height s) g)) by lia.
    unfold mineCount. symmetry.
    apply (countIf_drop (mineAt g1) (mineAt g) _ (x, y)).
    + apply NoDup_coords.
    + apply elem_of_coords. eapply at2_rect_inv; [exact Hrect|exact Hv].
    + unfold mineAt. simpl. by rewrite Hnew.
    + unfold mineAt. simpl. rewrite Hv. by apply Z.eqb_neq.
    + intros [x' y'] Hne. unfold mineAt. simpl. by rewrite Hoth.
Qed.

(** Grids with the same mines. *)
Definition sameMines (g g' : list (list Z)) : Prop :=
  forall x y, at2 g' x y = Done (-1) <-> at2 g x y = Done (-1).

Lemma sameMines_mineCount w h g g' :
  rect w h g -> rect w h g' -> sameMines g g' -> mineCount w h g' = mineCount w h g.
Proof.
  intros Hr Hr' Hs. apply countIf_ext. intros [x y] [Hx Hy]%elem_of_coords.
  unfold mineAt. simpl.
  destruct (at2_rect _ _ _ x y Hr Hx Hy) as [v Hv].
  destruct (at2_rect _ _ _ x y Hr' Hx Hy) as [v' Hv']. rewrite Hv, Hv'.
  destruct (Z.eqb_spec v (-1)) as [->|Hn], (Z.eqb_spec v' (-1)) as [->|Hn']; try done.
  - apply Hs in Hv. congruence.
  - apply Hs in Hv'. congruence.
Qed.

Lemma sameMines_zoneFree ex ey g g' : sameMines g g' -> zoneFree ex ey g -> zoneFree ex ey g'.
Proof. intros Hs Hz x y Hin E. apply Hs in E. by eapply Hz. Qed.

(** Writing the adjacency counts keeps the grid rectangular and its mines. *)
Lemma calculateNumbersIn_spec s g g' :
  calculateNumbersIn s g = Done g' ->
  (forall w h, rect w h g -> rect w h g') /\ sameMines g g'.
Proof.
  unfold calculateNumbersIn. intros H.
  eapply (foldM_inv (fun g1 => (forall w h, rect w h g -> rect w h g1) /\ sameMines g g1))
    in H; [exact H| |by split].
  intros g1 [x y] g2 _ [Hr Hs] Hbody. simpl in Hbody.
  inv_bind Hbody. rename a into v. destruct (Z.eqb_spec v (-1)) as [->|Hnm]; cbn [negb] in Hbody.
  { by injection Hbody as <-. }
  inv_bind Hbody. rename a into c.
  apply set2_Done in Hbody as (u & Hu & Hnew & Hoth & Hrect).
  split; [intros; apply Hrect; auto|].
  intros x' y'. destruct (decide ((x', y') = (x, y))) as [[= -> ->]|Hne].
  - rewrite Hnew. rewrite <- (Hs x y). rewrite Ha. split; intros [=]; lia.
  - rewrite (Hoth _ _ Hne). apply Hs.
Qed.

(** The state after [_placeMinesRandomly] differs from the state before in
    [grid] and [mineLocations] only. *)
Lemma placeMinesRandomly_spec fuel s ex ey rnd s' rnd' :
  _placeMinesRandomly fuel s ex ey rnd = Done (s', rnd') ->
  s' = with_mineLocations (with_grid s (grid s')) (mineLocations s') /\
  (rect (width s) (height s) (grid s) -> zoneFree ex ey (grid s) ->
   rect (width s) (height s) (grid s') /\ zoneFree ex ey (grid s') /\
   Z.of_nat (mineCount (width s) (height s) (grid s')) =
     Z.of_nat (mineCount (width s) (height s) (grid s)) + Z.max 0 (maxMinesOf s)).
Proof.
  unfold _placeMinesRandomly, _calculateNumbers. intros H.
  inv_bind H. destruct a as [[g mines] rnd1]. inv_bind H. injection H as <-.
  inv_bind Ha0. injection Ha0 as <-. simpl in *. split; [done|].
  intros Hr Hz. apply placeLoop_spec in Ha as (Hr1 & Hz1 & Hc & _); [|done..].
  apply calculateNumbersIn_spec in Ha1 as [Hr2 Hs].
  split; [by apply Hr2|]. split; [by eapply sameMines_zoneFree|].
  rewrite (sameMines_mineCount _ _ g) by auto. lia.
Qed.

(** ** Board generation and the first click *)

(** The part of the state that mine placement may change. *)
Definition placed (s s' : SapperGame) : Prop :=
  s' = with_mineLocations (with_grid s (grid s')) (mineLocations s').

Lemma generateLoop_spec (attempts fuel : nat) s ex ey :
  forall rnd ok s' rnd',
    generateLoop attempts fuel s ex ey (maxMinesOf s) rnd = Done (ok, s', rnd') ->
    placed s s' /\
    (rect (width s) (height s) (grid s) -> zoneFree ex ey (grid s) ->
     rect (width s) (height s) (grid s') /\ zoneFree ex ey (grid s')) /\
    (ok = true -> _simulateSolve fuel s (grid s') ex ey = Done true) /\
    (ok = false -> exists rnd0, _placeMinesRandomly fuel s ex ey rnd0 = Done (s', rnd')).
Proof.
  induction attempts as [|n IH]; intros rnd ok s' rnd' H; simpl in H.
  - inv_bind H. destruct a as [s1 rnd1]. injection H as <- <- <-.
    pose proof (placeMinesRandomly_spec _ _ _ _ _ _ _ Ha) as [Hp Hrest].
    split; [done|]. split; [|split; [done|eauto]].
    intros Hr Hz. destruct (Hrest Hr Hz) as (? & ? & _). done.
  - inv_bind H. destruct a as [[g1 tm] rnd1]. inv_bind H. rename a into tg.
    inv_bind H. rename a into solved. destruct solved.
    + injection H as <- <- <-. split; [done|]. simpl.
      apply placeLoop_spec in Ha as (Hr1 & Hz1 & _);
        [|apply rect_replicate|apply zoneFree_replicate].
      apply calculateNumbersIn_spec in Ha0 as [Hr2 Hs].
      split; [|split; [done|done]]. intros _ _.
      split; [by apply Hr2|by eapply sameMines_zoneFree].
    + by eapply IH.
Qed.

Lemma generateSolvableBoard_spec fuel s ex ey rnd ok s' rnd' :
  _generateSolvableBoard fuel s ex ey rnd = Done (ok, s', rnd') ->
  placed s s' /\
  (rect (width s) (height s) (grid s) -> zoneFree ex ey (grid s) ->
   rect (width s) (height s) (grid s') /\ zoneFree ex ey (grid s')) /\
  (ok = true -> _simulateSolve fuel s (grid s') ex ey = Done true) /\
  (ok = false -> exists rnd0, _placeMinesRandomly fuel s ex ey rnd0 = Done (s', rnd')).
Proof. apply generateLoop_spec. Qed.

(** The two ways of placing mines that [handleFirstClick] chooses from. *)
Definition placeMines (fuel : nat) (s : SapperGame) (x y : Z) (rnd : rng)
    : outcome (bool * SapperGame * rng) :=
  if noGuess s then _generateSolvableBoard fuel s x y rnd
  else '(s', rnd') <- _placeMinesRandomly fuel s x y rnd; Done (true, s', rnd').

Lemma handleFirstClick_eq fuel s x y rnd :
  handleFirstClick fuel s x y rnd =
  if minesPlaced s then Done ({| fc_success := false; fc_revealed := [] |}, s, rnd) else
  '(success, s1, rnd') <- placeMines fuel s x y rnd;
  '(result, s3) <- revealCell fuel (with_minesPlaced s1 true) x y;
  Done ({| fc_success := success; fc_revealed := r_revealed result |}, s3, rnd').
Proof. reflexivity. Qed.

Lemma placeMines_spec fuel s x y rnd ok s' rnd' :
  placeMines fuel s x y rnd = Done (ok, s', rnd') ->
  placed s s' /\
  (rect (width s) (height s) (grid s) -> zoneFree x y (grid s) ->
   rect (width s) (height s) (grid s') /\ zoneFree x y (grid s')).
Proof.
  unfold placeMines. destruct (noGuess s).
  - intros H. apply generateSolvableBoard_spec in H. tauto.
  - intros H. inv_bind H. destruct a as [s1 rnd1]. injection H as <- <- <-.
    apply placeMinesRandomly_spec in Ha as [Hp Hrest]. split; [done|].
    intros Hr Hz. destruct (Hrest Hr Hz) as (? & ? & _). done.
Qed.

Lemma placed_wf s s' :
  placed s s' -> rect (width s) (height s) (grid s') -> wf s -> wf (with_minesPlaced s' true).
Proof.
  intros E Hr (_ & Hrv & Hfl). rewrite E in *. simpl in *. done.
Qed.

(** A cell of the exclusion zone of a zone-free, rectangular grid is not
    reported as a mine. *)
Lemma isMine_zoneFree s ex ey x y :
  rect (width s) (height s) (grid s) -> zoneFree ex ey (grid s) ->
  inZone ex ey x y -> isMine s x y = Done false.
Proof.
  intros Hr Hz Hin. unfold isMine. destruct (_inBounds s x y) eqn:Hb; [|done].
  apply inBounds_spec in Hb as [Hx Hy]. cbn [negb].
  destruct (at2_rect _ _ _ x y Hr Hx Hy) as [v Hv]. rewrite Hv. cbn [bind].
  destruct (Z.eqb_spec v (-1)) as [->|]; [|done]. by apply Hz in Hv.
Qed.

Lemma revealCell_no_hit fuel s x y r s' :
  revealCell fuel s x y = Done (r, s') -> isMine s x y = Done false -> r_hit r = false.
Proof.
  unfold revealCell. destruct (gameOver s); [by intros [= <- <-]|].
  intros H Hm. inv_bind H. destruct a as [[hit s1] rev]. destruct hit.
  - apply revealCellRecursive_hit in Ha as (Hin & _ & _ & Hg).
    unfold isMine in Hm. rewrite Hin, Hg in Hm. done.
  - inv_bind H. by injection H as <- <-.
Qed.

(** ** Reachable boards *)

(** The boards that a caller can obtain from a constructed game by calling
    the public methods; a call that raises or is not followed to its end
    yields no board. *)
Inductive reachable : SapperGame -> Prop :=
  | reach_new options : reachable (constructor options)
  | reach_initGrid s : reachable s -> reachable (initGrid s)
  | reach_handleFirstClick s fuel x y rnd r s' rnd' :
      reachable s -> handleFirstClick fuel s x y rnd = Done (r, s', rnd') -> reachable s'
  | reach_revealCell s fuel x y r s' :
      reachable s -> revealCell fuel s x y = Done (r, s') -> reachable s'
  | reach_toggleFlag s x y r s' :
      reachable s -> toggleFlag s x y = Done (r, s') -> reachable s'
  | reach_chordReveal s fuel x y r s' :
      reachable s -> chordReveal fuel s x y = Done (r, s') -> reachable s'.

Lemma handleFirstClick_first fuel s x y rnd r s' rnd' :
  handleFirstClick fuel s x y rnd = Done (r, s', rnd') -> minesPlaced s = false ->
  exists ok s1 res,
    placeMines fuel s x y rnd = Done (ok, s1, rnd') /\
    revealCell fuel (with_minesPlaced s1 true) x y = Done (res, s') /\
    r = {| fc_success := ok; fc_revealed := r_revealed res |}.
Proof.
  rewrite handleFirstClick_eq. intros H Hmp. rewrite Hmp in H.
  inv_bind H. destruct a as [[ok s1] rnd1]. inv_bind H. destruct a as [res s3].
  injection H as <- <- <-. eauto 10.
Qed.

Lemma handleFirstClick_again fuel s x y rnd :
  minesPlaced s = true ->
  handleFirstClick fuel s x y rnd
  = Done ({| fc_success := false; fc_revealed := [] |}, s, rnd).
Proof. rewrite handleFirstClick_eq. by intros ->. Qed.

Lemma playStep_minesPlaced s s' : playStep s s' -> minesPlaced s' = minesPlaced s.
Proof. intros [E _]. by rewrite E. Qed.

Lemma flagInv_handleFirstClick fuel s x y rnd r s' rnd' :
  handleFirstClick fuel s x y rnd = Done (r, s', rnd') -> flagInv s -> flagInv s'.
Proof.
  intros H Hinv. destruct (minesPlaced s) eqn:Hmp.
  - rewrite handleFirstClick_again in H by done. by injection H as <- <- <-.
  - apply handleFirstClick_first in H as (ok & s1 & res & Hpl & Hrev & _); [|done].
    apply placeMines_spec in Hpl as [E _]. apply revealCell_playStep in Hrev.
    eapply flagInv_playStep; [exact Hrev|]. rewrite E. exact Hinv.
Qed.

Lemma reachable_flagInv s : reachable s -> flagInv s.
Proof.
  induction 1 as [o|s _ _|s fuel x y rnd r s' rnd' _ IH H|s fuel x y r s' _ IH H
                  |s x y r s' _ IH H|s fuel x y r s' _ IH H].
  - apply flagInv_constructor.
  - apply flagInv_initGrid.
  - by eapply flagInv_handleFirstClick.
  - eapply flagInv_playStep; [|exact IH]. by eapply revealCell_playStep.
  - by eapply flagInv_toggleFlag.
  - eapply flagInv_playStep; [|exact IH]. by eapply chordReveal_playStep.
Qed.

(** The public queries agree with the arrays on in-bounds cells. *)
Lemma isFlagged_true s x y : isFlagged s x y = Done true -> at2 (flagged s) x y = Done true.
Proof. unfold isFlagged. by destruct (_inBounds s x y). Qed.

Lemma isRevealed_true s x y : isRevealed s x y = Done true -> at2 (revealed s) x y = Done true.
Proof. unfold isRevealed. by destruct (_inBounds s x y). Qed.

Lemma isMine_true s x y :
  isMine s x y = Done true -> _inBounds s x y = true /\ at2 (grid s) x y = Done (-1).
Proof.
  unfold isMine. destruct (_inBounds s x y); [|done]. cbn [negb]. intros H.
  inv_bind H. injection H as H. apply Z.eqb_eq in H as ->. done.
Qed.

Lemma isRevealed_false s x y :
  _inBounds s x y = true -> isRevealed s x y = Done false ->
  at2 (revealed s) x y = Done false.
Proof. unfold isRevealed. by intros ->. Qed.

Lemma isFlagged_false s x y :
  _inBounds s x y = true -> isFlagged s x y = Done false ->
  at2 (flagged s) x y = Done false.
Proof. unfold isFlagged. by intros ->. Qed.

(** Revealing a hidden, unflagged mine of a live game: the game is lost and
    the clicked cell is the one cell revealed. *)
Lemma revealCell_mine fuel s x y :
  gameOver s = false -> isMine s x y = Done true ->
  isRevealed s x y = Done false -> isFlagged s x y = Done false ->
  exists rv,
    set2 (revealed s) x y true = Done rv /\
    revealCell (S fuel) s x y =
      Done ({| r_hit := true; r_revealed := [(x, y)]; r_won := false; r_lost := true |},
            with_over (with_revealed s rv) true false).
Proof.
  intros Hgo [Hin Hg]%isMine_true Hr Hf.
  apply isRevealed_false in Hr; [|done]. apply isFlagged_false in Hf; [|done].
  destruct (revealCellRecursive_mine fuel s x y [] Hin Hr Hf Hg) as (rv & Hset & Hrec).
  exists rv. split; [done|]. unfold revealCell. rewrite Hgo, Hrec. done.
Qed.

(** ** Chord reveal *)

(** The in-bounds neighbors of [(x, y)] that carry no flag, in the order of
    the neighbor loops. *)
Definition unflaggedNeighbors (s : SapperGame) (x y : Z) : list (Z * Z) :=
  List.filter (fun n : Z * Z =>
                 _inBounds s n.1 n.2 &&
                 match at2 (flagged s) n.1 n.2 with
                 | Done false => true
                 | _ => false
                 end)
              ((fun d : Z * Z => (x + d.1, y + d.2)) <$> offsets).

(** One [revealCell] call of a chord, with the bookkeeping of its result. *)
Definition revealOne (fuel : nat) (st : SapperGame * list (Z * Z) * bool) (n : Z * Z)
    : outcome (SapperGame * list (Z * Z) * bool) :=
  '(result, s') <- revealCell fuel st.1.1 n.1 n.2;
  Done (s', st.1.2 ++ r_revealed result, st.2 || r_hit result).

Lemma playStep_frame s s' :
  playStep s s' ->
  flagged s' = flagged s /\ grid s' = grid s /\ width s' = width s /\ height s' = height s.
Proof. intros [E _]. by rewrite E. Qed.

(** The neighbor loop of [chordReveal] calls [revealCell] on exactly the
    unflagged neighbors. *)
Lemma chordLoop_revealOne fuel s x y (l : list (Z * Z)) :
  forall st, wf st.1.1 -> playStep s st.1.1 ->
    foldM (chordStep fuel x y) l st =
    foldM (revealOne fuel)
          (List.filter (fun n : Z * Z =>
                          _inBounds s n.1 n.2 &&
                          match at2 (flagged s) n.1 n.2 with
                          | Done false => true
                          | _ => false
                          end)
                       ((fun d : Z * Z => (x + d.1, y + d.2)) <$> l)) st.
Proof.
  induction l as [|d l IH]; intros [[s1 all] hit] Hwf Hps; [done|].
  simpl in Hwf, Hps. pose proof (playStep_frame _ _ Hps) as (Hfl & _ & Hw & Hh).
  cbn [foldM fmap list_fmap List.filter]. cbn [fst snd].
  assert (_inBounds s1 (x + d.1) (y + d.2) = _inBounds s (x + d.1) (y + d.2)) as Hb
    by (unfold _inBounds; by rewrite Hw, Hh).
  unfold chordStep at 1. cbv beta iota zeta. rewrite Hb, Hfl.
  destruct (_inBounds s (x + d.1) (y + d.2)) eqn:Hin; cbn [negb andb bind].
  2:{ by apply IH. }
  pose proof Hwf as (_ & _ & Hrf). rewrite Hfl, Hw, Hh in Hrf.
  apply inBounds_spec in Hin as [Hx Hy].
  destruct (at2_rect _ _ _ _ _ Hrf Hx Hy) as [f ->]. cbn [bind].
  destruct f.
  { by apply IH. }
  assert (revealOne fuel (s1, all, hit) (x + d.1, y + d.2) =
          ('(result, s') <- revealCell fuel s1 (x + d.1) (y + d.2);
           Done (s', all ++ r_revealed result, hit || r_hit result))) as Hone
    by reflexivity.
  cbn [foldM]. rewrite Hone.
  destruct (revealCell fuel s1 (x + d.1) (y + d.2)) as [[res s2]| |] eqn:Hrev;
    [|reflexivity..].
  cbn [bind]. apply revealCell_playStep in Hrev. apply IH.
  - simpl. eapply playStep_wf; [exact Hrev|exact Hwf].
  - simpl. by eapply playStep_trans.
Qed.

Lemma chordReveal_eq fuel s x y :
  chordReveal fuel s x y =
  if gameOver s then Done (noEffect, s) else
  if negb (_inBounds s x y) then Done (noEffect, s) else
  r <- at2 (revealed s) x y;
  g <- (if negb r then Done 0 else at2 (grid s) x y);
  if negb r || (g <=? 0) then Done (noEffect, s) else
  adjacentFlags <- _countAdjacentFlags s x y;
  if negb (Z.of_nat adjacentFlags =? g) then Done (noEffect, s) else
  '(s', allRevealed, hitMine) <- foldM (chordStep fuel x y) offsets (s, [], false);
  Done ({| r_hit := hitMine; r_revealed := allRevealed; r_won := won s';
           r_lost := hitMine |}, s').
Proof. reflexivity. Qed.

(** A chord has no effect unless the cell is revealed, numbered and
    surrounded by as many flags as its number. *)
Lemma chordReveal_noop fuel s x y r s' :
  chordReveal fuel s x y = Done (r, s') ->
  ~ (isRevealed s x y = Done true /\
     exists g, getCell s x y = Done (Some g) /\ 0 < g /\
               _countAdjacentFlags s x y = Done (Z.to_nat g)) ->
  r = noEffect /\ s' = s.
Proof.
  rewrite chordReveal_eq. intros H Hcond.
  destruct (gameOver s); [by injection H as <- <-|].
  destruct (_inBounds s x y) eqn:Hin; cbn [negb] in H; [|by injection H as <- <-].
  inv_bind H. rename a into rv. rename Ha into Hrv.
  inv_bind H. rename a into g. rename Ha into Hg.
  destruct rv; cbn [negb orb] in H, Hg; [|by injection H as <- <-].
  destruct (Z.leb_spec g 0) as [Hle|Hlt]; [by injection H as <- <-|].
  inv_bind H. rename a into fl. rename Ha into Hfl.
  destruct (Z.eqb_spec (Z.of_nat fl) g) as [Heq|Hne]; cbn [negb] in H;
    [|by injection H as <- <-].
  exfalso. apply Hcond. unfold isRevealed, getCell. rewrite Hin. cbn [negb].
  split; [done|]. exists g. rewrite Hg. cbn [bind]. split; [done|]. split; [done|].
  rewrite Hfl. f_equal. lia.
Qed.

(** When the condition holds, a chord is the sequence of [revealCell] calls
    on the unflagged neighbors. *)
Lemma chordReveal_fires fuel s x y g :
  wf s -> gameOver s = false ->
  isRevealed s x y = Done true -> getCell s x y = Done (Some g) -> 0 < g ->
  _countAdjacentFlags s x y = Done (Z.to_nat g) ->
  chordReveal fuel s x y =
  ('(s', allRevealed, hitMine) <-
     foldM (revealOne fuel) (unflaggedNeighbors s x y) (s, [], false);
   Done ({| r_hit := hitMine; r_revealed := allRevealed; r_won := won s';
            r_lost := hitMine |}, s')).
Proof.
  intros Hwf Hgo Hrv Hg Hpos Hfl. rewrite chordReveal_eq, Hgo.
  unfold isRevealed in Hrv. unfold getCell in Hg.
  destruct (_inBounds s x y); [|done]. cbn [negb] in *. rewrite Hrv. cbn [bind].
  inv_bind Hg. injection Hg as ->. rewrite Ha. cbn [bind negb orb].
  destruct (Z.leb_spec g 0); [lia|]. rewrite Hfl. cbn [bind].
  rewrite Z2Nat.id by lia. rewrite Z.eqb_refl. cbn [negb].
  rewrite (chordLoop_revealOne fuel s x y offsets); [done|done|apply playStep_refl].
Qed.

Lemma revealCell_over fuel s x y : gameOver s = true -> revealCell fuel s x y = Done (noEffect, s).
Proof. unfold revealCell. by intros ->. Qed.

Lemma revealOne_playStep fuel st n st' :
  revealOne fuel st n = Done st' -> playStep st.1.1 st'.1.1.
Proof.
  unfold revealOne. intros H. inv_bind H. destruct a as [res s1]. injection H as <-.
  by eapply revealCell_playStep.
Qed.

Lemma revealEach_playStep fuel l : forall st st',
  foldM (revealOne fuel) l st = Done st' -> playStep st.1.1 st'.1.1.
Proof.
  intros st st' H.
  eapply (foldM_inv (fun st1 => playStep st.1.1 st1.1.1)) in H; [exact H| |apply playStep_refl].
  intros st1 n st2 _ H1 H2. eapply playStep_trans; [exact H1|]. by eapply revealOne_playStep.
Qed.

Lemma playStep_revealed_keeps s s' x y :
  playStep s s' -> at2 (revealed s) x y = Done true -> at2 (revealed s') x y = Done true.
Proof.
  intros [_ [_ G]] Hr. destruct (G x y) as [_ Hd].
  destruct (Hd true Hr) as (b' & -> & Hm & _). f_equal. auto.
Qed.

(** A cell under a flag keeps its reveal state through player actions. *)
Lemma playStep_flagged_keeps s s' x y :
  playStep s s' -> at2 (flagged s) x y = Done true ->
  at2 (revealed s') x y = at2 (revealed s) x y.
Proof.
  intros [_ [_ G]] Hf. destruct (G x y) as [He Hd].
  destruct (at2_cases (revealed s) x y) as [[b Hb]|Hb].
  - destruct (Hd b Hb) as (b' & -> & Hm & Hn). rewrite Hb. f_equal.
    destruct b', b; try done.
    + destruct (Hn eq_refl) as [?|?]; [done|congruence].
    + by specialize (Hm eq_refl).
  - by rewrite Hb, (He Hb).
Qed.

(** If the game is still live after the calls, every listed cell that is
    in bounds and unflagged has been revealed. *)
Lemma revealEach_reveals fuel (l : list (Z * Z)) : forall st st',
  foldM (revealOne fuel) l st = Done st' -> gameOver st'.1.1 = false ->
  forall n, n ∈ l -> _inBounds st.1.1 n.1 n.2 = true ->
    at2 (flagged st.1.1) n.1 n.2 = Done false ->
    at2 (revealed st'.1.1) n.1 n.2 = Done true.
Proof.
  induction l as [|m l IH]; intros st st' H Hlive n Hn Hin Hfl;
    [by apply elem_of_nil in Hn|].
  cbn [foldM] in H. inv_bind H. rename a into st1.
  pose proof (revealOne_playStep _ _ _ _ Ha) as Hps1.
  pose proof (revealEach_playStep _ _ _ _ H) as Hps2.
  pose proof (playStep_frame _ _ Hps1) as (Hf1 & _ & Hw1 & Hh1).
  assert (gameOver st1.1.1 = false) as Hlive1.
  { destruct (gameOver st1.1.1) eqn:Hover; [|done].
    assert (forall l st2, gameOver st2.1.1 = true ->
              forall st3, foldM (revealOne fuel) l st2 = Done st3 -> st3.1.1 = st2.1.1)
      as Hstay.
    { clear. induction l as [|k l IHl]; intros st2 Ho st3 H3.
      - by injection H3 as <-.
      - cbn [foldM] in H3. unfold revealOne at 1 in H3.
        rewrite revealCell_over in H3 by done. cbn [bind] in H3.
        apply IHl in H3; [|done]. by rewrite H3. }
    rewrite (Hstay _ _ Hover _ H) in Hlive. congruence. }
  apply elem_of_cons in Hn as [->|Hn].
  - eapply playStep_revealed_keeps; [exact Hps2|].
    unfold revealOne in Ha. inv_bind Ha. destruct a as [res s1]. injection Ha as <-.
    simpl in *. unfold revealCell in Ha0.
    destruct (gameOver st.1.1) eqn:Hgo.
    { injection Ha0 as <- <-. congruence. }
    inv_bind Ha0. destruct a as [[h s2] rev].
    pose proof (revealCellRecursive_self _ _ _ _ _ _ _ _ Ha Hin Hfl) as Hself.
    destruct h.
    + injection Ha0 as <- <-. done.
    + inv_bind Ha0. injection Ha0 as <- <-. by destruct a.
  - eapply IH; [exact H|done|done| |].
    + unfold _inBounds in *. by rewrite Hw1, Hh1.
    + by rewrite Hf1.
Qed.

(** ** The first click on a fresh board *)

Lemma handleFirstClick_fresh fuel s0 x y rnd r s' rnd' :
  handleFirstClick fuel (initGrid s0) x y rnd = Done (r, s', rnd') ->
  exists ok s1 res,
    placeMines fuel (initGrid s0) x y rnd = Done (ok, s1, rnd') /\
    revealCell fuel (with_minesPlaced s1 true) x y = Done (res, s') /\
    r = {| fc_success := ok; fc_revealed := r_revealed res |} /\
    wf (with_minesPlaced s1 true) /\ zoneFree x y (grid s1) /\
    grid s' = grid s1 /\ width s' = width s0 /\ height s' = height s0 /\
    minesPlaced s' = true /\ r_hit res = false.
Proof.
  intros H. apply handleFirstClick_first in H as (ok & s1 & res & Hpl & Hrev & ->); [|done].
  exists ok, s1, res. split; [done|]. split; [done|]. split; [done|].
  pose proof (placeMines_spec _ _ _ _ _ _ _ _ Hpl) as [E Hgrid].
  destruct Hgrid as [Hr Hz]; [apply rect_replicate|apply zoneFree_replicate|].
  simpl in Hr.
  assert (wf (with_minesPlaced s1 true)) as Hwf.
  { eapply placed_wf; [exact E|exact Hr|apply initGrid_wf]. }
  pose proof (revealCell_playStep _ _ _ _ _ _ Hrev) as Hps.
  pose proof (playStep_frame _ _ Hps) as (_ & Hg & Hw & Hh).
  pose proof (playStep_minesPlaced _ _ Hps) as Hmp.
  split; [done|]. split; [done|]. simpl in *.
  split; [done|]. rewrite Hw, Hh, E. simpl. split; [done|]. split; [done|].
  split; [done|].
  eapply revealCell_no_hit; [exact Hrev|].
  apply (isMine_zoneFree _ x y).
  - destruct Hwf as (Hwg & _). exact Hwg.
  - exact Hz.
  - split; rewrite Z.sub_diag; simpl; lia.
Qed.

(** First-click safety: no mine in the 3x3 block around the click. *)
Lemma firstClick_safe fuel s0 x y rnd r s' rnd' :
  handleFirstClick fuel (initGrid s0) x y rnd = Done (r, s', rnd') ->
  forall dx dy, -1 <= dx <= 1 -> -1 <= dy <= 1 ->
    isMine s' (x + dx) (y + dy) = Done false.
Proof.
  intros H dx dy Hdx Hdy.
  apply handleFirstClick_fresh in H
    as (ok & s1 & res & _ & Hrev & _ & Hwf & Hz & Hg & Hw & Hh & _).
  apply (isMine_zoneFree _ x y).
  - apply revealCell_playStep in Hrev. apply (playStep_wf _ _ Hrev) in Hwf.
    destruct Hwf as (Hwg & _). exact Hwg.
  - by rewrite Hg.
  - split; lia.
Qed.



(** When generation reports failure, the first click completes. *)
Lemma firstClick_fallback fuel s0 x y rnd s1 rnd1 :
  noGuess s0 = true -> (width s0 * height s0 < fuel)%nat ->
  _generateSolvableBoard fuel (initGrid s0) x y rnd = Done (false, s1, rnd1) ->
  exists r s',
    handleFirstClick fuel (initGrid s0) x y rnd = Done (r, s', rnd1) /\
    fc_success r = false /\ minesPlaced s' = true /\ grid s' = grid s1 /\
    mineLocations s' = mineLocations s1 /\ gameOver s' = won s' /\
    exists rnd0, _placeMinesRandomly fuel (initGrid s0) x y rnd0 = Done (s1, rnd1).
Proof.
  intros Hng Hfuel Hgen.
  pose proof (generateSolvableBoard_spec _ _ _ _ _ _ _ _ Hgen) as (E & Hgrid & _ & Hfb).
  destruct Hgrid as [Hr Hz]; [apply rect_replicate|apply zoneFree_replicate|].
  assert (wf (with_minesPlaced s1 true)) as Hwf.
  { eapply placed_wf; [exact E|exact Hr|apply initGrid_wf]. }
  assert (width s1 = width s0 /\ height s1 = height s0 /\ gameOver s1 = false /\ won s1 = false)
    as (Hw & Hh & Hgo & Hwon) by (by rewrite E).
  destruct (revealCell_total fuel (with_minesPlaced s1 true) x y Hwf) as (res & s' & Hrev).
  { simpl. by rewrite Hw, Hh. }
  exists {| fc_success := false; fc_revealed := r_revealed res |}, s'.
  split.
  { rewrite handleFirstClick_eq. simpl minesPlaced. cbv iota.
    unfold placeMines. simpl noGuess. rewrite Hng, Hgen. cbn [bind]. rewrite Hrev. done. }
  split; [done|]. pose proof (revealCell_playStep _ _ _ _ _ _ Hrev) as Hps.
  pose proof (playStep_frame _ _ Hps) as (_ & Hg & _).
  split; [by rewrite (playStep_minesPlaced _ _ Hps)|]. split; [done|].
  split; [destruct Hps as [Es _]; by rewrite Es|].
  split; [|by apply Hfb].
  assert (r_hit res = false) as Hnohit.
  { eapply revealCell_no_hit; [exact Hrev|]. apply (isMine_zoneFree _ x y).
    - destruct Hwf as (Hwg & _). exact Hwg.
    - exact Hz.
    - split; rewrite Z.sub_diag; simpl; lia. }
  destruct (revealCell_result _ _ _ _ _ _ Hrev Hgo)
    as [(Hhit & _)|(_ & _ & Hover & Hw1 & Hw0)]; [congruence|].
  rewrite Hover. destruct (r_won res); [by rewrite Hw1|]. rewrite Hw0 by done. done.
Qed.

(** ** Queries outside the board *)

Lemma outside_inBounds s x y :
  ~ (0 <= x < Z.of_nat (width s) /\ 0 <= y < Z.of_nat (height s)) ->
  _inBounds s x y = false.
Proof.
  intros H. destruct (_inBounds s x y) eqn:E; [|done]. by apply inBounds_spec in E.
Qed.

Lemma queries_outside s x y :
  _inBounds s x y = false ->
  getCell s x y = Done None /\ isRevealed s x y = Done false /\
  isFlagged s x y = Done false /\ isMine s x y = Done false.
Proof. intros H. unfold getCell, isRevealed, isFlagged, isMine. by rewrite H. Qed.

End SapperFacts.

Lemma insert_Permutation {A} (l : list A) (i : nat) (x v : A) :
  l !! i = Some x -> <[i := v]> l ≡ₚ v :: delete i l.
Proof.
  intros Hi. pose proof (lookup_lt_Some _ _ _ Hi) as Hlt.
  rewrite insert_take_drop by done. rewrite delete_take_drop.
  by rewrite <- Permutation_middle.
Qed.

(** * Facts about sappershapes.js *)

Module ShapesFacts.
Import SapperShapes.

#[global] Arguments initGrid : simpl never.

(** How a reveal changes a cell object: only [revealed] may change, from
    [false] to [true], and only without a flag. *)
Definition cellGrows (c c' : Cell) : Prop :=
  mine c' = mine c /\ flagged c' = flagged c /\ count c' = count c /\
  (revealed c = true -> revealed c' = true) /\
  (revealed c' = true -> revealed c = true \/ flagged c = false).

Definition grows (m m' : gmap (Z * Z) Cell) : Prop :=
  forall k, match m !! k, m' !! k with
            | Some c, Some c' => cellGrows c c'
            | None, None => True
            | _, _ => False
            end.

Lemma shapes_grows_refl m : grows m m.
Proof. intros k. destruct (m !! k); [|done]. repeat split; auto. Qed.

Lemma shapes_grows_trans m1 m2 m3 : grows m1 m2 -> grows m2 m3 -> grows m1 m3.
Proof.
  intros H1 H2 k. specialize (H1 k). specialize (H2 k).
  destruct (m1 !! k) as [c1|], (m2 !! k) as [c2|], (m3 !! k) as [c3|]; try done.
  destruct H1 as (Hm1 & Hf1 & Hc1 & Hr1 & Hn1), H2 as (Hm2 & Hf2 & Hc2 & Hr2 & Hn2).
  repeat split; try congruence; [auto|].
  intros H3. destruct (Hn2 H3) as [H|H]; [auto|]. right. congruence.
Qed.

Lemma grows_reveal m k c :
  m !! k = Some c -> revealed c = false -> flagged c = false ->
  grows m (<[k := setRevealed c true]> m).
Proof.
  intros Hk Hr Hf k'. destruct (decide (k = k')) as [<-|Hne].
  - rewrite lookup_insert_eq, Hk. repeat split; simpl; auto.
  - rewrite lookup_insert_ne by done. destruct (m !! k'); [|done]. repeat split; auto.
Qed.

Definition revealStep (s s' : SapperShapesGame) : Prop :=
  s' = with_cells s (cells s') /\ grows (cells s) (cells s').

Lemma shapes_revealStep_refl s : revealStep s s.
Proof. split; [by destruct s|apply shapes_grows_refl]. Qed.

Lemma shapes_revealStep_trans s1 s2 s3 : revealStep s1 s2 -> revealStep s2 s3 -> revealStep s1 s3.
Proof.
  intros [E1 G1] [E2 G2]. split.
  - rewrite E2 at 1. rewrite E1. done.
  - eapply shapes_grows_trans; [done|]. rewrite E1 in G2. done.
Qed.

Lemma cellAt_Done {C} (m : gmap (Z * Z) C) x y c :
  cellAt m x y = Done c <-> m !! (x, y) = Some c.
Proof. unfold cellAt. destruct (m !! (x, y)); split; congruence. Qed.

Lemma shapes_revealCellRecursive_eq (fuel : nat) s x y acc :
  _revealCellRecursive (S fuel) s x y acc =
    if negb (Grid.isInBounds (grid s) x y) then Done (false, s, acc) else
    cell <- cellAt (cells s) x y;
    if revealed cell || flagged cell then Done (false, s, acc) else
    let cell1 := setRevealed cell true in
    let s1 := with_cells s (<[(x, y) := cell1]> (cells s)) in
    let acc1 := acc ++ [(x, y)] in
    if mine cell1 then Done (true, s1, acc1) else
    if (count cell1 =? 0)%nat then
      '(s2, acc2) <-
        foldM (fun (st : SapperShapesGame * list (Z * Z)) (n : Z * Z) =>
                 '(_, s', acc') <- _revealCellRecursive fuel st.1 n.1 n.2 st.2;
                 Done (s', acc'))
              (_getNeighbors s x y) (s1, acc1);
      Done (false, s2, acc2)
    else Done (false, s1, acc1).
Proof. reflexivity. Qed.

Lemma shapes_revealCellRecursive_step (fuel : nat) :
  forall s x y acc hit s' acc',
    _revealCellRecursive fuel s x y acc = Done (hit, s', acc') -> revealStep s s'.
Proof.
  induction fuel as [|fuel IH]; intros s x y acc hit s' acc' H; [done|].
  rewrite shapes_revealCellRecursive_eq in H.
  destruct (Grid.isInBounds (grid s) x y); cbn [negb] in H;
    [|injection H as <- <- <-; apply shapes_revealStep_refl].
  inv_bind H. rename a into cell. apply cellAt_Done in Ha.
  destruct (revealed cell) eqn:Hr; [injection H as <- <- <-; apply shapes_revealStep_refl|].
  destruct (flagged cell) eqn:Hf; [injection H as <- <- <-; apply shapes_revealStep_refl|].
  cbn [orb] in H. cbv zeta in H.
  assert (revealStep s (with_cells s (<[(x, y) := setRevealed cell true]> (cells s))))
    as Hstep1.
  { split; [done|]. simpl. by apply grows_reveal. }
  destruct (mine (setRevealed cell true)); [injection H as <- <- <-; done|].
  destruct (count (setRevealed cell true) =? 0)%nat; [|injection H as <- <- <-; done].
  inv_bind H. destruct a as [s2 acc2]. injection H as <- <- <-.
  eapply (foldM_inv (fun st => revealStep s st.1)) in Ha0; [exact Ha0| |exact Hstep1].
  intros [sa acca] d st' _ Hsa Hbody. cbn [fst snd] in *.
  inv_bind Hbody. destruct a as [[h sb] accb]. injection Hbody as <-.
  cbn [fst]. eapply shapes_revealStep_trans; [exact Hsa|]. eapply IH. exact Ha1.
Qed.

(** A completed reveal of an in-bounds cell without a flag leaves the cell
    revealed. *)
Lemma shapes_revealCellRecursive_self (fuel : nat) s x y acc hit s' acc' c :
  _revealCellRecursive fuel s x y acc = Done (hit, s', acc') ->
  Grid.isInBounds (grid s) x y = true -> cells s !! (x, y) = Some c -> flagged c = false ->
  exists c', cells s' !! (x, y) = Some c' /\ revealed c' = true.
Proof.
  intros H Hin Hc Hfl.
  assert (forall s1 c1, cells s1 !! (x, y) = Some c1 -> revealed c1 = true ->
            forall s2, revealStep s1 s2 ->
            exists c', cells s2 !! (x, y) = Some c' /\ revealed c' = true) as Hkeep.
  { intros s1 c1 Hc1 Hr1 s2 [_ G]. specialize (G (x, y)). rewrite Hc1 in G.
    destruct (cells s2 !! (x, y)) as [c2|]; [|done]. exists c2. split; [done|].
    destruct G as (_ & _ & _ & Hm & _). auto. }
  destruct fuel as [|fuel]; [done|].
  rewrite shapes_revealCellRecursive_eq, Hin in H. cbn [negb] in H.
  unfold cellAt in H. rewrite Hc in H. cbn [bind] in H.
  destruct (revealed c) eqn:Hr.
  { injection H as <- <- <-. eauto. }
  rewrite Hfl in H. cbn [orb] in H. cbv zeta in H.
  assert (cells (with_cells s (<[(x, y) := setRevealed c true]> (cells s))) !! (x, y)
          = Some (setRevealed c true)) as Hnew by apply lookup_insert_eq.
  destruct (mine (setRevealed c true));
    [injection H as <- <- <-; eapply Hkeep; eauto using shapes_revealStep_refl|].
  destruct (count (setRevealed c true) =? 0)%nat;
    [|injection H as <- <- <-; eapply Hkeep; eauto using shapes_revealStep_refl].
  inv_bind H. destruct a as [s2 acc2]. injection H as <- <- <-.
  eapply Hkeep; [exact Hnew|done|].
  eapply (foldM_inv (fun st => revealStep _ st.1)) in Ha; [exact Ha| |apply shapes_revealStep_refl].
  intros [sa acca] d st' _ Hsa Hbody. cbn [fst snd] in *.
  inv_bind Hbody. destruct a as [[h sb] accb]. injection Hbody as <-.
  cbn [fst]. eapply shapes_revealStep_trans; [exact Hsa|]. eapply shapes_revealCellRecursive_step. exact Ha0.
Qed.

Lemma shapes_revealCellRecursive_hit (fuel : nat) s x y acc s' acc' :
  _revealCellRecursive fuel s x y acc = Done (true, s', acc') ->
  Grid.isInBounds (grid s) x y = true /\
  exists c, cells s !! (x, y) = Some c /\ revealed c = false /\ flagged c = false /\
            mine c = true /\
            s' = with_cells s (<[(x, y) := setRevealed c true]> (cells s)) /\
            acc' = acc ++ [(x, y)].
Proof.
  destruct fuel as [|fuel]; [done|]. rewrite shapes_revealCellRecursive_eq.
  destruct (Grid.isInBounds (grid s) x y); cbn [negb]; [|done]. intros H.
  inv_bind H. rename a into c. apply cellAt_Done in Ha.
  destruct (revealed c) eqn:Hr; [done|]. destruct (flagged c) eqn:Hf; [done|].
  cbn [orb] in H. cbv zeta in H. simpl mine in H.
  destruct (mine c) eqn:Hm.
  - injection H as <- <-. split; [done|]. exists c. done.
  - simpl count in H. destruct (count c =? 0)%nat; [|done]. inv_bind H. by destruct a.
Qed.

Lemma shapes_revealCellRecursive_mine (fuel : nat) s x y acc c :
  Grid.isInBounds (grid s) x y = true -> cells s !! (x, y) = Some c ->
  revealed c = false -> flagged c = false -> mine c = true ->
  _revealCellRecursive (S fuel) s x y acc =
    Done (true, with_cells s (<[(x, y) := setRevealed c true]> (cells s)), acc ++ [(x, y)]).
Proof.
  intros Hin Hc Hr Hf Hm. rewrite shapes_revealCellRecursive_eq, Hin. cbn [negb].
  unfold cellAt. rewrite Hc. cbn [bind]. rewrite Hr, Hf. cbn [orb]. cbv zeta.
  simpl mine. rewrite Hm. done.
Qed.

(** The keys of the cells that a reveal can still change. *)
Definition hiddenSet (m : gmap (Z * Z) Cell) : gset (Z * Z) :=
  dom (filter (fun kc : Z * Z * Cell => revealed kc.2 = false) m).

Lemma elem_of_hiddenSet m k :
  k ∈ hiddenSet m <-> exists c, m !! k = Some c /\ revealed c = false.
Proof.
  unfold hiddenSet. rewrite elem_of_dom. unfold is_Some.
  setoid_rewrite map_lookup_filter_Some. simpl. split.
  - intros (c & ? & ?). eauto.
  - intros (c & ? & ?). eauto.
Qed.

Lemma grows_hiddenSet m m' : grows m m' -> hiddenSet m' ⊆ hiddenSet m.
Proof.
  intros G k (c' & Hc' & Hr')%elem_of_hiddenSet. apply elem_of_hiddenSet.
  specialize (G k). rewrite Hc' in G. destruct (m !! k) as [c|]; [|done].
  exists c. split; [done|]. destruct G as (_ & _ & _ & Hm & _).
  destruct (revealed c); [|done]. rewrite Hm in Hr'; done.
Qed.

(** Every in-bounds coordinate has a cell object. *)
Definition covered (s : SapperShapesGame) : Prop :=
  forall x y, Grid.isInBounds (grid s) x y = true -> is_Some (cells s !! (x, y)).

Lemma revealStep_covered s s' : revealStep s s' -> covered s -> covered s'.
Proof.
  intros [E G] Hc x y Hin. rewrite E in Hin. simpl in Hin.
  destruct (Hc x y Hin) as [c Hk]. specialize (G (x, y)). rewrite Hk in G.
  destruct (cells s' !! (x, y)); [eauto|done].
Qed.

(** With more fuel than hidden cells the recursion completes. *)
Lemma shapes_revealCellRecursive_total (fuel : nat) :
  forall s x y acc, covered s -> (size (hiddenSet (cells s)) < fuel)%nat ->
    exists hit s' acc', _revealCellRecursive fuel s x y acc = Done (hit, s', acc').
Proof.
  induction fuel as [|fuel IH]; intros s x y acc Hcov Hfuel; [lia|].
  rewrite shapes_revealCellRecursive_eq.
  destruct (Grid.isInBounds (grid s) x y) eqn:Hin; cbn [negb]; [|eauto].
  destruct (Hcov x y Hin) as [c Hc]. unfold cellAt. rewrite Hc. cbn [bind].
  destruct (revealed c) eqn:Hr; [eauto|]. destruct (flagged c) eqn:Hf; [eauto|].
  cbn [orb]. cbv zeta. destruct (mine (setRevealed c true)); [eauto|].
  destruct (count (setRevealed c true) =? 0)%nat; [|eauto].
  set (s1 := with_cells s (<[(x, y) := setRevealed c true]> (cells s))).
  assert (revealStep s s1) as Hstep1.
  { split; [done|]. by apply grows_reveal. }
  assert (size (hiddenSet (cells s1)) < fuel)%nat as Hlt.
  { enough (size (hiddenSet (cells s1)) < size (hiddenSet (cells s)))%nat by lia.
    apply subset_size. split.
    - apply grows_hiddenSet, Hstep1.
    - intros Hsub. assert ((x, y) ∈ hiddenSet (cells s1)) as Hk.
      { apply Hsub, elem_of_hiddenSet. eauto. }
      apply elem_of_hiddenSet in Hk as (c' & Hc' & Hr'). simpl in Hc'.
      rewrite lookup_insert_eq in Hc'. by injection Hc' as <-. }
  match goal with
  | |- context [foldM ?body ?l ?st0] =>
    destruct (fun Hb => foldM_total
      (fun st : SapperShapesGame * list (Z * Z) => revealStep s1 st.1)
      body l Hb st0) as ([s2 acc2] & -> & _);
      [|apply shapes_revealStep_refl|cbn [bind]; eauto]
  end.
  intros [sa acca] d _ Hsa. cbn [fst snd] in *.
  destruct (IH sa d.1 d.2 acca) as (h & sb & accb & Hrec).
  { eapply revealStep_covered; [exact Hsa|]. eapply revealStep_covered; [exact Hstep1|]. done. }
  { destruct Hsa as [_ G]. apply grows_hiddenSet, subseteq_size in G. lia. }
  rewrite Hrec. cbn [bind]. eexists. split; [done|]. cbn [fst].
  eapply shapes_revealStep_trans; [exact Hsa|]. eapply shapes_revealCellRecursive_step. exact Hrec.
Qed.

Lemma size_hiddenSet_le m : (size (hiddenSet m) <= size m)%nat.
Proof.
  unfold hiddenSet. rewrite size_dom. apply map_subseteq_size, map_filter_subseteq.
Qed.

(** The loop [for (const pos of this.mineLocations) cell.revealed = true]. *)
Definition revealMines (mines : list (Z * Z)) (m : gmap (Z * Z) Cell)
    : outcome (gmap (Z * Z) Cell) :=
  foldM (fun (m : gmap (Z * Z) Cell) (p : Z * Z) =>
           cell <- cellAt m p.1 p.2;
           Done (<[p := setRevealed cell true]> m))
        mines m.

(** What the loss loop changes: [revealed], of the listed cells only. *)
Definition discloses (mines : list (Z * Z)) (m m' : gmap (Z * Z) Cell) : Prop :=
  forall k, match m !! k, m' !! k with
            | Some c, Some c' =>
              mine c' = mine c /\ flagged c' = flagged c /\ count c' = count c /\
              (revealed c = true -> revealed c' = true) /\
              (k ∈ mines -> revealed c' = true) /\
              (k ∉ mines -> revealed c' = revealed c)
            | None, None => True
            | _, _ => False
            end.

Lemma revealMines_spec mines : forall m m',
  revealMines mines m = Done m' -> discloses mines m m'.
Proof.
  unfold revealMines. induction mines as [|p mines IH]; simpl; intros m m' H.
  - injection H as <-. intros k. destruct (m !! k); [|done].
    split; [done|]. split; [done|]. split; [done|]. split; [done|]. split; [|done].
    intros []%elem_of_nil.
  - inv_bind H. inv_bind Ha. rename a0 into c. injection Ha as <-.
    destruct p as [x y]. apply cellAt_Done in Ha0. simpl in *.
    specialize (IH _ _ H). intros k. specialize (IH k).
    destruct (decide ((x, y) = k)) as [<-|Hne].
    + rewrite lookup_insert_eq in IH. rewrite Ha0.
      destruct (m' !! (x, y)) as [c'|]; [|done].
      destruct IH as (Hm & Hf & Hc & Hr & Hin & Hout). simpl in *.
      assert (revealed c' = true) as Hrc by auto.
      split; [done|]. split; [done|]. split; [done|]. split; [done|]. split; [done|].
      intros Hn. exfalso. apply Hn. by left.
    + rewrite lookup_insert_ne in IH by done.
      destruct (m !! k) as [c0|], (m' !! k) as [c'|]; try done.
      destruct IH as (Hm & Hf & Hc & Hr & Hin & Hout).
      split; [done|]. split; [done|]. split; [done|]. split; [done|]. split.
      * intros [->|Hk]%elem_of_cons; [done|auto].
      * intros Hn. apply Hout. intros Hk. apply Hn. by right.
Qed.

Lemma revealMines_total mines : forall m,
  (forall p, p ∈ mines -> is_Some (m !! p)) -> exists m', revealMines mines m = Done m'.
Proof.
  unfold revealMines. induction mines as [|p mines IH]; simpl; intros m Hm; [eauto|].
  destruct (Hm p) as [c Hc]; [by left|]. destruct p as [x y].
  unfold cellAt at 1. simpl. rewrite Hc. cbn [bind]. apply IH.
  intros q Hq. destruct (decide ((x, y) = q)) as [<-|Hne].
  - rewrite lookup_insert_eq. eauto.
  - rewrite lookup_insert_ne by done. apply Hm. by right.
Qed.

Lemma revealCell_eq fuel s x y :
  revealCell fuel s x y =
  if gameOver s then Done (noEffect, s) else
  '(hit, s1, revealed) <- _revealCellRecursive fuel s x y [];
  if hit then
    let s2 := with_over s1 true false in
    cells' <- revealMines (mineLocations s2) (cells s2);
    Done ({| r_hit := true; r_revealed := revealed; r_won := false; r_lost := true |},
          with_cells s2 cells')
  else
    let won := _checkWin s1 in
    let s2 := if won then with_over s1 true true else s1 in
    Done ({| r_hit := false; r_revealed := revealed; r_won := won; r_lost := false |}, s2).
Proof. reflexivity. Qed.

(** What any player action may do to the cell objects. *)
Definition evolves (m m' : gmap (Z * Z) Cell) : Prop :=
  forall k, match m !! k, m' !! k with
            | Some c, Some c' =>
              mine c' = mine c /\ flagged c' = flagged c /\ count c' = count c /\
              (revealed c = true -> revealed c' = true)
            | None, None => True
            | _, _ => False
            end.

Lemma grows_evolves m m' : grows m m' -> evolves m m'.
Proof.
  intros G k. specialize (G k). destruct (m !! k), (m' !! k); try done.
  destruct G as (? & ? & ? & ? & _). done.
Qed.

Lemma discloses_evolves mines m m' : discloses mines m m' -> evolves m m'.
Proof.
  intros G k. specialize (G k). destruct (m !! k), (m' !! k); try done.
  destruct G as (? & ? & ? & ? & _). done.
Qed.

Lemma evolves_refl m : evolves m m.
Proof. intros k. by destruct (m !! k). Qed.

Lemma evolves_trans m1 m2 m3 : evolves m1 m2 -> evolves m2 m3 -> evolves m1 m3.
Proof.
  intros H1 H2 k. specialize (H1 k). specialize (H2 k).
  destruct (m1 !! k), (m2 !! k), (m3 !! k); try done.
  destruct H1 as (? & ? & ? & ?), H2 as (? & ? & ? & ?).
  repeat split; try congruence. auto.
Qed.

(** The effect of a player action that reveals cells.  A finished game is
    left alone; in a live game only [revealed] and the terminal flags
    change, and a cell revealed under a flag means the game was just lost. *)
Definition playStep (s s' : SapperShapesGame) : Prop :=
  s' = s \/
  (gameOver s = false /\
   s' = with_over (with_cells s (cells s')) (gameOver s') (won s') /\
   evolves (cells s) (cells s') /\
   (grows (cells s) (cells s') \/ (gameOver s' = true /\ won s' = false))).

Lemma shapes_playStep_refl s : playStep s s.
Proof. by left. Qed.

Lemma shapes_playStep_trans s1 s2 s3 : playStep s1 s2 -> playStep s2 s3 -> playStep s1 s3.
Proof.
  intros [->|(Hg1 & E1 & V1 & C1)] [->|(Hg2 & E2 & V2 & C2)]; try (by left).
  - right. done.
  - right. done.
  - right. split; [done|]. split.
    { rewrite E2 at 1. rewrite E1. done. }
    assert (cells s2 = cells (with_over (with_cells s1 (cells s2)) (gameOver s2) (won s2)))
      as Hc by done.
    split; [by eapply evolves_trans|].
    destruct C1 as [G1|[Hover _]]; [|congruence].
    destruct C2 as [G2|L2]; [left; by eapply shapes_grows_trans|by right].
Qed.

Lemma shapes_revealCell_playStep fuel s x y r s' :
  revealCell fuel s x y = Done (r, s') -> playStep s s'.
Proof.
  rewrite revealCell_eq. destruct (gameOver s) eqn:Hgo.
  - intros [= <- <-]. by left.
  - intros H. inv_bind H. destruct a as [[hit s1] rev].
    apply shapes_revealCellRecursive_step in Ha as [E G]. right. split; [done|].
    destruct hit.
    + cbv zeta in H. inv_bind H. injection H as <- <-. simpl in *.
      apply revealMines_spec, discloses_evolves in Ha.
      split; [by rewrite E at 1|]. split; [|by right].
      eapply evolves_trans; [by apply grows_evolves|done].
    + injection H as <- <-. destruct (_checkWin s1).
      * split; [by rewrite E at 1|]. split; [by apply grows_evolves|by left].
      * split; [|split; [by apply grows_evolves|by left]].
        set (m := cells s1) in *. rewrite E. reflexivity.
Qed.

(** ** The flag invariant *)

Definition flagInv (s : SapperShapesGame) : Prop :=
  forall k c, cells s !! k = Some c -> flagged c = true -> revealed c = true ->
    gameOver s = true /\ won s = false.

Lemma shapes_flagInv_playStep s s' : playStep s s' -> flagInv s -> flagInv s'.
Proof.
  intros [->|(Hgo & E & V & [G|L])] Hinv; [done| |].
  - intros k c' Hk Hf Hr. specialize (G k). rewrite Hk in G.
    destruct (cells s !! k) as [c|] eqn:Hc; [|done].
    destruct G as (_ & Hfl & _ & _ & Hnew).
    destruct (Hnew Hr) as [Hrc|Hfc]; [|congruence].
    destruct (Hinv k c Hc) as [Hover _]; congruence.
  - intros k c' _ _ _. done.
Qed.

Lemma shapes_toggleFlag_state s x y r s' :
  toggleFlag s x y = Done (r, s') ->
  s' = s \/
  (gameOver s = false /\
   exists c, cells s !! (x, y) = Some c /\ revealed c = false /\
     s' = with_cells s (<[(x, y) := setFlagged c (negb (flagged c))]> (cells s)) /\
     f_flagged r = negb (flagged c)).
Proof.
  unfold toggleFlag. intros H.
  destruct (gameOver s); [injection H as <- <-; by left|].
  destruct (Grid.isInBounds (grid s) x y); cbn [negb] in H; [|injection H as <- <-; by left].
  inv_bind H. rename a into c. apply cellAt_Done in Ha.
  destruct (revealed c) eqn:Hr; [injection H as <- <-; by left|].
  injection H as <- <-. right. split; [done|]. exists c. done.
Qed.

Lemma shapes_flagInv_toggleFlag s x y r s' :
  toggleFlag s x y = Done (r, s') -> flagInv s -> flagInv s'.
Proof.
  intros [->|(Hgo & c & Hc & Hr & -> & _)]%shapes_toggleFlag_state Hinv; [done|].
  intros k c' Hk Hf' Hr'. simpl in *.
  destruct (decide ((x, y) = k)) as [<-|Hne].
  - rewrite lookup_insert_eq in Hk. injection Hk as <-. simpl in Hr'. congruence.
  - rewrite lookup_insert_ne in Hk by done. by eapply Hinv.
Qed.

Lemma shapes_chordStep_playStep fuel st n st' :
  chordStep fuel st n = Done st' -> playStep st.1.1 st'.1.1.
Proof.
  destruct st as [[s all] hit]. unfold chordStep. intros H.
  destruct (cells s !! n) as [c|]; [|injection H as <-; apply shapes_playStep_refl].
  destruct (flagged c); cbn [negb] in H; [injection H as <-; apply shapes_playStep_refl|].
  inv_bind H. destruct a as [res s1]. injection H as <-. simpl.
  by eapply shapes_revealCell_playStep.
Qed.

Lemma shapes_chordReveal_playStep fuel s x y r s' :
  chordReveal fuel s x y = Done (r, s') -> playStep s s'.
Proof.
  unfold chordReveal. intros H.
  destruct (gameOver s); [injection H as <- <-; apply shapes_playStep_refl|].
  destruct (Grid.isInBounds (grid s) x y); cbn [negb] in H;
    [|injection H as <- <-; apply shapes_playStep_refl].
  inv_bind H. rename a into c.
  destruct (negb (revealed c) || (count c <=? 0)%nat);
    [injection H as <- <-; apply shapes_playStep_refl|].
  cbv zeta in H.
  destruct (negb (countAdjacentFlags s x y =? count c)%nat);
    [injection H as <- <-; apply shapes_playStep_refl|].
  inv_bind H. destruct a as [[s2 all] hit]. injection H as <- <-.
  eapply (foldM_inv (fun st => playStep s st.1.1)) in Ha0; [exact Ha0| |apply shapes_playStep_refl].
  intros st d st' _ Hst Hbody. eapply shapes_playStep_trans; [exact Hst|].
  by eapply shapes_chordStep_playStep.
Qed.

(** ** The shuffle *)

Lemma swap_Permutation {A} (a : list A) (i j : nat) : swap a i j ≡ₚ a.
Proof.
  unfold swap. destruct (a !! i) as [ai|] eqn:Hi; [|done].
  destruct (a !! j) as [aj|] eqn:Hj; [|done].
  destruct (decide (i = j)) as [->|Hne].
  - assert (ai = aj) as -> by congruence.
    rewrite list_insert_insert_eq. rewrite list_insert_id; done.
  - assert (<[i := aj]> a !! j = Some aj) as Hj'
      by (by rewrite list_lookup_insert_ne).
    rewrite (insert_Permutation (<[i := aj]> a) j aj ai Hj').
    assert (delete j (<[i := aj]> a) ≡ₚ delete i a) as ->.
    { apply (Permutation_cons_inv (a := aj)).
      rewrite <- (delete_Permutation _ _ _ Hj'). by apply (insert_Permutation a i ai aj). }
    symmetry. by apply delete_Permutation.
Qed.

Lemma shuffleFrom_S {A} (n : nat) (a : list A) rnd :
  shuffleFrom (S n) a rnd =
  shuffleFrom n (swap a (S n) (Z.to_nat (randomInt (S (S n)) rnd).1))
              (randomInt (S (S n)) rnd).2.
Proof. reflexivity. Qed.

Lemma shuffleFrom_Permutation {A} (n : nat) : forall (a : list A) rnd,
  (shuffleFrom n a rnd).1 ≡ₚ a.
Proof.
  induction n as [|n IH]; intros a rnd; [done|].
  rewrite shuffleFrom_S, IH. apply swap_Permutation.
Qed.

(** The shuffle returns a permutation of the array. *)
Lemma shuffle_Permutation {A} (a : list A) rnd : (shuffle a rnd).1 ≡ₚ a.
Proof. apply shuffleFrom_Permutation. Qed.

(** ** Mine placement *)

(** What mine placement does to the cell objects: [mines] lists the cells
    that received a mine; [revealed] and [flagged] are untouched. *)
Definition relabels (mines : list (Z * Z)) (m m' : gmap (Z * Z) Cell) : Prop :=
  forall k, match m !! k, m' !! k with
            | Some c, Some c' =>
              revealed c' = revealed c /\ flagged c' = flagged c /\
              mine c' = mine c || bool_decide (k ∈ mines)
            | None, None => True
            | _, _ => False
            end.

Lemma relabels_nil m : relabels [] m m.
Proof.
  intros k. destruct (m !! k); [|done]. repeat split.
  rewrite bool_decide_eq_false_2; [by rewrite orb_false_r|]. apply not_elem_of_nil.
Qed.

(** The loop [for (i < maxMines) { cell.mine = true; mineLocations.push(pos) }]. *)
Definition markMines (l : list (Z * Z)) (st : gmap (Z * Z) Cell * list (Z * Z))
    : outcome (gmap (Z * Z) Cell * list (Z * Z)) :=
  foldM (fun (st : gmap (Z * Z) Cell * list (Z * Z)) (p : Z * Z) =>
           cell <- cellAt st.1 p.1 p.2;
           Done (<[p := setMine cell true]> st.1, st.2 ++ [p]))
        l st.

Lemma markMines_spec (l : list (Z * Z)) : forall m ml m' ml',
  markMines l (m, ml) = Done (m', ml') ->
  ml' = ml ++ l /\ relabels l m m'.
Proof.
  unfold markMines. induction l as [|p l IH]; simpl; intros m ml m' ml' H.
  - injection H as <- <-. split; [by rewrite app_nil_r|apply relabels_nil].
  - inv_bind H. inv_bind Ha. rename a0 into c. injection Ha as <-.
    destruct p as [x y]. apply cellAt_Done in Ha0. simpl in *.
    apply IH in H as [-> Hrel]. split; [by rewrite <- app_assoc|].
    intros k. specialize (Hrel k). destruct (decide ((x, y) = k)) as [<-|Hne].
    + rewrite lookup_insert_eq in Hrel. rewrite Ha0.
      destruct (m' !! (x, y)) as [c'|]; [|done]. simpl in Hrel.
      destruct Hrel as (? & ? & ->). repeat split; try done.
      rewrite (bool_decide_eq_true_2 ((x, y) ∈ (x, y) :: l)) by (by left).
      by rewrite orb_true_r.
    + rewrite lookup_insert_ne in Hrel by done.
      destruct (m !! k) as [c0|], (m' !! k) as [c'|]; try done.
      destruct Hrel as (? & ? & ->). repeat split; try done. f_equal.
      apply bool_decide_ext. rewrite elem_of_cons.
      split; [by right|]. intros [->|?]; done.
Qed.

Lemma markMines_total (l : list (Z * Z)) : forall m ml,
  (forall p, p ∈ l -> is_Some (m !! p)) -> exists st', markMines l (m, ml) = Done st'.
Proof.
  unfold markMines. induction l as [|p l IH]; simpl; intros m ml Hm; [eauto|].
  destruct (Hm p) as [c Hc]; [by left|]. destruct p as [x y].
  unfold cellAt at 1. simpl. rewrite Hc. cbn [bind]. apply IH.
  intros q Hq. destruct (decide ((x, y) = q)) as [<-|Hne].
  - rewrite lookup_insert_eq. eauto.
  - rewrite lookup_insert_ne by done. apply Hm. by right.
Qed.

Lemma markMines_dom (l : list (Z * Z)) : forall m ml st',
  markMines l (m, ml) = Done st' -> forall p, p ∈ l -> is_Some (m !! p).
Proof.
  unfold markMines. induction l as [|q l IH]; intros m ml st' H p Hp;
    [by apply elem_of_nil in Hp|].
  cbn [foldM] in H. inv_bind H. inv_bind Ha. apply cellAt_Done in Ha0.
  injection Ha as <-. destruct q as [qx qy]. simpl in *.
  apply elem_of_cons in Hp as [->|Hp]; [eauto|].
  destruct (IH _ _ _ H p Hp) as [c Hc].
  destruct (decide ((qx, qy) = p)) as [<-|Hne]; [eauto|].
  rewrite lookup_insert_ne in Hc by done. eauto.
Qed.

(** Writing the adjacency counts changes [count] only. *)
Definition recounts (m m' : gmap (Z * Z) Cell) : Prop :=
  forall k, match m !! k, m' !! k with
            | Some c, Some c' =>
              revealed c' = revealed c /\ flagged c' = flagged c /\ mine c' = mine c
            | None, None => True
            | _, _ => False
            end.

Lemma recounts_refl m : recounts m m.
Proof. intros k. by destruct (m !! k). Qed.

Lemma recounts_trans m1 m2 m3 : recounts m1 m2 -> recounts m2 m3 -> recounts m1 m3.
Proof.
  intros H1 H2 k. specialize (H1 k). specialize (H2 k).
  destruct (m1 !! k), (m2 !! k), (m3 !! k); try done.
  destruct H1 as (? & ? & ?), H2 as (? & ? & ?). repeat split; congruence.
Qed.

Lemma calculateNumbers_spec s s' :
  _calculateNumbers s = Done s' ->
  s' = with_cells s (cells s') /\ recounts (cells s) (cells s').
Proof.
  unfold _calculateNumbers. intros H. inv_bind H. injection H as <-.
  split; [done|]. simpl.
  eapply (foldM_inv (fun m => recounts (cells s) m)) in Ha; [exact Ha| |apply recounts_refl].
  intros m [x y] m' _ Hm Hbody. simpl in Hbody.
  inv_bind Hbody. rename a0 into c. apply cellAt_Done in Ha0.
  destruct (mine c); cbn [negb] in Hbody; injection Hbody as <-; [done|].
  eapply recounts_trans; [exact Hm|]. intros k.
  destruct (decide ((x, y) = k)) as [<-|Hne].
  - rewrite lookup_insert_eq, Ha0. done.
  - rewrite lookup_insert_ne by done. by destruct (m !! k).
Qed.

Lemma calculateNumbers_total s :
  (forall p, p ∈ coords (width s) (height s) -> is_Some (cells s !! p)) ->
  exists s', _calculateNumbers s = Done s'.
Proof.
  intros Hcov. unfold _calculateNumbers.
  match goal with
  | |- context [foldM ?body ?l ?st0] =>
    destruct (fun Hb => foldM_total
      (fun m : gmap (Z * Z) Cell => recounts (cells s) m) body l Hb st0)
      as (m & -> & _); [|apply recounts_refl|cbn [bind]; eauto]
  end.
  intros m [x y] Hp Hm. simpl.
  destruct (Hcov _ Hp) as [c0 Hc0]. pose proof (Hm (x, y)) as Hk. rewrite Hc0 in Hk.
  destruct (m !! (x, y)) as [c|] eqn:Hc; [|done].
  unfold cellAt. rewrite Hc. cbn [bind].
  destruct (mine c); cbn [negb]; [eauto|].
  eexists. split; [done|]. eapply recounts_trans; [exact Hm|]. intros k.
  destruct (decide ((x, y) = k)) as [<-|Hne].
  - rewrite lookup_insert_eq, Hc. done.
  - rewrite lookup_insert_ne by done. by destruct (m !! k).
Qed.

Lemma relabels_recounts mines m1 m2 m3 :
  relabels mines m1 m2 -> recounts m2 m3 -> relabels mines m1 m3.
Proof.
  intros H1 H2 k. specialize (H1 k). specialize (H2 k).
  destruct (m1 !! k), (m2 !! k), (m3 !! k); try done.
  destruct H1 as (? & ? & ?), H2 as (? & ? & ?). repeat split; congruence.
Qed.

(** The mines that [_placeMinesRandomly] chooses: the first [maxMines]
    entries of the shuffled list of valid positions. *)
Definition chosenMines (s : SapperShapesGame) (excludeX excludeY : Z) (rnd : rng)
    : list (Z * Z) :=
  let valid := validPositions s excludeX excludeY in
  take (Nat.min (totalMines s) (length valid)) (shuffle valid rnd).1.

Lemma placeMinesRandomly_eq s ex ey rnd :
  _placeMinesRandomly s ex ey rnd =
  ('(m, mines) <- markMines (chosenMines s ex ey rnd) (cells s, mineLocations s);
   s' <- _calculateNumbers (with_mineLocations (with_cells s m) mines);
   Done (s', (shuffle (validPositions s ex ey) rnd).2)).
Proof.
  unfold _placeMinesRandomly, chosenMines, markMines.
  by destruct (shuffle (validPositions s ex ey) rnd).
Qed.

Lemma shapes_placeMinesRandomly_spec s ex ey rnd s' rnd' :
  _placeMinesRandomly s ex ey rnd = Done (s', rnd') ->
  s' = with_mineLocations (with_cells s (cells s'))
         (mineLocations s ++ chosenMines s ex ey rnd) /\
  relabels (chosenMines s ex ey rnd) (cells s) (cells s').
Proof.
  rewrite placeMinesRandomly_eq. intros H.
  inv_bind H. destruct a as [m mines]. inv_bind H. injection H as <- <-.
  apply markMines_spec in Ha as [-> Hrel].
  apply calculateNumbers_spec in Ha0 as [E Hrec]. simpl in *.
  split; [by rewrite E at 1|]. by eapply relabels_recounts.
Qed.

Lemma elem_of_validPositions s ex ey p :
  p ∈ validPositions s ex ey <->
  p ∈ coords (width s) (height s) /\ p <> (ex, ey) /\ p ∉ _getNeighbors s ex ey.
Proof.
  unfold validPositions, exclusionZone. rewrite list_elem_of_filter.
  rewrite not_elem_of_union, not_elem_of_singleton, elem_of_list_to_set. tauto.
Qed.


Lemma elem_of_chosenMines s ex ey rnd p :
  p ∈ chosenMines s ex ey rnd -> p ∈ validPositions s ex ey.
Proof.
  unfold chosenMines. intros Hp%subseteq_take.
  by rewrite shuffle_Permutation in Hp.
Qed.



Lemma placeMinesRandomly_total s ex ey rnd :
  (forall p, p ∈ coords (width s) (height s) -> is_Some (cells s !! p)) ->
  exists s' rnd', _placeMinesRandomly s ex ey rnd = Done (s', rnd').
Proof.
  intros Hcov. rewrite placeMinesRandomly_eq.
  destruct (markMines_total (chosenMines s ex ey rnd) (cells s) (mineLocations s))
    as [[m mines] Hmark].
  { intros p Hp%elem_of_chosenMines%elem_of_validPositions. apply Hcov. tauto. }
  rewrite Hmark. cbn [bind].
  destruct (calculateNumbers_total (with_mineLocations (with_cells s m) mines))
    as [s' ->]; [|cbn [bind]; eauto].
  simpl. intros p Hp. apply markMines_spec in Hmark as [_ Hrel].
  specialize (Hrel p). destruct (Hcov p Hp) as [c Hc]. rewrite Hc in Hrel.
  destruct (m !! p); [eauto|done].
Qed.

(** ** Board generation *)

Lemma lookup_emptyTestCells s k :
  emptyTestCells s !! k =
  if bool_decide (k ∈ coords (width s) (height s))
  then Some {| t_mine := false; t_count := 0 |} else None.
Proof.
  unfold emptyTestCells. generalize (coords (width s) (height s)) as l. intros l.
  induction l as [|p l IH] using rev_ind.
  - cbn [foldl]. rewrite lookup_empty. case_bool_decide as Hk; [by apply elem_of_nil in Hk|done].
  - rewrite foldl_app. cbn [foldl]. destruct (decide (p = k)) as [->|Hne].
    + rewrite lookup_insert_eq. rewrite bool_decide_eq_true_2; [done|].
      apply elem_of_app. right. by left.
    + rewrite lookup_insert_ne by done. rewrite IH. apply (f_equal (fun b : bool => if b then _ else _)).
      apply bool_decide_ext. rewrite elem_of_app, list_elem_of_singleton.
      split; [by left|]. intros [?|?]; [done|congruence].
Qed.

(** The trial grid of an attempt: a cell for every coordinate, with a mine
    exactly at the chosen positions. *)
Definition trialOf (s : SapperShapesGame) (mines : list (Z * Z))
    (t : gmap (Z * Z) TestCell) : Prop :=
  forall k, match t !! k with
            | Some c => k ∈ coords (width s) (height s) /\
                        t_mine c = bool_decide (k ∈ mines)
            | None => k ∉ coords (width s) (height s)
            end.

Lemma buildTestCells_spec s mines t :
  buildTestCells s mines = Done t -> trialOf s mines t.
Proof.
  unfold buildTestCells. intros H. inv_bind H. rename a into t1.
  assert (trialOf s mines t1) as H1.
  { clear H. revert Ha.
    assert (trialOf s [] (emptyTestCells s)) as H0.
    { intros k. rewrite lookup_emptyTestCells. case_bool_decide; [|done].
      split; [done|]. cbn [t_mine]. case_bool_decide as Hk; [by apply elem_of_nil in Hk|done]. }
    revert H0. generalize (emptyTestCells s) as t0.
    assert (forall done t0, trialOf s done t0 ->
      foldM (fun (m : gmap (Z * Z) TestCell) (p : Z * Z) =>
               cell <- cellAt m p.1 p.2;
               Done (<[p := {| t_mine := true; t_count := t_count cell |}]> m))
            mines t0 = Done t1 -> trialOf s (done ++ mines) t1) as Hgen.
    { induction mines as [|p l IH]; simpl; intros done t0 H0 H.
      - injection H as <-. by rewrite app_nil_r.
      - inv_bind H. inv_bind Ha. rename a0 into c. injection Ha as <-.
        destruct p as [x y]. apply cellAt_Done in Ha0. simpl in *.
        replace (done ++ (x, y) :: l) with ((done ++ [(x, y)]) ++ l)
          by (by rewrite <- app_assoc).
        eapply IH; [|exact H]. intros k. specialize (H0 k).
        destruct (decide ((x, y) = k)) as [<-|Hne].
        + rewrite lookup_insert_eq. rewrite Ha0 in H0. destruct H0 as [Hin _].
          split; [done|]. simpl. symmetry. apply bool_decide_eq_true_2.
          apply elem_of_app. right. by left.
        + rewrite lookup_insert_ne by done. destruct (t0 !! k) as [c0|]; [|done].
          destruct H0 as [Hin ->]. split; [done|]. apply bool_decide_ext.
          rewrite elem_of_app, list_elem_of_singleton.
          split; [by left|]. intros [?|?]; [done|congruence]. }
    intros t0 H0 H. by apply (Hgen [] t0). }
  eapply (foldM_inv (trialOf s mines)) in H; [exact H| |exact H1].
  intros m [x y] m' _ Hm Hbody. simpl in Hbody.
  inv_bind Hbody. rename a into c. apply cellAt_Done in Ha0.
  destruct (t_mine c) eqn:Hmine; cbn [negb] in Hbody; injection Hbody as <-; [done|].
  intros k. specialize (Hm k). destruct (decide ((x, y) = k)) as [<-|Hne].
  - rewrite lookup_insert_eq. rewrite Ha0 in Hm. simpl. by rewrite Hmine in *.
  - by rewrite lookup_insert_ne.
Qed.

(** What committing a trial grid does to the cell objects: the cells with a
    trial cell take its [mine] and [count]. *)
Definition commits (t : gmap (Z * Z) TestCell) (m m' : gmap (Z * Z) Cell) : Prop :=
  forall k, match m !! k, m' !! k with
            | Some c, Some c' =>
              revealed c' = revealed c /\ flagged c' = flagged c /\
              match t !! k with
              | Some tc => mine c' = t_mine tc /\ count c' = t_count tc
              | None => mine c' = mine c /\ count c' = count c
              end
            | None, None => True
            | _, _ => False
            end.

Lemma copyToCells_spec t m m' : copyToCells t m = Done m' -> commits t m m'.
Proof.
  unfold copyToCells.
  assert (forall l : list (Z * Z * TestCell), NoDup l.*1 -> forall m m',
    foldM (fun (m : gmap (Z * Z) Cell) (kt : Z * Z * TestCell) =>
             cell <- cellAt m kt.1.1 kt.1.2;
             Done (<[kt.1 := setCount (setMine cell (t_mine kt.2)) (t_count kt.2)]> m))
          l m = Done m' ->
    forall k, match m !! k, m' !! k with
              | Some c, Some c' =>
                revealed c' = revealed c /\ flagged c' = flagged c /\
                ((exists tc, (k, tc) ∈ l /\ mine c' = t_mine tc /\ count c' = t_count tc) \/
                 ((k ∉ l.*1) /\ mine c' = mine c /\ count c' = count c))
              | None, None => True
              | _, _ => False
              end) as Hgen.
  { induction l as [|[[x y] tc] l IH]; simpl; intros Hnd m0 m0' H k.
    - injection H as <-. destruct (m0 !! k); [|done]. repeat split. right.
      split; [apply not_elem_of_nil|done].
    - apply NoDup_cons in Hnd as [Hnotin Hnd].
      inv_bind H. inv_bind Ha. rename a0 into c. injection Ha as <-.
      apply cellAt_Done in Ha0. simpl in *.
      specialize (IH Hnd _ _ H k). destruct (decide ((x, y) = k)) as [<-|Hne].
      + rewrite lookup_insert_eq in IH. rewrite Ha0.
        destruct (m0' !! (x, y)) as [c'|]; [|done]. simpl in IH.
        destruct IH as (? & ? & [(tc' & Hin & _)|(_ & Hm & Hc)]).
        * exfalso. apply Hnotin. apply list_elem_of_fmap. by exists ((x, y), tc').
        * repeat split; try done. left. exists tc. split; [by left|done].
      + rewrite lookup_insert_ne in IH by done.
        destruct (m0 !! k) as [c0|], (m0' !! k) as [c'|]; try done.
        destruct IH as (? & ? & [(tc' & Hin & ?)|(Hn & ?)]); repeat split; try done.
        * left. exists tc'. split; [by right|done].
        * right. split; [|done]. intros [?|?]%elem_of_cons; [congruence|done]. }
  intros H k. specialize (Hgen _ (NoDup_fst_map_to_list t) _ _ H k).
  destruct (m !! k) as [c|], (m' !! k) as [c'|]; try done.
  destruct Hgen as (? & ? & [(tc & Hin & ?)|(Hn & ?)]); repeat split; try done.
  - apply elem_of_map_to_list in Hin. by rewrite Hin.
  - destruct (t !! k) as [tc|] eqn:Ht; [|done]. exfalso. apply Hn.
    apply list_elem_of_fmap. exists (k, tc). split; [done|]. by apply elem_of_map_to_list.
Qed.

(** A trial grid is committed only to cells that exist. *)
Lemma copyToCells_dom t m m' k :
  copyToCells t m = Done m' -> is_Some (t !! k) -> is_Some (m !! k).
Proof.
  unfold copyToCells. intros H [tc Htc]. apply elem_of_map_to_list in Htc.
  revert m H Htc. generalize (map_to_list t) as l.
  induction l as [|[[x y] tc0] l IH]; intros m H Hin; [by apply elem_of_nil in Hin|].
  cbn [foldM] in H. inv_bind H. inv_bind Ha. rename a0 into c. injection Ha as <-.
  apply cellAt_Done in Ha0. simpl in *.
  apply elem_of_cons in Hin as [[= -> ->]|Hin]; [eauto|].
  destruct (IH _ H Hin) as [c1 Hc1].
  destruct (decide ((x, y) = k)) as [<-|Hne]; [eauto|].
  rewrite lookup_insert_ne in Hc1 by done. eauto.
Qed.

Lemma shapes_generateLoop_spec (attempts fuel : nat) s ex ey :
  forall rnd ok s' rnd',
    generateLoop attempts fuel s ex ey (validPositions s ex ey)
      (Nat.min (totalMines s) (length (validPositions s ex ey))) rnd
      = Done (ok, s', rnd') ->
    (ok = false /\ exists rnd0, _placeMinesRandomly s ex ey rnd0 = Done (s', rnd')) \/
    (ok = true /\ exists rnd0 t,
       buildTestCells s (chosenMines s ex ey rnd0) = Done t /\
       _simulateSolve fuel s t ex ey = Done true /\
       copyToCells t (cells s) = Done (cells s') /\
       s' = with_mineLocations (with_cells s (cells s')) (chosenMines s ex ey rnd0)).
Proof.
  induction attempts as [|n IH]; intros rnd ok s' rnd' H; simpl in H.
  - inv_bind H. destruct a as [s1 rnd1]. injection H as <- <- <-. left. eauto.
  - destruct (shuffle (validPositions s ex ey) rnd) as [positions rnd1] eqn:Hsh.
    inv_bind H. rename a into t. inv_bind H. rename a into solved. destruct solved.
    + inv_bind H. injection H as <- <- <-. right. split; [done|].
      exists rnd, t. unfold chosenMines. rewrite Hsh. simpl.
      split; [done|]. split; [done|]. split; [done|done].
    + by eapply IH.
Qed.

(** ** Chord reveal *)

(** The neighbors of [(x, y)] that have a cell object without a flag. *)
Definition unflaggedNeighbors (s : SapperShapesGame) (x y : Z) : list (Z * Z) :=
  List.filter (fun n : Z * Z =>
                 match cells s !! n with
                 | Some neighbor => negb (flagged neighbor)
                 | None => false
                 end)
              (_getNeighbors s x y).

(** One [revealCell] call of a chord, with the bookkeeping of its result. *)
Definition revealOne (fuel : nat) (st : SapperShapesGame * list (Z * Z) * bool)
    (n : Z * Z) : outcome (SapperShapesGame * list (Z * Z) * bool) :=
  '(result, s') <- revealCell fuel st.1.1 n.1 n.2;
  Done (s', st.1.2 ++ r_revealed result, st.2 || r_hit result).

Lemma evolves_flagged m m' k :
  evolves m m' ->
  match m' !! k with Some c => negb (flagged c) | None => false end =
  match m !! k with Some c => negb (flagged c) | None => false end.
Proof.
  intros V. specialize (V k). destruct (m !! k), (m' !! k); try done.
  destruct V as (_ & -> & _). done.
Qed.

Lemma playStep_evolves s s' : playStep s s' -> evolves (cells s) (cells s').
Proof. intros [->|(_ & _ & V & _)]; [apply evolves_refl|done]. Qed.

(** The neighbor loop of [chordReveal] calls [revealCell] on exactly the
    unflagged neighbors. *)
Lemma shapes_chordLoop_revealOne fuel s (l : list (Z * Z)) :
  forall st, playStep s st.1.1 ->
    foldM (chordStep fuel) l st =
    foldM (revealOne fuel)
          (List.filter (fun n : Z * Z =>
                          match cells s !! n with
                          | Some neighbor => negb (flagged neighbor)
                          | None => false
                          end) l) st.
Proof.
  induction l as [|n l IH]; intros [[s1 all] hit] Hps; [done|].
  simpl in Hps. cbn [foldM List.filter].
  rewrite <- (evolves_flagged _ _ n (playStep_evolves _ _ Hps)).
  unfold chordStep at 1. cbv beta iota zeta.
  destruct (cells s1 !! n) as [c|]; [|by apply IH].
  destruct (flagged c); cbn [negb]; [by apply IH|].
  assert (revealOne fuel (s1, all, hit) n =
          ('(result, s') <- revealCell fuel s1 n.1 n.2;
           Done (s', all ++ r_revealed result, hit || r_hit result))) as Hone
    by reflexivity.
  cbn [foldM]. rewrite Hone.
  destruct (revealCell fuel s1 n.1 n.2) as [[res s2]| |] eqn:Hrev; [|reflexivity..].
  cbn [bind]. apply shapes_revealCell_playStep in Hrev. apply IH.
  simpl. by eapply shapes_playStep_trans.
Qed.

Lemma shapes_chordReveal_eq fuel s x y :
  chordReveal fuel s x y =
  if gameOver s then Done (noEffect, s) else
  if negb (Grid.isInBounds (grid s) x y) then Done (noEffect, s) else
  cell <- cellAt (cells s) x y;
  if negb (revealed cell) || (count cell <=? 0)%nat then Done (noEffect, s) else
  if negb (countAdjacentFlags s x y =? count cell)%nat then Done (noEffect, s) else
  '(s', allRevealed, hitMine) <-
    foldM (chordStep fuel) (_getNeighbors s x y) (s, [], false);
  Done ({| r_hit := hitMine; r_revealed := allRevealed; r_won := won s';
           r_lost := hitMine |}, s').
Proof. reflexivity. Qed.

(** A chord has no effect unless the cell is revealed, numbered and
    surrounded by as many flags as its number. *)
Lemma shapes_chordReveal_noop fuel s x y r s' :
  chordReveal fuel s x y = Done (r, s') ->
  ~ (isRevealed s x y = true /\ (0 < getCount s x y)%nat /\
     countAdjacentFlags s x y = getCount s x y) ->
  r = noEffect /\ s' = s.
Proof.
  rewrite shapes_chordReveal_eq. intros H Hcond.
  destruct (gameOver s); [by injection H as <- <-|].
  destruct (Grid.isInBounds (grid s) x y); cbn [negb] in H; [|by injection H as <- <-].
  inv_bind H. rename a into c. apply cellAt_Done in Ha.
  destruct (revealed c) eqn:Hr; cbn [negb orb] in H; [|by injection H as <- <-].
  destruct (Nat.leb_spec (count c) 0) as [Hle|Hlt]; [by injection H as <- <-|].
  destruct (Nat.eqb_spec (countAdjacentFlags s x y) (count c)) as [Heq|Hne];
    cbn [negb] in H; [|by injection H as <- <-].
  exfalso. apply Hcond. unfold isRevealed, getCount. rewrite Ha. done.
Qed.

(** When the condition holds in a live game, a chord is the sequence of
    [revealCell] calls on the unflagged neighbors. *)
Lemma shapes_chordReveal_fires fuel s x y :
  gameOver s = false -> Grid.isInBounds (grid s) x y = true ->
  isRevealed s x y = true -> (0 < getCount s x y)%nat ->
  countAdjacentFlags s x y = getCount s x y ->
  chordReveal fuel s x y =
  ('(s', allRevealed, hitMine) <-
     foldM (revealOne fuel) (unflaggedNeighbors s x y) (s, [], false);
   Done ({| r_hit := hitMine; r_revealed := allRevealed; r_won := won s';
            r_lost := hitMine |}, s')).
Proof.
  intros Hgo Hin Hrv Hpos Hfl. rewrite shapes_chordReveal_eq, Hgo, Hin. cbn [negb].
  unfold isRevealed, getCount in *. unfold cellAt.
  destruct (cells s !! (x, y)) as [c|]; [|done]. cbn [bind]. rewrite Hrv. cbn [negb orb].
  destruct (Nat.leb_spec (count c) 0); [lia|]. rewrite Hfl, Nat.eqb_refl. cbn [negb].
  rewrite (shapes_chordLoop_revealOne fuel s); [done|apply shapes_playStep_refl].
Qed.

Lemma shapes_revealCell_over fuel s x y : gameOver s = true -> revealCell fuel s x y = Done (noEffect, s).
Proof. unfold revealCell. by intros ->. Qed.

Lemma shapes_revealOne_playStep fuel st n st' :
  revealOne fuel st n = Done st' -> playStep st.1.1 st'.1.1.
Proof.
  unfold revealOne. intros H. inv_bind H. destruct a as [res s1]. injection H as <-.
  by eapply shapes_revealCell_playStep.
Qed.

Lemma shapes_revealEach_playStep fuel l : forall st st',
  foldM (revealOne fuel) l st = Done st' -> playStep st.1.1 st'.1.1.
Proof.
  intros st st' H.
  eapply (foldM_inv (fun st1 => playStep st.1.1 st1.1.1)) in H; [exact H| |apply shapes_playStep_refl].
  intros st1 n st2 _ H1 H2. eapply shapes_playStep_trans; [exact H1|]. by eapply shapes_revealOne_playStep.
Qed.

Lemma evolves_revealed_keeps m m' k c :
  evolves m m' -> m !! k = Some c -> revealed c = true ->
  exists c', m' !! k = Some c' /\ revealed c' = true.
Proof.
  intros V Hk Hr. specialize (V k). rewrite Hk in V.
  destruct (m' !! k) as [c'|]; [|done]. exists c'. split; [done|].
  destruct V as (_ & _ & _ & Hm). auto.
Qed.

(** If the game is still live after the calls, every listed cell that is
    in bounds and unflagged has been revealed. *)
Lemma shapes_revealEach_reveals fuel (l : list (Z * Z)) : forall st st',
  foldM (revealOne fuel) l st = Done st' -> gameOver st'.1.1 = false ->
  forall n c, n ∈ l -> Grid.isInBounds (grid st.1.1) n.1 n.2 = true ->
    cells st.1.1 !! n = Some c -> flagged c = false ->
    exists c', cells st'.1.1 !! n = Some c' /\ revealed c' = true.
Proof.
  induction l as [|m l IH]; intros st st' H Hlive n c Hn Hin Hc Hfl;
    [by apply elem_of_nil in Hn|].
  cbn [foldM] in H. inv_bind H. rename a into st1.
  pose proof (shapes_revealOne_playStep _ _ _ _ Ha) as Hps1.
  pose proof (shapes_revealEach_playStep _ _ _ _ H) as Hps2.
  assert (gameOver st1.1.1 = false) as Hlive1.
  { destruct (gameOver st1.1.1) eqn:Hover; [|done].
    assert (forall l st2, gameOver st2.1.1 = true ->
              forall st3, foldM (revealOne fuel) l st2 = Done st3 -> st3.1.1 = st2.1.1)
      as Hstay.
    { clear. induction l as [|k l IHl]; intros st2 Ho st3 H3.
      - by injection H3 as <-.
      - cbn [foldM] in H3. unfold revealOne at 1 in H3.
        rewrite shapes_revealCell_over in H3 by done. cbn [bind] in H3.
        apply IHl in H3; [|done]. by rewrite H3. }
    rewrite (Hstay _ _ Hover _ H) in Hlive. congruence. }
  apply elem_of_cons in Hn as [->|Hn].
  - unfold revealOne in Ha. inv_bind Ha. destruct a as [res s1]. injection Ha as <-.
    simpl in *. rewrite revealCell_eq in Ha0.
    destruct (gameOver st.1.1) eqn:Hgo.
    { injection Ha0 as <- <-. congruence. }
    inv_bind Ha0. destruct a as [[h s2] rev]. destruct m as [x y].
    destruct (shapes_revealCellRecursive_self _ _ _ _ _ _ _ _ _ Ha Hin Hc Hfl) as (c2 & Hc2 & Hr2).
    destruct h.
    + cbv zeta in Ha0. inv_bind Ha0. injection Ha0 as <- <-. done.
    + injection Ha0 as <- <-.
      eapply (evolves_revealed_keeps (cells s2));
        [|exact Hc2|exact Hr2].
      apply playStep_evolves. by destruct (_checkWin s2).
  - destruct Hps1 as [E|(_ & E & V & _)].
    + eapply IH; [exact H|done|done| | |done]; by rewrite E.
    + pose proof (V n) as Vn. rewrite Hc in Vn.
      destruct (cells st1.1.1 !! n) as [c1|] eqn:Hc1; [|done].
      destruct Vn as (_ & Hf1 & _).
      eapply IH; [exact H|done|done| |exact Hc1|congruence].
      rewrite E. done.
Qed.

(** A cell under a flag keeps its reveal state while no mine is hit. *)
Lemma grows_flagged_keeps m m' k c :
  grows m m' -> m !! k = Some c -> flagged c = true ->
  exists c', m' !! k = Some c' /\ revealed c' = revealed c.
Proof.
  intros G Hk Hf. specialize (G k). rewrite Hk in G.
  destruct (m' !! k) as [c'|]; [|done]. exists c'. split; [done|].
  destruct G as (_ & _ & _ & Hm & Hn).
  destruct (revealed c') eqn:Hr', (revealed c) eqn:Hr; try done.
  - destruct (Hn eq_refl); congruence.
  - by specialize (Hm eq_refl).
Qed.

(** ** The first click *)

(** The two ways of placing mines that [handleFirstClick] chooses from. *)
Definition placeMines (fuel : nat) (s : SapperShapesGame) (x y : Z) (rnd : rng)
    : outcome (bool * SapperShapesGame * rng) :=
  if noGuess s then _generateSolvableBoard fuel s x y rnd
  else '(s', rnd') <- _placeMinesRandomly s x y rnd; Done (true, s', rnd').

Lemma shapes_handleFirstClick_eq fuel s x y rnd :
  handleFirstClick fuel s x y rnd =
  if minesPlaced s then Done ({| fc_success := false; fc_revealed := [] |}, s, rnd) else
  '(success, s1, rnd') <- placeMines fuel s x y rnd;
  '(result, s3) <- revealCell fuel (with_minesPlaced s1 true) x y;
  Done ({| fc_success := success; fc_revealed := r_revealed result |}, s3, rnd').
Proof. reflexivity. Qed.

Lemma shapes_handleFirstClick_first fuel s x y rnd r s' rnd' :
  handleFirstClick fuel s x y rnd = Done (r, s', rnd') -> minesPlaced s = false ->
  exists ok s1 res,
    placeMines fuel s x y rnd = Done (ok, s1, rnd') /\
    revealCell fuel (with_minesPlaced s1 true) x y = Done (res, s') /\
    r = {| fc_success := ok; fc_revealed := r_revealed res |}.
Proof.
  rewrite shapes_handleFirstClick_eq. intros H Hmp. rewrite Hmp in H.
  inv_bind H. destruct a as [[ok s1] rnd1]. inv_bind H. destruct a as [res s3].
  injection H as <- <- <-. eauto 10.
Qed.

Lemma shapes_handleFirstClick_again fuel s x y rnd :
  minesPlaced s = true ->
  handleFirstClick fuel s x y rnd
  = Done ({| fc_success := false; fc_revealed := [] |}, s, rnd).
Proof. rewrite shapes_handleFirstClick_eq. by intros ->. Qed.

(** Mine placement, by either way, on a board without mines: the cells keep
    [revealed] and [flagged], and the mines are the chosen positions of some
    shuffle. *)
Definition noMines (s : SapperShapesGame) : Prop :=
  mineLocations s = [] /\ forall k c, cells s !! k = Some c -> mine c = false.

Definition minesAt (mines : list (Z * Z)) (m m' : gmap (Z * Z) Cell) : Prop :=
  forall k, match m !! k, m' !! k with
            | Some c, Some c' =>
              revealed c' = revealed c /\ flagged c' = flagged c /\
              mine c' = bool_decide (k ∈ mines)
            | None, None => True
            | _, _ => False
            end.

Lemma shapes_generateSolvableBoard_spec fuel s ex ey rnd ok s' rnd' :
  _generateSolvableBoard fuel s ex ey rnd = Done (ok, s', rnd') ->
  (ok = false /\ exists rnd0, _placeMinesRandomly s ex ey rnd0 = Done (s', rnd')) \/
  (ok = true /\ exists rnd0 t,
     buildTestCells s (chosenMines s ex ey rnd0) = Done t /\
     _simulateSolve fuel s t ex ey = Done true /\
     copyToCells t (cells s) = Done (cells s') /\
     s' = with_mineLocations (with_cells s (cells s')) (chosenMines s ex ey rnd0)).
Proof. apply shapes_generateLoop_spec. Qed.

Lemma shapes_placeMines_spec fuel s x y rnd ok s' rnd' :
  placeMines fuel s x y rnd = Done (ok, s', rnd') -> noMines s ->
  exists rnd0,
    s' = with_mineLocations (with_cells s (cells s')) (chosenMines s x y rnd0) /\
    minesAt (chosenMines s x y rnd0) (cells s) (cells s') /\
    (forall p, p ∈ chosenMines s x y rnd0 -> is_Some (cells s !! p)).
Proof.
  intros H [Hml Hnm].
  assert (forall rnd0 s1 rnd1, _placeMinesRandomly s x y rnd0 = Done (s1, rnd1) ->
    s1 = with_mineLocations (with_cells s (cells s1)) (chosenMines s x y rnd0) /\
    minesAt (chosenMines s x y rnd0) (cells s) (cells s1) /\
    (forall p, p ∈ chosenMines s x y rnd0 -> is_Some (cells s !! p))) as Hrandom.
  { intros rnd0 s1 rnd1 Hp. pose proof Hp as [E Hrel]%shapes_placeMinesRandomly_spec.
    rewrite Hml in E. split; [done|]. split.
    - intros k. specialize (Hrel k). destruct (cells s !! k) as [c|] eqn:Hc; [|done].
      destruct (cells s1 !! k); [|done]. destruct Hrel as (? & ? & ->).
      by rewrite (Hnm _ _ Hc).
    - intros p Hp'. rewrite placeMinesRandomly_eq in Hp. inv_bind Hp.
      destruct a as [m ml]. by eapply markMines_dom. }
  unfold placeMines in H. destruct (noGuess s).
  - apply shapes_generateSolvableBoard_spec in H
      as [(_ & rnd0 & Hp)|(_ & rnd0 & t & Hb & _ & Hc & E)]; [eauto|].
    exists rnd0. split; [done|]. apply buildTestCells_spec in Hb.
    pose proof Hc as Hdom0. apply copyToCells_spec in Hc. split.
    + intros k. specialize (Hc k). specialize (Hb k).
      destruct (cells s !! k) as [c|] eqn:Hck; [|done].
      destruct (cells s' !! k) as [c'|]; [|done].
      destruct Hc as (? & ? & Hm). split; [done|]. split; [done|].
      destruct (t !! k) as [tc|].
      * destruct Hm as [-> _]. by destruct Hb as [_ ->].
      * destruct Hm as [-> _]. rewrite (Hnm _ _ Hck). symmetry.
        apply bool_decide_eq_false_2.
        intros Hin%elem_of_chosenMines%elem_of_validPositions. tauto.
    + intros p Hp. apply (fun k => copyToCells_dom _ _ _ k Hdom0). specialize (Hb p).
      destruct (t !! p); [eauto|].
      apply elem_of_chosenMines, elem_of_validPositions in Hp. tauto.
  - inv_bind H. destruct a as [s1 rnd1]. injection H as <- <- <-. eauto.
Qed.

Lemma shapes_playStep_frame s s' :
  playStep s s' ->
  mineLocations s' = mineLocations s /\ minesPlaced s' = minesPlaced s /\
  grid s' = grid s /\ width s' = width s /\ height s' = height s.
Proof. intros [->|(_ & E & _)]; [done|]. by rewrite E. Qed.

Lemma shapes_flagInv_handleFirstClick fuel s x y rnd r s' rnd' :
  handleFirstClick fuel s x y rnd = Done (r, s', rnd') -> noMines s \/ minesPlaced s = true ->
  flagInv s -> flagInv s'.
Proof.
  intros H Hnm Hinv. destruct (minesPlaced s) eqn:Hmp.
  - rewrite shapes_handleFirstClick_again in H by done. by injection H as <- <- <-.
  - destruct Hnm as [Hnm|?]; [|done].
    apply shapes_handleFirstClick_first in H as (ok & s1 & res & Hpl & Hrev & _); [|done].
    apply shapes_placeMines_spec in Hpl as (rnd0 & E & Hat & _); [|done].
    apply shapes_revealCell_playStep in Hrev.
    eapply shapes_flagInv_playStep; [exact Hrev|].
    intros k c' Hk Hf Hr. simpl in *. specialize (Hat k). rewrite Hk in Hat.
    destruct (cells s !! k) as [c|] eqn:Hc; [|done]. destruct Hat as (Hr' & Hf' & _).
    rewrite E. simpl. apply (Hinv k c Hc); congruence.
Qed.

(** ** Reachable boards *)

(** The mines are the listed cells: the bookkeeping that the loss loop of
    [revealCell] relies on. *)
Definition minesListed (s : SapperShapesGame) : Prop :=
  (forall k c, cells s !! k = Some c -> mine c = true -> k ∈ mineLocations s) /\
  (forall p, p ∈ mineLocations s -> is_Some (cells s !! p)) /\
  (minesPlaced s = false -> noMines s).

Lemma lookup_initGrid s k :
  cells (initGrid s) !! k =
  if bool_decide (k ∈ coords (width s) (height s)) then Some emptyCell else None.
Proof.
  unfold initGrid. cbn [cells]. generalize (coords (width s) (height s)) as l. intros l.
  induction l as [|p l IH] using rev_ind.
  - cbn [foldl]. rewrite lookup_empty. case_bool_decide as Hk; [by apply elem_of_nil in Hk|done].
  - rewrite foldl_app. cbn [foldl]. destruct (decide (p = k)) as [->|Hne].
    + rewrite lookup_insert_eq. rewrite bool_decide_eq_true_2; [done|].
      apply elem_of_app. right. by left.
    + rewrite lookup_insert_ne by done. rewrite IH.
      apply (f_equal (fun b : bool => if b then _ else _)).
      apply bool_decide_ext. rewrite elem_of_app, list_elem_of_singleton.
      split; [by left|]. intros [?|?]; [done|congruence].
Qed.

Lemma noMines_initGrid s : noMines (initGrid s).
Proof.
  split; [done|]. intros k c. rewrite lookup_initGrid. case_bool_decide; [|done].
  by intros [= <-].
Qed.

Lemma minesListed_initGrid s : minesListed (initGrid s).
Proof.
  pose proof (noMines_initGrid s) as [Hml Hnm]. split; [|split].
  - intros k c Hk Hm. rewrite (Hnm _ _ Hk) in Hm. done.
  - intros p Hp. rewrite Hml in Hp. by apply elem_of_nil in Hp.
  - intros _. apply noMines_initGrid.
Qed.

Lemma cells_constructor g o d k : cells (constructor g o d) !! k = None.
Proof. apply lookup_empty. Qed.

Lemma minesListed_constructor g o d : minesListed (constructor g o d).
Proof.
  split; [|split].
  - intros k c Hk. by rewrite cells_constructor in Hk.
  - intros p Hp. by apply elem_of_nil in Hp.
  - intros _. split; [done|]. intros k c Hk. by rewrite cells_constructor in Hk.
Qed.

Lemma minesListed_playStep s s' : playStep s s' -> minesListed s -> minesListed s'.
Proof.
  intros Hps (Ha & Hb & Hc).
  pose proof (shapes_playStep_frame _ _ Hps) as (Hml & Hmp & _).
  pose proof (playStep_evolves _ _ Hps) as V.
  unfold minesListed, noMines. rewrite Hml, Hmp. split; [|split].
  - intros k c' Hk Hm. specialize (V k). rewrite Hk in V.
    destruct (cells s !! k) as [c|] eqn:Hck; [|done]. destruct V as (Hm' & _).
    apply (Ha k c Hck). congruence.
  - intros p Hp. destruct (Hb p Hp) as [c Hck]. specialize (V p). rewrite Hck in V.
    destruct (cells s' !! p); [eauto|done].
  - intros Hf. destruct (Hc Hf) as [Hl Hnm]. split; [congruence|].
    intros k c' Hk. specialize (V k). rewrite Hk in V.
    destruct (cells s !! k) as [c|] eqn:Hck; [|done]. destruct V as (-> & _). eauto.
Qed.

Lemma minesListed_toggleFlag s x y r s' :
  toggleFlag s x y = Done (r, s') -> minesListed s -> minesListed s'.
Proof.
  intros [->|(_ & c & Hc & _ & -> & _)]%shapes_toggleFlag_state (Ha & Hb & Hn); [done|].
  split; [|split]; simpl.
  - intros k c' Hk Hm. destruct (decide ((x, y) = k)) as [<-|Hne].
    + rewrite lookup_insert_eq in Hk. injection Hk as <-. by apply (Ha _ c).
    + rewrite lookup_insert_ne in Hk by done. by apply (Ha _ c').
  - intros p Hp. destruct (decide ((x, y) = p)) as [<-|Hne].
    + rewrite lookup_insert_eq. eauto.
    + rewrite lookup_insert_ne by done. auto.
  - intros Hf. destruct (Hn Hf) as [Hl Hnm]. split; [done|]. simpl.
    intros k c' Hk. destruct (decide ((x, y) = k)) as [<-|Hne].
    + rewrite lookup_insert_eq in Hk. injection Hk as <-. simpl. eauto.
    + rewrite lookup_insert_ne in Hk by done. eauto.
Qed.

Lemma minesListed_handleFirstClick fuel s x y rnd r s' rnd' :
  handleFirstClick fuel s x y rnd = Done (r, s', rnd') -> minesListed s -> minesListed s'.
Proof.
  intros H HJ. destruct (minesPlaced s) eqn:Hmp.
  - rewrite shapes_handleFirstClick_again in H by done. by injection H as <- <- <-.
  - pose proof HJ as (_ & _ & Hnm). specialize (Hnm Hmp).
    apply shapes_handleFirstClick_first in H as (ok & s1 & res & Hpl & Hrev & _); [|done].
    apply shapes_placeMines_spec in Hpl as (rnd0 & E & Hat & Hdom); [|done].
    apply shapes_revealCell_playStep in Hrev.
    eapply minesListed_playStep; [exact Hrev|].
    rewrite E. split; [|split]; simpl; [| |done].
    + intros k c' Hk Hm. specialize (Hat k). rewrite Hk in Hat.
      destruct (cells s !! k); [|done]. destruct Hat as (_ & _ & Hmine).
      rewrite Hm in Hmine. symmetry in Hmine. by apply bool_decide_eq_true in Hmine.
    + intros p Hp. destruct (Hdom p Hp) as [c Hc]. specialize (Hat p). rewrite Hc in Hat.
      destruct (cells s1 !! p); [eauto|done].
Qed.

(** The boards that a caller can obtain from a constructed game by calling
    the public methods; a call that raises or is not followed to its end
    yields no board. *)
Inductive reachable : SapperShapesGame -> Prop :=
  | reach_new g options defaultMines : reachable (constructor g options defaultMines)
  | reach_initGrid s : reachable s -> reachable (initGrid s)
  | reach_handleFirstClick s fuel x y rnd r s' rnd' :
      reachable s -> handleFirstClick fuel s x y rnd = Done (r, s', rnd') -> reachable s'
  | reach_revealCell s fuel x y r s' :
      reachable s -> revealCell fuel s x y = Done (r, s') -> reachable s'
  | reach_toggleFlag s x y r s' :
      reachable s -> toggleFlag s x y = Done (r, s') -> reachable s'
  | reach_chordReveal s fuel x y r s' :
      reachable s -> chordReveal fuel s x y = Done (r, s') -> reachable s'.

Lemma reachable_minesListed s : reachable s -> minesListed s.
Proof.
  induction 1 as [g o d|s _ _|s fuel x y rnd r s' rnd' _ IH H|s fuel x y r s' _ IH H
                  |s x y r s' _ IH H|s fuel x y r s' _ IH H].
  - apply minesListed_constructor.
  - apply minesListed_initGrid.
  - by eapply minesListed_handleFirstClick.
  - eapply minesListed_playStep; [|exact IH]. by eapply shapes_revealCell_playStep.
  - by eapply minesListed_toggleFlag.
  - eapply minesListed_playStep; [|exact IH]. by eapply shapes_chordReveal_playStep.
Qed.

Lemma shapes_flagInv_initGrid s : flagInv (initGrid s).
Proof.
  intros k c. rewrite lookup_initGrid. case_bool_decide; [|done]. by intros [= <-].
Qed.

Lemma shapes_reachable_flagInv s : reachable s -> flagInv s.
Proof.
  induction 1 as [g o d|s _ _|s fuel x y rnd r s' rnd' Hs IH H|s fuel x y r s' _ IH H
                  |s x y r s' _ IH H|s fuel x y r s' _ IH H].
  - intros k c Hk. by rewrite cells_constructor in Hk.
  - apply shapes_flagInv_initGrid.
  - pose proof (reachable_minesListed s Hs) as (_ & _ & Hnm).
    eapply shapes_flagInv_handleFirstClick; [exact H| |exact IH].
    destruct (minesPlaced s) eqn:Hmp; [by right|left]. by apply Hnm.
  - eapply shapes_flagInv_playStep; [|exact IH]. by eapply shapes_revealCell_playStep.
  - by eapply shapes_flagInv_toggleFlag.
  - eapply shapes_flagInv_playStep; [|exact IH]. by eapply shapes_chordReveal_playStep.
Qed.

(** ** The first click on a fresh board *)

Lemma getNeighbors_frame s s' :
  grid s' = grid s -> useExtendedNeighbors s' = useExtendedNeighbors s ->
  forall x y, _getNeighbors s' x y = _getNeighbors s x y.
Proof. intros Hg Hu x y. unfold _getNeighbors. by rewrite Hg, Hu. Qed.

Lemma shapes_isMine_true s x y :
  isMine s x y = true <-> exists c, cells s !! (x, y) = Some c /\ mine c = true.
Proof.
  unfold isMine. destruct (cells s !! (x, y)) as [c|]; split.
  - eauto.
  - by intros (? & [= <-] & ?).
  - done.
  - by intros (? & ? & _).
Qed.

(** The mines of the board after the first click on a fresh board are the
    positions chosen by a shuffle of the valid positions. *)
Lemma shapes_handleFirstClick_fresh fuel s0 x y rnd r s' rnd' :
  handleFirstClick fuel (initGrid s0) x y rnd = Done (r, s', rnd') ->
  exists rnd0,
    (forall k, isMine s' k.1 k.2 = true <-> k ∈ chosenMines (initGrid s0) x y rnd0) /\
    mineLocations s' = chosenMines (initGrid s0) x y rnd0 /\
    minesPlaced s' = true /\ grid s' = grid s0 /\
    useExtendedNeighbors s' = useExtendedNeighbors s0.
Proof.
  intros H. apply shapes_handleFirstClick_first in H as (ok & s1 & res & Hpl & Hrev & ->); [|done].
  apply shapes_placeMines_spec in Hpl as (rnd0 & E & Hat & Hdom); [|apply noMines_initGrid].
  exists rnd0. pose proof (shapes_revealCell_playStep _ _ _ _ _ _ Hrev) as Hps.
  pose proof (shapes_playStep_frame _ _ Hps) as (Hml & Hmp & Hg & _).
  pose proof (playStep_evolves _ _ Hps) as V. simpl in Hml, Hmp, Hg, V.
  assert (mineLocations s1 = chosenMines (initGrid s0) x y rnd0 /\ grid s1 = grid s0 /\
          useExtendedNeighbors s1 = useExtendedNeighbors s0) as (Hml1 & Hg1 & Hu1)
    by (by rewrite E).
  assert (useExtendedNeighbors s' = useExtendedNeighbors s1) as Hu.
  { destruct Hps as [Es|(_ & Es & _)]; by rewrite Es. }
  split; [|split; [congruence|split; [exact Hmp|split; congruence]]].
  intros [kx ky]. rewrite shapes_isMine_true. simpl. specialize (V (kx, ky)).
  specialize (Hat (kx, ky)). split.
  - intros (c' & Hk & Hm). rewrite Hk in V.
    destruct (cells s1 !! (kx, ky)) as [c1|]; [|done]. destruct V as (Hm1 & _).
    destruct (cells (initGrid s0) !! (kx, ky)); [|done].
    destruct Hat as (_ & _ & Hmine). rewrite <- Hm1, Hm in Hmine.
    symmetry in Hmine. by apply bool_decide_eq_true in Hmine.
  - intros Hin. destruct (Hdom _ Hin) as [c Hc]. rewrite Hc in Hat.
    destruct (cells s1 !! (kx, ky)) as [c1|]; [|done]. destruct Hat as (_ & _ & Hmine).
    destruct (cells s' !! (kx, ky)) as [c'|]; [|done]. destruct V as (Hm1 & _).
    exists c'. split; [done|]. rewrite Hm1, Hmine. by apply bool_decide_eq_true.
Qed.

(** First-click safety: no mine at the click nor at any of its neighbors. *)
Lemma shapes_firstClick_safe fuel s0 x y rnd r s' rnd' :
  handleFirstClick fuel (initGrid s0) x y rnd = Done (r, s', rnd') ->
  isMine s' x y = false /\
  forall n, n ∈ _getNeighbors s' x y -> isMine s' n.1 n.2 = false.
Proof.
  intros H. apply shapes_handleFirstClick_fresh in H as (rnd0 & Hmines & _ & _ & Hg & Hu).
  assert (forall k, k = (x, y) \/ k ∈ _getNeighbors (initGrid s0) x y ->
            isMine s' k.1 k.2 = false) as Hsafe.
  { intros k Hk. destruct (isMine s' k.1 k.2) eqn:Hm; [|done]. exfalso.
    apply Hmines, elem_of_chosenMines, elem_of_validPositions in Hm as (_ & Hne & Hnn).
    destruct Hk; done. }
  split; [apply (Hsafe (x, y)); by left|].
  intros n Hn. apply Hsafe. right.
  by rewrite (getNeighbors_frame (initGrid s0) s') in Hn.
Qed.




(** A grid object whose bounds check accepts only the coordinates of the
    board's cells. *)
Definition lawful (s : SapperShapesGame) : Prop :=
  forall x y, Grid.isInBounds (grid s) x y = true ->
    (x, y) ∈ coords (width s) (height s).

Lemma covered_fresh s0 s1 :
  lawful s0 -> grid s1 = grid s0 ->
  (forall k, is_Some (cells (initGrid s0) !! k) -> is_Some (cells s1 !! k)) ->
  covered s1.
Proof.
  intros Hl Hg Hdom x y Hin. apply Hdom. rewrite lookup_initGrid.
  rewrite Hg in Hin. apply Hl in Hin. by rewrite bool_decide_eq_true_2.
Qed.

Lemma size_hiddenSet_fresh s0 s1 :
  (forall k, is_Some (cells s1 !! k) -> is_Some (cells (initGrid s0) !! k)) ->
  (size (hiddenSet (cells s1)) <= width s0 * height s0)%nat.
Proof.
  intros Hdom. rewrite <- (length_coords (width s0) (height s0)).
  rewrite <- (size_list_to_set (C := gset (Z * Z)) (coords (width s0) (height s0)))
    by apply NoDup_coords.
  apply subseteq_size. intros k (c & Hc & _)%elem_of_hiddenSet.
  apply elem_of_list_to_set. destruct (Hdom k) as [c0 Hc0]; [eauto|].
  rewrite lookup_initGrid in Hc0. by case_bool_decide.
Qed.

(** When generation reports failure, the first click completes. *)
Lemma shapes_firstClick_fallback fuel s0 x y rnd s1 rnd1 :
  noGuess s0 = true -> lawful s0 -> (width s0 * height s0 < fuel)%nat ->
  _generateSolvableBoard fuel (initGrid s0) x y rnd = Done (false, s1, rnd1) ->
  exists r s',
    handleFirstClick fuel (initGrid s0) x y rnd = Done (r, s', rnd1) /\
    fc_success r = false /\ minesPlaced s' = true /\
    mineLocations s' = mineLocations s1 /\ gameOver s' = won s' /\
    exists rnd0, _placeMinesRandomly (initGrid s0) x y rnd0 = Done (s1, rnd1).
Proof.
  intros Hng Hlaw Hfuel Hgen.
  assert (placeMines fuel (initGrid s0) x y rnd = Done (false, s1, rnd1)) as Hpl.
  { unfold placeMines. simpl noGuess. by rewrite Hng. }
  pose proof (shapes_placeMines_spec _ _ _ _ _ _ _ _ Hpl (noMines_initGrid s0))
    as (rnd0 & E & Hat & Hdom).
  assert (forall k, is_Some (cells (initGrid s0) !! k) <-> is_Some (cells s1 !! k)) as Hkeys.
  { intros k. specialize (Hat k).
    destruct (cells (initGrid s0) !! k), (cells s1 !! k); try done; split; eauto. }
  set (s2 := with_minesPlaced s1 true).
  assert (covered s2) as Hcov.
  { apply (covered_fresh s0); [done|subst s2; by rewrite E|]. intros k. apply Hkeys. }
  destruct (shapes_revealCellRecursive_total fuel s2 x y [] Hcov) as (hit & s3 & rev & Hrec).
  { pose proof (size_hiddenSet_fresh s0 s2) as Hle. simpl in Hle.
    specialize (Hle (fun k => proj2 (Hkeys k))). change (cells s2) with (cells s1). lia. }
  assert (hit = false) as ->.
  { destruct hit; [|done]. exfalso.
    apply shapes_revealCellRecursive_hit in Hrec as (_ & c & Hc & _ & _ & Hm & _).
    simpl in Hc. specialize (Hat (x, y)). rewrite Hc in Hat.
    destruct (cells (initGrid s0) !! (x, y)); [|done]. destruct Hat as (_ & _ & Hmine).
    rewrite Hm in Hmine. symmetry in Hmine. apply bool_decide_eq_true in Hmine.
    apply elem_of_chosenMines, elem_of_validPositions in Hmine. tauto. }
  pose proof (shapes_revealCellRecursive_step _ _ _ _ _ _ _ _ Hrec) as [E3 _].
  assert (revealCell fuel s2 x y =
          Done ({| r_hit := false; r_revealed := rev; r_won := _checkWin s3;
                   r_lost := false |},
                if _checkWin s3 then with_over s3 true true else s3)) as Hrev.
  { rewrite revealCell_eq. replace (gameOver s2) with false by (subst s2; by rewrite E).
    rewrite Hrec. done. }
  eexists _, _. split.
  { rewrite shapes_handleFirstClick_eq. simpl minesPlaced. cbv iota. rewrite Hpl. cbn [bind].
    fold s2. rewrite Hrev. done. }
  split; [done|].
  assert (minesPlaced s3 = true /\ mineLocations s3 = mineLocations s1 /\
          gameOver s3 = false /\ won s3 = false) as (? & ? & ? & ?).
  { rewrite E3. simpl. rewrite E. done. }
  unfold _generateSolvableBoard in Hgen.
  apply shapes_generateLoop_spec in Hgen as [(_ & Hfb)|(? & _)]; [|done].
  destruct (_checkWin s3); simpl; repeat (split; [congruence|]); exact Hfb.
Qed.

(** ** Revealing a mine *)

(** Revealing a hidden, unflagged mine of a live game whose mines are the
    listed cells: the game is lost and every mine is shown. *)
Lemma shapes_revealCell_mine fuel s x y c :
  minesListed s -> gameOver s = false ->
  Grid.isInBounds (grid s) x y = true -> cells s !! (x, y) = Some c ->
  revealed c = false -> flagged c = false -> mine c = true ->
  exists s',
    revealCell (S fuel) s x y =
      Done ({| r_hit := true; r_revealed := [(x, y)]; r_won := false; r_lost := true |}, s') /\
    gameOver s' = true /\ won s' = false /\
    forall k c', cells s' !! k = Some c' -> mine c' = true -> revealed c' = true.
Proof.
  intros (Hall & Hkeys & _) Hgo Hin Hc Hr Hf Hm.
  rewrite revealCell_eq, Hgo.
  rewrite (shapes_revealCellRecursive_mine fuel s x y [] c Hin Hc Hr Hf Hm).
  cbn [bind app]. cbv zeta.
  set (m1 := <[(x, y) := setRevealed c true]> (cells s)).
  destruct (revealMines_total (mineLocations s) m1) as [m' Hrm].
  { intros p Hp. subst m1. destruct (decide ((x, y) = p)) as [<-|Hne].
    - rewrite lookup_insert_eq. eauto.
    - rewrite lookup_insert_ne by done. by apply Hkeys. }
  change (mineLocations (with_over (with_cells s m1) true false)) with (mineLocations s).
  change (cells (with_over (with_cells s m1) true false)) with m1.
  rewrite Hrm. cbn [bind]. eexists. split; [reflexivity|].
  split; [done|]. split; [done|].
  intros k c' Hk Hmc. simpl in Hk.
  apply revealMines_spec in Hrm. specialize (Hrm k). rewrite Hk in Hrm.
  destruct (m1 !! k) as [c1|] eqn:Hc1; [|done].
  destruct Hrm as (Hm1 & _ & _ & _ & Hlisted & _). apply Hlisted.
  subst m1. destruct (decide ((x, y) = k)) as [<-|Hne].
  - by apply (Hall _ c).
  - rewrite lookup_insert_ne in Hc1 by done. apply (Hall _ c1); [done|congruence].
Qed.

End ShapesFacts.

(** * Facts about grid.js *)

Module GridFacts.
Import Grid.

Lemma inBounds_true w h x y :
  inBounds w h x y = true <-> 0 <= x < Z.of_nat w /\ 0 <= y < Z.of_nat h.
Proof. unfold inBounds. rewrite !andb_true_iff. lia. Qed.

Lemma inBounds_outside w h x y :
  ~ (0 <= x < Z.of_nat w /\ 0 <= y < Z.of_nat h) -> inBounds w h x y = false.
Proof.
  intros H. destruct (inBounds w h x y) eqn:E; [|done]. by apply inBounds_true in E.
Qed.

(** Every coordinate that the offset loop pushes passed the bounds check and
    is the start shifted by one of the offsets. *)
Lemma elem_of_shifted w h x y offs n :
  n ∈ shifted w h x y offs <->
  inBounds w h n.1 n.2 = true /\ exists d, d ∈ offs /\ n = (x + d.1, y + d.2).
Proof.
  unfold shifted. rewrite list_elem_of_filter, list_elem_of_fmap.
  split; intros (? & d & ? & ?); split; eauto.
Qed.

Lemma hex_neighbors_inBounds w h x y n :
  n ∈ HexGrid.getNeighbors w h x y -> inBounds w h n.1 n.2 = true.
Proof. unfold HexGrid.getNeighbors. by intros [? _]%elem_of_shifted. Qed.

Lemma hex_neighbors_near w h x y n :
  n ∈ HexGrid.getNeighbors w h x y -> Z.abs (n.1 - x) <= 1 /\ Z.abs (n.2 - y) <= 1.
Proof.
  unfold HexGrid.getNeighbors. intros (_ & d & Hd & ->)%elem_of_shifted. simpl.
  assert (d ∈ HexGrid.oddOffsets ++ HexGrid.evenOffsets) as Hall.
  { apply elem_of_app. destruct (HexGrid.isOddRow y); [by left|by right]. }
  clear Hd. unfold HexGrid.oddOffsets, HexGrid.evenOffsets in Hall. simpl in Hall.
  repeat (apply elem_of_cons in Hall as [->|Hall]; [simpl; lia|]).
  by apply elem_of_nil in Hall.
Qed.

Lemma triangle_neighbors_inBounds w h x y n :
  n ∈ TriangleGrid.getNeighbors w h x y ->
  inBounds w h n.1 n.2 = true /\ Z.abs (n.1 - x) <= 1 /\ Z.abs (n.2 - y) <= 1.
Proof.
  unfold TriangleGrid.getNeighbors. cbv zeta. rewrite !elem_of_app.
  intros [H|[H|H]].
  - destruct (inBounds w h (x - 1) y) eqn:E; [|by apply elem_of_nil in H].
    apply list_elem_of_singleton in H as ->. simpl. split; [done|lia].
  - destruct (inBounds w h (x + 1) y) eqn:E; [|by apply elem_of_nil in H].
    apply list_elem_of_singleton in H as ->. simpl. split; [done|lia].
  - destruct (TriangleGrid.pointsUp x y).
    + destruct (inBounds w h x (y + 1)) eqn:E; [|by apply elem_of_nil in H].
      apply list_elem_of_singleton in H as ->. simpl. split; [done|lia].
    + destruct (inBounds w h x (y - 1)) eqn:E; [|by apply elem_of_nil in H].
      apply list_elem_of_singleton in H as ->. simpl. split; [done|lia].
Qed.

Lemma triangle_extended_inBounds w h x y n :
  n ∈ TriangleGrid.getExtendedNeighbors w h x y ->
  inBounds w h n.1 n.2 = true /\ Z.abs (n.1 - x) <= 2 /\ Z.abs (n.2 - y) <= 1.
Proof.
  unfold TriangleGrid.getExtendedNeighbors. intros (Hb & d & Hd & ->)%elem_of_shifted.
  split; [done|]. simpl. unfold TriangleGrid.candidates in Hd.
  repeat (apply elem_of_cons in Hd as [->|Hd]; [simpl; lia|]).
  by apply elem_of_nil in Hd.
Qed.

(** A coordinate is [far] from the board when no cell of the board is
    within distance [r] of it, per axis. *)
Definition far (w h : nat) (r : Z) (x y : Z) : Prop :=
  x < - r \/ Z.of_nat w - 1 + r < x \/ y < - 1 \/ Z.of_nat h < y.

Lemma empty_of_no_elem {A} (l : list A) : (forall a, a ∉ l) -> l = [].
Proof. destruct l as [|a l]; [done|]. intros H. exfalso. apply (H a). by left. Qed.

Lemma hex_neighbors_far w h x y :
  far w h 1 x y -> HexGrid.getNeighbors w h x y = [].
Proof.
  intros Hfar. apply empty_of_no_elem. intros n Hn.
  pose proof (hex_neighbors_inBounds _ _ _ _ _ Hn) as Hb%inBounds_true.
  pose proof (hex_neighbors_near _ _ _ _ _ Hn). unfold far in Hfar. lia.
Qed.

Lemma triangle_neighbors_far w h x y :
  far w h 1 x y -> TriangleGrid.getNeighbors w h x y = [].
Proof.
  intros Hfar. apply empty_of_no_elem. intros n Hn.
  apply triangle_neighbors_inBounds in Hn as (Hb%inBounds_true & ?). unfold far in Hfar. lia.
Qed.

Lemma triangle_extended_far w h x y :
  far w h 2 x y -> TriangleGrid.getExtendedNeighbors w h x y = [].
Proof.
  intros Hfar. apply empty_of_no_elem. intros n Hn.
  apply triangle_extended_inBounds in Hn as (Hb%inBounds_true & ?). unfold far in Hfar. lia.
Qed.

End GridFacts.

(** * The no-guess solver of sapper.js *)

Module SapperSolve.
Import Sapper SapperFacts Deduction.

(** The board of the solver: the cells within bounds, the eight neighbors
    that lie on the board, and the mines and numbers of the trial grid. *)
Definition onBoard (w h : nat) (k : Z * Z) : bool :=
  (0 <=? k.1) && (k.1 <? Z.of_nat w) && (0 <=? k.2) && (k.2 <? Z.of_nat h).

Definition shift (k d : Z * Z) : Z * Z := (k.1 + d.1, k.2 + d.2).

Definition onBoardOf (w h : nat) (l : list (Z * Z)) : list (Z * Z) :=
  filter (fun n => onBoard w h n = true) l.

Definition around (w h : nat) (k : Z * Z) : list (Z * Z) :=
  onBoardOf w h (shift k <$> offsets).

Definition mineIn (g : list (list Z)) (k : Z * Z) : bool :=
  match at2 g k.1 k.2 with Done v => v =? -1 | _ => false end.

Definition numberIn (g : list (list Z)) (k : Z * Z) : Z :=
  match at2 g k.1 k.2 with Done v => v | _ => 0 end.

(** The set of the cells at which a boolean array holds [true]. *)
Definition holds (a : list (list bool)) (k : Z * Z) : bool :=
  match at2 a k.1 k.2 with Done true => true | _ => false end.

Definition cellsOn (w h : nat) (a : list (list bool)) : gset (Z * Z) :=
  list_to_set (filter (fun k => holds a k = true) (coords w h)).

Definition abs (w h : nat) (st : Sim) : know :=
  {| shown := cellsOn w h (simRevealed st); marked := cellsOn w h (simKnownMines st) |}.

Definition wfSim (w h : nat) (st : Sim) : Prop :=
  rect w h (simRevealed st) /\ rect w h (simKnownMines st).

Lemma onBoard_inBounds s x y : _inBounds s x y = onBoard (width s) (height s) (x, y).
Proof. reflexivity. Qed.

Lemma onBoard_coords w h k : onBoard w h k = true <-> k ∈ coords w h.
Proof.
  destruct k as [x y]. rewrite elem_of_coords. unfold onBoard. simpl.
  rewrite !andb_true_iff. lia.
Qed.

Lemma elem_of_cellsOn w h a k :
  rect w h a -> k ∈ cellsOn w h a <-> at2 a k.1 k.2 = Done true.
Proof.
  intros Hr. unfold cellsOn, holds. rewrite elem_of_list_to_set, list_elem_of_filter.
  split.
  - intros [H _]. destruct (at2 a k.1 k.2) as [[]| |]; done.
  - intros H. rewrite H. split; [done|]. destruct k as [x y].
    apply elem_of_coords. by eapply at2_rect_inv.
Qed.

Lemma cellsOn_set2 w h a x y a' :
  rect w h a -> set2 a x y true = Done a' ->
  cellsOn w h a' = {[ (x, y) ]} ∪ cellsOn w h a.
Proof.
  intros Hr (u & Hu & Hnew & Hold & Hrect)%set2_Done.
  apply set_eq. intros k. rewrite elem_of_union, elem_of_singleton.
  rewrite !elem_of_cellsOn by auto.
  destruct (decide (k = (x, y))) as [->|Hne]; [tauto|].
  destruct k as [kx ky]. simpl. rewrite Hold by done. tauto.
Qed.

Lemma cellsOn_replicate w h : cellsOn w h (replicate h (replicate w false)) = ∅.
Proof.
  apply set_eq. intros k. rewrite elem_of_cellsOn by apply rect_replicate.
  split; [|by intros []%elem_of_empty]. by intros ?%at2_replicate.
Qed.

Lemma simReveal_eq fuel s g x y st :
  simReveal (S fuel) s g x y st =
    if negb (_inBounds s x y) then Done st else
    r <- at2 (simRevealed st) x y;
    skip <- (if r then Done true else at2 (simKnownMines st) x y);
    if skip then Done st else
    v <- at2 g x y;
    if v =? -1 then Done st else
    rv <- set2 (simRevealed st) x y true;
    let st1 := {| simRevealed := rv; simKnownMines := simKnownMines st |} in
    if v =? 0 then
      foldM (fun (st' : Sim) (d : Z * Z) =>
               simReveal fuel s g (x + d.1) (y + d.2) st')
            offsets st1
    else Done st1.
Proof. reflexivity. Qed.

(** A completed [simReveal] is a flood fill. *)
Lemma simReveal_floods (fuel : nat) s g :
  let w := width s in
  let h := height s in
  forall x y st st',
    wfSim w h st -> simReveal fuel s g x y st = Done st' ->
    wfSim w h st' /\
    floods (onBoard w h) (around w h) (mineIn g) (numberIn g)
           (abs w h st) (x, y) (abs w h st').
Proof.
  intros w h. induction fuel as [|fuel IH]; intros x y st st' Hwf H; [done|].
  rewrite simReveal_eq, onBoard_inBounds in H. fold w h in H.
  destruct (onBoard w h (x, y)) eqn:Hin; cbn [negb] in H.
  2:{ injection H as <-. split; [done|]. apply flood_stop. by left. }
  destruct Hwf as [Hrv Hkm].
  inv_bind H. rename a into r. rename Ha into Hr.
  inv_bind H. rename a into skip. rename Ha into Hskip.
  destruct skip.
  { injection H as <-. split; [done|]. apply flood_stop. right. simpl.
    destruct r.
    - left. by apply elem_of_cellsOn.
    - right. left. by apply elem_of_cellsOn. }
  destruct r; [discriminate|].
  inv_bind H. rename a into v. rename Ha into Hv.
  assert (mineIn g (x, y) = (v =? -1)) as Hmine by (unfold mineIn; simpl; by rewrite Hv).
  assert (numberIn g (x, y) = v) as Hnum by (unfold numberIn; simpl; by rewrite Hv).
  destruct (Z.eqb_spec v (-1)) as [Hm1|Hm1].
  { injection H as <-. split; [done|]. apply flood_stop. by do 3 right. }
  inv_bind H. rename a into rv. rename Ha into Hset.
  assert ((x, y) ∉ shown (abs w h st)) as Hns.
  { simpl. rewrite elem_of_cellsOn by done. simpl. by rewrite Hr. }
  assert ((x, y) ∉ marked (abs w h st)) as Hnm.
  { simpl. rewrite elem_of_cellsOn by done. simpl. by rewrite Hskip. }
  set (st1 := {| simRevealed := rv; simKnownMines := simKnownMines st |}) in *.
  assert (wfSim w h st1) as Hwf1.
  { split; [|done]. simpl. apply set2_Done in Hset as (_ & _ & _ & _ & Hrect). auto. }
  assert (abs w h st1 = reveal (x, y) (abs w h st)) as Habs1.
  { unfold abs, reveal. simpl. f_equal. by eapply cellsOn_set2. }
  cbv zeta in H. destruct (Z.eqb_spec v 0) as [Hz|Hz].
  2:{ injection H as <-. split; [done|]. rewrite Habs1. by apply flood_number; try congruence. }
  assert (wfSim w h st' /\
          floodsAll (onBoard w h) (around w h) (mineIn g) (numberIn g)
                    (abs w h st1) (onBoardOf w h (shift (x, y) <$> offsets)) (abs w h st'))
    as [Hwf' Hall].
  { clear Habs1 Hset Hns Hnm. revert H Hwf1. generalize st1 as sta. generalize offsets as l.
    induction l as [|d l IHl]; intros sta H Hwfa; cbn [foldM] in H.
    - injection H as <-. split; [done|]. apply floodsAll_nil.
    - inv_bind H. rename a into stb. apply IH in Ha as [Hwfb Hfl]; [|done].
      destruct (IHl _ H Hwfb) as [Hwf' Hrest]. split; [done|].
      unfold onBoardOf. rewrite fmap_cons, filter_cons. unfold shift at 1 2. simpl.
      case_decide as Hb.
      + eapply floodsAll_cons; [exact Hfl|exact Hrest].
      + apply floods_outside in Hfl; [|by destruct (onBoard w h (x + d.1, y + d.2))].
        by rewrite <- Hfl. }
  split; [done|]. apply flood_zero with (st' := abs w h st'); try congruence.
  rewrite <- Habs1. exact Hall.
Qed.

Lemma onBoardOf_cons w h k l :
  onBoardOf w h (k :: l) =
  if onBoard w h k then k :: onBoardOf w h l else onBoardOf w h l.
Proof.
  unfold onBoardOf. rewrite filter_cons. destruct (onBoard w h k).
  - by rewrite decide_True.
  - by rewrite decide_False.
Qed.

Lemma scanNeighbors_spec s st x y n hid :
  let w := width s in
  let h := height s in
  wfSim w h st -> scanNeighbors s st x y = Done (n, hid) ->
  n = knownCount (around w h) (abs w h st) (x, y) /\
  hid = hiddenOf (around w h) (abs w h st) (x, y).
Proof.
  intros w h [Hrv Hkm] H. unfold scanNeighbors in H.
  unfold knownCount, hiddenOf, around. change (shift (x, y)) with (fun d : Z * Z => (x + d.1, y + d.2)).
  assert (forall l n0 h0,
    foldM (fun (c : nat * list (Z * Z)) (d : Z * Z) =>
             let nx := x + d.1 in
             let ny := y + d.2 in
             if negb (_inBounds s nx ny) then Done c else
             k <- at2 (simKnownMines st) nx ny;
             if k then Done (S c.1, c.2) else
             r <- at2 (simRevealed st) nx ny;
             if negb r then Done (c.1, c.2 ++ [(nx, ny)]) else Done c)
          l (n0, h0) = Done (n, hid) ->
    n = Nat.add n0 (length (filter (fun k => k ∈ marked (abs w h st))
                        (onBoardOf w h ((fun d : Z * Z => (x + d.1, y + d.2)) <$> l)))) /\
    hid = h0 ++ filter (fun k => (k ∉ marked (abs w h st)) /\ (k ∉ shown (abs w h st)))
                  (onBoardOf w h ((fun d : Z * Z => (x + d.1, y + d.2)) <$> l))) as Hgen.
  { clear H. induction l as [|d l IH]; intros n0 h0 H; cbn [foldM] in H.
    - injection H as <- <-. simpl. split; [lia|by rewrite app_nil_r].
    - inv_bind H. destruct a as [n1 h1]. apply IH in H as [-> ->]. cbv zeta in Ha.
      rewrite onBoard_inBounds in Ha. fold w h in Ha.
      rewrite fmap_cons, onBoardOf_cons.
      destruct (onBoard w h (x + d.1, y + d.2)) eqn:Hb; cbn [negb] in Ha.
      2:{ by injection Ha as <- <-. }
      inv_bind Ha. rename a into k. rename Ha0 into Hk. rewrite !filter_cons.
      assert ((x + d.1, y + d.2) ∈ marked (abs w h st) <-> k = true) as Hmk.
      { simpl. rewrite elem_of_cellsOn by done. simpl. rewrite Hk. split; congruence. }
      destruct k.
      + injection Ha as <- <-. rewrite decide_True by tauto.
        rewrite decide_False by tauto. simpl. split; [lia|done].
      + inv_bind Ha. rename a into r. rename Ha0 into Hr.
        assert ((x + d.1, y + d.2) ∈ shown (abs w h st) <-> r = true) as Hsh.
        { simpl. rewrite elem_of_cellsOn by done. simpl. rewrite Hr. split; congruence. }
        rewrite decide_False by (rewrite Hmk; done).
        destruct r; cbn [negb] in Ha; injection Ha as <- <-.
        * rewrite decide_False by tauto. done.
        * rewrite decide_True by (rewrite Hmk, Hsh; done). simpl.
          split; [done|]. by rewrite <- app_assoc. }
  apply Hgen in H as [-> ->]. done.
Qed.

(** The loop of Rule A marks the listed cells. *)
Lemma markLoop_spec w h : forall l st p st1 p1,
  wfSim w h st ->
  foldM (fun (a : Sim * bool) (c : Z * Z) =>
           k <- at2 (simKnownMines a.1) c.1 c.2;
           if negb k then
             km <- set2 (simKnownMines a.1) c.1 c.2 true;
             Done ({| simRevealed := simRevealed a.1; simKnownMines := km |}, true)
           else Done a)
        l (st, p) = Done (st1, p1) ->
  wfSim w h st1 /\ abs w h st1 = mark l (abs w h st) /\ (p = true -> p1 = true) /\
  (forall c l', l = c :: l' -> c ∉ marked (abs w h st) -> p1 = true).
Proof.
  induction l as [|c l IH]; intros st p st1 p1 Hwf H; cbn [foldM] in H.
  - injection H as <- <-. split; [done|]. split; [|split; [done|done]].
    unfold mark, abs. simpl. f_equal. apply marked_nil.
  - inv_bind H. destruct a as [sta pa]. apply IH in H as (Hwf1 & Habs & Hp & _).
    2:{ inv_bind Ha. destruct a; cbn [negb] in Ha.
        - by injection Ha as <- <-.
        - inv_bind Ha. injection Ha as <- <-. destruct Hwf as [Hrv Hkm]. split; [done|].
          simpl. apply set2_Done in Ha1 as (_ & _ & _ & _ & Hrect). auto. }
    destruct Hwf as [Hrv Hkm]. destruct c as [cx cy]. cbn [fst snd] in Ha.
    inv_bind Ha. rename a into k. rename Ha0 into Hk.
    assert ((cx, cy) ∈ marked (abs w h st) <-> k = true) as Hmk.
    { simpl. rewrite elem_of_cellsOn by done. simpl. rewrite Hk. split; congruence. }
    split; [done|]. destruct k; cbn [negb] in Ha.
    + injection Ha as <- <-. split; [|split; [done|]].
      * rewrite Habs. unfold mark. simpl. f_equal.
        apply marked_known, Hmk. done.
      * intros c' l' [= <- <-] Hn. exfalso. apply Hn, Hmk. done.
    + inv_bind Ha. rename a into km. injection Ha as <- <-.
      split; [|split; [auto|auto]].
      rewrite Habs. unfold mark, abs. simpl. f_equal.
      rewrite (cellsOn_set2 _ _ _ _ _ _ Hkm Ha0). apply marked_new.
Qed.

(** The loop of Rule B floods the listed cells. *)
Lemma revealLoop_spec fuel s g :
  let w := width s in
  let h := height s in
  forall l st p st1 p1,
    wfSim w h st ->
    foldM (fun (a : Sim * bool) (c : Z * Z) =>
             st' <- simReveal fuel s g c.1 c.2 a.1; Done (st', true))
          l (st, p) = Done (st1, p1) ->
    wfSim w h st1 /\
    floodsAll (onBoard w h) (around w h) (mineIn g) (numberIn g)
              (abs w h st) l (abs w h st1) /\
    (p = true -> p1 = true) /\ (l <> [] -> p1 = true).
Proof.
  intros w h. induction l as [|c l IH]; intros st p st1 p1 Hwf H; cbn [foldM] in H.
  - injection H as <- <-. split; [done|]. split; [apply floodsAll_nil|done].
  - inv_bind H. destruct a as [sta pa]. inv_bind Ha. injection Ha as <- <-.
    cbn [fst] in Ha0. apply simReveal_floods in Ha0 as [Hwfa Hfl]; [|done].
    apply IH in H as (Hwf1 & Hall & Hp & _); [|done].
    split; [done|]. split; [|split; auto].
    destruct c as [cx cy]. eapply floodsAll_cons; [exact Hfl|exact Hall].
Qed.

Lemma visitCell_eq fuel s g st progress x y :
  visitCell fuel s g (st, progress) (x, y) =
  r <- at2 (simRevealed st) x y;
  number <- (if negb r then Done 0 else at2 g x y);
  if negb r || (number <=? 0) then Done (st, progress) else
  '(knownMineCount, hiddenCells) <- scanNeighbors s st x y;
  let hiddenCount := length hiddenCells in
  '(st1, progress1) <-
    (if (0 <? Z.of_nat hiddenCount)
        && (Z.of_nat hiddenCount =? number - Z.of_nat knownMineCount)
     then
       foldM (fun (a : Sim * bool) (c : Z * Z) =>
                k <- at2 (simKnownMines a.1) c.1 c.2;
                if negb k then
                  km <- set2 (simKnownMines a.1) c.1 c.2 true;
                  Done ({| simRevealed := simRevealed a.1; simKnownMines := km |}, true)
                else Done a)
             hiddenCells (st, progress)
     else Done (st, progress));
  if (Z.of_nat knownMineCount =? number) && (0 <? Z.of_nat hiddenCount) then
    foldM (fun (a : Sim * bool) (c : Z * Z) =>
             st' <- simReveal fuel s g c.1 c.2 a.1; Done (st', true))
          hiddenCells (st1, progress1)
  else Done (st1, progress1).
Proof. reflexivity. Qed.

(** One visit of the pass: deductions only, and without progress no rule
    applied at the visited cell. *)
Lemma visitCell_spec fuel s g st p c st' p' :
  let w := width s in
  let h := height s in
  wfSim w h st -> visitCell fuel s g (st, p) c = Done (st', p') ->
  wfSim w h st' /\
  rtc (deduce (onBoard w h) (around w h) (mineIn g) (numberIn g)) (abs w h st) (abs w h st') /\
  (p = true -> p' = true) /\
  (p' = false ->
   st' = st /\ ~ ruleA_applies (around w h) (numberIn g) (abs w h st) c /\
   ~ ruleB_applies (around w h) (numberIn g) (abs w h st) c).
Proof.
  intros w h Hwf H. destruct c as [x y]. rewrite visitCell_eq in H.
  pose proof Hwf as [Hrv Hkm].
  inv_bind H. rename a into r. rename Ha into Hr.
  assert ((x, y) ∈ shown (abs w h st) <-> r = true) as Hsh.
  { simpl. rewrite elem_of_cellsOn by done. simpl. rewrite Hr. split; congruence. }
  inv_bind H. rename a into number. rename Ha into Hnum.
  destruct r; cbn [negb orb] in H, Hnum.
  2:{ injection H as <- <-. split; [done|]. split; [done|]. split; [done|]. intros _.
      split; [done|]. split; intros (Hs & _); apply Hsh in Hs; done. }
  assert (numberIn g (x, y) = number) as Hn by (unfold numberIn; simpl; by rewrite Hnum).
  destruct (Z.leb_spec number 0) as [Hle|Hpos].
  { injection H as <- <-. split; [done|]. split; [done|]. split; [done|]. intros _.
    split; [done|]. split; intros (_ & Hp & _); lia. }
  inv_bind H. destruct a as [kc hid]. apply scanNeighbors_spec in Ha as [Hkc Hhid]; [|done].
  fold w h in Hkc, Hhid. cbv zeta in H.
  inv_bind H. destruct a as [st1 p1]. rename Ha into HA.
  destruct ((0 <? Z.of_nat (length hid)) && (Z.of_nat (length hid) =? number - Z.of_nat kc))
    eqn:EA.
  - apply andb_true_iff in EA as [Hlen%Z.ltb_lt Heq%Z.eqb_eq].
    apply markLoop_spec with (w := w) (h := h) in HA as (Hwf1 & Habs1 & Hp1 & Hfirst); [|done].
    assert (hid <> []) as Hne by (intros ->; simpl in Hlen; lia).
    assert (p1 = true) as ->.
    { destruct hid as [|c0 l0] eqn:Eh; [done|]. apply (Hfirst c0 l0); [done|].
      assert (c0 ∈ hiddenOf (around w h) (abs w h st) (x, y)) as Hc0
        by (rewrite <- Hhid; by left).
      unfold hiddenOf in Hc0. apply list_elem_of_filter in Hc0. tauto. }
    assert ((Z.of_nat kc =? number) && (0 <? Z.of_nat (length hid)) = false) as EB.
    { apply andb_false_iff. left. apply Z.eqb_neq. lia. }
    rewrite EB in H. injection H as <- <-. split; [done|]. split; [|split; [done|done]].
    apply rtc_once. rewrite Habs1, Hhid. apply ruleA.
    split; [by apply Hsh|]. split; [lia|]. rewrite <- Hhid, <- Hkc. split; [done|lia].
  - injection HA as <- <-.
    destruct ((Z.of_nat kc =? number) && (0 <? Z.of_nat (length hid))) eqn:EB.
    + apply andb_true_iff in EB as [Heq%Z.eqb_eq Hlen%Z.ltb_lt].
      assert (hid <> []) as Hne by (intros ->; simpl in Hlen; lia).
      apply revealLoop_spec in H as (Hwf' & Hall & _ & Hp'); [|done].
      rewrite (Hp' Hne). split; [done|]. split; [|split; [done|done]].
      apply rtc_once. eapply ruleB with (c := (x, y)); [|rewrite <- Hhid; exact Hall].
      split; [by apply Hsh|]. split; [lia|]. rewrite <- Hhid, <- Hkc. split; [done|lia].
    + injection H as <- <-. split; [done|]. split; [done|]. split; [done|]. intros _.
      split; [done|].
      apply andb_false_iff in EA. apply andb_false_iff in EB.
      rewrite Z.ltb_ge, Z.eqb_neq in EA. rewrite Z.ltb_ge, Z.eqb_neq in EB.
      split; intros (_ & _ & Hne & Heq); rewrite <- Hhid, <- Hkc in *;
        (assert (0 < Z.of_nat (length hid)) by (destruct hid; [done|simpl; lia])); lia.
Qed.

(** One pass over the board. *)
Lemma pass_spec fuel s g :
  let w := width s in
  let h := height s in
  forall l st p st' p',
    wfSim w h st -> foldM (visitCell fuel s g) l (st, p) = Done (st', p') ->
    wfSim w h st' /\
    rtc (deduce (onBoard w h) (around w h) (mineIn g) (numberIn g))
        (abs w h st) (abs w h st') /\
    (p = true -> p' = true) /\
    (p' = false ->
     st' = st /\ forall c, c ∈ l ->
       ~ ruleA_applies (around w h) (numberIn g) (abs w h st) c /\
       ~ ruleB_applies (around w h) (numberIn g) (abs w h st) c).
Proof.
  intros w h. induction l as [|c l IH]; intros st p st' p' Hwf H; cbn [foldM] in H.
  - injection H as <- <-. split; [done|]. split; [done|]. split; [done|]. intros _.
    split; [done|]. by intros c Hc%elem_of_nil.
  - inv_bind H. destruct a as [st1 p1].
    apply visitCell_spec in Ha as (Hwf1 & Hd1 & Hp1 & Hno1); [|done].
    apply IH in H as (Hwf' & Hd' & Hp' & Hno'); [|done].
    split; [done|]. split; [by etrans|]. split; [auto|]. intros Hf.
    destruct (Hno' Hf) as [-> Hrest].
    assert (p1 = false) as Hp1f by (destruct p1; [by rewrite Hp' in Hf|done]).
    destruct (Hno1 Hp1f) as (-> & HA & HB). split; [done|].
    intros c' [->|Hc']%elem_of_cons; [done|by apply Hrest].
Qed.

(** The loop runs deductions until no rule applies. *)
Lemma solveLoop_spec fuel s g :
  let w := width s in
  let h := height s in
  forall passes st st',
    wfSim w h st -> solveLoop fuel passes s g st = Done st' ->
    wfSim w h st' /\
    rtc (deduce (onBoard w h) (around w h) (mineIn g) (numberIn g))
        (abs w h st) (abs w h st') /\
    fixedPoint (around w h) (numberIn g) (abs w h st').
Proof.
  intros w h. induction passes as [|passes IH]; intros st st' Hwf H; [done|].
  cbn [solveLoop] in H. inv_bind H. destruct a as [st1 progress].
  apply pass_spec in Ha as (Hwf1 & Hd1 & _ & Hno); [|done]. destruct progress.
  - apply IH in H as (Hwf' & Hd' & Hfix); [|done]. split; [done|]. split; [by etrans|done].
  - injection H as <-. destruct (Hno eq_refl) as [-> Hnone]. split; [done|]. split; [done|].
    intros c. destruct (decide (c ∈ coords w h)) as [Hc|Hc]; [by apply Hnone|].
    assert (c ∉ shown (abs w h st)) as Hns.
    { simpl. unfold cellsOn. rewrite elem_of_list_to_set, list_elem_of_filter. tauto. }
    split; intros (Hs & _); done.
Qed.

Lemma allM_true {A} (blocks : A -> outcome bool) (l : list A) :
  allM blocks l = Done true -> forall a, a ∈ l -> blocks a = Done false.
Proof.
  induction l as [|a l IH]; simpl; intros H b Hb; [by apply elem_of_nil in Hb|].
  inv_bind H. rename a0 into v. destruct v; [done|].
  apply elem_of_cons in Hb as [->|Hb]; [done|by apply IH].
Qed.

(** A trial grid that [_simulateSolve] accepts is solvable by deduction
    from the click. *)
Lemma simulateSolve_solvable fuel s g x y :
  _simulateSolve fuel s g x y = Done true ->
  solvable (onBoard (width s) (height s)) (around (width s) (height s))
           (mineIn g) (numberIn g) (coords (width s) (height s)) (x, y).
Proof.
  unfold _simulateSolve. cbv zeta. intros H.
  set (w := width s) in *. set (h := height s) in *.
  set (st0 := {| simRevealed := replicate h (replicate w false);
                 simKnownMines := replicate h (replicate w false) |}) in *.
  assert (wfSim w h st0) as Hwf0 by (split; apply rect_replicate).
  assert (abs w h st0 = start) as Habs0.
  { unfold abs, start. simpl. by rewrite cellsOn_replicate. }
  inv_bind H. rename a into st1. apply simReveal_floods in Ha as [Hwf1 Hfl]; [|done].
  inv_bind H. rename a into st2. apply solveLoop_spec in Ha as (Hwf2 & Hd & Hfix); [|done].
  exists (abs w h st1), (abs w h st2). rewrite <- Habs0.
  split; [done|]. split; [done|]. split; [done|].
  intros k Hk Hm. pose proof (allM_true _ _ H k Hk) as Hb. cbv beta in Hb.
  inv_bind Hb. rename a into v. unfold mineIn in Hm. rewrite Ha in Hm. rewrite Hm in Hb.
  cbn [negb] in Hb. inv_bind Hb. rename a into r. injection Hb as Hr.
  simpl. apply elem_of_cellsOn; [apply Hwf2|]. rewrite Ha0. by destruct r.
Qed.

(** A first click that reports success on a no-guess board leaves a board
    that deduction solves from the click. *)
Lemma firstClick_solvable fuel s x y rnd r s' rnd' :
  noGuess s = true ->
  handleFirstClick fuel s x y rnd = Done (r, s', rnd') -> fc_success r = true ->
  solvable (onBoard (width s') (height s')) (around (width s') (height s'))
           (mineIn (grid s')) (numberIn (grid s'))
           (coords (width s') (height s')) (x, y).
Proof.
  intros Hng H Hok.
  assert (minesPlaced s = false) as Hmp.
  { destruct (minesPlaced s) eqn:E; [|done].
    rewrite handleFirstClick_again in H by done. injection H as <- _ _. done. }
  apply handleFirstClick_first in H as (ok & s1 & res & Hpl & Hrev & ->); [|done].
  simpl in Hok. subst ok. unfold placeMines in Hpl. rewrite Hng in Hpl.
  apply generateSolvableBoard_spec in Hpl as (Hplaced & _ & Hsolve & _).
  specialize (Hsolve eq_refl). apply simulateSolve_solvable in Hsolve.
  apply revealCell_playStep, playStep_frame in Hrev as (_ & Hg & Hw & Hh).
  simpl in Hg, Hw, Hh. rewrite Hg, Hw, Hh.
  assert (width s1 = width s /\ height s1 = height s) as [-> ->]
    by (by rewrite Hplaced).
  exact Hsolve.
Qed.

End SapperSolve.

(** * The no-guess solver of sappershapes.js *)

Module ShapesSolve.
Import SapperShapes ShapesFacts Deduction.

(** The board of the solver: the bounds check and the neighbors of the grid
    object. *)
Definition onBoard (s : SapperShapesGame) (k : Z * Z) : bool :=
  Grid.isInBounds (grid s) k.1 k.2.

Definition around (s : SapperShapesGame) (k : Z * Z) : list (Z * Z) :=
  _getNeighbors s k.1 k.2.

(** The keys at which a map of booleans holds [true]. *)
Definition trueKeys (m : gmap (Z * Z) bool) : gset (Z * Z) :=
  dom (filter (fun kv : Z * Z * bool => kv.2 = true) m).

Definition abs (st : Sim) : know :=
  {| shown := trueKeys (simRevealed st); marked := trueKeys (simKnownMines st) |}.

Lemma elem_of_trueKeys m k : k ∈ trueKeys m <-> truthy m k = true.
Proof.
  unfold trueKeys, truthy. rewrite elem_of_dom. unfold is_Some.
  setoid_rewrite map_lookup_filter_Some. simpl. split.
  - intros (b & -> & ->). done.
  - destruct (m !! k) as [[]|]; try done. eauto.
Qed.

Lemma trueKeys_insert m k : trueKeys (<[k := true]> m) = {[ k ]} ∪ trueKeys m.
Proof.
  apply set_eq. intros j. rewrite elem_of_union, elem_of_singleton, !elem_of_trueKeys.
  unfold truthy. destruct (decide (j = k)) as [->|Hne].
  - rewrite lookup_insert_eq. simpl. tauto.
  - rewrite lookup_insert_ne by done. tauto.
Qed.

Lemma truthy_allFalse s k : truthy (allFalse s) k = false.
Proof.
  unfold allFalse. generalize (coords (width s) (height s)) as l. intros l.
  induction l as [|p l IH] using rev_ind; [done|].
  rewrite foldl_app. cbn [foldl]. unfold truthy in *.
  destruct (decide (p = k)) as [->|Hne].
  - by rewrite lookup_insert_eq.
  - by rewrite lookup_insert_ne.
Qed.

Lemma trueKeys_allFalse s : trueKeys (allFalse s) = ∅.
Proof.
  apply set_eq. intros k. rewrite elem_of_trueKeys, truthy_allFalse.
  split; [done|by intros []%elem_of_empty].
Qed.

Lemma shapes_simReveal_eq fuel s t x y st :
  simReveal (S fuel) s t x y st =
    if negb (Grid.isInBounds (grid s) x y) then Done st else
    if truthy (simRevealed st) (x, y) || truthy (simKnownMines st) (x, y)
    then Done st else
    cell <- cellAt t x y;
    if t_mine cell then Done st else
    let st1 := {| simRevealed := <[(x, y) := true]> (simRevealed st);
                  simKnownMines := simKnownMines st |} in
    if (t_count cell =? 0)%nat then
      foldM (fun (st' : Sim) (n : Z * Z) => simReveal fuel s t n.1 n.2 st')
            (_getNeighbors s x y) st1
    else Done st1.
Proof. reflexivity. Qed.

Section Trial.

(** A trial grid, and mines and numbers that agree with it. *)
Variable s : SapperShapesGame.
Variable t : gmap (Z * Z) TestCell.
Variable mine : Z * Z -> bool.
Variable number : Z * Z -> Z.
Hypothesis agree : forall k tc, t !! k = Some tc ->
  mine k = t_mine tc /\ number k = Z.of_nat (t_count tc).

(** The solver reveals cells of the trial grid only. *)
Definition inTrial (st : Sim) : Prop :=
  forall k, k ∈ shown (abs st) -> is_Some (t !! k).

Lemma cellAt_trial x y tc : cellAt t x y = Done tc -> t !! (x, y) = Some tc.
Proof. unfold cellAt. destruct (t !! (x, y)); [by intros [= ->]|done]. Qed.

(** A completed [simReveal] is a flood fill. *)
Lemma shapes_simReveal_floods (fuel : nat) :
  forall x y st st',
    inTrial st -> simReveal fuel s t x y st = Done st' ->
    inTrial st' /\
    floods (onBoard s) (around s) mine number (abs st) (x, y) (abs st').
Proof.
  induction fuel as [|fuel IH]; intros x y st st' Hin H; [done|].
  rewrite shapes_simReveal_eq in H.
  destruct (Grid.isInBounds (grid s) x y) eqn:Hb; cbn [negb] in H.
  2:{ injection H as <-. split; [done|]. apply flood_stop. by left. }
  destruct (truthy (simRevealed st) (x, y)) eqn:Hr; cbn [orb] in H.
  { injection H as <-. split; [done|]. apply flood_stop. right. left.
    by apply elem_of_trueKeys. }
  destruct (truthy (simKnownMines st) (x, y)) eqn:Hk.
  { injection H as <-. split; [done|]. apply flood_stop. right. right. left.
    by apply elem_of_trueKeys. }
  inv_bind H. rename a into tc. apply cellAt_trial in Ha.
  destruct (agree _ _ Ha) as [Hm Hn].
  destruct (t_mine tc) eqn:Htm.
  { injection H as <-. split; [done|]. apply flood_stop. by do 3 right. }
  assert ((x, y) ∉ shown (abs st)) as Hns.
  { simpl. rewrite elem_of_trueKeys. by rewrite Hr. }
  assert ((x, y) ∉ marked (abs st)) as Hnm.
  { simpl. rewrite elem_of_trueKeys. by rewrite Hk. }
  set (st1 := {| simRevealed := <[(x, y) := true]> (simRevealed st);
                 simKnownMines := simKnownMines st |}) in *.
  assert (abs st1 = reveal (x, y) (abs st)) as Habs1.
  { unfold abs, reveal. simpl. f_equal. apply trueKeys_insert. }
  assert (inTrial st1) as Hin1.
  { intros k. rewrite Habs1. simpl. rewrite elem_of_union, elem_of_singleton.
    intros [->|Hk']; [eauto|by apply Hin]. }
  cbv zeta in H. destruct (Nat.eqb_spec (t_count tc) 0) as [Hz|Hz].
  2:{ injection H as <-. split; [done|]. rewrite Habs1. apply flood_number; try done. lia. }
  assert (inTrial st' /\
          floodsAll (onBoard s) (around s) mine number (abs st1) (_getNeighbors s x y) (abs st'))
    as [Hin' Hall].
  { clear Habs1 Hns Hnm. revert H Hin1. generalize st1 as sta.
    generalize (_getNeighbors s x y) as l.
    induction l as [|n l IHl]; intros sta H Hina; cbn [foldM] in H.
    - injection H as <-. split; [done|]. apply floodsAll_nil.
    - inv_bind H. rename a into stb. apply IH in Ha0 as [Hinb Hfl]; [|done].
      destruct (IHl _ H Hinb) as [Hin' Hrest]. split; [done|].
      destruct n as [nx ny]. eapply floodsAll_cons; [exact Hfl|exact Hrest]. }
  split; [done|]. apply flood_zero with (st' := abs st'); try done; [lia|].
  rewrite <- Habs1. exact Hall.
Qed.

Lemma shapes_scanNeighbors_spec st x y :
  scanNeighbors s st x y =
  (knownCount (around s) (abs st) (x, y), hiddenOf (around s) (abs st) (x, y)).
Proof.
  unfold scanNeighbors, knownCount, hiddenOf, around. cbn [fst snd].
  assert (forall l n0 h0,
    foldl (fun (c : nat * list (Z * Z)) (n : Z * Z) =>
             if truthy (simKnownMines st) n then (S c.1, c.2)
             else if negb (truthy (simRevealed st) n) then (c.1, c.2 ++ [n])
             else c)
          (n0, h0) l =
    (Nat.add n0 (length (filter (fun k => k ∈ marked (abs st)) l)),
     h0 ++ filter (fun k => (k ∉ marked (abs st)) /\ (k ∉ shown (abs st))) l)) as Hgen.
  { induction l as [|n l IH]; intros n0 h0; cbn [foldl].
    - simpl. by rewrite Nat.add_0_r, app_nil_r.
    - rewrite !filter_cons. simpl marked. simpl shown.
      destruct (truthy (simKnownMines st) n) eqn:Hk.
      + rewrite IH. cbn [fst snd]. rewrite decide_True by (by apply elem_of_trueKeys).
        rewrite decide_False by (rewrite !elem_of_trueKeys; tauto).
        simpl. f_equal. lia.
      + rewrite decide_False by (rewrite elem_of_trueKeys; congruence).
        destruct (truthy (simRevealed st) n) eqn:Hr; cbn [negb].
        * rewrite IH. rewrite decide_False by (rewrite !elem_of_trueKeys; tauto). done.
        * rewrite IH. cbn [fst snd].
          rewrite decide_True by (rewrite !elem_of_trueKeys; split; congruence).
          by rewrite <- app_assoc. }
  apply Hgen.
Qed.

(** The loop of Rule A marks the listed cells. *)
Lemma shapes_markLoop_spec : forall l st p,
  let r :=
    foldl (fun (a : Sim * bool) (c : Z * Z) =>
             if negb (truthy (simKnownMines a.1) c) then
               ({| simRevealed := simRevealed a.1;
                   simKnownMines := <[c := true]> (simKnownMines a.1) |}, true)
             else a)
          (st, p) l in
  abs r.1 = mark l (abs st) /\ (p = true -> r.2 = true) /\
  (forall c l', l = c :: l' -> c ∉ marked (abs st) -> r.2 = true).
Proof.
  induction l as [|c l IH]; intros st p; cbn [foldl]; cbv zeta.
  - cbn [fst snd]. split; [|done]. unfold mark, abs. simpl. f_equal. apply marked_nil.
  - cbn [fst]. destruct (truthy (simKnownMines st) c) eqn:Hk; cbn [negb].
    + destruct (IH st p) as (Habs & Hp & _). split; [|split; [done|]].
      * rewrite Habs. unfold mark. simpl. f_equal.
        by apply marked_known, elem_of_trueKeys.
      * intros c' l' [= <- <-] Hn. exfalso. apply Hn. simpl. by apply elem_of_trueKeys.
    + match goal with |- context [foldl ?f (?st1, true) l] =>
        destruct (IH st1 true) as (Habs & Hp & _) end.
      split; [|split; [auto|auto]].
      rewrite Habs. unfold mark, abs. simpl. f_equal. rewrite trueKeys_insert.
      apply marked_new.
Qed.

(** The loop of Rule B floods the listed cells. *)
Lemma shapes_revealLoop_spec fuel :
  forall l st p st1 p1,
    inTrial st ->
    foldM (fun (a : Sim * bool) (c : Z * Z) =>
             st' <- simReveal fuel s t c.1 c.2 a.1; Done (st', true))
          l (st, p) = Done (st1, p1) ->
    inTrial st1 /\
    floodsAll (onBoard s) (around s) mine number (abs st) l (abs st1) /\
    (p = true -> p1 = true) /\ (l <> [] -> p1 = true).
Proof.
  induction l as [|c l IH]; intros st p st1 p1 Hin H; cbn [foldM] in H.
  - injection H as <- <-. split; [done|]. split; [apply floodsAll_nil|done].
  - inv_bind H. destruct a as [sta pa]. inv_bind Ha. injection Ha as <- <-.
    cbn [fst] in Ha0. apply shapes_simReveal_floods in Ha0 as [Hina Hfl]; [|done].
    apply IH in H as (Hin1 & Hall & Hp & _); [|done].
    split; [done|]. split; [|split; auto].
    destruct c as [cx cy]. eapply floodsAll_cons; [exact Hfl|exact Hall].
Qed.

Lemma shapes_visitCell_eq fuel st progress p :
  visitCell fuel s t (st, progress) p =
  if negb (truthy (simRevealed st) p) then Done (st, progress) else
  cell <- cellAt t p.1 p.2;
  if (t_count cell <=? 0)%nat then Done (st, progress) else
  let knownMineCount := (scanNeighbors s st p.1 p.2).1 in
  let hiddenCells := (scanNeighbors s st p.1 p.2).2 in
  let hiddenCount := length hiddenCells in
  let a1 :=
    if (0 <? hiddenCount)%nat
       && (Z.of_nat hiddenCount =? Z.of_nat (t_count cell) - Z.of_nat knownMineCount)
    then
      foldl (fun (a : Sim * bool) (c : Z * Z) =>
               if negb (truthy (simKnownMines a.1) c) then
                 ({| simRevealed := simRevealed a.1;
                     simKnownMines := <[c := true]> (simKnownMines a.1) |}, true)
               else a)
            (st, progress) hiddenCells
    else (st, progress) in
  if (knownMineCount =? t_count cell)%nat && (0 <? hiddenCount)%nat then
    foldM (fun (a : Sim * bool) (c : Z * Z) =>
             st' <- simReveal fuel s t c.1 c.2 a.1; Done (st', true))
          hiddenCells a1
  else Done a1.
Proof.
  unfold visitCell. destruct (negb (truthy (simRevealed st) p)); [done|].
  destruct (cellAt t p.1 p.2) as [cell| |]; [|done|done]. cbn [bind].
  destruct (t_count cell <=? 0)%nat; [done|].
  destruct (scanNeighbors s st p.1 p.2) as [kc hid]. cbn [fst snd]. cbv zeta.
  destruct ((0 <? length hid)%nat && (Z.of_nat (length hid) =? Z.of_nat (t_count cell) - Z.of_nat kc)).
  - match goal with |- context [foldl ?f ?a ?l] => destruct (foldl f a l) end. done.
  - done.
Qed.

(** One visit of the pass: deductions only, and without progress no rule
    applied at the visited cell. *)
Lemma shapes_visitCell_spec fuel st p c st' p' :
  inTrial st -> visitCell fuel s t (st, p) c = Done (st', p') ->
  inTrial st' /\
  rtc (deduce (onBoard s) (around s) mine number) (abs st) (abs st') /\
  (p = true -> p' = true) /\
  (p' = false ->
   st' = st /\ ~ ruleA_applies (around s) number (abs st) c /\
   ~ ruleB_applies (around s) number (abs st) c).
Proof.
  intros Hin H. rewrite shapes_visitCell_eq in H.
  destruct (truthy (simRevealed st) c) eqn:Hr; cbn [negb] in H.
  2:{ injection H as <- <-. split; [done|]. split; [done|]. split; [done|]. intros _.
      split; [done|]. split; intros (Hs & _); simpl in Hs; apply elem_of_trueKeys in Hs;
        congruence. }
  assert (c ∈ shown (abs st)) as Hsh by (by apply elem_of_trueKeys).
  destruct c as [x y]. cbn [fst snd] in H.
  inv_bind H. rename a into tc. apply cellAt_trial in Ha.
  destruct (agree _ _ Ha) as [_ Hn].
  destruct (Nat.leb_spec (t_count tc) 0) as [Hle|Hpos].
  { injection H as <- <-. split; [done|]. split; [done|]. split; [done|]. intros _.
    split; [done|]. split; intros (_ & Hp & _); lia. }
  rewrite shapes_scanNeighbors_spec in H. cbn [fst snd] in H. cbv zeta in H.
  set (kc := knownCount (around s) (abs st) (x, y)) in *.
  set (hid := hiddenOf (around s) (abs st) (x, y)) in *.
  destruct ((0 <? length hid)%nat && (Z.of_nat (length hid) =? Z.of_nat (t_count tc) - Z.of_nat kc))
    eqn:EA.
  - apply andb_true_iff in EA as [Hlen%Nat.ltb_lt Heq%Z.eqb_eq].
    assert (hid <> []) as Hne by (intros E; rewrite E in Hlen; simpl in Hlen; lia).
    assert ((kc =? t_count tc)%nat && (0 <? length hid)%nat = false) as EB.
    { apply andb_false_iff. left. apply Nat.eqb_neq. lia. }
    rewrite EB in H. destruct (shapes_markLoop_spec hid st p) as (Habs1 & Hp1 & Hfirst).
    cbv zeta in Habs1, Hp1, Hfirst. injection H as H. rewrite H in Habs1, Hp1, Hfirst.
    cbn [fst snd] in *.
    assert (p' = true) as ->.
    { destruct hid as [|c0 l0] eqn:Eh; [done|]. apply (Hfirst c0 l0); [done|].
      assert (c0 ∈ hiddenOf (around s) (abs st) (x, y)) as Hc0
        by (fold hid; rewrite Eh; by left).
      unfold hiddenOf in Hc0. apply list_elem_of_filter in Hc0. tauto. }
    split; [|split; [|split; [done|done]]].
    + intros k Hk. apply Hin. rewrite Habs1 in Hk. exact Hk.
    + apply rtc_once. rewrite Habs1. apply ruleA.
      split; [done|]. split; [lia|]. fold hid kc. split; [done|lia].
  - destruct ((kc =? t_count tc)%nat && (0 <? length hid)%nat) eqn:EB.
    + apply andb_true_iff in EB as [Heq%Nat.eqb_eq Hlen%Nat.ltb_lt].
      assert (hid <> []) as Hne by (intros E; rewrite E in Hlen; simpl in Hlen; lia).
      apply shapes_revealLoop_spec in H as (Hin' & Hall & _ & Hp'); [|done].
      rewrite (Hp' Hne). split; [done|]. split; [|split; [done|done]].
      apply rtc_once. eapply ruleB with (c := (x, y)); [|exact Hall].
      split; [done|]. split; [lia|]. fold hid kc. split; [done|lia].
    + injection H as <- <-. split; [done|]. split; [done|]. split; [done|]. intros _.
      split; [done|].
      apply andb_false_iff in EA. apply andb_false_iff in EB.
      rewrite Nat.ltb_ge, Z.eqb_neq in EA. rewrite Nat.ltb_ge, Nat.eqb_neq in EB.
      split; intros (_ & _ & Hne & Heq); fold hid kc in Hne, Heq;
        (assert (0 < length hid)%nat by (destruct hid; [done|simpl; lia])); lia.
Qed.

(** One pass over the board. *)
Lemma shapes_pass_spec fuel :
  forall l st p st' p',
    inTrial st -> foldM (visitCell fuel s t) l (st, p) = Done (st', p') ->
    inTrial st' /\
    rtc (deduce (onBoard s) (around s) mine number) (abs st) (abs st') /\
    (p = true -> p' = true) /\
    (p' = false ->
     st' = st /\ forall c, c ∈ l ->
       ~ ruleA_applies (around s) number (abs st) c /\
       ~ ruleB_applies (around s) number (abs st) c).
Proof.
  induction l as [|c l IH]; intros st p st' p' Hin H; cbn [foldM] in H.
  - injection H as <- <-. split; [done|]. split; [done|]. split; [done|]. intros _.
    split; [done|]. by intros c Hc%elem_of_nil.
  - inv_bind H. destruct a as [st1 p1].
    apply shapes_visitCell_spec in Ha as (Hin1 & Hd1 & Hp1 & Hno1); [|done].
    apply IH in H as (Hin' & Hd' & Hp' & Hno'); [|done].
    split; [done|]. split; [by etrans|]. split; [auto|]. intros Hf.
    destruct (Hno' Hf) as [-> Hrest].
    assert (p1 = false) as Hp1f by (destruct p1; [by rewrite Hp' in Hf|done]).
    destruct (Hno1 Hp1f) as (-> & HA & HB). split; [done|].
    intros c' [->|Hc']%elem_of_cons; [done|by apply Hrest].
Qed.

Hypothesis trialKeys : forall k, is_Some (t !! k) <-> k ∈ coords (width s) (height s).

(** The loop runs deductions until no rule applies. *)
Lemma shapes_solveLoop_spec fuel :
  forall passes st st',
    inTrial st -> solveLoop fuel passes s t st = Done st' ->
    inTrial st' /\
    rtc (deduce (onBoard s) (around s) mine number) (abs st) (abs st') /\
    fixedPoint (around s) number (abs st').
Proof.
  induction passes as [|passes IH]; intros st st' Hin H; [done|].
  cbn [solveLoop] in H. inv_bind H. destruct a as [st1 progress].
  apply shapes_pass_spec in Ha as (Hin1 & Hd1 & _ & Hno); [|done]. destruct progress.
  - apply IH in H as (Hin' & Hd' & Hfix); [|done]. split; [done|]. split; [by etrans|done].
  - injection H as <-. destruct (Hno eq_refl) as [-> Hnone]. split; [done|]. split; [done|].
    intros c. destruct (decide (c ∈ coords (width s) (height s))) as [Hc|Hc];
      [by apply Hnone|].
    assert (c ∉ shown (abs st)) as Hns.
    { intros Hs. apply Hc, trialKeys. by apply Hin. }
    split; intros (Hs & _); done.
Qed.

(** A trial grid that [_simulateSolve] accepts is solvable by deduction
    from the click. *)
Lemma shapes_simulateSolve_solvable fuel x y :
  _simulateSolve fuel s t x y = Done true ->
  solvable (onBoard s) (around s) mine number (coords (width s) (height s)) (x, y).
Proof.
  unfold _simulateSolve. cbv zeta. intros H.
  set (st0 := {| simRevealed := allFalse s; simKnownMines := allFalse s |}) in *.
  assert (abs st0 = start) as Habs0.
  { unfold abs, start. simpl. by rewrite trueKeys_allFalse. }
  assert (inTrial st0) as Hin0.
  { intros k. rewrite Habs0. by intros []%elem_of_empty. }
  inv_bind H. rename a into st1. apply shapes_simReveal_floods in Ha as [Hin1 Hfl]; [|done].
  inv_bind H. rename a into st2. apply shapes_solveLoop_spec in Ha as (Hin2 & Hd & Hfix); [|done].
  exists (abs st1), (abs st2). rewrite <- Habs0.
  split; [done|]. split; [done|]. split; [done|].
  intros k Hk Hm. apply trialKeys in Hk as [tc Htc]. injection H as H.
  rewrite forallb_forall in H. specialize (H (k, tc)). cbn [fst snd] in H.
  destruct (agree _ _ Htc) as [Hmk _]. rewrite <- Hmk, Hm in H. cbn [orb] in H.
  simpl. apply elem_of_trueKeys, H. apply list_elem_of_In. by apply elem_of_map_to_list.
Qed.

End Trial.

(** The mines and the numbers of a board. *)
Definition mineOf (s : SapperShapesGame) (k : Z * Z) : bool := isMine s k.1 k.2.
Definition numberOf (s : SapperShapesGame) (k : Z * Z) : Z := Z.of_nat (getCount s k.1 k.2).

(** A first click that reports success on a no-guess board leaves a board
    that deduction solves from the click. *)
Lemma shapes_firstClick_solvable fuel s x y rnd r s' rnd' :
  noGuess s = true ->
  handleFirstClick fuel s x y rnd = Done (r, s', rnd') -> fc_success r = true ->
  solvable (onBoard s') (around s') (mineOf s') (numberOf s')
           (coords (width s') (height s')) (x, y).
Proof.
  intros Hng H Hok.
  assert (minesPlaced s = false) as Hmp.
  { destruct (minesPlaced s) eqn:E; [|done].
    rewrite shapes_handleFirstClick_again in H by done. injection H as <- _ _. done. }
  apply shapes_handleFirstClick_first in H as (ok & s1 & res & Hpl & Hrev & ->); [|done].
  simpl in Hok. subst ok. unfold placeMines in Hpl. rewrite Hng in Hpl.
  apply shapes_generateSolvableBoard_spec in Hpl
    as [[? _]|(_ & rnd0 & t & Hbuild & Hsolve & Hcopy & E)]; [done|].
  apply shapes_revealCell_playStep in Hrev.
  pose proof (playStep_evolves _ _ Hrev) as V.
  pose proof (shapes_playStep_frame _ _ Hrev) as (_ & _ & Hg & Hw & Hh).
  assert (useExtendedNeighbors s' = useExtendedNeighbors s) as Hu.
  { destruct Hrev as [->|(_ & -> & _)]; simpl; by rewrite E. }
  assert (grid s' = grid s /\ width s' = width s /\ height s' = height s) as (Hg' & -> & ->).
  { rewrite Hg, Hw, Hh. simpl. by rewrite E. }
  assert (onBoard s' = onBoard s) as -> by (unfold onBoard; by rewrite Hg').
  assert (around s' = around s) as ->.
  { unfold around, _getNeighbors. by rewrite Hg', Hu. }
  apply buildTestCells_spec in Hbuild.
  eapply (shapes_simulateSolve_solvable s t); [| |exact Hsolve].
  - intros k tc Htc. unfold mineOf, numberOf, isMine, getCount. destruct k as [kx ky].
    cbn [fst snd]. specialize (V (kx, ky)). simpl in V.
    pose proof (copyToCells_spec _ _ _ Hcopy (kx, ky)) as Hc. rewrite Htc in Hc.
    destruct (copyToCells_dom _ _ _ (kx, ky) Hcopy) as [c0 Hc0]; [eauto|].
    rewrite Hc0 in Hc. destruct (cells s1 !! (kx, ky)) as [c1|]; [|done].
    destruct (cells s' !! (kx, ky)) as [c'|]; [|done].
    destruct Hc as (_ & _ & Hm & Hn). destruct V as (Hm' & _ & Hn' & _).
    split; congruence.
  - intros k. specialize (Hbuild k). destruct (t !! k) as [tc|].
    + split; [tauto|eauto].
    + split; [by intros [? ?]|done].
Qed.

End ShapesSolve.

(** * Facts about sudoku.js *)

Module SudokuFacts.
Import Sudoku.
Local Open Scope nat_scope.

(** Nine rows of nine cells. *)
Definition shape9 (b : Board) : Prop :=
  length b = 9 /\ Forall (fun row => length row = 9) b.

Lemma shape9_row b r : shape9 b -> r < 9 -> length (nth r b []) = 9.
Proof.
  intros [Hl Hr] Hlt. rewrite Forall_forall in Hr. apply Hr.
  apply list_elem_of_In, nth_In. lia.
Qed.

Lemma shape9_set b r c v : shape9 b -> shape9 (set b r c v).
Proof.
  intros [Hl Hr]. unfold set, Board. split; [by rewrite length_insert|].
  destruct (decide (r < length b)) as [Hlt|Hge].
  - apply Forall_insert; [done|]. rewrite length_insert.
    rewrite Forall_forall in Hr. apply Hr. apply list_elem_of_In, nth_In. done.
  - rewrite list_insert_ge by lia. done.
Qed.

Lemma get_set_eq b r c v : shape9 b -> r < 9 -> c < 9 -> get (set b r c v) r c = v.
Proof.
  intros Hs Hr Hc. unfold get, set, Board. pose proof (shape9_row b r Hs Hr) as Hrow.
  destruct Hs as [Hl _].
  rewrite (nth_lookup_Some _ _ _ (<[c := v]> (nth r b []))).
  - apply nth_lookup_Some. apply list_lookup_insert_eq. lia.
  - apply list_lookup_insert_eq. lia.
Qed.

Lemma get_set_ne b r c v r' c' : (r', c') <> (r, c) -> get (set b r c v) r' c' = get b r' c'.
Proof.
  intros Hne. unfold get, set, Board. destruct (decide (r' = r)) as [->|Hr].
  - destruct (decide (r < length b)) as [Hlt|Hge].
    + rewrite (nth_lookup_Some _ _ _ (<[c := v]> (nth r b []))).
      * rewrite !nth_lookup. rewrite list_lookup_insert_ne by congruence. done.
      * apply list_lookup_insert_eq. done.
    + rewrite list_insert_ge by lia. done.
  - rewrite !(nth_lookup _ r'). by rewrite list_lookup_insert_ne.
Qed.

(** Writing a cell twice keeps the second value; writing back what a cell
    holds changes nothing. *)
Lemma set_set b r c u v : set (set b r c u) r c v = set b r c v.
Proof.
  unfold set, Board. destruct (decide (r < length b)) as [Hlt|Hge].
  - rewrite (nth_lookup_Some _ _ _ (<[c := u]> (nth r b []))).
    + by rewrite list_insert_insert_eq, list_insert_insert_eq.
    + apply list_lookup_insert_eq. done.
  - rewrite !(list_insert_ge b) by lia. done.
Qed.

Lemma set_get b r c : set b r c (get b r c) = b.
Proof.
  unfold set, get, Board. destruct (decide (r < length b)) as [Hlt|Hge].
  - apply list_insert_id. destruct (lookup_lt_is_Some_2 b r Hlt) as [row Hrow].
    rewrite (nth_lookup_Some _ _ _ row Hrow). rewrite Hrow. f_equal. symmetry.
    destruct (decide (c < length row)) as [Hc|Hc].
    + apply list_insert_id. destruct (lookup_lt_is_Some_2 row c Hc) as [x Hx].
      by rewrite (nth_lookup_Some _ _ _ x Hx).
    + apply list_insert_ge. lia.
  - apply list_insert_ge. lia.
Qed.

(** Two grids of the same shape with the same cells are the same grid. *)
Lemma shape9_ext a b :
  shape9 a -> shape9 b ->
  (forall r c, r < 9 -> c < 9 -> get a r c = get b r c) -> a = b.
Proof.
  intros Ha Hb Hget. apply list_eq_same_length with 9; [apply Hb|apply Ha|].
  intros r rowa rowb Hr Hra Hrb.
  pose proof (shape9_row a r Ha Hr) as Hla. pose proof (shape9_row b r Hb Hr) as Hlb.
  rewrite (nth_lookup_Some _ _ _ _ Hra) in Hla. rewrite (nth_lookup_Some _ _ _ _ Hrb) in Hlb.
  apply list_eq_same_length with 9; [done|done|].
  intros c x y Hc Hx Hy. specialize (Hget r c Hr Hc). unfold get in Hget.
  rewrite (nth_lookup_Some _ _ _ _ Hra), (nth_lookup_Some _ _ _ _ Hrb) in Hget.
  by rewrite (nth_lookup_Some _ _ _ _ Hx), (nth_lookup_Some _ _ _ _ Hy) in Hget.
Qed.

Lemma elem_of_cells r c : (r, c) ∈ cells <-> r < 9 /\ c < 9.
Proof.
  unfold cells. rewrite list_elem_of_bind. setoid_rewrite list_elem_of_bind.
  setoid_rewrite elem_of_seq. setoid_rewrite list_elem_of_singleton. split.
  - intros (r' & (c' & [= -> ->] & ?) & ?). lia.
  - intros [? ?]. exists r. split; [|lia]. exists c. split; [done|lia].
Qed.

Lemma firstEmpty_Some b r c :
  firstEmpty b = Some (r, c) -> r < 9 /\ c < 9 /\ get b r c = 0.
Proof.
  unfold firstEmpty. intros H. apply find_some in H as [Hin Hz].
  apply list_elem_of_In, elem_of_cells in Hin. apply Nat.eqb_eq in Hz. tauto.
Qed.

Lemma firstEmpty_None b : firstEmpty b = None -> isSolved b = true.
Proof.
  unfold firstEmpty, isSolved. intros H. apply forallb_forall. intros p Hp.
  apply (find_none _ _ H) in Hp. by rewrite Hp.
Qed.

(** The cells that share a row, a column or a box with [(row, col)]. *)
Definition peer (row col r c : nat) : Prop :=
  (r <> row \/ c <> col) /\
  (r = row \/ c = col \/ (r / 3 = row / 3 /\ c / 3 = col / 3)).

Lemma peer_sym row col r c : peer row col r c -> peer r c row col.
Proof. unfold peer. intros [H1 H2]. split; [lia|]. destruct H2 as [?|[?|[? ?]]]; auto. Qed.

Lemma isValidPlacement_spec b row col num :
  row < 9 -> col < 9 ->
  isValidPlacement b row col num = true <->
  forall r c, r < 9 -> c < 9 -> peer row col r c -> get b r c <> num.
Proof.
  intros Hrow Hcol. unfold isValidPlacement. cbv zeta.
  rewrite !andb_true_iff, !forallb_forall. split.
  - intros [[Hr Hc] Hbox] r c Hr9 Hc9 [Hne Hpeer] Hget.
    apply Nat.eqb_eq in Hget.
    destruct (decide (r = row)) as [Er|Hnr].
    { subst r. assert (c <> col) as Hc' by lia. specialize (Hr c). rewrite Hget in Hr.
      apply Nat.eqb_neq in Hc'. rewrite Hc' in Hr.
      assert (false = true) as Hf; [|done]. apply Hr, in_seq. lia. }
    destruct (decide (c = col)) as [Ec|Hnc].
    { subst c. specialize (Hc r). rewrite Hget in Hc.
      apply Nat.eqb_neq in Hnr. rewrite Hnr in Hc.
      assert (false = true) as Hf; [|done]. apply Hc, in_seq. lia. }
    destruct Hpeer as [?|[?|[Hbr Hbc]]]; [done|done|].
    assert (In r (seq (row / 3 * 3) 3)) as Hir.
    { apply in_seq. pose proof (Nat.div_mod_eq r 3). pose proof (Nat.div_mod_eq row 3).
      pose proof (Nat.mod_upper_bound r 3). lia. }
    assert (In c (seq (col / 3 * 3) 3)) as Hic.
    { apply in_seq. pose proof (Nat.div_mod_eq c 3). pose proof (Nat.div_mod_eq col 3).
      pose proof (Nat.mod_upper_bound c 3). lia. }
    specialize (Hbox r Hir). rewrite forallb_forall in Hbox. specialize (Hbox c Hic).
    rewrite Hget in Hbox. apply Nat.eqb_neq in Hnr. rewrite Hnr in Hbox. done.
  - intros H. split; [split|].
    + intros c Hc%in_seq. destruct (Nat.eqb_spec c col) as [->|Hne]; [done|]. cbn.
      destruct (Nat.eqb_spec (get b row c) num) as [Hg|]; [|done]. exfalso.
      apply (H row c); [done|lia| |done]. split; [by right|by left].
    + intros r Hr%in_seq. destruct (Nat.eqb_spec r row) as [->|Hne]; [done|]. cbn.
      destruct (Nat.eqb_spec (get b r col) num) as [Hg|]; [|done]. exfalso.
      apply (H r col); [lia|done| |done]. split; [by left|right; by left].
    + intros r Hr%in_seq. apply forallb_forall. intros c Hc%in_seq.
      destruct (Nat.eqb_spec (get b r c) num) as [Hg|]; [|by rewrite andb_false_r].
      destruct (decide (r = row /\ c = col)) as [[-> ->]|Hne].
      { by rewrite !Nat.eqb_refl. }
      exfalso.
      pose proof (Nat.div_mod_eq row 3). pose proof (Nat.mod_upper_bound row 3).
      pose proof (Nat.div_mod_eq col 3). pose proof (Nat.mod_upper_bound col 3).
      apply (H r c); [lia|lia| |done]. split; [lia|]. right. right.
      split; symmetry;
        [apply (Nat.div_unique r 3 (row / 3) (r - row / 3 * 3))
        |apply (Nat.div_unique c 3 (col / 3) (c - col / 3 * 3))]; lia.
Qed.

(** No filled cell repeats its number among its peers. *)
Definition consistent (b : Board) : Prop :=
  forall r c, r < 9 -> c < 9 -> get b r c <> 0 ->
    isValidPlacement b r c (get b r c) = true.

Lemma consistent_set b r c num :
  shape9 b -> consistent b -> r < 9 -> c < 9 ->
  isValidPlacement b r c num = true -> consistent (set b r c num).
Proof.
  intros Hs Hcons Hr Hc Hvalid r' c' Hr' Hc' Hnz.
  rewrite isValidPlacement_spec in Hvalid by done.
  apply isValidPlacement_spec; [done|done|]. intros r2 c2 Hr2 Hc2 Hpeer.
  destruct (decide ((r', c') = (r, c))) as [[= -> ->]|Hne].
  - rewrite get_set_eq by done. rewrite get_set_ne by (destruct Hpeer; intros [= -> ->]; lia).
    by apply Hvalid.
  - rewrite (get_set_ne _ _ _ _ r' c') in * by done.
    destruct (decide ((r2, c2) = (r, c))) as [[= -> ->]|Hne2].
    + rewrite get_set_eq by done. intros ->.
      apply (Hvalid r' c'); [done|done|by apply peer_sym|done].
    + rewrite get_set_ne by done. specialize (Hcons r' c' Hr' Hc' Hnz).
      rewrite isValidPlacement_spec in Hcons by done. by apply Hcons.
Qed.

Lemma isValidSolution_spec b :
  isValidSolution b = true <->
  isSolved b = true /\
  forall r c, r < 9 -> c < 9 -> isValidPlacement b r c (get b r c) = true.
Proof.
  unfold isValidSolution. destruct (isSolved b); cbn [negb];
    [|split; [done|intros [? _]; done]].
  rewrite forallb_forall. split.
  - intros H. split; [done|]. intros r c Hr Hc.
    apply (H (r, c)), list_elem_of_In, elem_of_cells. done.
  - intros [_ H] [r c] Hin. apply list_elem_of_In, elem_of_cells in Hin.
    cbn [fst snd]. apply H; tauto.
Qed.

Lemma isSolved_spec b :
  isSolved b = true <-> forall r c, r < 9 -> c < 9 -> get b r c <> 0.
Proof.
  unfold isSolved. rewrite forallb_forall. split.
  - intros H r c Hr Hc.
    assert (In (r, c) cells) as Hin by (by apply list_elem_of_In, elem_of_cells).
    apply H in Hin. cbn [fst snd] in Hin. by apply negb_true_iff, Nat.eqb_neq in Hin.
  - intros H [r c] Hin. apply list_elem_of_In, elem_of_cells in Hin. cbn [fst snd].
    apply negb_true_iff, Nat.eqb_neq, H; tauto.
Qed.

Lemma firstEmpty_solved b : isSolved b = true -> firstEmpty b = None.
Proof.
  intros Hs. destruct (firstEmpty b) as [[r c]|] eqn:E; [|done].
  apply firstEmpty_Some in E as (Hr & Hc & Hz). rewrite isSolved_spec in Hs.
  by apply Hs in Hz.
Qed.

(** A complete grid with the numbers one to nine that [isValidSolution]
    accepts, and the grids that leave room for it. *)
Definition solution (sol : Board) : Prop :=
  shape9 sol /\ (forall r c, r < 9 -> c < 9 -> 1 <= get sol r c <= 9) /\
  consistent sol.

Definition extends (b sol : Board) : Prop :=
  forall r c, r < 9 -> c < 9 -> get b r c <> 0 -> get b r c = get sol r c.

Lemma extends_valid b sol r c :
  solution sol -> extends b sol -> r < 9 -> c < 9 ->
  isValidPlacement b r c (get sol r c) = true.
Proof.
  intros (_ & Hrange & Hcons) Hext Hr Hc. apply isValidPlacement_spec; [done|done|].
  intros r' c' Hr' Hc' Hpeer Heq.
  assert (get sol r c <> 0) as Hnz by (specialize (Hrange r c Hr Hc); lia).
  specialize (Hcons r c Hr Hc Hnz). rewrite isValidPlacement_spec in Hcons by done.
  apply (Hcons r' c' Hr' Hc' Hpeer). rewrite <- Heq. symmetry. apply Hext; [done|done|].
  by rewrite Heq.
Qed.

Lemma extends_set b sol r c :
  shape9 b -> extends b sol -> r < 9 -> c < 9 -> extends (set b r c (get sol r c)) sol.
Proof.
  intros Hs Hext Hr Hc r' c' Hr' Hc'.
  destruct (decide ((r', c') = (r, c))) as [[= -> ->]|Hne].
  - by rewrite get_set_eq.
  - rewrite get_set_ne by done. by apply Hext.
Qed.

(** The random sort returns a permutation. *)
Lemma randomOrder_Permutation {A} (n : nat) : forall (a : list A) rnd,
  length a = n -> (randomOrder n a rnd).1 ≡ₚ a.
Proof.
  induction n as [|n IH]; intros a rnd Hlen; cbn [randomOrder].
  - destruct a; [done|discriminate].
  - unfold randomInt. rewrite Hlen. cbn [fst snd].
    set (j := draws rnd (pos rnd) mod S n).
    assert (j < length a) as Hj.
    { rewrite Hlen. apply Nat.mod_upper_bound. done. }
    rewrite Nat2Z.id. destruct (lookup_lt_is_Some_2 a j Hj) as [x Hx]. rewrite Hx.
    match goal with |- context [randomOrder n ?l ?r] =>
      specialize (IH l r); destruct (randomOrder n l r) as [rest rnd2] end.
    cbn [fst] in *. rewrite IH.
    + symmetry. by apply delete_Permutation.
    + rewrite length_delete by eauto. lia.
Qed.

Lemma sortRandomly_Permutation {A} (a : list A) rnd : (sortRandomly a rnd).1 ≡ₚ a.
Proof. by apply randomOrder_Permutation. Qed.

Lemma fillBoard_eq fuel board rnd :
  fillBoard (S fuel) board rnd =
  match firstEmpty board with
  | Some (r, c) =>
    fillEach (fillBoard fuel) r c (sortRandomly (seq 1 9) rnd).1 board
             (sortRandomly (seq 1 9) rnd).2
  | None => Done (true, board, rnd)
  end.
Proof.
  cbn [fillBoard]. destruct (firstEmpty board) as [[r c]|]; [|done].
  by destruct (sortRandomly (seq 1 9) rnd).
Qed.

(** What a completed [fillBoard] did: on success the grid is full and
    consistent; on failure the grid is as it was and no solution extends it. *)
Definition filled (b : Board) (ok : bool) (b' : Board) : Prop :=
  shape9 b' /\
  (ok = true -> consistent b' /\ isSolved b' = true) /\
  (ok = false -> b' = b /\ forall sol, solution sol -> ~ extends b sol).

Lemma fillEach_spec (rec : Board -> rng -> outcome (bool * Board * rng)) r c :
  (forall b rnd ok b' rnd', shape9 b -> consistent b ->
     rec b rnd = Done (ok, b', rnd') -> filled b ok b') ->
  r < 9 -> c < 9 ->
  forall l b rnd ok b' rnd',
    shape9 b -> consistent b -> get b r c = 0 ->
    fillEach rec r c l b rnd = Done (ok, b', rnd') ->
    shape9 b' /\
    (ok = true -> consistent b' /\ isSolved b' = true) /\
    (ok = false ->
     b' = b /\ forall sol, solution sol -> extends b sol -> get sol r c ∉ l).
Proof.
  intros Hrec Hr Hc. induction l as [|num rest IH]; intros b rnd ok b' rnd' Hs Hcons Hz H;
    cbn [fillEach] in H.
  - injection H as <- <- <-. split; [done|]. split; [done|]. intros _. split; [done|].
    intros sol _ _ []%elem_of_nil.
  - destruct (isValidPlacement b r c num) eqn:Hvalid.
    + inv_bind H. destruct a as [[ok1 b1] rnd1].
      apply Hrec in Ha as (Hs1 & Hok1 & Hfail1);
        [|by apply shape9_set|by apply consistent_set].
      destruct ok1.
      * injection H as <- <- <-. split; [done|]. split; [auto|done].
      * destruct (Hfail1 eq_refl) as [-> Hnone].
        rewrite set_set in H. rewrite <- Hz in H at 1. rewrite set_get in H.
        apply IH in H as (Hs' & Hok' & Hfail'); [|done|done|done].
        split; [done|]. split; [done|]. intros Hf. destruct (Hfail' Hf) as [-> Hrest].
        split; [done|]. intros sol Hsol Hext [<-|Hin]%elem_of_cons; [|by eapply Hrest].
        apply (Hnone sol Hsol). by apply extends_set.
    + apply IH in H as (Hs' & Hok' & Hfail'); [|done|done|done].
      split; [done|]. split; [done|]. intros Hf. destruct (Hfail' Hf) as [-> Hrest].
      split; [done|]. intros sol Hsol Hext [<-|Hin]%elem_of_cons; [|by eapply Hrest].
      rewrite extends_valid in Hvalid by done. done.
Qed.

Lemma fillBoard_spec (fuel : nat) :
  forall b rnd ok b' rnd', shape9 b -> consistent b ->
    fillBoard fuel b rnd = Done (ok, b', rnd') -> filled b ok b'.
Proof.
  induction fuel as [|fuel IH]; intros b rnd ok b' rnd' Hs Hcons H; [done|].
  rewrite fillBoard_eq in H. destruct (firstEmpty b) as [[r c]|] eqn:Hfe.
  - apply firstEmpty_Some in Hfe as (Hr & Hc & Hz).
    eapply fillEach_spec in H as (Hs' & Hok & Hfail); [|exact IH|done..].
    split; [done|]. split; [done|]. intros Hf. destruct (Hfail Hf) as [-> Hnone].
    split; [done|]. intros sol Hsol Hext. apply (Hnone sol Hsol Hext).
    rewrite sortRandomly_Permutation. apply elem_of_seq.
    destruct Hsol as (_ & Hrange & _). specialize (Hrange r c Hr Hc). lia.
  - injection H as <- <- <-. split; [done|]. split; [|done]. intros _. split; [done|].
    by apply firstEmpty_None.
Qed.

(** A grid that is a solution, to show that the empty grid has one. *)
Definition exampleGrid : Board :=
  (fun r => (fun c => (3 * (r mod 3) + r / 3 + c) mod 9 + 1) <$> seq 0 9) <$> seq 0 9.

Lemma isValidSolution_consistent b : isValidSolution b = true -> consistent b.
Proof. intros [_ H]%isValidSolution_spec r c Hr Hc _. by apply H. Qed.

Lemma exampleGrid_solution : solution exampleGrid.
Proof.
  split; [|split].
  - split; [done|]. unfold exampleGrid. apply Forall_fmap, Forall_forall. intros r _.
    unfold compose. by rewrite length_fmap, length_seq.
  - assert (forallb (fun p : nat * nat =>
                       (1 <=? get exampleGrid p.1 p.2) && (get exampleGrid p.1 p.2 <=? 9))
                    cells = true) as H by (vm_compute; reflexivity).
    rewrite forallb_forall in H. intros r c Hr Hc.
    assert (In (r, c) cells) as Hin by (by apply list_elem_of_In, elem_of_cells).
    apply H in Hin. cbn [fst snd] in Hin.
    apply andb_true_iff in Hin as [?%Nat.leb_le ?%Nat.leb_le]. lia.
  - apply isValidSolution_consistent. vm_compute. reflexivity.
Qed.

Lemma shape9_empty : shape9 (replicate 9 (replicate 9 0)).
Proof. split; [done|]. apply Forall_replicate. done. Qed.

Lemma get_empty r c : get (replicate 9 (replicate 9 0)) r c = 0.
Proof.
  unfold get. destruct (decide (r < 9)) as [Hr|Hr].
  - rewrite (nth_lookup_Some _ _ _ (replicate 9 0)) by (by apply lookup_replicate_2).
    destruct (decide (c < 9)) as [Hc|Hc].
    + apply nth_lookup_Some. by apply lookup_replicate_2.
    + apply nth_overflow. rewrite length_replicate. lia.
  - rewrite (nth_overflow _ _ (n := r)) by (rewrite length_replicate; lia).
    by destruct c.
Qed.

(** [generateCompleteSudoku] returns a valid solution. *)
Lemma generateCompleteSudoku_spec fuel rnd complete rnd' :
  generateCompleteSudoku fuel rnd = Done (complete, rnd') ->
  shape9 complete /\ isSolved complete = true /\ isValidSolution complete = true.
Proof.
  unfold generateCompleteSudoku. intros H. inv_bind H. destruct a as [[ok b'] rnd1].
  injection H as <- <-.
  apply fillBoard_spec in Ha as (Hs & Hok & Hfail); [|apply shape9_empty|].
  2:{ intros r c _ _ Hnz. by rewrite get_empty in Hnz. }
  destruct ok.
  - destruct (Hok eq_refl) as [Hcons Hsolved]. split; [done|]. split; [done|].
    apply isValidSolution_spec. split; [done|]. intros r c Hr Hc.
    apply Hcons; [done|done|]. rewrite isSolved_spec in Hsolved. by apply Hsolved.
  - destruct (Hfail eq_refl) as [_ Hnone]. exfalso.
    apply (Hnone exampleGrid exampleGrid_solution).
    intros r c _ _ Hnz. by rewrite get_empty in Hnz.
Qed.

Lemma solveBacktrackingHelper_eq fuel board :
  solveBacktrackingHelper (S fuel) board =
  match firstEmpty board with
  | Some (r, c) =>
    tryEach (solveBacktrackingHelper fuel) r c (getCandidates board r c) board
  | None => Done (true, board)
  end.
Proof. reflexivity. Qed.

(** The backtracking solver keeps the shape of the grid. *)
Lemma solveBacktrackingHelper_shape (fuel : nat) :
  forall b ok b', shape9 b -> solveBacktrackingHelper fuel b = Done (ok, b') -> shape9 b'.
Proof.
  induction fuel as [|fuel IH]; intros b ok b' Hs H; [done|].
  rewrite solveBacktrackingHelper_eq in H.
  destruct (firstEmpty b) as [[r c]|]; [|by injection H as <- <-].
  remember (getCandidates b r c) as l eqn:El. clear El. revert b Hs H.
  induction l as [|num rest IHl]; intros b Hs H; cbn [tryEach] in H.
  - by injection H as <- <-.
  - inv_bind H. destruct a as [ok1 b1]. apply IH in Ha; [|by apply shape9_set].
    destruct ok1; [by injection H as <- <-|]. eapply IHl; [|exact H]. by apply shape9_set.
Qed.

Lemma solveBacktracking_solved fuel b :
  isSolved b = true -> solveBacktracking (S fuel) b = Done (Some b).
Proof.
  intros Hs. unfold solveBacktracking. rewrite solveBacktrackingHelper_eq.
  by rewrite (firstEmpty_solved b Hs).
Qed.

Lemma matchesComplete_spec a b :
  matchesComplete a b = true <-> forall r c, r < 9 -> c < 9 -> get a r c = get b r c.
Proof.
  unfold matchesComplete. rewrite forallb_forall. split.
  - intros H r c Hr Hc.
    assert (In (r, c) cells) as Hin by (by apply list_elem_of_In, elem_of_cells).
    apply H in Hin. by apply Nat.eqb_eq in Hin.
  - intros H [r c] Hin. apply list_elem_of_In, elem_of_cells in Hin. cbn [fst snd].
    apply Nat.eqb_eq, H; tauto.
Qed.

(** The removal loop keeps a puzzle that backtracking solves to the complete
    grid. *)
Lemma carve_spec fuel targetDifficulty minClues complete :
  shape9 complete ->
  forall positions puzzle currentClues result,
    shape9 puzzle -> solveBacktracking fuel puzzle = Done (Some complete) ->
    carve fuel targetDifficulty minClues complete positions puzzle currentClues
      = Done result ->
    shape9 result /\ solveBacktracking fuel result = Done (Some complete).
Proof.
  intros Hsc. induction positions as [|pos rest IH];
    intros puzzle clues result Hs Hsolve H; cbn [carve] in H.
  - by injection H as <-.
  - destruct (clues <=? minClues); [by injection H as <-|]. cbv zeta in H.
    assert (set (set puzzle pos.1 pos.2 0) pos.1 pos.2 (get puzzle pos.1 pos.2) = puzzle)
      as Hrestore by (by rewrite set_set, set_get).
    rewrite Hrestore in H.
    inv_bind H. rename a into solved. destruct solved as [sol|]; [|by eapply IH].
    destruct (matchesComplete sol complete) eqn:Hm; [|by eapply IH].
    inv_bind H. rename a into difficulty.
    destruct (difficulty <=? targetDifficulty); [|by eapply IH].
    eapply IH; [|..|exact H]; [by apply shape9_set|].
    assert (sol = complete) as <-; [|done].
    apply shape9_ext; [|done|by apply matchesComplete_spec].
    unfold solveBacktracking in Ha. inv_bind Ha. destruct a as [ok copy].
    destruct ok; [|done]. injection Ha as <-.
    eapply solveBacktrackingHelper_shape; [|exact Ha1]. by apply shape9_set.
Qed.

(** Every pair that [generatePuzzle] returns: backtracking solves the puzzle
    to the paired solution, and the solution is valid. *)
Lemma generatePuzzle_spec fuel targetDifficulty rnd puzzle solution rnd' :
  generatePuzzle fuel targetDifficulty rnd = Done (puzzle, solution, rnd') ->
  solveBacktracking fuel puzzle = Done (Some solution) /\
  isValidSolution solution = true.
Proof.
  unfold generatePuzzle. intros H. inv_bind H. destruct a as [complete rnd1].
  destruct (sortRandomly cells rnd1) as [positions rnd2].
  inv_bind H. rename a into result. injection H as <- <- <-.
  pose proof (generateCompleteSudoku_spec _ _ _ _ Ha) as (Hs & Hsolved & Hvalid).
  split; [|done]. destruct fuel as [|fuel]; [done|].
  eapply carve_spec in Ha0 as [_ Hres]; [exact Hres|done|done|].
  by apply solveBacktracking_solved.
Qed.

(** More fuel does not change a completed run of the solver. *)
Lemma solveBacktrackingHelper_mono (fuel : nat) :
  forall b r, solveBacktrackingHelper fuel b = Done r ->
    solveBacktrackingHelper (S fuel) b = Done r.
Proof.
  induction fuel as [|fuel IH]; intros b r H; [done|].
  rewrite solveBacktrackingHelper_eq in H. rewrite solveBacktrackingHelper_eq.
  destruct (firstEmpty b) as [[row col]|]; [|done].
  remember (getCandidates b row col) as l eqn:El. clear El. revert b H.
  induction l as [|num rest IHl]; intros b H; cbn [tryEach] in *; [done|].
  inv_bind H. destruct a as [ok1 b1]. rewrite (IH _ _ Ha). cbn [bind].
  destruct ok1; [done|]. by apply IHl.
Qed.

Lemma solveBacktracking_mono fuel fuel' b r :
  fuel <= fuel' -> solveBacktracking fuel b = Done r -> solveBacktracking fuel' b = Done r.
Proof.
  intros Hle H. induction Hle as [|m _ IH]; [done|].
  unfold solveBacktracking in *. inv_bind IH. rewrite (solveBacktrackingHelper_mono _ _ _ Ha).
  done.
Qed.

End SudokuFacts.

(** * Further facts about grid.js *)

Module GridMore.
Import Grid GridFacts.

Lemma isOddRow_odd y : 0 <= y -> HexGrid.isOddRow y = Z.odd y.
Proof.
  intros Hy. unfold HexGrid.isOddRow. rewrite Z.rem_mod_nonneg by lia.
  rewrite Zmod_odd. by destruct (Z.odd y).
Qed.

Lemma pointsUp_even x y : 0 <= x + y -> TriangleGrid.pointsUp x y = Z.even (x + y).
Proof.
  intros Hy. unfold TriangleGrid.pointsUp. rewrite Z.rem_mod_nonneg by lia.
  rewrite Zmod_even. by destruct (Z.even (x + y)).
Qed.

Lemma odd_next y : Z.odd (y + 1) = negb (Z.odd y).
Proof. rewrite Z.odd_add. simpl. by destruct (Z.odd y). Qed.

Lemma odd_prev y : Z.odd (y - 1) = negb (Z.odd y).
Proof. rewrite Z.odd_sub. simpl. by destruct (Z.odd y). Qed.

(** The offsets of a row, by the parity of the row. *)
Definition hexOffsets (y : Z) : list (Z * Z) :=
  if HexGrid.isOddRow y then HexGrid.oddOffsets else HexGrid.evenOffsets.

(** A list of offsets never moves two of them to the same cell. *)
Lemma NoDup_shifted w h x y offs : NoDup offs -> NoDup (shifted w h x y offs).
Proof.
  intros Hnd. unfold shifted. apply NoDup_filter, NoDup_fmap_2; [|done].
  intros [a b] [c d] [= H1 H2]. f_equal; lia.
Qed.

Lemma length_shifted w h x y offs : (length (shifted w h x y offs) <= length offs)%nat.
Proof.
  unfold shifted. etransitivity; [apply length_filter|]. by rewrite length_fmap.
Qed.

Lemma self_not_shifted w h x y offs : (0, 0) ∉ offs -> (x, y) ∉ shifted w h x y offs.
Proof.
  intros Hno [_ (d & Hd & [= H1 H2])]%elem_of_shifted. apply Hno.
  destruct d as [a b]. cbn [fst snd] in *.
  assert (a = 0) as -> by lia. assert (b = 0) as -> by lia. done.
Qed.

(** The cube coordinates of a cell: [x] minus half the row, rounded towards
    zero, and the row. *)
Lemma toCube_half y :
  exists r, (r = 0 \/ r = 1 \/ r = -1) /\ y - Z.rem y 2 = 2 * Z.quot (y - Z.rem y 2) 2 /\
            Z.rem y 2 = r.
Proof.
  pose proof (Z.quot_rem' y 2) as E.
  pose proof (Z.rem_bound_abs y 2 ltac:(lia)) as B.
  exists (Z.rem y 2). split; [lia|]. split; [|done].
  replace (y - Z.rem y 2) with (Z.quot y 2 * 2) at 2 by lia.
  rewrite Z.quot_mul by lia. lia.
Qed.

(** The distance is the largest of the three absolute cube differences. *)
Definition cubeX (x y : Z) : Z := x - Z.quot (y - Z.rem y 2) 2.

(** The largest absolute value of the cube coordinates [(a, - a - c, c)]. *)
Definition norm (a c : Z) : Z := Z.max (Z.abs a) (Z.max (Z.abs (- a - c)) (Z.abs c)).

Lemma distance_norm x1 y1 x2 y2 :
  HexGrid.distance x1 y1 x2 y2 = norm (cubeX x1 y1 - cubeX x2 y2) (y1 - y2).
Proof.
  unfold HexGrid.distance, HexGrid.toCube, norm. cbn [fst snd].
  fold (cubeX x1 y1). fold (cubeX x2 y2).
  generalize (cubeX x1 y1) (cubeX x2 y2). intros a b.
  set (m := Z.max _ _).
  replace (Z.abs _ + _ + _) with (m * 2) by (unfold m; lia).
  apply Z.quot_mul. lia.
Qed.

Lemma norm_ge a c : Z.abs a <= norm a c /\ Z.abs (- a - c) <= norm a c /\ Z.abs c <= norm a c.
Proof. unfold norm. lia. Qed.

Lemma norm_zero a c : norm a c = 0 <-> a = 0 /\ c = 0.
Proof. unfold norm. lia. Qed.

Lemma norm_opp a c : norm (- a) (- c) = norm a c.
Proof. unfold norm. lia. Qed.

Lemma norm_triangle a c a' c' : norm (a + a') (c + c') <= norm a c + norm a' c'.
Proof.
  destruct (norm_ge a c) as (H1 & H2 & H3). destruct (norm_ge a' c') as (H1' & H2' & H3').
  revert H1 H2 H3 H1' H2' H3'. generalize (norm a c) (norm a' c'). intros N N'. intros.
  unfold norm. apply Z.max_lub; [|apply Z.max_lub].
  - clear H2 H3 H2' H3'. lia.
  - clear H1 H3 H1' H3'. lia.
  - clear H1 H2 H1' H2'. lia.
Qed.

Lemma distance_max x1 y1 x2 y2 :
  HexGrid.distance x1 y1 x2 y2 =
  Z.max (Z.abs (cubeX x1 y1 - cubeX x2 y2))
        (Z.max (Z.abs (- cubeX x1 y1 - y1 - (- cubeX x2 y2 - y2))) (Z.abs (y1 - y2))).
Proof.
  rewrite distance_norm. unfold norm. f_equal. f_equal. f_equal. lia.
Qed.

Lemma hex_distance_one x y x2 y2 :
  0 <= y -> 0 <= y2 ->
  HexGrid.distance x y x2 y2 = 1 <-> (x2 - x, y2 - y) ∈ hexOffsets y.
Proof.
  intros Hy Hy2. rewrite distance_max. unfold hexOffsets, cubeX, HexGrid.isOddRow.
  destruct (toCube_half y) as (r & Hr & Ek & Er).
  destruct (toCube_half y2) as (r2 & Hr2 & Ek2 & Er2).
  pose proof (Z.rem_nonneg y 2 ltac:(lia) Hy). pose proof (Z.rem_nonneg y2 2 ltac:(lia) Hy2).
  rewrite Er in *. rewrite Er2 in *.
  set (k := Z.quot (y - r) 2) in *. set (k2 := Z.quot (y2 - r2) 2) in *.
  unfold HexGrid.oddOffsets, HexGrid.evenOffsets.
  destruct (r =? 1) eqn:E1; rewrite !elem_of_cons, elem_of_nil; split.
  all: try (intros H1;
            assert (y2 - y = 0 \/ y2 - y = 1 \/ y2 - y = -1) as [E|[E|E]] by lia;
            assert (x2 - x = 0 \/ x2 - x = 1 \/ x2 - x = -1) as [E'|[E'|E']] by lia;
            rewrite E, E';
            first [ by auto 10 | exfalso; lia ]).
  all: intros H'; repeat (destruct H' as [H'|H']); try done; injection H' as H' H''; lia.
Qed.

Lemma elem_of_triangle w h x y n :
  n ∈ TriangleGrid.getNeighbors w h x y <->
  inBounds w h n.1 n.2 = true /\
  (n = (x - 1, y) \/ n = (x + 1, y) \/
   n = (x, if TriangleGrid.pointsUp x y then y + 1 else y - 1)).
Proof.
  unfold TriangleGrid.getNeighbors. rewrite !elem_of_app.
  destruct (inBounds w h (x - 1) y) eqn:E1, (inBounds w h (x + 1) y) eqn:E2,
    (TriangleGrid.pointsUp x y) eqn:Eu;
    [destruct (inBounds w h x (y + 1)) eqn:E3 | destruct (inBounds w h x (y - 1)) eqn:E3
    |destruct (inBounds w h x (y + 1)) eqn:E3 | destruct (inBounds w h x (y - 1)) eqn:E3
    |destruct (inBounds w h x (y + 1)) eqn:E3 | destruct (inBounds w h x (y - 1)) eqn:E3
    |destruct (inBounds w h x (y + 1)) eqn:E3 | destruct (inBounds w h x (y - 1)) eqn:E3 ];
    rewrite ?elem_of_cons, ?elem_of_nil; split.
  all: try (intros [H|[H|H]]; try done; repeat (destruct H as [H|H]; try done);
            subst n; cbn [fst snd]; split; auto).
  all: intros [Hb [-> | [-> | ->]]]; cbn [fst snd] in Hb; try congruence; auto.
Qed.

(** JavaScript computes [distance] on doubles.  On coordinates of at most
    2^49 in absolute value every intermediate result of [distance] is an
    integer below 2^53, which a double represents exactly, so that the
    integer arithmetic of the model is that of the code. *)
Definition exactAt (x y : Z) : Prop := Z.abs x <= 2 ^ 49 /\ Z.abs y <= 2 ^ 49.

End GridMore.

(** * Further facts about sapper.js *)

Module SapperMore.
Import Sapper SapperFacts.

(** A loop whose invariant speaks of the elements already visited. *)
Lemma foldM_visited {A S} (P : list A -> S -> Prop) (body : S -> A -> outcome S)
    (l : list A) :
  (forall seen a st st', P seen st -> body st a = Done st' -> P (seen ++ [a]) st') ->
  forall st st', P [] st -> foldM body l st = Done st' -> P l st'.
Proof.
  intros Hstep.
  assert (forall todo seen st st',
            P seen st -> foldM body todo st = Done st' -> P (seen ++ todo) st') as Hgen.
  { induction todo as [|a todo IH]; intros seen st st' HP H; simpl in H.
    - injection H as <-. by rewrite app_nil_r.
    - inv_bind H. rewrite (cons_middle a seen todo), app_assoc.
      eapply IH; [|exact H]. eapply Hstep; eauto. }
  intros st st' HP H. exact (Hgen l [] st st' HP H).
Qed.

(** The cells [new] are exactly those that turned from hidden to revealed
    between two boards. *)
Definition opened (rv rv' : list (list bool)) (new : list (Z * Z)) : Prop :=
  NoDup new /\
  (forall p, p ∈ new -> at2 rv p.1 p.2 = Done false /\ at2 rv' p.1 p.2 = Done true) /\
  (forall p, p ∉ new -> at2 rv' p.1 p.2 = at2 rv p.1 p.2).

Lemma opened_nil rv : opened rv rv [].
Proof.
  split; [constructor|]. split; [|done]. intros p Hp. by apply elem_of_nil in Hp.
Qed.

Lemma opened_one rv rv' x y :
  at2 rv x y = Done false -> set2 rv x y true = Done rv' -> opened rv rv' [(x, y)].
Proof.
  intros Hr (u & _ & Hnew & Hoth & _)%set2_Done.
  split; [apply NoDup_singleton|]. split.
  - intros p ->%list_elem_of_singleton. done.
  - intros [px py] Hp. apply Hoth. intros E. apply Hp. cbn [fst snd] in E. rewrite E.
    by apply list_elem_of_singleton.
Qed.

Lemma opened_app rv1 rv2 rv3 n1 n2 :
  opened rv1 rv2 n1 -> opened rv2 rv3 n2 -> opened rv1 rv3 (n1 ++ n2).
Proof.
  intros (Hd1 & Hin1 & Hout1) (Hd2 & Hin2 & Hout2).
  assert (forall p, p ∈ n1 -> p ∉ n2) as Hdisj.
  { intros p H1 H2. destruct (Hin1 p H1) as [_ E1]. destruct (Hin2 p H2) as [E2 _]. congruence. }
  split; [|split].
  - apply NoDup_app. done.
  - intros p [H1|H2]%elem_of_app.
    + destruct (Hin1 p H1) as [E1 E2]. split; [done|]. rewrite Hout2; auto.
    + destruct (Hin2 p H2) as [E1 E2]. split; [|done]. rewrite <- Hout1; [done|].
      intros H1. by apply (Hdisj p).
  - intros p Hp. rewrite Hout2, Hout1; [done| |]; intros H; apply Hp, elem_of_app; auto.
Qed.

Lemma revealCellRecursive_opened (fuel : nat) :
  forall s x y acc hit s' acc',
    _revealCellRecursive fuel s x y acc = Done (hit, s', acc') ->
    exists new, acc' = acc ++ new /\ opened (revealed s) (revealed s') new.
Proof.
  induction fuel as [|fuel IH]; intros s x y acc hit s' acc' H; [done|].
  rewrite revealCellRecursive_eq in H.
  assert (exists new, acc = acc ++ new /\ opened (revealed s) (revealed s) new) as Hsame.
  { exists []. split; [by rewrite app_nil_r|apply opened_nil]. }
  destruct (_inBounds s x y); cbn [negb] in H; [|by injection H as <- <- <-].
  inv_bind H. rename a into r. rename Ha into Hr.
  inv_bind H. rename a into skip. rename Ha into Hskip.
  destruct skip; [by injection H as <- <- <-|].
  destruct r; [discriminate|].
  inv_bind H. rename a into rv. rename Ha into Hset.
  inv_bind H. rename a into g. rename Ha into Hg.
  pose proof (opened_one _ _ _ _ Hr Hset) as Hone.
  assert (exists new, acc ++ [(x, y)] = acc ++ new /\
                      opened (revealed s) (revealed (with_revealed s rv)) new) as Hfirst.
  { by exists [(x, y)]. }
  destruct (g =? -1); [by injection H as <- <- <-|].
  destruct (g =? 0); [|by injection H as <- <- <-].
  inv_bind H. destruct a as [s2 acc2]. injection H as <- <- <-.
  eapply (foldM_inv (fun st => exists new, st.2 = acc ++ new /\
                                 opened (revealed s) (revealed st.1) new))
    in Ha; [exact Ha| |exact Hfirst].
  intros [sa acca] d st' _ (n1 & E1 & H1) Hbody. cbn [fst snd] in *.
  inv_bind Hbody. destruct a as [[h sb] accb]. injection Hbody as <-. cbn [fst snd].
  apply IH in Ha0 as (n2 & E2 & H2). exists (n1 ++ n2). split.
  - rewrite E2, E1. by rewrite app_assoc.
  - eapply opened_app; eauto.
Qed.

Lemma allM_false {A} (blocks : A -> outcome bool) (l : list A) :
  allM blocks l = Done false -> exists a, a ∈ l /\ blocks a = Done true.
Proof.
  induction l as [|a l IH]; simpl; [done|]. intros H. inv_bind H. rename a0 into b.
  destruct b.
  - exists a. split; [left|done].
  - destruct (IH H) as (a' & Hin & Hb). exists a'. split; [by right|done].
Qed.

(** Every cell of the board is revealed or holds a mine. *)
Definition cleared (s : SapperGame) : Prop :=
  forall x y, _inBounds s x y = true ->
    at2 (revealed s) x y = Done true \/ at2 (grid s) x y = Done (-1).

Lemma checkWin_cleared s b : _checkWin s = Done b -> (b = true <-> cleared s).
Proof.
  unfold _checkWin. intros H. destruct b.
  - split; [intros _|done]. intros x y Hin.
    apply inBounds_spec in Hin. apply elem_of_coords in Hin.
    pose proof (SapperSolve.allM_true _ _ H (x, y) Hin) as Hb.
    unfold blocksWin in Hb. cbn [fst snd] in Hb.
    inv_bind Hb. destruct a; [by left|]. inv_bind Hb. right.
    injection Hb as Hb. rewrite Ha0. f_equal.
    destruct (Z.eqb_spec a (-1)); [done|discriminate].
  - split; [done|]. intros Hc. exfalso.
    apply allM_false in H as ([x y] & Hin & Hb).
    apply elem_of_coords in Hin. apply inBounds_spec in Hin.
    unfold blocksWin in Hb. cbn [fst snd] in Hb.
    inv_bind Hb. destruct a; [done|]. inv_bind Hb. injection Hb as Hb.
    destruct (Hc x y Hin) as [E|E]; [congruence|].
    rewrite E in Ha0. injection Ha0 as <-. done.
Qed.

Lemma revealCell_opened fuel s x y r s' :
  revealCell fuel s x y = Done (r, s') ->
  opened (revealed s) (revealed s') (r_revealed r).
Proof.
  intros H. unfold revealCell in H. destruct (gameOver s).
  { injection H as <- <-. apply opened_nil. }
  inv_bind H. destruct a as [[hit s1] rev].
  apply revealCellRecursive_opened in Ha as (new & -> & Hop). cbn [app] in H.
  destruct hit; [by injection H as <- <-|].
  inv_bind H. injection H as <- <-. by destruct a.
Qed.

(** The list names exactly the cells that turned from hidden to revealed. *)
Lemma opened_iff rv rv' new px py :
  opened rv rv' new ->
  (px, py) ∈ new <-> at2 rv px py = Done false /\ at2 rv' px py = Done true.
Proof.
  intros (Hnd & Hin & Hout). split; [apply (Hin (px, py))|].
  intros [E1 E2]. destruct (decide ((px, py) ∈ new)) as [|Hno]; [done|].
  apply Hout in Hno. cbn [fst snd] in Hno. congruence.
Qed.

Lemma revealCell_cleared fuel s x y r s' :
  revealCell fuel s x y = Done (r, s') -> gameOver s = false -> r_hit r = false ->
  (r_won r = true <-> cleared s') /\ gameOver s' = r_won r /\
  won s' = r_won r || won s.
Proof.
  unfold revealCell. intros H Hgo Hhit. rewrite Hgo in H.
  inv_bind H. destruct a as [[hit s1] rev].
  destruct hit; [injection H as <- <-; done|].
  inv_bind H. rename a into w. injection H as <- <-. cbn [r_won].
  pose proof (checkWin_cleared _ _ Ha0) as Hc.
  pose proof (revealCellRecursive_step _ _ _ _ _ _ _ _ Ha) as [E _].
  assert (gameOver s1 = false /\ won s1 = won s) as [Hgo1 Hw1] by (rewrite E; done).
  destruct w; cbn [gameOver won with_over orb]; (split; [exact Hc|done]).
Qed.

(** ** The moves return on every well-formed board *)

Lemma getFlagCount_count s c :
  getFlagCount s = Done c ->
  c = countIf (SapperSolve.holds (flagged s)) (coords (width s) (height s)).
Proof.
  unfold getFlagCount.
  assert (forall l c0 c1,
            foldM (fun (count : nat) (p : Z * Z) =>
                     f <- at2 (flagged s) p.1 p.2;
                     Done (if f then S count else count)) l c0 = Done c1 ->
            c1 = (c0 + countIf (SapperSolve.holds (flagged s)) l)%nat) as Hgen.
  { induction l as [|p l IH]; intros c0 c1 H; simpl in H.
    - injection H as <-. unfold countIf. simpl. lia.
    - inv_bind H. inv_bind Ha. rename a0 into f. injection Ha as <-.
      apply IH in H. rewrite H. unfold countIf. cbn [List.filter].
      unfold SapperSolve.holds at 2. rewrite Ha0. destruct f; simpl; lia. }
  intros H. apply Hgen in H. exact H.
Qed.

Lemma getFlagCount_total s : wf s -> exists c, getFlagCount s = Done c.
Proof.
  intros (_ & _ & Hfl). unfold getFlagCount.
  destruct (foldM_total (fun _ : nat => True)
              (fun (count : nat) (p : Z * Z) =>
                 f <- at2 (flagged s) p.1 p.2;
                 Done (if f then S count else count))
              (coords (width s) (height s))) with (st := O) as (c & Hc & _); [|done|eauto].
  intros st [x y] [Hx Hy]%elem_of_coords _. cbn [fst snd].
  destruct (at2_rect _ _ _ x y Hfl Hx Hy) as [f ->]. cbn [bind]. eauto.
Qed.

Lemma wf_with_flagged s fl :
  wf s -> rect (width s) (height s) fl -> wf (with_flagged s fl).
Proof. intros (Hg & Hr & _) Hfl. split; [exact Hg|]. split; [exact Hr|exact Hfl]. Qed.

Lemma toggleFlag_total s x y :
  wf s -> exists r s', toggleFlag s x y = Done (r, s') /\ wf s'.
Proof.
  intros Hwf. unfold toggleFlag.
  destruct (getFlagCount_total s Hwf) as [c Hc]. rewrite Hc. cbn [bind].
  destruct (gameOver s); [eauto|].
  destruct (_inBounds s x y) eqn:Hin; cbn [negb]; [|eauto].
  apply inBounds_spec in Hin as [Hx Hy]. pose proof Hwf as (_ & Hrv & Hfl).
  destruct (at2_rect _ _ _ x y Hrv Hx Hy) as [r ->]. cbn [bind]. destruct r; [eauto|].
  destruct (at2_rect _ _ _ x y Hfl Hx Hy) as [f Hf]. rewrite Hf. cbn [bind].
  destruct (set2_total _ x y f (negb f) Hf) as [fl Hset]. rewrite Hset. cbn [bind].
  pose proof Hset as (_ & _ & Hnew & _ & Hrect)%set2_Done.
  assert (wf (with_flagged s fl)) as Hwf' by (apply wf_with_flagged; auto).
  cbn [flagged with_flagged]. rewrite Hnew. cbn [bind].
  destruct (getFlagCount_total _ Hwf') as [c' ->]. cbn [bind]. eauto.
Qed.

Lemma countAdjacentFlags_total s x y : wf s -> exists n, _countAdjacentFlags s x y = Done n.
Proof.
  intros (_ & _ & Hfl). unfold _countAdjacentFlags.
  destruct (foldM_total (fun _ : nat => True)
              (fun (count : nat) (d : Z * Z) =>
                 let nx := x + d.1 in
                 let ny := y + d.2 in
                 if _inBounds s nx ny then
                   f <- at2 (flagged s) nx ny; Done (if f then S count else count)
                 else Done count)
              offsets) with (st := O) as (c & Hc & _); [|done|eauto].
  intros st d _ _. cbv zeta.
  destruct (_inBounds s (x + d.1) (y + d.2)) eqn:Hin; [|eauto].
  apply inBounds_spec in Hin as [Hx Hy].
  destruct (at2_rect _ _ _ _ _ Hfl Hx Hy) as [f ->]. cbn [bind]. eauto.
Qed.

Lemma chordStep_total fuel x y st d :
  wf st.1.1 -> (width st.1.1 * height st.1.1 < fuel)%nat ->
  exists st', chordStep fuel x y st d = Done st' /\ playStep st.1.1 st'.1.1.
Proof.
  destruct st as [[s all] hit]. cbn [fst snd]. intros Hwf Hfuel.
  unfold chordStep.
  destruct (_inBounds s (x + d.1) (y + d.2)) eqn:Hin; cbn [negb].
  2:{ eexists. split; [done|]. apply playStep_refl. }
  apply inBounds_spec in Hin as [Hx Hy]. pose proof Hwf as (_ & _ & Hfl).
  destruct (at2_rect _ _ _ _ _ Hfl Hx Hy) as [f ->]. cbn [bind].
  destruct f.
  { eexists. split; [done|]. apply playStep_refl. }
  destruct (revealCell_total fuel s (x + d.1) (y + d.2) Hwf Hfuel) as (r & s' & Hrev).
  rewrite Hrev. cbn [bind]. eexists. split; [done|]. cbn [fst snd].
  by eapply revealCell_playStep.
Qed.

Lemma chordReveal_total fuel s x y :
  wf s -> (width s * height s < fuel)%nat ->
  exists r s', chordReveal fuel s x y = Done (r, s') /\ wf s'.
Proof.
  intros Hwf Hfuel. rewrite chordReveal_eq.
  destruct (gameOver s); [eauto|].
  destruct (_inBounds s x y) eqn:Hin; cbn [negb]; [|eauto].
  apply inBounds_spec in Hin as [Hx Hy]. pose proof Hwf as (Hg & Hrv & Hfl).
  destruct (at2_rect _ _ _ x y Hrv Hx Hy) as [r ->]. cbn [bind].
  destruct r; cbn [negb orb bind]; [|eauto].
  destruct (at2_rect _ _ _ x y Hg Hx Hy) as [g ->]. cbn [bind].
  destruct (g <=? 0); [eauto|].
  destruct (countAdjacentFlags_total s x y Hwf) as [n ->]. cbn [bind].
  destruct (negb (Z.of_nat n =? g)); [eauto|].
  destruct (foldM_total (fun st : SapperGame * list (Z * Z) * bool =>
                           wf st.1.1 /\ playStep s st.1.1)
              (chordStep fuel x y) offsets) with (st := (s, @nil (Z * Z), false))
    as ([[s' all] hit] & Hrun & Hwf' & _).
  - intros st d _ [Hw Hp]. pose proof (playStep_frame _ _ Hp) as (_ & _ & Ew & Eh).
    destruct (chordStep_total fuel x y st d Hw) as (st' & Hst & Hp'); [by rewrite Ew, Eh|].
    exists st'. split; [done|]. split; [by eapply playStep_wf|by eapply playStep_trans].
  - split; [done|apply playStep_refl].
  - rewrite Hrun. cbn [bind]. eauto.
Qed.

End SapperMore.

Module SapperFlags.
Import Sapper SapperFacts SapperMore.

(** Writing back the value that a cell held restores the array. *)
Lemma set2_back {A} (a a1 : list (list A)) (x y : Z) (u v : A) :
  at2 a x y = Done u -> set2 a x y v = Done a1 -> set2 a1 x y u = Done a.
Proof.
  unfold at2, set2. destruct (idx a y) as [row|] eqn:Ey; [|done].
  destruct (idx row x) as [u'|] eqn:Ex; [|done]. intros [= ->] [= <-].
  apply idx_Some in Ey as [Hy Ey]. apply idx_Some in Ex as [Hx Ex].
  assert (idx (<[Z.to_nat y:=<[Z.to_nat x:=v]> row]> a) y = Some (<[Z.to_nat x:=v]> row)) as ->.
  { apply idx_Some. split; [done|]. apply list_lookup_insert_eq. by eapply lookup_lt_Some. }
  assert (idx (<[Z.to_nat x:=v]> row) x = Some v) as ->.
  { apply idx_Some. split; [done|]. apply list_lookup_insert_eq. by eapply lookup_lt_Some. }
  f_equal. rewrite list_insert_insert_eq. rewrite list_insert_insert_eq.
  rewrite (list_insert_id row) by done. by rewrite list_insert_id.
Qed.

Lemma holds_Done (a : list (list bool)) (p : Z * Z) (b : bool) :
  at2 a p.1 p.2 = Done b -> SapperSolve.holds a p = b.
Proof. unfold SapperSolve.holds. intros ->. by destruct b. Qed.

End SapperFlags.

Module SapperNumbers.
Import Sapper SapperFacts SapperMore.

(** The number of mines of the grid [g] on the in-bounds cells around
    [(x, y)]. *)
Definition minesAround (s : SapperGame) (g : list (list Z)) (x y : Z) : nat :=
  countIf (fun d : Z * Z =>
             _inBounds s (x + d.1) (y + d.2) && mineAt g (x + d.1, y + d.2))
          offsets.

Lemma countAdjacentMinesIn_spec s g x y n :
  _countAdjacentMinesIn s g x y = Done n -> n = minesAround s g x y.
Proof.
  unfold _countAdjacentMinesIn, minesAround.
  assert (forall l c0 c1,
    foldM (fun (count : nat) (d : Z * Z) =>
             let nx := x + d.1 in
             let ny := y + d.2 in
             if _inBounds s nx ny then
               v <- at2 g nx ny; Done (if v =? -1 then S count else count)
             else Done count) l c0 = Done c1 ->
    c1 = Nat.add c0 (countIf (fun d : Z * Z =>
                                _inBounds s (x + d.1) (y + d.2)
                                && mineAt g (x + d.1, y + d.2)) l)) as Hgen.
  { induction l as [|d l IH]; intros c0 c1 H; simpl in H.
    - injection H as <-. unfold countIf. simpl. lia.
    - inv_bind H. apply IH in H. rewrite H. unfold countIf. cbn [List.filter].
      destruct (_inBounds s (x + d.1) (y + d.2)); cbn [andb].
      + inv_bind Ha. injection Ha as <-. unfold mineAt. cbn [fst snd]. rewrite Ha0.
        destruct (a0 =? -1); simpl; lia.
      + injection Ha as <-. lia. }
  intros H. apply Hgen in H. exact H.
Qed.

Lemma mineAt_true g p : mineAt g p = true <-> at2 g p.1 p.2 = Done (-1).
Proof.
  unfold mineAt. destruct (at2 g p.1 p.2) as [v| |]; [|done..].
  destruct (Z.eqb_spec v (-1)) as [->|]; [done|]. split; [done|]. intros [=]. done.
Qed.

Lemma mineAt_sameMines g g' p : sameMines g g' -> mineAt g' p = mineAt g p.
Proof.
  intros Hs. apply eq_true_iff_eq. rewrite !mineAt_true. apply Hs.
Qed.

Lemma minesAround_sameMines s g g' x y :
  sameMines g g' -> minesAround s g' x y = minesAround s g x y.
Proof.
  intros Hs. unfold minesAround. apply countIf_ext. intros d _.
  by rewrite (mineAt_sameMines g g').
Qed.

(** Every cell without a mine holds the number of mines around it. *)
Definition numberedIn (s : SapperGame) (g : list (list Z)) : Prop :=
  forall x y v, at2 g x y = Done v -> v <> -1 -> v = Z.of_nat (minesAround s g x y).

Lemma sameMines_refl g : sameMines g g.
Proof. by intros x y. Qed.

Lemma sameMines_trans g1 g2 g3 : sameMines g1 g2 -> sameMines g2 g3 -> sameMines g1 g3.
Proof. intros H1 H2 x y. rewrite (H2 x y). apply H1. Qed.

Lemma calculateNumbersIn_numbered s g g' :
  calculateNumbersIn s g = Done g' -> rect (width s) (height s) g -> numberedIn s g'.
Proof.
  unfold calculateNumbersIn. intros H Hrect.
  pose proof (calculateNumbersIn_spec _ _ _ H) as [Hr' Hsm].
  eapply (foldM_visited
            (fun seen g1 =>
               sameMines g g1 /\
               forall p v, p ∈ seen -> at2 g1 p.1 p.2 = Done v -> v <> -1 ->
                           v = Z.of_nat (minesAround s g p.1 p.2))) in H.
  - destruct H as [_ Hall]. intros x y v Hv Hnm.
    rewrite (minesAround_sameMines s g g') by done.
    apply (Hall (x, y)); [|done..].
    apply elem_of_coords. eapply at2_rect_inv; [|exact Hv]. by apply Hr'.
  - intros seen [x y] g1 g2 [Hs Hseen] Hbody. cbn [fst snd] in Hbody.
    inv_bind Hbody. rename a into v0.
    destruct (Z.eqb_spec v0 (-1)) as [->|Hnm]; cbn [negb] in Hbody.
    { injection Hbody as <-. split; [done|].
      intros p v [Hp|Hp%list_elem_of_singleton]%elem_of_app Hv Hv'; [by eapply Hseen|].
      subst p. cbn [fst snd] in Hv. congruence. }
    inv_bind Hbody. rename a into c.
    apply countAdjacentMinesIn_spec in Ha0.
    rewrite (minesAround_sameMines s g g1) in Ha0 by done.
    apply set2_Done in Hbody as (u & Hu & Hnew & Hoth & _).
    assert (sameMines g1 g2) as Hs2.
    { intros x' y'. destruct (decide ((x', y') = (x, y))) as [[= -> ->]|Hne].
      - rewrite Hnew, Ha. split; intros [=]; lia.
      - by rewrite (Hoth _ _ Hne). }
    split; [by eapply sameMines_trans|].
    intros [px py] v Hp Hv Hv'. cbn [fst snd] in *.
    destruct (decide ((px, py) = (x, y))) as [[= -> ->]|Hne].
    + rewrite Hnew in Hv. injection Hv as <-. by rewrite Ha0.
    + rewrite (Hoth _ _ Hne) in Hv.
      apply elem_of_app in Hp as [Hp|Hp%list_elem_of_singleton]; [|done].
      by apply (Hseen (px, py)).
  - split; [apply sameMines_refl|]. intros p v Hp. by apply elem_of_nil in Hp.
Qed.

Lemma placeMinesRandomly_numbered fuel s ex ey rnd s' rnd' :
  _placeMinesRandomly fuel s ex ey rnd = Done (s', rnd') ->
  rect (width s) (height s) (grid s) -> zoneFree ex ey (grid s) ->
  numberedIn s (grid s').
Proof.
  unfold _placeMinesRandomly, _calculateNumbers. intros H Hr Hz.
  inv_bind H. destruct a as [[g mines] rnd1]. inv_bind H. injection H as <- <-.
  inv_bind Ha0. injection Ha0 as <-. cbn [grid with_grid].
  apply placeLoop_spec in Ha as (Hr1 & _); [|done..].
  apply calculateNumbersIn_numbered in Ha1; done.
Qed.

Lemma generateLoop_numbered (attempts fuel : nat) s ex ey :
  forall rnd ok s' rnd',
    generateLoop attempts fuel s ex ey (maxMinesOf s) rnd = Done (ok, s', rnd') ->
    rect (width s) (height s) (grid s) -> zoneFree ex ey (grid s) ->
    numberedIn s (grid s').
Proof.
  induction attempts as [|n IH]; intros rnd ok s' rnd' H Hr Hz; simpl in H.
  - inv_bind H. destruct a as [s1 rnd1]. injection H as <- <- <-.
    by eapply placeMinesRandomly_numbered.
  - inv_bind H. destruct a as [[g1 tm] rnd1]. inv_bind H. rename a into tg.
    inv_bind H. rename a into solved. destruct solved.
    + injection H as <- <- <-. cbn [grid with_grid with_mineLocations].
      apply placeLoop_spec in Ha as (Hr1 & _);
        [|apply rect_replicate|apply zoneFree_replicate].
      by apply calculateNumbersIn_numbered in Ha0.
    + by eapply IH.
Qed.

Lemma placeMines_numbered fuel s x y rnd ok s' rnd' :
  placeMines fuel s x y rnd = Done (ok, s', rnd') ->
  rect (width s) (height s) (grid s) -> zoneFree x y (grid s) ->
  numberedIn s (grid s').
Proof.
  unfold placeMines, _generateSolvableBoard. destruct (noGuess s).
  - intros H. by eapply generateLoop_numbered.
  - intros H. inv_bind H. destruct a as [s1 rnd1]. injection H as <- <- <-.
    by eapply placeMinesRandomly_numbered.
Qed.

(** The number of neighbors of [(x, y)] on which [isMine] answers [true]. *)
Definition adjacentMines (s : SapperGame) (x y : Z) : nat :=
  countIf (fun d : Z * Z =>
             match isMine s (x + d.1) (y + d.2) with
             | Done true => true
             | _ => false
             end)
          offsets.

Lemma adjacentMines_minesAround s s0 x y :
  width s = width s0 -> height s = height s0 ->
  adjacentMines s x y = minesAround s0 (grid s) x y.
Proof.
  intros Hw Hh. unfold adjacentMines, minesAround. apply countIf_ext. intros d _.
  unfold isMine, mineAt. cbn [fst snd].
  assert (_inBounds s (x + d.1) (y + d.2) = _inBounds s0 (x + d.1) (y + d.2)) as ->
    by (unfold _inBounds; by rewrite Hw, Hh).
  destruct (_inBounds s0 (x + d.1) (y + d.2)); cbn [negb andb]; [|done].
  destruct (at2 (grid s) (x + d.1) (y + d.2)) as [v| |]; cbn [bind]; [|done..].
  by destruct (v =? -1).
Qed.

End SapperNumbers.

Module SapperFlood.
Import Sapper SapperFacts SapperMore.

(** No hidden cell without a flag is next to [(x, y)]. *)
Definition closedAt (s : SapperGame) (x y : Z) : Prop :=
  forall d, d ∈ offsets -> _inBounds s (x + d.1) (y + d.2) = true ->
    at2 (revealed s) (x + d.1) (y + d.2) = Done true \/
    at2 (flagged s) (x + d.1) (y + d.2) = Done true.

Lemma revealStep_frame s s' :
  revealStep s s' ->
  flagged s' = flagged s /\ grid s' = grid s /\ width s' = width s /\ height s' = height s.
Proof. intros [E _]. rewrite E. done. Qed.

Lemma revealStep_keeps s s' x y :
  revealStep s s' -> at2 (revealed s) x y = Done true -> at2 (revealed s') x y = Done true.
Proof.
  intros [_ [_ Hg]] H. destruct (Hg x y) as [_ Hd].
  destruct (Hd true H) as (b & -> & Hm & _). f_equal. auto.
Qed.

Lemma revealStep_Done s s' x y b :
  revealStep s s' -> at2 (revealed s) x y = Done b ->
  exists b', at2 (revealed s') x y = Done b'.
Proof.
  intros [_ [_ Hg]] H. destruct (Hg x y) as [_ Hd].
  destruct (Hd b H) as (b' & -> & _). eauto.
Qed.

Lemma revealStep_inBounds s s' x y : revealStep s s' -> _inBounds s' x y = _inBounds s x y.
Proof.
  intros (_ & _ & Hw & Hh)%revealStep_frame. unfold _inBounds. by rewrite Hw, Hh.
Qed.

Lemma closedAt_keeps s s' x y : revealStep s s' -> closedAt s x y -> closedAt s' x y.
Proof.
  intros Hstep Hc d Hd Hin. rewrite (revealStep_inBounds _ _ _ _ Hstep) in Hin.
  pose proof (revealStep_frame _ _ Hstep) as (Hfl & _).
  destruct (Hc d Hd Hin) as [H|H]; [left; by eapply revealStep_keeps|right; by rewrite Hfl].
Qed.

(** After a call for an in-bounds cell, the cell is revealed or flagged. *)
Lemma revealCellRecursive_target fuel s x y acc hit s' acc' :
  _revealCellRecursive fuel s x y acc = Done (hit, s', acc') ->
  _inBounds s x y = true ->
  at2 (revealed s') x y = Done true \/ at2 (flagged s) x y = Done true.
Proof.
  intros H Hin. pose proof H as H0.
  destruct fuel as [|fuel]; [done|].
  rewrite revealCellRecursive_eq, Hin in H. cbn [negb] in H.
  inv_bind H. rename a into r. rename Ha into Hr.
  destruct r.
  { left. eapply revealStep_keeps; [|exact Hr]. by eapply revealCellRecursive_step. }
  inv_bind H. rename a into f. destruct f; [by right|].
  left. by eapply revealCellRecursive_self.
Qed.

Lemma revealCellRecursive_closed (fuel : nat) :
  forall s x y acc hit s' acc',
    _revealCellRecursive fuel s x y acc = Done (hit, s', acc') ->
    forall px py,
      at2 (revealed s) px py = Done false -> at2 (revealed s') px py = Done true ->
      at2 (grid s) px py = Done 0 -> closedAt s' px py.
Proof.
  induction fuel as [|fuel IH]; intros s x y acc hit s' acc' H px py Hp Hp' Hg0; [done|].
  rewrite revealCellRecursive_eq in H.
  destruct (_inBounds s x y) eqn:Hin; cbn [negb] in H; [|injection H as <- <- <-; congruence].
  inv_bind H. rename a into r. rename Ha into Hr.
  inv_bind H. rename a into skip. rename Ha into Hskip.
  destruct skip; [injection H as <- <- <-; congruence|].
  destruct r; [discriminate|].
  inv_bind H. rename a into rv. rename Ha into Hset.
  inv_bind H. rename a into g. rename Ha into Hg. cbn [grid with_revealed] in Hg.
  pose proof Hset as (_ & _ & Hnew & Hoth & _)%set2_Done.
  assert (forall s1, revealed s1 = rv -> at2 (revealed s1) px py = Done true -> g <> 0 ->
                     False) as Hsingle.
  { intros s1 E Ht Hg'. rewrite E in Ht.
    destruct (decide ((px, py) = (x, y))) as [[= -> ->]|Hne]; [congruence|].
    rewrite (Hoth _ _ Hne) in Ht. congruence. }
  destruct (Z.eqb_spec g (-1)) as [->|Hnm].
  { injection H as <- <- <-. exfalso. by eapply (Hsingle (with_revealed s rv)). }
  destruct (Z.eqb_spec g 0) as [->|Hnz].
  2:{ injection H as <- <- <-. exfalso. by eapply (Hsingle (with_revealed s rv)). }
  inv_bind H. destruct a as [s2 acc2]. injection H as <- <- <-.
  set (s1 := with_revealed s rv) in *.
  assert (revealStep s s1) as Hstep1.
  { split; [done|]. exact (grows_set2 _ _ _ x y Hr Hskip Hset). }
  eapply (foldM_visited
            (fun seen (st : SapperGame * list (Z * Z)) =>
               revealStep s1 st.1 /\
               (forall d, d ∈ seen -> _inBounds s (x + d.1) (y + d.2) = true ->
                  at2 (revealed st.1) (x + d.1) (y + d.2) = Done true \/
                  at2 (flagged s) (x + d.1) (y + d.2) = Done true) /\
               (forall qx qy,
                  at2 (revealed s1) qx qy = Done false ->
                  at2 (revealed st.1) qx qy = Done true ->
                  at2 (grid s) qx qy = Done 0 -> closedAt st.1 qx qy))) in Ha.
  - destruct Ha as (Hstep & Hseen & Hrest). cbn [fst] in *.
    pose proof (revealStep_frame _ _ (revealStep_trans _ _ _ Hstep1 Hstep))
      as (Hfl & _ & Hw & Hh).
    destruct (decide ((px, py) = (x, y))) as [[= -> ->]|Hne].
    + intros d Hd Hb. rewrite Hfl. apply Hseen; [done|].
      rewrite <- Hb. unfold _inBounds. by rewrite Hw, Hh.
    + apply Hrest; [|done..]. unfold s1. cbn [revealed with_revealed].
      by rewrite (Hoth _ _ Hne).
  - intros seen d [sa acca] st' (Hsa & Hseen & Hrest) Hbody. cbn [fst snd] in *.
    inv_bind Hbody. destruct a as [[h sb] accb]. injection Hbody as <-. cbn [fst].
    pose proof (revealCellRecursive_step _ _ _ _ _ _ _ _ Ha0) as Hab.
    pose proof (revealStep_frame _ _ (revealStep_trans _ _ _ Hstep1 Hsa))
      as (Hfl & Hgr & Hw & Hh).
    split; [by eapply revealStep_trans|]. split.
    + intros d' [Hd'|Hd'%list_elem_of_singleton]%elem_of_app Hb.
      * destruct (Hseen d' Hd' Hb) as [E|E]; [left; by eapply revealStep_keeps|by right].
      * subst d'. rewrite <- Hfl. eapply revealCellRecursive_target; [exact Ha0|].
        rewrite <- Hb. unfold _inBounds. by rewrite Hw, Hh.
    + intros qx qy Hq Hq' Hq0.
      destruct (revealStep_Done _ _ qx qy _ Hsa Hq) as [b Hb]. destruct b.
      * eapply closedAt_keeps; [exact Hab|]. by apply Hrest.
      * eapply IH; [exact Ha0|done|done|]. by rewrite Hgr.
  - cbn [fst]. split; [apply revealStep_refl|]. split.
    + intros d Hd. by apply elem_of_nil in Hd.
    + intros qx qy Hq Hq'. congruence.
Qed.

End SapperFlood.

Module SapperClick.
Import Sapper SapperFacts SapperMore SapperNumbers SapperFlood.

Lemma elem_of_offsets (dx dy : Z) :
  (dx, dy) ∈ offsets <-> -1 <= dx <= 1 /\ -1 <= dy <= 1 /\ (dx, dy) <> (0, 0).
Proof.
  assert (offsets = [(-1, -1); (0, -1); (1, -1); (-1, 0); (1, 0); (-1, 1); (0, 1); (1, 1)])
    as -> by reflexivity.
  rewrite !elem_of_cons, elem_of_nil. split.
  - intros H. repeat (destruct H as [H|H]); try done; injection H as -> ->;
      (split; [lia|split; [lia|done]]).
  - intros (Hx & Hy & Hne).
    assert (dx = -1 \/ dx = 0 \/ dx = 1) as [-> | [-> | ->]] by lia;
      assert (dy = -1 \/ dy = 0 \/ dy = 1) as [-> | [-> | ->]] by lia; try done; auto 10.
Qed.

(** What the reveal of [revealCell] leaves behind. *)
Lemma revealCell_inner fuel s x y r s' :
  revealCell fuel s x y = Done (r, s') -> gameOver s = false ->
  exists hit s1,
    _revealCellRecursive fuel s x y [] = Done (hit, s1, r_revealed r) /\
    revealed s' = revealed s1 /\ r_hit r = hit.
Proof.
  intros H Hgo. unfold revealCell in H. rewrite Hgo in H. inv_bind H. destruct a as [[hit s1] rev].
  exists hit, s1. destruct hit.
  - by injection H as <- <-.
  - inv_bind H. injection H as <- <-. by destruct a.
Qed.

Lemma inBounds_dims s t x y :
  width s = width t -> height s = height t -> _inBounds s x y = _inBounds t x y.
Proof. intros Hw Hh. unfold _inBounds. by rewrite Hw, Hh. Qed.

(** No mine in the zone around [(x, y)]: no mine is counted around it. *)
Lemma minesAround_zoneFree s g x y : zoneFree x y g -> minesAround s g x y = O.
Proof.
  intros Hz. unfold minesAround.
  rewrite (countIf_ext _ (fun _ => false)); [reflexivity|].
  intros [dx dy] [Hdx [Hdy _]]%elem_of_offsets. cbn [fst snd].
  destruct (mineAt g (x + dx, y + dy)) eqn:Hm; [|by rewrite andb_false_r].
  apply mineAt_true in Hm. exfalso. apply (Hz (x + dx) (y + dy)); [|done].
  split; lia.
Qed.

Lemma firstClick_block (fuel : nat) (s0 : SapperGame) (x y : Z) (rnd : rng)
    (r : FirstClickResult) (s' : SapperGame) (rnd' : rng) :
  handleFirstClick fuel (initGrid s0) x y rnd = Done (r, s', rnd') ->
  _inBounds s' x y = true ->
  forall dx dy, -1 <= dx <= 1 -> -1 <= dy <= 1 ->
    _inBounds s' (x + dx) (y + dy) = true ->
    isRevealed s' (x + dx) (y + dy) = Done true /\ (x + dx, y + dy) ∈ fc_revealed r.
Proof.
  intros H Hin dx dy Hdx Hdy Hin'.
  apply handleFirstClick_fresh in H
    as (ok & s1 & res & Hpl & Hrev & -> & Hwf & Hz & Hg & Hw & Hh & _).
  pose proof (placeMines_numbered _ _ _ _ _ _ _ _ Hpl (rect_replicate _ _ _)
                (zoneFree_replicate _ _ _ _)) as Hnum.
  pose proof (placeMines_spec _ _ _ _ _ _ _ _ Hpl) as [Hplaced _].
  set (s2 := with_minesPlaced s1 true) in *.
  assert (revealed s2 = replicate (height s0) (replicate (width s0) false)) as Erv
    by (unfold s2; rewrite Hplaced; reflexivity).
  assert (flagged s2 = replicate (height s0) (replicate (width s0) false)) as Efl
    by (unfold s2; rewrite Hplaced; reflexivity).
  assert (gameOver s2 = false) as Hgo by (unfold s2; rewrite Hplaced; reflexivity).
  assert (width s2 = width s0 /\ height s2 = height s0) as [Hw2 Hh2]
    by (unfold s2; rewrite Hplaced; done).
  assert (forall qx qy, _inBounds s' qx qy = true -> _inBounds s2 qx qy = true) as Hb2.
  { intros qx qy <-. apply inBounds_dims; congruence. }
  assert (forall qx qy, _inBounds s' qx qy = true ->
            at2 (revealed s2) qx qy = Done false /\ at2 (flagged s2) qx qy = Done false)
    as Hfresh.
  { intros qx qy [Hx Hy]%Hb2%inBounds_spec.
    destruct Hwf as (_ & Hr & Hf).
    destruct (at2_rect _ _ _ qx qy Hr Hx Hy) as [b Hb].
    destruct (at2_rect _ _ _ qx qy Hf Hx Hy) as [f Hf'].
    pose proof Hb as Hb'. pose proof Hf' as Hf''. rewrite Erv in Hb'. rewrite Efl in Hf''.
    apply at2_replicate in Hb', Hf''. by subst. }
  (* the clicked cell shows the number 0 *)
  assert (at2 (grid s2) x y = Done 0) as Hzero.
  { pose proof (Hb2 _ _ Hin) as [Hx Hy]%inBounds_spec.
    destruct Hwf as (Hgr & _).
    destruct (at2_rect _ _ _ x y Hgr Hx Hy) as [v Hv].
    change (grid s2) with (grid s1) in *.
    assert (v <> -1) as Hnm.
    { intros ->. apply (Hz x y); [|done]. split; rewrite Z.sub_diag; simpl; lia. }
    rewrite Hv. f_equal. rewrite (Hnum x y v Hv Hnm).
    by rewrite minesAround_zoneFree. }
  destruct (revealCell_inner _ _ _ _ _ _ Hrev Hgo) as (hit & s3 & Hrec & Hrv & _).
  pose proof (revealCellRecursive_opened _ _ _ _ _ _ _ _ Hrec)
    as (new & E & _ & _ & Hout).
  cbn [app] in E. subst new.
  pose proof (revealCellRecursive_step _ _ _ _ _ _ _ _ Hrec) as Hstep.
  pose proof (revealStep_frame _ _ Hstep) as (Hfl3 & _ & Hw3 & Hh3).
  destruct (Hfresh _ _ Hin) as [Hx0 Hf0]. destruct (Hfresh _ _ Hin') as [Hx1 Hf1].
  pose proof (revealCellRecursive_self _ _ _ _ _ _ _ _ Hrec (Hb2 _ _ Hin) Hf0) as Hself.
  assert (at2 (revealed s3) (x + dx) (y + dy) = Done true) as Hopen.
  { destruct (decide ((dx, dy) = (0, 0))) as [[= -> ->]|Hne].
    { by rewrite !Z.add_0_r. }
    pose proof (revealCellRecursive_closed _ _ _ _ _ _ _ _ Hrec x y Hx0 Hself Hzero) as Hc.
    destruct (Hc (dx, dy)) as [Hd|Hd]; [by apply elem_of_offsets| |done|].
    - cbn [fst snd]. rewrite <- (Hb2 _ _ Hin'). apply inBounds_dims; congruence.
    - cbn [fst snd] in Hd. rewrite Hfl3 in Hd. congruence. }
  split.
  - unfold isRevealed. rewrite Hin'. cbn [negb]. by rewrite Hrv.
  - cbn [fc_revealed].
    destruct (decide ((x + dx, y + dy) ∈ r_revealed res)) as [|Hno]; [done|].
    apply Hout in Hno. cbn [fst snd] in Hno. congruence.
Qed.

End SapperClick.

Module SapperFirst.
Import Sapper SapperFacts SapperMore SapperNumbers SapperFlood SapperClick.

(** [cleared] through the queries of the game. *)
Lemma cleared_queries s :
  wf s ->
  cleared s <->
  forall px py, _inBounds s px py = true -> isMine s px py = Done false ->
                isRevealed s px py = Done true.
Proof.
  intros (Hg & Hr & _). split.
  - intros Hc px py Hin Hm. unfold isRevealed, isMine in *. rewrite Hin in *.
    cbn [negb] in *. destruct (Hc px py Hin) as [E|E]; [done|].
    rewrite E in Hm. cbn in Hm. discriminate.
  - intros Hq px py Hin. pose proof Hin as [Hx Hy]%inBounds_spec.
    destruct (at2_rect _ _ _ px py Hg Hx Hy) as [v Hv].
    destruct (Z.eqb_spec v (-1)) as [->|Hnm]; [by right|left].
    specialize (Hq px py Hin). unfold isRevealed, isMine in Hq. rewrite Hin, Hv in Hq.
    cbn [negb bind] in Hq. apply Hq. f_equal. by apply Z.eqb_neq.
Qed.

Lemma isRevealed_Done_true s px py :
  wf s -> isRevealed s px py = Done true <-> at2 (revealed s) px py = Done true.
Proof.
  intros (_ & Hr & _). unfold isRevealed. split.
  - destruct (_inBounds s px py); cbn [negb]; [done|discriminate].
  - intros H. pose proof (at2_rect_inv _ _ _ _ _ _ Hr H) as Hin%inBounds_spec.
    by rewrite Hin.
Qed.

(** What the first click on a fresh board leaves, whichever way the mines
    were placed. *)
Lemma firstClick_reveal fuel s0 x y rnd r s' rnd' :
  handleFirstClick fuel (initGrid s0) x y rnd = Done (r, s', rnd') ->
  wf s' /\ NoDup (fc_revealed r) /\
  (forall px py, (px, py) ∈ fc_revealed r <-> isRevealed s' px py = Done true) /\
  (_inBounds s' x y = true ->
   forall dx dy, -1 <= dx <= 1 -> -1 <= dy <= 1 ->
     _inBounds s' (x + dx) (y + dy) = true -> (x + dx, y + dy) ∈ fc_revealed r) /\
  gameOver s' = won s' /\
  (won s' = true <->
   forall px py, _inBounds s' px py = true -> isMine s' px py = Done false ->
                 isRevealed s' px py = Done true).
Proof.
  intros H. pose proof H as Hfresh.
  apply handleFirstClick_fresh in Hfresh
    as (ok & s1 & res & Hpl & Hrev & -> & Hwf & Hz & Hg & Hw & Hh & Hmp & Hhit).
  pose proof (placeMines_spec _ _ _ _ _ _ _ _ Hpl) as [Hplaced _].
  set (s2 := with_minesPlaced s1 true) in *.
  assert (revealed s2 = replicate (height s0) (replicate (width s0) false)) as Erv
    by (unfold s2; rewrite Hplaced; reflexivity).
  assert (gameOver s2 = false /\ won s2 = false) as [Hgo Hwon]
    by (unfold s2; rewrite Hplaced; done).
  pose proof (revealCell_playStep _ _ _ _ _ _ Hrev) as Hps.
  pose proof (playStep_wf _ _ Hps Hwf) as Hwf'.
  pose proof (revealCell_opened _ _ _ _ _ _ Hrev) as Hop.
  destruct (revealCell_cleared _ _ _ _ _ _ Hrev Hgo Hhit) as (Hc & Hover & Hw').
  rewrite Hwon, orb_false_r in Hw'. cbn [fc_revealed].
  split; [exact Hwf'|]. split; [by destruct Hop|]. split; [|split; [|split]].
  - intros px py. rewrite (isRevealed_Done_true s' px py Hwf').
    rewrite (opened_iff _ _ _ px py Hop). split; [by intros [_ ?]|].
    intros Ht. split; [|done].
    destruct Hps as [_ [_ Hgr]]. destruct (Hgr px py) as [Herr Hd].
    destruct (at2_cases (revealed s2) px py) as [[b Hb]|Hb].
    + rewrite Hb. f_equal. rewrite Erv in Hb. by apply at2_replicate in Hb.
    + apply Herr in Hb. congruence.
  - intros Hin dx dy Hdx Hdy Hin'.
    by destruct (firstClick_block _ _ _ _ _ _ _ _ H Hin dx dy Hdx Hdy Hin') as [_ ?].
  - congruence.
  - rewrite Hw'. rewrite Hc. by apply cleared_queries.
Qed.

Lemma firstClick_fallback_reveal fuel s0 x y rnd s1 rnd1 :
  noGuess s0 = true -> (width s0 * height s0 < fuel)%nat ->
  _generateSolvableBoard fuel (initGrid s0) x y rnd = Done (false, s1, rnd1) ->
  exists r s',
    handleFirstClick fuel (initGrid s0) x y rnd = Done (r, s', rnd1) /\
    fc_success r = false /\ minesPlaced s' = true /\
    grid s' = grid s1 /\ mineLocations s' = mineLocations s1 /\
    (exists rnd0, _placeMinesRandomly fuel (initGrid s0) x y rnd0 = Done (s1, rnd1)) /\
    NoDup (fc_revealed r) /\
    (forall px py, (px, py) ∈ fc_revealed r <-> isRevealed s' px py = Done true) /\
    (_inBounds s' x y = true ->
     forall dx dy, -1 <= dx <= 1 -> -1 <= dy <= 1 ->
       _inBounds s' (x + dx) (y + dy) = true -> (x + dx, y + dy) ∈ fc_revealed r) /\
    gameOver s' = won s' /\
    (won s' = true <->
     forall px py, _inBounds s' px py = true -> isMine s' px py = Done false ->
                   isRevealed s' px py = Done true).
Proof.
  intros Hng Hfuel Hgen.
  destruct (firstClick_fallback _ _ _ _ _ _ _ Hng Hfuel Hgen)
    as (r & s' & Hrun & Hok & Hmp & Hg & Hml & _ & Hfb).
  exists r, s'. split; [exact Hrun|]. split; [exact Hok|]. split; [exact Hmp|].
  split; [exact Hg|]. split; [exact Hml|]. split; [exact Hfb|].
  by destruct (firstClick_reveal _ _ _ _ _ _ _ _ Hrun) as (_ & ? & ? & ? & ? & ?).
Qed.

End SapperFirst.

Module SapperChord.
Import Sapper SapperFacts SapperMore SapperNumbers SapperFlood SapperClick SapperFirst.

(** A reveal in a running game leaves an unflagged cell of the board
    revealed. *)
Lemma revealCell_self fuel s x y r s' :
  revealCell fuel s x y = Done (r, s') -> gameOver s = false ->
  _inBounds s x y = true -> at2 (flagged s) x y = Done false ->
  at2 (revealed s') x y = Done true.
Proof.
  intros H Hgo Hin Hfl.
  destruct (revealCell_inner _ _ _ _ _ _ H Hgo) as (hit & s1 & Hrec & Hrv & _).
  rewrite Hrv. by eapply revealCellRecursive_self.
Qed.

Lemma cleared_playStep_same s s' : s' = s -> cleared s -> cleared s'.
Proof. by intros ->. Qed.

(** The state of a chord after some of its reveals: the game so far, the
    cells revealed so far and whether a mine was hit. *)
Definition chordInv (s : SapperGame) (seen : list (Z * Z))
    (st : SapperGame * list (Z * Z) * bool) : Prop :=
  playStep s st.1.1 /\ wf st.1.1 /\
  opened (revealed s) (revealed st.1.1) st.1.2 /\
  (st.2 = true -> gameOver st.1.1 = true /\ won st.1.1 = false) /\
  (st.2 = false ->
   (gameOver st.1.1 = true -> won st.1.1 = true /\ cleared st.1.1) /\
   forall n, n ∈ seen -> _inBounds s n.1 n.2 = true ->
     at2 (flagged s) n.1 n.2 = Done false -> at2 (grid s) n.1 n.2 <> Done (-1) ->
     at2 (revealed st.1.1) n.1 n.2 = Done true).

Lemma revealOne_chordInv fuel s seen st n st' :
  chordInv s seen st -> revealOne fuel st n = Done st' -> chordInv s (seen ++ [n]) st'.
Proof.
  destruct st as [[s1 all] hit]. intros (Hps & Hwf & Hop & Hhit & Hok) H.
  cbn [fst snd] in *. unfold revealOne in H. cbn [fst snd] in H.
  inv_bind H. destruct a as [res s2]. injection H as <-. rename Ha into Hrev.
  pose proof (revealCell_playStep _ _ _ _ _ _ Hrev) as Hps12.
  pose proof (playStep_frame _ _ Hps) as (Hfl & Hgr & Hw & Hh).
  pose proof (playStep_frame _ _ Hps12) as (Hfl2 & Hgr2 & Hw2 & Hh2).
  pose proof (revealCell_opened _ _ _ _ _ _ Hrev) as Hop12.
  unfold chordInv. cbn [fst snd].
  split; [by eapply playStep_trans|]. split; [by eapply playStep_wf|].
  split; [by eapply opened_app|].
  destruct (gameOver s1) eqn:Hgo.
  - (* the game is over: the call changes nothing *)
    rewrite revealCell_over in Hrev by done. injection Hrev as <- <-.
    cbn [r_hit]. rewrite orb_false_r.
    split; [intros Hyes; destruct (Hhit Hyes); by rewrite Hgo|].
    intros Hno. destruct (Hok Hno) as [Hwon Hseen]. split; [intros _; by apply Hwon|].
    intros m [Hm|Hm%list_elem_of_singleton]%elem_of_app Hin Hf Hg; [by apply Hseen|].
    subst m. destruct (Hwon eq_refl) as [_ Hc].
    destruct (Hc n.1 n.2) as [E|E]; [|done|congruence].
    rewrite <- Hin. apply inBounds_dims; congruence.
  - destruct (revealCell_result _ _ _ _ _ _ Hrev Hgo)
      as [(Hhit1 & _ & _ & Hover & Hwon)|(Hh0 & _ & _)].
    + rewrite Hhit1, orb_true_r. split; [done|]. discriminate.
    + rewrite Hh0, orb_false_r.
      destruct (revealCell_cleared _ _ _ _ _ _ Hrev Hgo Hh0) as (Hc & Hover & Hwon).
      split.
      { intros ->. destruct (Hhit eq_refl) as [? _]. congruence. }
      intros Hno. destruct (Hok Hno) as [_ Hseen]. split.
      { intros Hgo2. rewrite Hover in Hgo2. rewrite Hwon, Hgo2. split; [done|].
        by apply Hc. }
      intros m [Hm|Hm%list_elem_of_singleton]%elem_of_app Hin Hf Hg.
      * eapply playStep_revealed_keeps; [exact Hps12|]. by apply Hseen.
      * subst m. eapply revealCell_self; [exact Hrev|exact Hgo| |congruence].
        rewrite <- Hin. apply inBounds_dims; congruence.
Qed.

Lemma revealEach_chordInv fuel s (l : list (Z * Z)) st st' :
  chordInv s [] st -> foldM (revealOne fuel) l st = Done st' -> chordInv s l st'.
Proof.
  intros Hinv H.
  eapply (foldM_visited (chordInv s)); [|exact Hinv|exact H].
  intros seen a st1 st2 H1 H2. by eapply revealOne_chordInv.
Qed.

Lemma elem_of_unflaggedNeighbors s x y n :
  n ∈ unflaggedNeighbors s x y <->
  (exists dx dy, -1 <= dx <= 1 /\ -1 <= dy <= 1 /\ (dx, dy) <> (0, 0) /\
                 n = (x + dx, y + dy)) /\
  _inBounds s n.1 n.2 = true /\ at2 (flagged s) n.1 n.2 = Done false.
Proof.
  unfold unflaggedNeighbors. rewrite list_elem_of_In, filter_In, <- list_elem_of_In.
  rewrite list_elem_of_fmap, andb_true_iff. split.
  - intros [([dx dy] & -> & Hd%elem_of_offsets) [Hin Hf]]. cbn [fst snd] in *.
    split; [exists dx, dy; tauto|]. split; [done|].
    by destruct (at2 (flagged s) (x + dx) (y + dy)) as [[]| |].
  - intros [(dx & dy & Hdx & Hdy & Hne & ->) [Hin Hf]]. cbn [fst snd] in *. split.
    + exists (dx, dy). split; [done|]. by apply elem_of_offsets.
    + cbn [fst snd]. by rewrite Hin, Hf.
Qed.

(** The effect of a chord that fires. *)
Lemma chordReveal_effect fuel s x y g r s' :
  wf s -> gameOver s = false ->
  isRevealed s x y = Done true -> getCell s x y = Done (Some g) -> 0 < g ->
  _countAdjacentFlags s x y = Done (Z.to_nat g) ->
  chordReveal fuel s x y = Done (r, s') ->
  NoDup (r_revealed r) /\
  (forall px py, (px, py) ∈ r_revealed r <->
     at2 (revealed s) px py = Done false /\ at2 (revealed s') px py = Done true) /\
  r_lost r = r_hit r /\ r_won r = won s' /\
  (r_hit r = true -> gameOver s' = true /\ won s' = false) /\
  (r_hit r = false ->
   (gameOver s' = true -> won s' = true) /\
   forall n, n ∈ unflaggedNeighbors s x y ->
     isMine s n.1 n.2 = Done false -> isRevealed s' n.1 n.2 = Done true).
Proof.
  intros Hwf Hgo Hrv Hcell Hg Hflags H.
  rewrite (chordReveal_fires fuel s x y g) in H by done.
  inv_bind H. destruct a as [[s2 all] hit]. injection H as <- <-. cbn [r_hit r_revealed r_won r_lost].
  apply (revealEach_chordInv fuel s) in Ha as (Hps & Hwf' & Hop & Hhit & Hok).
  2:{ split; [apply playStep_refl|]. split; [done|]. split; [apply opened_nil|].
      cbn [fst snd]. split; [discriminate|]. intros _. split; [congruence|].
      intros n Hn. by apply elem_of_nil in Hn. }
  cbn [fst snd] in *.
  split; [by destruct Hop|]. split; [intros px py; by apply opened_iff|].
  split; [done|]. split; [done|]. split; [exact Hhit|].
  intros Hno. destruct (Hok Hno) as [Hwon Hseen]. split; [intros Ho; by destruct (Hwon Ho)|].
  intros n Hn Hmine.
  pose proof Hn as (_ & Hin & Hf)%elem_of_unflaggedNeighbors.
  apply (isRevealed_Done_true s2 _ _ Hwf'). apply Hseen; [done..|].
  intros E. unfold isMine in Hmine. rewrite Hin, E in Hmine. cbn in Hmine. discriminate.
Qed.

End SapperChord.

(** * Further facts about sappershapes.js *)

Module ShapesMore.
Import SapperShapes ShapesFacts.

(** Every cell of the map holds a mine or is revealed. *)
Definition clearedMap (s : SapperShapesGame) : Prop :=
  forall k c, cells s !! k = Some c -> mine c = true \/ revealed c = true.

Lemma checkWin_clearedMap s : _checkWin s = true <-> clearedMap s.
Proof.
  unfold _checkWin, clearedMap. rewrite forallb_forall. split.
  - intros H k c Hk.
    assert (In (k, c) (map_to_list (cells s))) as Hin
      by (by apply list_elem_of_In, elem_of_map_to_list).
    specialize (H _ Hin). cbn [snd] in H. by apply orb_true_iff in H.
  - intros H [k c] Hin%list_elem_of_In%elem_of_map_to_list. cbn [snd].
    apply orb_true_iff. by eapply H.
Qed.

(** The cells [new] are exactly those that the maps differ on, each turned
    from hidden to revealed. *)
Definition openedCells (m m' : gmap (Z * Z) Cell) (new : list (Z * Z)) : Prop :=
  NoDup new /\
  (forall k, k ∈ new ->
     exists c, m !! k = Some c /\ revealed c = false /\ m' !! k = Some (setRevealed c true)) /\
  (forall k, k ∉ new -> m' !! k = m !! k).

Lemma openedCells_nil m : openedCells m m [].
Proof.
  split; [constructor|]. split; [|done]. intros k Hk. by apply elem_of_nil in Hk.
Qed.

Lemma openedCells_one m k c :
  m !! k = Some c -> revealed c = false ->
  openedCells m (<[k := setRevealed c true]> m) [k].
Proof.
  intros Hk Hr. split; [apply NoDup_singleton|]. split.
  - intros k' ->%list_elem_of_singleton. exists c. by rewrite lookup_insert_eq.
  - intros k' Hk'. apply lookup_insert_ne. intros ->. apply Hk'. by left.
Qed.

Lemma openedCells_app m1 m2 m3 n1 n2 :
  openedCells m1 m2 n1 -> openedCells m2 m3 n2 -> openedCells m1 m3 (n1 ++ n2).
Proof.
  intros (Hd1 & Hin1 & Hout1) (Hd2 & Hin2 & Hout2).
  assert (forall k, k ∈ n1 -> k ∉ n2) as Hdisj.
  { intros k H1 H2. destruct (Hin1 k H1) as (c1 & _ & _ & E1).
    destruct (Hin2 k H2) as (c2 & E2 & Hr2 & _). rewrite E1 in E2. injection E2 as <-.
    done. }
  split; [|split].
  - apply NoDup_app. done.
  - intros k [H1|H2]%elem_of_app.
    + destruct (Hin1 k H1) as (c & E1 & Hr & E2). exists c. split; [done|]. split; [done|].
      rewrite Hout2; auto.
    + destruct (Hin2 k H2) as (c & E1 & Hr & E2). exists c.
      rewrite <- Hout1; [done|]. intros H1. by apply (Hdisj k).
  - intros k Hk. rewrite Hout2, Hout1; [done| |]; intros H; apply Hk, elem_of_app; auto.
Qed.

Lemma shapes_revealCellRecursive_opened (fuel : nat) :
  forall s x y acc hit s' acc',
    _revealCellRecursive fuel s x y acc = Done (hit, s', acc') ->
    exists new, acc' = acc ++ new /\ openedCells (cells s) (cells s') new.
Proof.
  induction fuel as [|fuel IH]; intros s x y acc hit s' acc' H; [done|].
  rewrite shapes_revealCellRecursive_eq in H.
  assert (exists new, acc = acc ++ new /\ openedCells (cells s) (cells s) new) as Hsame.
  { exists []. split; [by rewrite app_nil_r|apply openedCells_nil]. }
  destruct (Grid.isInBounds (grid s) x y); cbn [negb] in H; [|by injection H as <- <- <-].
  inv_bind H. rename a into cell. apply cellAt_Done in Ha.
  destruct (revealed cell) eqn:Hr; [by injection H as <- <- <-|].
  destruct (flagged cell) eqn:Hf; [by injection H as <- <- <-|].
  cbn [orb] in H. cbv zeta in H.
  set (s1 := with_cells s (<[(x, y) := setRevealed cell true]> (cells s))) in *.
  assert (exists new, acc ++ [(x, y)] = acc ++ new /\
                      openedCells (cells s) (cells s1) new) as Hfirst.
  { exists [(x, y)]. split; [done|]. by apply openedCells_one. }
  destruct (mine (setRevealed cell true)); [by injection H as <- <- <-|].
  destruct (count (setRevealed cell true) =? 0)%nat; [|by injection H as <- <- <-].
  inv_bind H. destruct a as [s2 acc2]. injection H as <- <- <-.
  eapply (foldM_inv (fun st => exists new, st.2 = acc ++ new /\
                                 openedCells (cells s) (cells st.1) new))
    in Ha0; [exact Ha0| |exact Hfirst].
  intros [sa acca] d st' _ (n1 & E1 & H1) Hbody. cbn [fst snd] in *.
  inv_bind Hbody. destruct a as [[h sb] accb]. injection Hbody as <-. cbn [fst snd].
  apply IH in Ha1 as (n2 & E2 & H2). exists (n1 ++ n2). split.
  - rewrite E2, E1. by rewrite app_assoc.
  - eapply openedCells_app; eauto.
Qed.

(** The two outcomes of a reveal in a running game. *)
Lemma shapes_revealCell_outcome fuel s x y r s' :
  revealCell fuel s x y = Done (r, s') -> gameOver s = false ->
  (r_hit r = true /\ r_lost r = true /\ r_won r = false /\
   gameOver s' = true /\ won s' = false) \/
  (r_hit r = false /\ r_lost r = false /\ gameOver s' = r_won r /\
   won s' = r_won r || won s /\ (r_won r = true <-> clearedMap s') /\
   openedCells (cells s) (cells s') (r_revealed r)).
Proof.
  rewrite revealCell_eq. intros H Hgo. rewrite Hgo in H.
  inv_bind H. destruct a as [[hit s1] rev].
  pose proof (shapes_revealCellRecursive_step _ _ _ _ _ _ _ _ Ha) as [E _].
  apply shapes_revealCellRecursive_opened in Ha as (new & -> & Hop). cbn [app] in *.
  destruct hit.
  - cbv zeta in H. inv_bind H. injection H as <- <-. left. done.
  - injection H as <- <-. right. cbn [r_hit r_lost r_won r_revealed].
    assert (gameOver s1 = false /\ won s1 = won s) as [Hgo1 Hw1] by (rewrite E; done).
    pose proof (checkWin_clearedMap s1) as Hc.
    destruct (_checkWin s1); cbn [gameOver won with_over cells orb];
      (split; [done|]); (split; [done|]); (split; [done|]); (split; [done|]);
      (split; [exact Hc|exact Hop]).
Qed.

(** A reveal in a running game leaves an unflagged cell of the grid
    revealed. *)
Lemma shapes_revealCell_self fuel s x y r s' c :
  revealCell fuel s x y = Done (r, s') -> gameOver s = false ->
  Grid.isInBounds (grid s) x y = true -> cells s !! (x, y) = Some c -> flagged c = false ->
  exists c', cells s' !! (x, y) = Some c' /\ revealed c' = true.
Proof.
  rewrite revealCell_eq. intros H Hgo Hin Hc Hfl. rewrite Hgo in H.
  inv_bind H. destruct a as [[hit s1] rev].
  destruct (shapes_revealCellRecursive_self _ _ _ _ _ _ _ _ _ Ha Hin Hc Hfl)
    as (c1 & Hc1 & Hr1).
  destruct hit.
  - cbv zeta in H. inv_bind H. injection H as <- <-. cbn [cells with_cells].
    apply revealMines_spec, discloses_evolves in Ha0. cbn [cells with_over] in Ha0.
    by eapply evolves_revealed_keeps.
  - injection H as <- <-. exists c1. by destruct (_checkWin s1).
Qed.

End ShapesMore.

Module ShapesChord.
Import SapperShapes ShapesFacts ShapesMore.

Lemma openedCells_iff m m' new k :
  openedCells m m' new ->
  k ∈ new <->
  (exists c c', m !! k = Some c /\ revealed c = false /\
                m' !! k = Some c' /\ revealed c' = true).
Proof.
  intros (_ & Hin & Hout). split.
  - intros Hk. destruct (Hin k Hk) as (c & E & Hr & E'). by exists c, (setRevealed c true).
  - intros (c & c' & E & Hr & E' & Hr'). destruct (decide (k ∈ new)) as [|Hno]; [done|].
    rewrite (Hout k Hno), E in E'. injection E' as <-. congruence.
Qed.

(** The state of a chord after some of its reveals. *)
Definition chordInv (s : SapperShapesGame) (seen : list (Z * Z))
    (st : SapperShapesGame * list (Z * Z) * bool) : Prop :=
  playStep s st.1.1 /\
  (st.2 = true -> gameOver st.1.1 = true /\ won st.1.1 = false) /\
  (st.2 = false ->
   openedCells (cells s) (cells st.1.1) st.1.2 /\
   (gameOver st.1.1 = true -> won st.1.1 = true /\ clearedMap st.1.1) /\
   forall n c, n ∈ seen -> Grid.isInBounds (grid s) n.1 n.2 = true ->
     cells s !! n = Some c -> flagged c = false -> mine c = false ->
     exists c', cells st.1.1 !! n = Some c' /\ revealed c' = true).

Lemma shapes_revealOne_chordInv fuel s seen st n st' :
  gameOver s = false ->
  chordInv s seen st -> revealOne fuel st n = Done st' -> chordInv s (seen ++ [n]) st'.
Proof.
  destruct st as [[s1 all] hit]. intros Hlive (Hps & Hhit & Hok) H.
  cbn [fst snd] in *. unfold revealOne in H. cbn [fst snd] in H.
  inv_bind H. destruct a as [res s2]. injection H as <-. rename Ha into Hrev.
  pose proof (shapes_revealCell_playStep _ _ _ _ _ _ Hrev) as Hps12.
  pose proof (shapes_playStep_frame _ _ Hps) as (_ & _ & Hgr & _).
  pose proof (playStep_evolves _ _ Hps) as Hev.
  unfold chordInv. cbn [fst snd].
  split; [by eapply shapes_playStep_trans|].
  destruct (gameOver s1) eqn:Hgo.
  - (* the game is over: the call changes nothing *)
    rewrite shapes_revealCell_over in Hrev by done. injection Hrev as <- <-.
    cbn [r_hit r_revealed noEffect]. rewrite orb_false_r, app_nil_r.
    split; [intros Hyes; destruct (Hhit Hyes); by rewrite Hgo|].
    intros Hno. destruct (Hok Hno) as (Hop & Hwon & Hseen).
    split; [done|]. split; [intros _; by apply Hwon|].
    intros m c [Hm|Hm%list_elem_of_singleton]%elem_of_app Hin Hc Hf Hmn;
      [by eapply Hseen|].
    subst m. destruct (Hwon eq_refl) as [_ Hcl].
    pose proof (Hev n) as Hn. rewrite Hc in Hn.
    destruct (cells s1 !! n) as [c1|] eqn:Hc1; [|done].
    destruct Hn as (Hm1 & _). exists c1. split; [done|].
    destruct (Hcl n c1 Hc1) as [E|E]; [congruence|done].
  - destruct (shapes_revealCell_outcome _ _ _ _ _ _ Hrev Hgo)
      as [(Hh1 & _ & _ & Hover & Hwon)|(Hh0 & _ & Hover & Hwon & Hcl & Hop12)].
    + rewrite Hh1, orb_true_r. split; [done|]. discriminate.
    + rewrite Hh0, orb_false_r. split.
      { intros ->. destruct (Hhit eq_refl) as [? _]. congruence. }
      intros Hno. destruct (Hok Hno) as (Hop & _ & Hseen).
      split; [by eapply openedCells_app|]. split.
      { intros Hgo2. rewrite Hover in Hgo2. rewrite Hwon, Hgo2. split; [done|].
        by apply Hcl. }
      intros m c [Hm|Hm%list_elem_of_singleton]%elem_of_app Hin Hc Hf Hmn.
      * destruct (Hseen m c Hm Hin Hc Hf Hmn) as (c1 & Hc1 & Hr1).
        eapply evolves_revealed_keeps; [by apply playStep_evolves|exact Hc1|exact Hr1].
      * subst m. pose proof (Hev n) as Hn. rewrite Hc in Hn.
        destruct (cells s1 !! n) as [c1|] eqn:Hc1; [|done].
        destruct Hn as (_ & Hf1 & _). destruct n as [nx ny].
        eapply shapes_revealCell_self; [exact Hrev|exact Hgo| |exact Hc1|congruence].
        cbn [fst snd] in *. congruence.
Qed.

Lemma shapes_revealEach_chordInv fuel s (l : list (Z * Z)) st st' :
  gameOver s = false ->
  chordInv s [] st -> foldM (revealOne fuel) l st = Done st' -> chordInv s l st'.
Proof.
  intros Hlive Hinv H.
  eapply (SapperMore.foldM_visited (chordInv s)); [|exact Hinv|exact H].
  intros seen a st1 st2 H1 H2. by eapply shapes_revealOne_chordInv.
Qed.

Lemma elem_of_shapes_unflaggedNeighbors s x y n :
  n ∈ unflaggedNeighbors s x y <->
  n ∈ _getNeighbors s x y /\ exists c, cells s !! n = Some c /\ flagged c = false.
Proof.
  unfold unflaggedNeighbors. rewrite list_elem_of_In, filter_In, <- list_elem_of_In.
  split.
  - intros [Hn Hf]. split; [done|]. destruct (cells s !! n) as [c|]; [|done].
    exists c. split; [done|]. by destruct (flagged c).
  - intros [Hn (c & -> & ->)]. done.
Qed.

(** The effect of a chord that fires. *)
Lemma shapes_chordReveal_effect fuel s x y r s' :
  gameOver s = false -> Grid.isInBounds (grid s) x y = true ->
  isRevealed s x y = true -> (0 < getCount s x y)%nat ->
  countAdjacentFlags s x y = getCount s x y ->
  chordReveal fuel s x y = Done (r, s') ->
  r_lost r = r_hit r /\ r_won r = won s' /\
  (r_hit r = true -> gameOver s' = true /\ won s' = false) /\
  (r_hit r = false ->
   NoDup (r_revealed r) /\
   (forall px py, (px, py) ∈ r_revealed r <->
      is_Some (cells s !! (px, py)) /\
      isRevealed s px py = false /\ isRevealed s' px py = true) /\
   (gameOver s' = true -> won s' = true) /\
   forall n, n ∈ unflaggedNeighbors s x y ->
     Grid.isInBounds (grid s) n.1 n.2 = true ->
     isMine s n.1 n.2 = false -> isRevealed s' n.1 n.2 = true).
Proof.
  intros Hgo Hin Hrv Hpos Hflags H.
  rewrite (shapes_chordReveal_fires fuel s x y) in H by done.
  inv_bind H. destruct a as [[s2 all] hit]. injection H as <- <-.
  cbn [r_hit r_revealed r_won r_lost].
  apply (shapes_revealEach_chordInv fuel s) in Ha as (Hps & Hhit & Hok); [|done|].
  2:{ split; [apply shapes_playStep_refl|]. cbn [fst snd].
      split; [discriminate|]. intros _. split; [apply openedCells_nil|].
      split; [congruence|]. intros n c Hn. by apply elem_of_nil in Hn. }
  cbn [fst snd] in *.
  split; [done|]. split; [done|]. split; [exact Hhit|].
  intros Hno. destruct (Hok Hno) as (Hop & Hwon & Hseen).
  split; [by destruct Hop|]. split.
  { intros px py. rewrite (openedCells_iff _ _ _ (px, py) Hop). unfold isRevealed. split.
    - intros (c & c' & -> & Hr & -> & Hr'). eauto.
    - intros ([c Hc] & Hr & Hr'). rewrite Hc in Hr.
      destruct (cells s2 !! (px, py)) as [c'|]; [|done]. by exists c, c'. }
  split; [intros Ho; by destruct (Hwon Ho)|].
  intros [nx ny] Hn Hinn Hmine.
  pose proof Hn as (_ & c & Hc & Hf)%elem_of_shapes_unflaggedNeighbors.
  unfold isMine in Hmine. cbn [fst snd] in *. rewrite Hc in Hmine.
  destruct (Hseen (nx, ny) c Hn Hinn Hc Hf Hmine) as (c' & Hc' & Hr').
  unfold isRevealed. by rewrite Hc'.
Qed.

(** The first click on a fresh board whose mines have been placed by
    either way: the result lists exactly the revealed cells, the clicked
    cell among them. *)
Lemma shapes_firstClick_reveal fuel s0 x y rnd r s' rnd' :
  handleFirstClick fuel (initGrid s0) x y rnd = Done (r, s', rnd') ->
  NoDup (fc_revealed r) /\
  (forall px py, (px, py) ∈ fc_revealed r <-> isRevealed s' px py = true) /\
  (Grid.isInBounds (grid s0) x y = true -> (x, y) ∈ fc_revealed r) /\
  gameOver s' = won s' /\
  (won s' = true <->
   forall px py, is_Some (cells s' !! (px, py)) -> isMine s' px py = false ->
                 isRevealed s' px py = true).
Proof.
  intros H. apply shapes_handleFirstClick_first in H as (ok & s1 & res & Hpl & Hrev & ->);
    [|done].
  apply shapes_placeMines_spec in Hpl as (rnd0 & E & Hat & Hdom); [|apply noMines_initGrid].
  set (s2 := with_minesPlaced s1 true) in *.
  assert (gameOver s2 = false /\ won s2 = false /\ grid s2 = grid s0) as (Hgo & Hw & Hg)
    by (subst s2; rewrite E; done).
  assert (forall k c, cells s2 !! k = Some c -> revealed c = false /\ flagged c = false)
    as Hfresh.
  { intros k c Hc. specialize (Hat k). change (cells s2) with (cells s1) in Hc.
    rewrite Hc in Hat. rewrite lookup_initGrid in Hat. case_bool_decide; [|done].
    destruct Hat as (-> & -> & _). done. }
  assert (~ (x, y) ∈ chosenMines (initGrid s0) x y rnd0) as Hsafe.
  { intros Hm%elem_of_chosenMines%elem_of_validPositions. tauto. }
  cbn [fc_revealed].
  destruct (shapes_revealCell_outcome _ _ _ _ _ _ Hrev Hgo)
    as [(Hh1 & _)|(Hh0 & _ & Hover & Hwon & Hcl & Hop)].
  { exfalso. rewrite revealCell_eq, Hgo in Hrev. inv_bind Hrev.
    destruct a as [[hit s3] rev]. destruct hit.
    - apply shapes_revealCellRecursive_hit in Ha as (_ & c & Hc & _ & _ & Hm & _).
      change (cells s2) with (cells s1) in Hc. specialize (Hat (x, y)). rewrite Hc in Hat.
      destruct (cells (initGrid s0) !! (x, y)); [|done]. destruct Hat as (_ & _ & Hmine).
      rewrite Hm in Hmine. symmetry in Hmine. by apply bool_decide_eq_true in Hmine.
    - injection Hrev as <- <-. done. }
  assert (forall px py, (px, py) ∈ r_revealed res <-> isRevealed s' px py = true) as Hlist.
  { intros px py. rewrite (openedCells_iff _ _ _ (px, py) Hop). unfold isRevealed. split.
    - intros (c & c' & _ & _ & -> & Hr'). done.
    - intros Hr'. destruct (cells s' !! (px, py)) as [c'|] eqn:Hc'; [|done].
      destruct Hop as (_ & Hinn & Hout).
      destruct (cells s2 !! (px, py)) as [c|] eqn:Hc.
      + exists c, c'. destruct (Hfresh _ _ Hc). done.
      + destruct (decide ((px, py) ∈ r_revealed res)) as [Hk|Hk].
        * destruct (Hinn _ Hk) as (c & Hc2 & _). congruence.
        * rewrite (Hout _ Hk), Hc in Hc'. done. }
  split; [by destruct Hop|]. split; [exact Hlist|]. split.
  { intros Hin. apply Hlist.
    assert (is_Some (cells s2 !! (x, y))) as [c Hc].
    { specialize (Hat (x, y)). change (cells s2) with (cells s1).
      destruct (cells (initGrid s0) !! (x, y)) eqn:E0, (cells s1 !! (x, y)) eqn:E1;
        try done.
      exfalso. rewrite revealCell_eq, Hgo in Hrev. inv_bind Hrev.
      destruct a as [[hit s3] rev]. destruct fuel; [done|].
      rewrite shapes_revealCellRecursive_eq in Ha. rewrite Hg, Hin in Ha.
      cbn [negb] in Ha. inv_bind Ha. apply cellAt_Done in Ha0.
      change (cells s2) with (cells s1) in Ha0. congruence. }
    destruct (Hfresh _ _ Hc) as [_ Hf].
    destruct (shapes_revealCell_self fuel s2 x y res s' c Hrev Hgo)
      as (c' & Hc' & Hr'); [by rewrite Hg|done|done|].
    unfold isRevealed. by rewrite Hc'. }
  split; [by rewrite Hover, Hwon, Hw, orb_false_r|].
  rewrite Hwon, Hw, orb_false_r, Hcl. unfold clearedMap, isMine, isRevealed. split.
  - intros Hc px py [c Hk] Hm. rewrite Hk in *. destruct (Hc _ _ Hk); congruence.
  - intros Hc [px py] c Hk. specialize (Hc px py). rewrite Hk in Hc.
    destruct (mine c); [by left|right]. apply Hc; eauto.
Qed.

(** When generation reports failure, the first click completes, reveals the
    clicked cell and leaves the game won or live. *)
Lemma shapes_firstClick_fallback_reveal fuel s0 x y rnd s1 rnd1 :
  noGuess s0 = true -> lawful s0 -> (width s0 * height s0 < fuel)%nat ->
  _generateSolvableBoard fuel (initGrid s0) x y rnd = Done (false, s1, rnd1) ->
  exists r s',
    handleFirstClick fuel (initGrid s0) x y rnd = Done (r, s', rnd1) /\
    fc_success r = false /\ minesPlaced s' = true /\
    mineLocations s' = mineLocations s1 /\
    (forall px py, isMine s' px py = isMine s1 px py) /\
    (exists rnd0, _placeMinesRandomly (initGrid s0) x y rnd0 = Done (s1, rnd1)) /\
    NoDup (fc_revealed r) /\
    (forall px py, (px, py) ∈ fc_revealed r <-> isRevealed s' px py = true) /\
    (Grid.isInBounds (grid s0) x y = true -> (x, y) ∈ fc_revealed r) /\
    gameOver s' = won s' /\
    (won s' = true <->
     forall px py, is_Some (getCell s' px py) -> isMine s' px py = false ->
                   isRevealed s' px py = true).
Proof.
  intros Hng Hlaw Hfuel Hgen.
  destruct (shapes_firstClick_fallback _ _ _ _ _ _ _ Hng Hlaw Hfuel Hgen)
    as (r & s' & Hrun & Hok & Hmp & Hml & _ & Hfb).
  exists r, s'. split; [exact Hrun|]. split; [exact Hok|]. split; [exact Hmp|].
  split; [exact Hml|]. split.
  { intros px py. pose proof Hrun as Hrun'.
    apply shapes_handleFirstClick_first in Hrun' as (ok & s1' & res & Hpl & Hrev & _);
      [|done].
    unfold placeMines in Hpl. simpl noGuess in Hpl. rewrite Hng, Hgen in Hpl.
    injection Hpl as <- <-.
    apply shapes_revealCell_playStep, playStep_evolves in Hrev.
    specialize (Hrev (px, py)). cbn [cells with_minesPlaced] in Hrev.
    unfold isMine. destruct (cells s1 !! (px, py)), (cells s' !! (px, py)); try done.
    by destruct Hrev as (-> & _). }
  split; [exact Hfb|]. by apply shapes_firstClick_reveal in Hrun.
Qed.

End ShapesChord.

(** * The Fisher-Yates loop of sappershapes.js *)

Module ShapesShuffle.
Import SapperShapes ShapesFacts.


(** The swaps of the loop for given indices. *)
Fixpoint swapsFrom {A} (n : nat) (a : list A) (js : list nat) : list A :=
  match n, js with
  | S n', j :: js' => swapsFrom n' (swap a n j) js'
  | _, _ => a
  end.





(** ** Swaps *)

Lemma length_swap {A} (a : list A) i j : length (swap a i j) = length a.
Proof.
  unfold swap. destruct (a !! i), (a !! j); try done. by rewrite !length_insert.
Qed.




Lemma length_swapsFrom {A} (n : nat) : forall (a : list A) js,
  length (swapsFrom n a js) = length a.
Proof.
  induction n as [|n IH]; intros a js; [done|]. destruct js as [|j js]; [done|].
  cbn [swapsFrom]. by rewrite IH, length_swap.
Qed.

Lemma swapsFrom_Permutation {A} (n : nat) : forall (a : list A) js,
  swapsFrom n a js ≡ₚ a.
Proof.
  induction n as [|n IH]; intros a js; [done|]. destruct js as [|j js]; [done|].
  cbn [swapsFrom]. by rewrite IH, swap_Permutation.
Qed.



(** ** Each permutation comes from exactly one sequence of indices *)





End ShapesShuffle.

(** * Deduction from the displayed numbers

    The flood fill of [Deduction] is the one of the generators, which look
    at the mines of their trial grid to stop at them.  A player sees only
    the numbers of the revealed cells.  This module states the deduction
    without that look: a cell is revealed whatever it holds, and the number
    it then displays is the count of the mines among its neighbors.  The
    solver is sound when it never reveals a mine and marks mines only; a
    run of the generators' deduction is a run of it; and the order in which
    it applies its rules does not change what it finds. *)

Module Inference.
Import Deduction.

Section Pure.

(** The board: its cells, the topology and the mines. *)
Variable board : Z * Z -> bool.
Variable adj : Z * Z -> list (Z * Z).
Variable mine : Z * Z -> bool.

(** The number that a revealed cell displays. *)
Definition minesNear (c : Z * Z) : Z :=
  Z.of_nat (length (filter (fun n => mine n = true) (adj c))).

(** Flood-fill reveal of a cell: nothing happens outside the board and at
    a cell already revealed or marked; otherwise the cell is revealed, and
    a zero cascades to its neighbors. *)
Inductive sweeps : know -> Z * Z -> know -> Prop :=
  | sweep_stop st k :
      board k = false \/ k ∈ shown st \/ k ∈ marked st ->
      sweeps st k st
  | sweep_number st k :
      board k = true -> k ∉ shown st -> k ∉ marked st ->
      minesNear k <> 0 ->
      sweeps st k (reveal k st)
  | sweep_zero st k st' :
      board k = true -> k ∉ shown st -> k ∉ marked st ->
      minesNear k = 0 ->
      sweepsAll (reveal k st) (adj k) st' ->
      sweeps st k st'
with sweepsAll : know -> list (Z * Z) -> know -> Prop :=
  | sweepsAll_nil st : sweepsAll st [] st
  | sweepsAll_cons st k st1 l st2 :
      sweeps st k st1 -> sweepsAll st1 l st2 -> sweepsAll st (k :: l) st2.

(** One deduction from the displayed numbers: Rule A marks the hidden
    neighbors, Rule B reveals them, each by a flood fill. *)
Inductive infer : know -> know -> Prop :=
  | inferA st c :
      ruleA_applies adj minesNear st c -> infer st (mark (hiddenOf adj st c) st)
  | inferB st c st' :
      ruleB_applies adj minesNear st c -> sweepsAll st (hiddenOf adj st c) st' ->
      infer st st'.

(** No mine has been revealed and only mines are marked. *)
Definition safe (st : know) : Prop :=
  (forall k, k ∈ shown st -> board k = true /\ mine k = false) /\
  (forall k, k ∈ marked st -> mine k = true).

(** A run of the deduction from the click: the flood fill of the clicked
    cell from the state with nothing revealed and no known mine, followed by
    deductions, up to a state in which no rule applies. *)
Definition run (click : Z * Z) (st : know) : Prop :=
  exists st1,
    sweeps start click st1 /\ rtc infer st1 st /\ fixedPoint adj minesNear st.

(** A state that solves the layout: no mine has been revealed, only mines
    are marked and every cell of [cells] without a mine is revealed. *)
Definition solves (cells : list (Z * Z)) (st : know) : Prop :=
  safe st /\ forall k, k ∈ cells -> mine k = false -> k ∈ shown st.

(** The layout is solved by deduction from the click: the deduction has a
    run, and every run, in whichever order the rules are applied, solves
    the layout. *)
Definition deducible (cells : list (Z * Z)) (click : Z * Z) : Prop :=
  (exists st, run click st) /\ forall st, run click st -> solves cells st.

End Pure.

Scheme floods_mut := Minimality for floods Sort Prop
  with floodsAll_mut := Minimality for floodsAll Sort Prop.

Scheme sweeps_mut := Minimality for sweeps Sort Prop
  with sweepsAll_mut := Minimality for sweepsAll Sort Prop.

Section Sound.

Variable board : Z * Z -> bool.
Variable adj : Z * Z -> list (Z * Z).
Variable mine : Z * Z -> bool.
Variable number : Z * Z -> Z.

(** The numbers of the grid are the counts of the mines around. *)
Hypothesis numbered :
  forall k, board k = true -> mine k = false -> number k = minesNear adj mine k.

Lemma safe_start : safe board mine start.
Proof. split; intros k Hk; by apply elem_of_empty in Hk. Qed.

Lemma safe_reveal st k :
  safe board mine st -> board k = true -> mine k = false ->
  safe board mine (reveal k st).
Proof.
  intros [Hs Hm] Hb Hk. split; [|exact Hm]. cbn [shown reveal].
  intros n [->%elem_of_singleton|Hn]%elem_of_union; [done|by apply Hs].
Qed.

Lemma filter_none {A} (P : A -> Prop) `{!forall a, Decision (P a)} (l : list A) :
  length (filter P l) = O -> forall a, a ∈ l -> ~ P a.
Proof.
  intros Hlen a Ha HP. apply length_zero_iff_nil in Hlen.
  assert (a ∈ filter P l) as Hin by (by apply list_elem_of_filter).
  rewrite Hlen in Hin. by apply elem_of_nil in Hin.
Qed.

Lemma filter_all {A} (P : A -> Prop) `{!forall a, Decision (P a)} (l : list A) :
  length (filter P l) = length l -> forall a, a ∈ l -> P a.
Proof.
  induction l as [|b l IH]; intros Hlen a Ha; [by apply elem_of_nil in Ha|].
  rewrite filter_cons in Hlen. destruct (decide (P b)) as [Hb|Hb].
  - cbn [length] in Hlen. apply elem_of_cons in Ha as [->|Ha]; [done|].
    apply IH; [lia|done].
  - pose proof (length_filter P l). cbn [length] in Hlen. lia.
Qed.

Lemma minesNear_zero k n :
  minesNear adj mine k = 0 -> n ∈ adj k -> mine n = false.
Proof.
  unfold minesNear. intros H Hn.
  apply (filter_none (fun n => mine n = true)) with (a := n) in Hn; [|lia].
  by destruct (mine n).
Qed.

(** The flood fill of the generators, started at a cell without a mine in
    a safe state, is the flood fill of the player. *)
Lemma floods_sweeps :
  (forall st k st', floods board adj mine number st k st' ->
     safe board mine st -> mine k = false ->
     sweeps board adj mine st k st' /\ safe board mine st') /\
  (forall st l st', floodsAll board adj mine number st l st' ->
     safe board mine st -> (forall k, k ∈ l -> mine k = false) ->
     sweepsAll board adj mine st l st' /\ safe board mine st').
Proof.
  split.
  - apply (floods_mut board adj mine number
             (fun st k st' => safe board mine st -> mine k = false ->
                sweeps board adj mine st k st' /\ safe board mine st')
             (fun st l st' => safe board mine st -> (forall k, k ∈ l -> mine k = false) ->
                sweepsAll board adj mine st l st' /\ safe board mine st')).
    + intros st k Hstop Hsafe Hk. split; [|done]. apply sweep_stop.
      destruct Hstop as [?|[?|[?|?]]]; [tauto|tauto|tauto|congruence].
    + intros st k Hb Hs Hm Hk Hn Hsafe _. split; [|by apply safe_reveal].
      apply sweep_number; try done. by rewrite <- numbered.
    + intros st k st' Hb Hs Hm Hk Hn _ IH Hsafe _.
      assert (minesNear adj mine k = 0) as Hz by (by rewrite <- numbered).
      destruct IH as [Hall Hsafe'];
        [by apply safe_reveal|intros n Hin; by eapply minesNear_zero|].
      split; [|done]. by apply sweep_zero.
    + intros st Hsafe _. split; [constructor|done].
    + intros st k st1 l st2 _ IH1 _ IH2 Hsafe Hall.
      destruct IH1 as [H1 Hsafe1]; [done|apply Hall; by left|].
      destruct IH2 as [H2 Hsafe2]; [done|intros n Hn; apply Hall; by right|].
      split; [|done]. by econstructor.
  - apply (floodsAll_mut board adj mine number
             (fun st k st' => safe board mine st -> mine k = false ->
                sweeps board adj mine st k st' /\ safe board mine st')
             (fun st l st' => safe board mine st -> (forall k, k ∈ l -> mine k = false) ->
                sweepsAll board adj mine st l st' /\ safe board mine st')).
    + intros st k Hstop Hsafe Hk. split; [|done]. apply sweep_stop.
      destruct Hstop as [?|[?|[?|?]]]; [tauto|tauto|tauto|congruence].
    + intros st k Hb Hs Hm Hk Hn Hsafe _. split; [|by apply safe_reveal].
      apply sweep_number; try done. by rewrite <- numbered.
    + intros st k st' Hb Hs Hm Hk Hn _ IH Hsafe _.
      assert (minesNear adj mine k = 0) as Hz by (by rewrite <- numbered).
      destruct IH as [Hall Hsafe'];
        [by apply safe_reveal|intros n Hin; by eapply minesNear_zero|].
      split; [|done]. by apply sweep_zero.
    + intros st Hsafe _. split; [constructor|done].
    + intros st k st1 l st2 _ IH1 _ IH2 Hsafe Hall.
      destruct IH1 as [H1 Hsafe1]; [done|apply Hall; by left|].
      destruct IH2 as [H2 Hsafe2]; [done|intros n Hn; apply Hall; by right|].
      split; [|done]. by econstructor.
Qed.

(** The mines around a cell are its marked neighbors and the mines among
    its hidden neighbors, in a safe state. *)
Lemma mines_split st (l : list (Z * Z)) :
  safe board mine st ->
  length (filter (fun n => mine n = true) l) =
  (length (filter (fun n => n ∈ marked st) l) +
   length (filter (fun n => mine n = true)
                  (filter (fun n => (n ∉ marked st) /\ (n ∉ shown st)) l)))%nat.
Proof.
  intros [Hs Hm]. induction l as [|n l IH]; [done|].
  rewrite !filter_cons.
  destruct (decide (n ∈ marked st)) as [Hin|Hout].
  - rewrite decide_True by (by apply Hm). rewrite decide_False by tauto.
    cbn [length]. lia.
  - destruct (decide (n ∈ shown st)) as [Hsh|Hhid].
    + rewrite (decide_False (P := mine n = true))
        by (destruct (Hs n Hsh) as [_ ->]; done).
      rewrite decide_False by tauto. done.
    + rewrite (decide_True (P := (n ∉ marked st) /\ (n ∉ shown st))) by tauto.
      rewrite filter_cons. destruct (decide (mine n = true)); cbn [length]; lia.
Qed.

Lemma number_shown st c :
  safe board mine st -> c ∈ shown st -> number c = minesNear adj mine c.
Proof. intros [Hs _] Hc. destruct (Hs c Hc). by apply numbered. Qed.

Lemma ruleA_hidden_mines st c n :
  safe board mine st -> ruleA_applies adj number st c ->
  n ∈ hiddenOf adj st c -> mine n = true.
Proof.
  intros Hsafe (Hc & _ & _ & Hcount) Hn.
  rewrite (number_shown st c Hsafe Hc) in Hcount. unfold minesNear in Hcount.
  rewrite (mines_split st (adj c) Hsafe) in Hcount. unfold knownCount in Hcount.
  apply (filter_all (fun n => mine n = true) (hiddenOf adj st c)); [|done].
  unfold hiddenOf in *. lia.
Qed.

Lemma ruleB_hidden_safe st c n :
  safe board mine st -> ruleB_applies adj number st c ->
  n ∈ hiddenOf adj st c -> mine n = false.
Proof.
  intros Hsafe (Hc & _ & _ & Hcount) Hn.
  rewrite (number_shown st c Hsafe Hc) in Hcount. unfold minesNear in Hcount.
  rewrite (mines_split st (adj c) Hsafe) in Hcount. unfold knownCount in Hcount.
  apply (filter_none (fun n => mine n = true)) with (a := n) in Hn.
  - by destruct (mine n).
  - unfold hiddenOf in *. lia.
Qed.

Lemma ruleA_numbers st c :
  safe board mine st ->
  ruleA_applies adj number st c <-> ruleA_applies adj (minesNear adj mine) st c.
Proof.
  intros Hsafe. unfold ruleA_applies.
  split; intros (Hc & H); (split; [done|]);
    [rewrite <- (number_shown st c Hsafe Hc)|rewrite (number_shown st c Hsafe Hc)];
    exact H.
Qed.

Lemma ruleB_numbers st c :
  safe board mine st ->
  ruleB_applies adj number st c <-> ruleB_applies adj (minesNear adj mine) st c.
Proof.
  intros Hsafe. unfold ruleB_applies.
  split; intros (Hc & H); (split; [done|]);
    [rewrite <- (number_shown st c Hsafe Hc)|rewrite (number_shown st c Hsafe Hc)];
    exact H.
Qed.

(** A deduction of the generators in a safe state is a deduction from the
    displayed numbers and leaves a safe state. *)
Lemma deduce_infer st st' :
  deduce board adj mine number st st' -> safe board mine st ->
  infer board adj mine st st' /\ safe board mine st'.
Proof.
  intros [st0 c HA|st0 c st1 HB Hfl] Hsafe.
  - split; [apply inferA; by apply ruleA_numbers|].
    destruct Hsafe as [Hs Hm]. split; [exact Hs|]. cbn [marked mark].
    intros n [Hn%elem_of_list_to_set|Hn]%elem_of_union; [|by apply Hm].
    eapply ruleA_hidden_mines; [by split|exact HA|exact Hn].
  - destruct (proj2 floods_sweeps _ _ _ Hfl Hsafe) as [Hsw Hsafe'].
    { intros n Hn. by eapply ruleB_hidden_safe. }
    split; [|done]. eapply inferB; [by apply ruleB_numbers|done].
Qed.

Lemma rtc_deduce_infer st st' :
  rtc (deduce board adj mine number) st st' -> safe board mine st ->
  rtc (infer board adj mine) st st' /\ safe board mine st'.
Proof.
  induction 1 as [st|st1 st2 st3 H12 _ IH]; intros Hsafe; [split; [constructor|done]|].
  destruct (deduce_infer _ _ H12 Hsafe) as [Hi Hsafe2].
  destruct (IH Hsafe2) as [Hr Hsafe3]. split; [|done]. by econstructor.
Qed.

(** A layout that the generators' deduction solves from a click without a
    mine has a run of the deduction from the displayed numbers that solves
    it. *)
Lemma solvable_run cells click :
  mine click = false ->
  solvable board adj mine number cells click ->
  exists st, run board adj mine click st /\ solves board mine cells st.
Proof.
  intros Hclick (st1 & st2 & Hfl & Hd & Hfix & Hall).
  destruct (proj1 floods_sweeps _ _ _ Hfl safe_start Hclick) as [Hsw Hsafe1].
  destruct (rtc_deduce_infer _ _ Hd Hsafe1) as [Hr Hsafe2].
  exists st2. split; [|by split]. exists st1. split; [done|]. split; [done|].
  intros c. destruct (Hfix c) as [HA HB].
  split; [rewrite <- ruleA_numbers by done|rewrite <- ruleB_numbers by done]; done.
Qed.

End Sound.

(** The states of a deduction only grow. *)
Lemma sweeps_grows board adj mine :
  (forall st k st', sweeps board adj mine st k st' ->
     shown st ⊆ shown st' /\ marked st' = marked st) /\
  (forall st l st', sweepsAll board adj mine st l st' ->
     shown st ⊆ shown st' /\ marked st' = marked st).
Proof.
  assert (forall st k, shown st ⊆ shown (reveal k st)) as Hrev.
  { intros st k. cbn [shown reveal]. set_solver. }
  split.
  - apply (sweeps_mut board adj mine
             (fun st k st' => shown st ⊆ shown st' /\ marked st' = marked st)
             (fun st l st' => shown st ⊆ shown st' /\ marked st' = marked st)).
    + done.
    + intros st k _ _ _ _. split; [apply Hrev|done].
    + intros st k st' _ _ _ _ _ [IH1 IH2]. split; [|done].
      etrans; [apply (Hrev st k)|done].
    + done.
    + intros st k st1 l st2 _ [H1 H1'] _ [H2 H2']. split; [by etrans|congruence].
  - apply (sweepsAll_mut board adj mine
             (fun st k st' => shown st ⊆ shown st' /\ marked st' = marked st)
             (fun st l st' => shown st ⊆ shown st' /\ marked st' = marked st)).
    + done.
    + intros st k _ _ _ _. split; [apply Hrev|done].
    + intros st k st' _ _ _ _ _ [IH1 IH2]. split; [|done].
      etrans; [apply (Hrev st k)|done].
    + done.
    + intros st k st1 l st2 _ [H1 H1'] _ [H2 H2']. split; [by etrans|congruence].
Qed.

(** ** The order of the deductions does not matter *)

Section Order.

Variable board : Z * Z -> bool.
Variable adj : Z * Z -> list (Z * Z).
Variable mine : Z * Z -> bool.

Abbreviation near := (minesNear adj mine).

(** The displayed numbers are the counts of the mines around. *)
Lemma near_numbered k : board k = true -> mine k = false -> near k = minesNear adj mine k.
Proof. reflexivity. Qed.

(** One state holds what the other holds. *)
Definition below (st st' : know) : Prop :=
  shown st ⊆ shown st' /\ marked st ⊆ marked st'.

Lemma below_refl st : below st st.
Proof. by split. Qed.

Lemma below_trans st1 st2 st3 : below st1 st2 -> below st2 st3 -> below st1 st3.
Proof. intros [? ?] [? ?]. split; by etrans. Qed.

Lemma safe_below st st' : below st st' -> safe board mine st' -> safe board mine st.
Proof.
  intros [Hs Hm] [Hs' Hm']. split; intros k Hk; [apply Hs'|apply Hm']; set_solver.
Qed.

Lemma sweeps_below st k st' : sweeps board adj mine st k st' -> below st st'.
Proof.
  intros H. destruct (proj1 (sweeps_grows board adj mine) _ _ _ H) as [Hs Hm].
  split; [done|]. by rewrite Hm.
Qed.

Lemma sweepsAll_below st l st' : sweepsAll board adj mine st l st' -> below st st'.
Proof.
  intros H. destruct (proj2 (sweeps_grows board adj mine) _ _ _ H) as [Hs Hm].
  split; [done|]. by rewrite Hm.
Qed.

Lemma infer_below st st' : infer board adj mine st st' -> below st st'.
Proof.
  intros [st0 c _|st0 c st1 _ Hfl]; [|by eapply sweepsAll_below].
  split; cbn [shown marked mark]; set_solver.
Qed.

Lemma rtc_infer_below st st' : rtc (infer board adj mine) st st' -> below st st'.
Proof.
  induction 1 as [st|st1 st2 st3 H12 _ IH]; [apply below_refl|].
  eapply below_trans; [by apply infer_below|done].
Qed.

(** The flood fill of a cell without a mine keeps a state safe. *)
Lemma sweeps_safe :
  (forall st k st', sweeps board adj mine st k st' ->
     safe board mine st -> mine k = false -> safe board mine st') /\
  (forall st l st', sweepsAll board adj mine st l st' ->
     safe board mine st -> (forall k, k ∈ l -> mine k = false) -> safe board mine st').
Proof.
  split.
  - apply (sweeps_mut board adj mine
             (fun st k st' => safe board mine st -> mine k = false -> safe board mine st')
             (fun st l st' => safe board mine st -> (forall k, k ∈ l -> mine k = false) ->
                              safe board mine st')).
    + done.
    + intros st k Hb _ _ _ Hsafe Hk. by apply safe_reveal.
    + intros st k st' Hb _ _ Hz _ IH Hsafe Hk. apply IH; [by apply safe_reveal|].
      intros n Hn. by eapply minesNear_zero.
    + done.
    + intros st k st1 l st2 _ IH1 _ IH2 Hsafe Hall. apply IH2.
      * apply IH1; [done|]. apply Hall. by left.
      * intros n Hn. apply Hall. by right.
  - apply (sweepsAll_mut board adj mine
             (fun st k st' => safe board mine st -> mine k = false -> safe board mine st')
             (fun st l st' => safe board mine st -> (forall k, k ∈ l -> mine k = false) ->
                              safe board mine st')).
    + done.
    + intros st k Hb _ _ _ Hsafe Hk. by apply safe_reveal.
    + intros st k st' Hb _ _ Hz _ IH Hsafe Hk. apply IH; [by apply safe_reveal|].
      intros n Hn. by eapply minesNear_zero.
    + done.
    + intros st k st1 l st2 _ IH1 _ IH2 Hsafe Hall. apply IH2.
      * apply IH1; [done|]. apply Hall. by left.
      * intros n Hn. apply Hall. by right.
Qed.

Lemma infer_safe st st' :
  infer board adj mine st st' -> safe board mine st -> safe board mine st'.
Proof.
  intros [st0 c HA|st0 c st1 HB Hfl] Hsafe.
  - destruct Hsafe as [Hs Hm]. split; [exact Hs|]. cbn [marked mark].
    intros n [Hn%elem_of_list_to_set|Hn]%elem_of_union; [|by apply Hm].
    eapply (ruleA_hidden_mines board adj mine near near_numbered);
      [by split|exact HA|exact Hn].
  - apply (proj2 sweeps_safe _ _ _ Hfl Hsafe). intros n Hn.
    by eapply (ruleB_hidden_safe board adj mine near near_numbered).
Qed.

Lemma rtc_infer_safe st st' :
  rtc (infer board adj mine) st st' -> safe board mine st -> safe board mine st'.
Proof.
  induction 1 as [st|st1 st2 st3 H12 _ IH]; [done|].
  intros Hsafe. apply IH. by eapply infer_safe.
Qed.

(** Every revealed zero outside [P] has no hidden neighbor on the board. *)
Definition closedOn (P : Z * Z -> Prop) (st : know) : Prop :=
  forall k, k ∈ shown st -> ~ P k -> near k = 0 ->
    forall n, n ∈ adj k -> board n = true -> n ∈ shown st \/ n ∈ marked st.

Definition settledAt (st : know) (n : Z * Z) : Prop :=
  board n = true -> n ∈ shown st \/ n ∈ marked st.

Lemma settledAt_below st st' n : below st st' -> settledAt st n -> settledAt st' n.
Proof. intros [Hs Hm] H Hb. destruct (H Hb); [left|right]; set_solver. Qed.

(** A flood fill completes what it starts: the cell is settled, and so are
    the neighbors of the zeros that it reveals. *)
Lemma sweeps_closed :
  (forall st k st', sweeps board adj mine st k st' ->
     forall P, closedOn P st -> closedOn P st' /\ settledAt st' k) /\
  (forall st l st', sweepsAll board adj mine st l st' ->
     forall P, closedOn P st -> closedOn P st' /\ forall n, n ∈ l -> settledAt st' n).
Proof.
  assert (forall st k P, near k <> 0 -> closedOn P st -> closedOn P (reveal k st))
    as Hnumber.
  { intros st k P Hk Hc k' [->%elem_of_singleton|Hk']%elem_of_union HP Hz n Hn Hb;
      [done|].
    destruct (Hc k' Hk' HP Hz n Hn Hb); [left|right]; cbn [shown marked reveal];
      set_solver. }
  assert (forall st k P, closedOn P st -> closedOn (fun z => P z \/ z = k) (reveal k st))
    as Hpending.
  { intros st k P Hc k' [->%elem_of_singleton|Hk']%elem_of_union HP Hz n Hn Hb;
      [tauto|].
    destruct (Hc k' Hk' ltac:(tauto) Hz n Hn Hb); [left|right];
      cbn [shown marked reveal]; set_solver. }
  assert (forall st k st' P,
            sweepsAll board adj mine (reveal k st) (adj k) st' ->
            closedOn (fun z => P z \/ z = k) st' ->
            (forall n, n ∈ adj k -> settledAt st' n) ->
            closedOn P st' /\ settledAt st' k) as Hzero.
  { intros st k st' P Hall Hc Hnb. split.
    - intros k' Hk' HP Hz n Hn Hb. destruct (decide (k' = k)) as [->|Hne].
      + by apply Hnb.
      + apply (Hc k' Hk'); [tauto|done..].
    - intros _. left. apply (sweepsAll_below _ _ _ Hall). cbn [shown reveal]. set_solver. }
  split.
  - apply (sweeps_mut board adj mine
             (fun st k st' => forall P, closedOn P st ->
                closedOn P st' /\ settledAt st' k)
             (fun st l st' => forall P, closedOn P st ->
                closedOn P st' /\ forall n, n ∈ l -> settledAt st' n)).
    + intros st k Hstop P Hc. split; [done|]. intros Hb.
      destruct Hstop as [?|[?|?]]; [congruence|by left|by right].
    + intros st k _ _ _ Hk P Hc. split; [by apply Hnumber|].
      intros _. left. cbn [shown reveal]. set_solver.
    + intros st k st' _ _ _ _ Hall IH P Hc.
      destruct (IH _ (Hpending st k P Hc)) as [Hc' Hnb]. by eapply Hzero.
    + intros st P Hc. split; [done|]. intros n Hn. by apply elem_of_nil in Hn.
    + intros st k st1 l st2 _ IH1 Hall IH2 P Hc.
      destruct (IH1 P Hc) as [Hc1 Hk]. destruct (IH2 P Hc1) as [Hc2 Hl].
      split; [done|]. intros n [->|Hn]%elem_of_cons; [|by apply Hl].
      eapply settledAt_below; [by eapply sweepsAll_below|done].
  - apply (sweepsAll_mut board adj mine
             (fun st k st' => forall P, closedOn P st ->
                closedOn P st' /\ settledAt st' k)
             (fun st l st' => forall P, closedOn P st ->
                closedOn P st' /\ forall n, n ∈ l -> settledAt st' n)).
    + intros st k Hstop P Hc. split; [done|]. intros Hb.
      destruct Hstop as [?|[?|?]]; [congruence|by left|by right].
    + intros st k _ _ _ Hk P Hc. split; [by apply Hnumber|].
      intros _. left. cbn [shown reveal]. set_solver.
    + intros st k st' _ _ _ _ Hall IH P Hc.
      destruct (IH _ (Hpending st k P Hc)) as [Hc' Hnb]. by eapply Hzero.
    + intros st P Hc. split; [done|]. intros n Hn. by apply elem_of_nil in Hn.
    + intros st k st1 l st2 _ IH1 Hall IH2 P Hc.
      destruct (IH1 P Hc) as [Hc1 Hk]. destruct (IH2 P Hc1) as [Hc2 Hl].
      split; [done|]. intros n [->|Hn]%elem_of_cons; [|by apply Hl].
      eapply settledAt_below; [by eapply sweepsAll_below|done].
Qed.

Definition closed (st : know) : Prop := closedOn (fun _ => False) st.

Lemma infer_closed st st' : infer board adj mine st st' -> closed st -> closed st'.
Proof.
  intros [st0 c _|st0 c st1 _ Hfl] Hc.
  - intros k Hk HP Hz n Hn Hb. destruct (Hc k Hk HP Hz n Hn Hb); [left|right];
      cbn [shown marked mark]; set_solver.
  - by destruct (proj2 sweeps_closed _ _ _ Hfl _ Hc).
Qed.

Lemma rtc_infer_closed st st' :
  rtc (infer board adj mine) st st' -> closed st -> closed st'.
Proof.
  induction 1 as [st|st1 st2 st3 H12 _ IH]; [done|].
  intros Hc. apply IH. by eapply infer_closed.
Qed.

Section Final.

(** A safe, closed state in which no rule applies. *)
Variable final : know.
Hypothesis final_safe : safe board mine final.
Hypothesis final_closed : closed final.
Hypothesis final_fixed : fixedPoint adj near final.

Lemma final_shown k :
  mine k = false -> settledAt final k -> board k = true -> k ∈ shown final.
Proof.
  intros Hk Hs Hb. destruct (Hs Hb) as [?|Hm]; [done|].
  destruct final_safe as [_ Hmines]. apply Hmines in Hm. congruence.
Qed.

(** A flood fill below the final state stays below it. *)
Lemma sweeps_final :
  (forall st k st', sweeps board adj mine st k st' ->
     safe board mine st' -> below st final -> settledAt final k -> below st' final) /\
  (forall st l st', sweepsAll board adj mine st l st' ->
     safe board mine st' -> below st final -> (forall n, n ∈ l -> settledAt final n) ->
     below st' final).
Proof.
  assert (forall st k, safe board mine (reveal k st) -> below st final ->
                       settledAt final k -> below (reveal k st) final) as Hrev.
  { intros st k [Hs _] [Hbs Hbm] Hk. split; [|done]. cbn [shown reveal].
    destruct (Hs k) as [Hb Hm]; [cbn [shown reveal]; set_solver|].
    pose proof (final_shown k Hm Hk Hb). set_solver. }
  assert (forall st k st', sweepsAll board adj mine (reveal k st) (adj k) st' ->
            safe board mine st' -> below st final -> settledAt final k -> near k = 0 ->
            below (reveal k st) final /\ forall n, n ∈ adj k -> settledAt final n)
    as Hzero.
  { intros st k st' Hall Hsafe Hbelow Hk Hz.
    pose proof (safe_below _ _ (sweepsAll_below _ _ _ Hall) Hsafe) as Hsafe1.
    pose proof (Hrev st k Hsafe1 Hbelow Hk) as Hb1. split; [done|].
    intros n Hn Hb. apply (final_closed k); [|tauto|done..].
    apply Hb1. cbn [shown reveal]. set_solver. }
  split.
  - apply (sweeps_mut board adj mine
             (fun st k st' => safe board mine st' -> below st final ->
                settledAt final k -> below st' final)
             (fun st l st' => safe board mine st' -> below st final ->
                (forall n, n ∈ l -> settledAt final n) -> below st' final)).
    + done.
    + intros st k _ _ _ _. apply Hrev.
    + intros st k st' _ _ _ Hz Hall IH Hsafe Hbelow Hk.
      destruct (Hzero st k st' Hall Hsafe Hbelow Hk Hz) as [Hb1 Hnb]. by apply IH.
    + done.
    + intros st k st1 l st2 _ IH1 Hall IH2 Hsafe Hbelow Hl. apply IH2; [done| |].
      * apply IH1; [|done|apply Hl; by left].
        by apply (safe_below _ _ (sweepsAll_below _ _ _ Hall)).
      * intros n Hn. apply Hl. by right.
  - apply (sweepsAll_mut board adj mine
             (fun st k st' => safe board mine st' -> below st final ->
                settledAt final k -> below st' final)
             (fun st l st' => safe board mine st' -> below st final ->
                (forall n, n ∈ l -> settledAt final n) -> below st' final)).
    + done.
    + intros st k _ _ _ _. apply Hrev.
    + intros st k st' _ _ _ Hz Hall IH Hsafe Hbelow Hk.
      destruct (Hzero st k st' Hall Hsafe Hbelow Hk Hz) as [Hb1 Hnb]. by apply IH.
    + done.
    + intros st k st1 l st2 _ IH1 Hall IH2 Hsafe Hbelow Hl. apply IH2; [done| |].
      * apply IH1; [|done|apply Hl; by left].
        by apply (safe_below _ _ (sweepsAll_below _ _ _ Hall)).
      * intros n Hn. apply Hl. by right.
Qed.

Lemma hiddenOf_below st c n :
  below st final -> n ∈ hiddenOf adj final c -> n ∈ hiddenOf adj st c.
Proof.
  intros [Hs Hm]. unfold hiddenOf. rewrite !list_elem_of_filter.
  intros [[Hnm Hns] Hn]. split; [|done]. split; set_solver.
Qed.

Lemma hidden_final st c n :
  n ∈ hiddenOf adj st c -> (n ∉ shown final) -> (n ∉ marked final) ->
  n ∈ hiddenOf adj final c.
Proof.
  unfold hiddenOf. rewrite !list_elem_of_filter. intros [_ Hn] Hs Hm. done.
Qed.

Lemma filter_length_all {A} (P : A -> Prop) `{!forall a, Decision (P a)} (l : list A) :
  (forall a, a ∈ l -> P a) -> length (filter P l) = length l.
Proof.
  induction l as [|b l IH]; intros Hall; [done|]. rewrite filter_cons.
  rewrite decide_True by (apply Hall; by left). cbn [length]. f_equal.
  apply IH. intros a Ha. apply Hall. by right.
Qed.

Lemma filter_length_le {A} (P Q : A -> Prop) `{!forall a, Decision (P a)}
    `{!forall a, Decision (Q a)} (l : list A) :
  (forall a, P a -> Q a) -> (length (filter P l) <= length (filter Q l))%nat.
Proof.
  intros Himp. induction l as [|b l IH]; [done|]. rewrite !filter_cons.
  destruct (decide (P b)) as [HP|HP].
  - rewrite decide_True by auto. cbn [length]. lia.
  - destruct (decide (Q b)); cbn [length]; lia.
Qed.

(** A deduction below the final state stays below it. *)
Lemma infer_final st st' :
  infer board adj mine st st' -> safe board mine st -> below st final -> below st' final.
Proof.
  intros Hstep Hsafe Hbelow.
  pose proof (infer_safe _ _ Hstep Hsafe) as Hsafe'.
  pose proof (mines_split board mine final) as Hsplit.
  destruct Hstep as [st0 c HA|st0 c st1 HB Hfl].
  - (* Rule A: a hidden mine that the final state does not mark would let
       Rule A apply there *)
    destruct Hbelow as [Hbs Hbm]. split; [done|]. cbn [marked mark].
    intros n [Hn%elem_of_list_to_set|Hn]%elem_of_union; [|by apply Hbm].
    destruct (decide (n ∈ marked final)) as [|Hnm]; [done|]. exfalso.
    assert (forall m, m ∈ hiddenOf adj st0 c -> mine m = true) as Hmines.
    { intros m Hm.
      exact (ruleA_hidden_mines board adj mine near near_numbered st0 c m Hsafe HA Hm). }
    assert (n ∉ shown final) as Hns.
    { intros Hs. destruct final_safe as [Hfs _]. destruct (Hfs n Hs) as [_ Hf].
      rewrite (Hmines n Hn) in Hf. done. }
    destruct HA as (Hc & Hpos & _ & _).
    apply (proj1 (final_fixed c)). split; [by apply Hbs|]. split; [done|]. split.
    { intros Hnil. pose proof (hidden_final st0 c n Hn Hns Hnm) as Hin.
      rewrite Hnil in Hin. by apply elem_of_nil in Hin. }
    unfold minesNear at 1. rewrite (Hsplit (adj c) final_safe). unfold knownCount.
    rewrite (filter_length_all (fun m => mine m = true)).
    + unfold hiddenOf. lia.
    + intros m Hm. apply Hmines. by apply hiddenOf_below.
  - (* Rule B: a hidden cell that the final state does not hold would let
       Rule B apply there *)
    apply (proj2 sweeps_final _ _ _ Hfl Hsafe' Hbelow). intros n Hn _.
    destruct (decide (n ∈ shown final)) as [|Hns]; [by left|].
    destruct (decide (n ∈ marked final)) as [|Hnm]; [by right|]. exfalso.
    destruct HB as (Hc & Hpos & _ & Hcount).
    apply (proj2 (final_fixed c)). destruct Hbelow as [Hbs Hbm].
    split; [by apply Hbs|]. split; [done|]. split.
    { intros Hnil. pose proof (hidden_final st0 c n Hn Hns Hnm) as Hin.
      rewrite Hnil in Hin. by apply elem_of_nil in Hin. }
    pose proof (Hsplit (adj c) final_safe) as Hfinal.
    pose proof (filter_length_le (fun m => m ∈ marked st0) (fun m => m ∈ marked final)
                  (adj c) ltac:(set_solver)) as Hle.
    unfold knownCount in *. unfold minesNear in *. lia.
Qed.

Lemma rtc_infer_final st st' :
  rtc (infer board adj mine) st st' -> safe board mine st -> below st final ->
  below st' final.
Proof.
  induction 1 as [st|st1 st2 st3 H12 _ IH]; [done|].
  intros Hsafe Hbelow. apply IH; [by eapply infer_safe|by eapply infer_final].
Qed.

End Final.

(** Every run from a click without a mine ends in a safe and closed state
    that holds the click. *)
Lemma run_final click st :
  mine click = false -> run board adj mine click st ->
  safe board mine st /\ closed st /\ settledAt st click.
Proof.
  intros Hclick (st1 & Hsw & Hr & _).
  pose proof (proj1 sweeps_safe _ _ _ Hsw (safe_start board mine) Hclick) as Hsafe1.
  destruct (proj1 sweeps_closed _ _ _ Hsw (fun _ => False)) as [Hc1 Hk].
  { intros k Hk. by apply elem_of_empty in Hk. }
  split; [by eapply rtc_infer_safe|]. split; [by eapply rtc_infer_closed|].
  eapply settledAt_below; [by apply rtc_infer_below|done].
Qed.

(** If one run solves the layout, every run does. *)
Lemma run_deducible cells click st :
  mine click = false -> run board adj mine click st -> solves board mine cells st ->
  deducible board adj mine cells click.
Proof.
  intros Hclick Hrun [_ Hall]. split; [by exists st|].
  intros final Hfinal.
  destruct (run_final click final Hclick Hfinal) as (Hfs & Hfc & Hfk).
  split; [done|]. intros k Hk Hm.
  destruct Hrun as (st1 & Hsw & Hr & _).
  pose proof (proj1 sweeps_safe _ _ _ Hsw (safe_start board mine) Hclick) as Hsafe1.
  destruct Hfinal as (f1 & _ & _ & Hfix).
  assert (below st1 final) as Hb1.
  { apply (proj1 (sweeps_final final Hfs Hfc Hfix) _ _ _ Hsw Hsafe1); [|done].
    split; cbn [shown marked start]; set_solver. }
  pose proof (rtc_infer_final final Hfs Hfc Hfix _ _ Hr Hsafe1 Hb1) as [Hs _].
  apply Hs. by apply Hall.
Qed.

End Order.

(** A layout that the generators' deduction solves from a click without a
    mine is solved by deduction from the displayed numbers, in whichever
    order the rules are applied. *)
Lemma solvable_deducible board adj mine number cells click :
  (forall k, board k = true -> mine k = false -> number k = minesNear adj mine k) ->
  mine click = false ->
  solvable board adj mine number cells click ->
  deducible board adj mine cells click.
Proof.
  intros Hnum Hclick Hsolv.
  destruct (solvable_run board adj mine number Hnum cells click Hclick Hsolv)
    as (st & Hrun & Hsolves).
  by eapply run_deducible.
Qed.

End Inference.

(** * The no-guess boards of sapper.js are solved by deduction *)

Module SapperDeduce.
Import Sapper SapperFacts SapperMore SapperNumbers SapperSolve Deduction Inference.

(** A trial grid that an attempt commits: rectangular, without a mine
    around the click, and numbered. *)
Lemma generateLoop_success (attempts fuel : nat) s ex ey :
  forall rnd s' rnd',
    generateLoop attempts fuel s ex ey (maxMinesOf s) rnd = Done (true, s', rnd') ->
    rect (width s) (height s) (grid s') /\ zoneFree ex ey (grid s') /\
    numberedIn s (grid s').
Proof.
  induction attempts as [|n IH]; intros rnd s' rnd' H; simpl in H.
  - inv_bind H. destruct a as [s1 rnd1]. discriminate H.
  - inv_bind H. destruct a as [[g1 tm] rnd1]. inv_bind H. rename a into tg.
    inv_bind H. rename a into solved. destruct solved.
    + injection H as <- <-. cbn [grid with_grid with_mineLocations].
      apply placeLoop_spec in Ha as (Hr1 & Hz1 & _);
        [|apply rect_replicate|apply zoneFree_replicate].
      pose proof (calculateNumbersIn_spec _ _ _ Ha0) as [Hr2 Hs].
      split; [by apply Hr2|]. split; [by eapply sameMines_zoneFree|].
      by apply calculateNumbersIn_numbered in Ha0.
    + by eapply IH.
Qed.

(** The count of the numbering loop is the number of mines among the
    neighbors on the board. *)
Lemma minesAround_minesNear s g k :
  Z.of_nat (minesAround s g k.1 k.2) =
  minesNear (around (width s) (height s)) (mineIn g) k.
Proof.
  unfold minesAround, minesNear, around, onBoardOf, countIf. f_equal.
  induction offsets as [|d l IH]; [done|].
  cbn [List.filter]. rewrite fmap_cons, filter_cons.
  change (onBoard (width s) (height s) (shift k d))
    with (_inBounds s (k.1 + d.1) (k.2 + d.2)).
  destruct (_inBounds s (k.1 + d.1) (k.2 + d.2)) eqn:Hin; cbn [andb].
  - rewrite decide_True by done. rewrite filter_cons.
    change (mineIn g (shift k d)) with (mineAt g (k.1 + d.1, k.2 + d.2)).
    destruct (mineAt g (k.1 + d.1, k.2 + d.2)).
    + rewrite decide_True by done. cbn [length]. by rewrite IH.
    + rewrite decide_False by done. exact IH.
  - rewrite decide_False by done. exact IH.
Qed.

(** A first click that reports success on a no-guess board leaves a grid
    whose numbers are the counts of the mines around, and a layout that
    deduction from those numbers solves from the click. *)
Lemma firstClick_deducible fuel s x y rnd r s' rnd' :
  noGuess s = true ->
  handleFirstClick fuel s x y rnd = Done (r, s', rnd') -> fc_success r = true ->
  (forall k, onBoard (width s') (height s') k = true -> mineIn (grid s') k = false ->
     numberIn (grid s') k = minesNear (around (width s') (height s')) (mineIn (grid s')) k) /\
  deducible (onBoard (width s') (height s')) (around (width s') (height s'))
            (mineIn (grid s')) (coords (width s') (height s')) (x, y).
Proof.
  intros Hng H Hok.
  pose proof (firstClick_solvable _ _ _ _ _ _ _ _ Hng H Hok) as Hsolv.
  assert (minesPlaced s = false) as Hmp.
  { destruct (minesPlaced s) eqn:E; [|done].
    rewrite handleFirstClick_again in H by done. injection H as <- _ _. done. }
  apply handleFirstClick_first in H as (ok & s1 & res & Hpl & Hrev & ->); [|done].
  simpl in Hok. subst ok. unfold placeMines in Hpl. rewrite Hng in Hpl.
  pose proof (generateSolvableBoard_spec _ _ _ _ _ _ _ _ Hpl) as (Hplaced & _).
  unfold _generateSolvableBoard in Hpl.
  apply generateLoop_success in Hpl as (Hrect & Hzone & Hnum).
  apply revealCell_playStep, playStep_frame in Hrev as (_ & Hg & Hw & Hh).
  simpl in Hg, Hw, Hh.
  assert (width s1 = width s /\ height s1 = height s) as [Hw1 Hh1]
    by (by rewrite Hplaced).
  rewrite Hg, Hw, Hh, Hw1, Hh1 in *.
  assert (forall k, onBoard (width s) (height s) k = true -> mineIn (grid s1) k = false ->
            numberIn (grid s1) k
            = minesNear (around (width s) (height s)) (mineIn (grid s1)) k) as Hnumbered.
  { intros [kx ky] Hb Hm. rewrite <- minesAround_minesNear. cbn [fst snd].
    pose proof Hb as [Hx Hy]%(inBounds_spec s kx ky).
    destruct (at2_rect _ _ _ kx ky Hrect Hx Hy) as [v Hv].
    unfold numberIn, mineIn in *. cbn [fst snd] in *. rewrite Hv in Hm |- *.
    apply Hnum; [done|]. by apply Z.eqb_neq. }
  split; [exact Hnumbered|].
  apply (solvable_deducible _ _ _ (numberIn (grid s1))); [exact Hnumbered| |exact Hsolv].
  unfold mineIn. cbn [fst snd].
  destruct (at2 (grid s1) x y) as [v| |] eqn:Hv; [|done..].
  apply Z.eqb_neq. intros ->. apply (Hzone x y); [|done]. unfold inZone. lia.
Qed.

End SapperDeduce.

(** * The no-guess boards of sappershapes.js are solved by deduction *)

Module ShapesDeduce.
Import SapperShapes ShapesFacts ShapesSolve Deduction Inference.

(** The mine of a trial cell, [false] where there is none. *)
Definition trialMine (t : gmap (Z * Z) TestCell) (k : Z * Z) : bool :=
  match t !! k with Some tc => t_mine tc | None => false end.

Lemma countMinesAround_trialMine s t x y :
  countMinesAround t_mine s t x y
  = length (filter (fun n => trialMine t n = true) (_getNeighbors s x y)).
Proof. reflexivity. Qed.

Lemma countMinesAround_ext s t t' x y :
  (forall k, trialMine t' k = trialMine t k) ->
  countMinesAround t_mine s t' x y = countMinesAround t_mine s t x y.
Proof.
  intros Hsame. rewrite !countMinesAround_trialMine. f_equal.
  apply list_filter_iff. intros n. by rewrite Hsame.
Qed.

(** The counts of a trial grid: a cell without a mine holds the number of
    mines among its neighbors, a cell with a mine holds 0. *)
Lemma buildTestCells_counts s mines t :
  buildTestCells s mines = Done t ->
  forall k tc, t !! k = Some tc ->
    t_count tc = if t_mine tc then O else countMinesAround t_mine s t k.1 k.2.
Proof.
  intros Hbuild. pose proof (buildTestCells_spec _ _ _ Hbuild) as Htrial.
  unfold buildTestCells in Hbuild. inv_bind Hbuild. rename a into t1.
  assert (forall k tc, t1 !! k = Some tc -> t_count tc = O) as Hzero.
  { refine (foldM_inv (fun m => forall k tc, m !! k = Some tc -> t_count tc = O)
                      _ _ _ _ _ _ Ha).
    - intros m p m' _ Hm Hbody. inv_bind Hbody. rename a into c. injection Hbody as <-.
      apply cellAt_Done in Ha0. intros k tc.
      destruct (decide (p = k)) as [->|Hne].
      + rewrite lookup_insert_eq. intros [= <-]. cbn [t_count].
        destruct k. by eapply Hm.
      + rewrite lookup_insert_ne by done. apply Hm.
    - intros k tc. rewrite lookup_emptyTestCells. case_bool_decide; [|done].
      by intros [= <-]. }
  eapply (SapperMore.foldM_visited
            (fun seen m =>
               (forall k, trialMine m k = trialMine t1 k) /\
               (forall k tc, m !! k = Some tc -> t_mine tc = true -> t_count tc = O) /\
               (forall k tc, k ∈ seen -> m !! k = Some tc -> t_mine tc = false ->
                  t_count tc = countMinesAround t_mine s t1 k.1 k.2))) in Hbuild.
  - destruct Hbuild as (Hsame & Hmines & Hseen). intros k tc Hk.
    destruct (t_mine tc) eqn:Hm; [by eapply Hmines|].
    rewrite (countMinesAround_ext s t1 t) by done.
    apply Hseen; [|done..]. specialize (Htrial k). rewrite Hk in Htrial. tauto.
  - intros seen [x y] m m' (Hsame & Hmines & Hseen) Hbody. cbn [fst snd] in Hbody.
    inv_bind Hbody. rename a into c. apply cellAt_Done in Ha0.
    destruct (t_mine c) eqn:Hmc; cbn [negb] in Hbody; injection Hbody as <-.
    { split; [done|]. split; [done|].
      intros k tc [Hk | ->%list_elem_of_singleton]%elem_of_app Hl Hm; [by apply Hseen|].
      congruence. }
    split; [|split].
    + intros k. unfold trialMine. destruct (decide ((x, y) = k)) as [<-|Hne].
      * rewrite lookup_insert_eq. cbn [t_mine]. specialize (Hsame (x, y)).
        unfold trialMine in Hsame. rewrite Ha0 in Hsame. congruence.
      * rewrite lookup_insert_ne by done. apply Hsame.
    + intros k tc. destruct (decide ((x, y) = k)) as [<-|Hne].
      * rewrite lookup_insert_eq. intros [= <-]. done.
      * rewrite lookup_insert_ne by done. apply Hmines.
    + intros k tc Hk. destruct (decide ((x, y) = k)) as [<-|Hne].
      * rewrite lookup_insert_eq. intros [= <-] _. cbn [t_count fst snd].
        by apply countMinesAround_ext.
      * rewrite lookup_insert_ne by done.
        apply elem_of_app in Hk as [Hk|Hk%list_elem_of_singleton]; [|congruence].
        by apply Hseen.
  - split; [done|]. split; [intros k tc Hk _; by eapply Hzero|].
    intros k tc Hk. by apply elem_of_nil in Hk.
Qed.

(** A trial grid that [_simulateSolve] accepts, with the mines seen
    through any function that reads them off the grid: its counts are the
    numbers of mines around, and deduction from those numbers solves it
    from a click without a mine. *)
Lemma trial_deducible fuel s t mines x y (mine : Z * Z -> bool) :
  buildTestCells s mines = Done t ->
  _simulateSolve fuel s t x y = Done true ->
  (forall k, mine k = trialMine t k) -> mine (x, y) = false ->
  (forall k tc, t !! k = Some tc -> t_mine tc = false ->
     Z.of_nat (t_count tc) = minesNear (around s) mine k) /\
  deducible (onBoard s) (around s) mine (coords (width s) (height s)) (x, y).
Proof.
  intros Hbuild Hsolve Hmine Hclick.
  pose proof (buildTestCells_counts _ _ _ Hbuild) as Hcounts.
  apply buildTestCells_spec in Hbuild.
  assert (forall k, is_Some (t !! k) <-> k ∈ coords (width s) (height s)) as Hkeys.
  { intros k. specialize (Hbuild k). destruct (t !! k) as [tc|].
    - split; [tauto|eauto].
    - split; [by intros [? ?]|done]. }
  assert (forall k tc, t !! k = Some tc -> t_mine tc = false ->
            Z.of_nat (t_count tc) = minesNear (around s) mine k) as Hnear.
  { intros k tc Hk Hm. rewrite (Hcounts k tc Hk), Hm.
    rewrite countMinesAround_trialMine. unfold minesNear, around. do 2 f_equal.
    apply list_filter_iff. intros n. by rewrite Hmine. }
  split; [exact Hnear|].
  set (number := fun k => if mine k then 0 else minesNear (around s) mine k).
  apply (solvable_deducible _ _ _ number).
  - intros k _ Hm. unfold number. by rewrite Hm.
  - exact Hclick.
  - eapply (shapes_simulateSolve_solvable s t); [|exact Hkeys|exact Hsolve].
    intros k tc Htc. assert (mine k = t_mine tc) as Hmk.
    { rewrite Hmine. unfold trialMine. by rewrite Htc. }
    split; [done|]. unfold number. rewrite Hmk.
    destruct (t_mine tc) eqn:Hm.
    + pose proof (Hcounts k tc Htc) as Hc. rewrite Hm in Hc. by rewrite Hc.
    + symmetry. by apply Hnear.
Qed.

(** The committed mine layout: the positions of [mineLocations]. *)
Definition listed (s : SapperShapesGame) (k : Z * Z) : bool :=
  bool_decide (k ∈ mineLocations s).

(** A first click that reports success on a no-guess board.  The cells of
    the board hold a mine exactly at the listed positions, the numbers of
    the cells without a mine are the counts of the listed mines around, and
    deduction from those numbers solves the layout from the click.  On a
    board that held no mine before the click, the mines of all cell
    objects are the listed positions. *)
Lemma shapes_firstClick_deducible fuel s x y rnd r s' rnd' :
  noGuess s = true ->
  handleFirstClick fuel s x y rnd = Done (r, s', rnd') -> fc_success r = true ->
  (forall k, k ∈ coords (width s') (height s') ->
     mineOf s' k = listed s' k /\
     (listed s' k = false -> numberOf s' k = minesNear (around s') (listed s') k)) /\
  deducible (onBoard s') (around s') (listed s') (coords (width s') (height s')) (x, y) /\
  ((forall k c, cells s !! k = Some c -> mine c = false) ->
   (forall k, k ∈ coords (width s') (height s') -> mineOf s' k = false ->
      numberOf s' k = minesNear (around s') (mineOf s') k) /\
   deducible (onBoard s') (around s') (mineOf s') (coords (width s') (height s')) (x, y)).
Proof.
  intros Hng H Hok.
  assert (minesPlaced s = false) as Hmp.
  { destruct (minesPlaced s) eqn:E; [|done].
    rewrite shapes_handleFirstClick_again in H by done. injection H as <- _ _. done. }
  apply shapes_handleFirstClick_first in H as (ok & s1 & res & Hpl & Hrev & ->); [|done].
  simpl in Hok. subst ok. unfold placeMines in Hpl. rewrite Hng in Hpl.
  apply shapes_generateSolvableBoard_spec in Hpl
    as [[? _]|(_ & rnd0 & t & Hbuild & Hsolve & Hcopy & E)]; [done|].
  apply shapes_revealCell_playStep in Hrev.
  pose proof (playStep_evolves _ _ Hrev) as V.
  pose proof (shapes_playStep_frame _ _ Hrev) as (Hml & _ & Hg & Hw & Hh).
  assert (useExtendedNeighbors s' = useExtendedNeighbors s) as Hu.
  { destruct Hrev as [->|(_ & -> & _)]; simpl; by rewrite E. }
  assert (grid s' = grid s /\ width s' = width s /\ height s' = height s) as (Hg' & -> & ->).
  { rewrite Hg, Hw, Hh. simpl. by rewrite E. }
  assert (mineLocations s' = chosenMines s x y rnd0) as Hlist.
  { rewrite Hml. simpl. by rewrite E. }
  assert (onBoard s' = onBoard s) as -> by (unfold onBoard; by rewrite Hg').
  assert (around s' = around s) as ->.
  { unfold around, _getNeighbors. by rewrite Hg', Hu. }
  pose proof (buildTestCells_spec _ _ _ Hbuild) as Htrial.
  assert (forall k, is_Some (t !! k) <-> k ∈ coords (width s) (height s)) as Hkeys.
  { intros k. specialize (Htrial k). destruct (t !! k) as [tc|].
    - split; [tauto|eauto].
    - split; [by intros [? ?]|done]. }
  (* the cells of the board after the click, against the trial cells *)
  assert (forall k, match t !! k with
                    | Some tc => mineOf s' k = t_mine tc /\
                                 numberOf s' k = Z.of_nat (t_count tc)
                    | None => (forall k c, cells s !! k = Some c -> mine c = false) ->
                              mineOf s' k = false
                    end) as Hcell.
  { intros [kx ky]. unfold mineOf, numberOf, isMine, getCount. cbn [fst snd].
    specialize (V (kx, ky)). simpl in V.
    pose proof (copyToCells_spec _ _ _ Hcopy (kx, ky)) as Hc.
    destruct (t !! (kx, ky)) as [tc|] eqn:Htc.
    - destruct (copyToCells_dom _ _ _ (kx, ky) Hcopy) as [c0 Hc0]; [eauto|].
      rewrite Hc0 in Hc. destruct (cells s1 !! (kx, ky)) as [c1|]; [|done].
      destruct (cells s' !! (kx, ky)) as [c'|]; [|done].
      destruct Hc as (_ & _ & Hm & Hn). destruct V as (Hm' & _ & Hn' & _).
      split; congruence.
    - intros Hclean. destruct (cells s !! (kx, ky)) as [c0|] eqn:Hc0.
      + destruct (cells s1 !! (kx, ky)) as [c1|]; [|done].
        destruct (cells s' !! (kx, ky)) as [c'|]; [|done].
        destruct Hc as (_ & _ & Hm & _). destruct V as (Hm' & _).
        rewrite Hm', Hm. by eapply Hclean.
      + destruct (cells s1 !! (kx, ky)) as [c1|]; [done|].
        by destruct (cells s' !! (kx, ky)). }
  assert (forall k, listed s' k = trialMine t k) as Hlisted.
  { intros k. unfold listed, trialMine. rewrite Hlist. specialize (Htrial k).
    destruct (t !! k) as [tc|]; [by destruct Htrial as [_ ->]|].
    apply bool_decide_eq_false.
    intros Hin%elem_of_chosenMines%elem_of_validPositions. tauto. }
  assert (listed s' (x, y) = false) as Hclick.
  { unfold listed. rewrite Hlist. apply bool_decide_eq_false.
    intros Hin%elem_of_chosenMines%elem_of_validPositions. tauto. }
  destruct (trial_deducible fuel s t _ x y (listed s') Hbuild Hsolve Hlisted Hclick)
    as [Hnear Hded].
  split; [|split; [exact Hded|]].
  - intros k [tc Hk]%Hkeys. pose proof (Hcell k) as Hck. rewrite Hk in Hck.
    destruct Hck as [Hmk Hnk]. rewrite Hlisted. unfold trialMine. rewrite Hk.
    split; [done|]. intros Hm. rewrite Hnk. by apply (Hnear k tc Hk).
  - intros Hclean.
    assert (forall k, mineOf s' k = trialMine t k) as Hmine.
    { intros k. specialize (Hcell k). unfold trialMine.
      destruct (t !! k); [tauto|by apply Hcell]. }
    destruct (trial_deducible fuel s t _ x y (mineOf s') Hbuild Hsolve Hmine)
      as [Hnear' Hded']; [by rewrite Hmine, <- Hlisted|].
    split; [|exact Hded'].
    intros k [tc Hk]%Hkeys Hm. pose proof (Hcell k) as Hck. rewrite Hk in Hck.
    destruct Hck as [Hmk ->]. apply (Hnear' k tc Hk). congruence.
Qed.

(** A board that the public methods reach holds no mine before its first
    click. *)
Lemma reachable_clean s :
  reachable s -> minesPlaced s = false ->
  forall k c, cells s !! k = Some c -> mine c = false.
Proof.
  intros Hr Hmp. destruct (reachable_minesListed s Hr) as (_ & _ & Hnm).
  destruct (Hnm Hmp) as [_ Hclean]. exact Hclean.
Qed.

End ShapesDeduce.

(** * Further facts about sudoku.js *)

Module SudokuMore.
Import Sudoku SudokuFacts.
Local Open Scope nat_scope.

Lemma NoDup_cells : NoDup cells.
Proof. apply (bool_decide_unpack _). vm_compute. reflexivity. Qed.

Lemma length_cells : length cells = 81.
Proof. reflexivity. Qed.

(** The number of empty cells. *)
Definition emptyCount (b : Board) : nat :=
  countIf (fun p : nat * nat => get b p.1 p.2 =? 0) cells.

Lemma emptyCount_le b : emptyCount b <= 81.
Proof.
  unfold emptyCount, countIf. etrans; [apply List.filter_length_le|]. by rewrite length_cells.
Qed.

Lemma emptyCount_set b r c num :
  shape9 b -> r < 9 -> c < 9 -> get b r c = 0 -> num <> 0 ->
  S (emptyCount (set b r c num)) = emptyCount b.
Proof.
  intros Hs Hr Hc Hz Hn. unfold emptyCount.
  apply (countIf_drop _ _ _ (r, c)); [apply NoDup_cells|by apply elem_of_cells| | |].
  - cbn [fst snd]. by rewrite Hz.
  - cbn [fst snd]. rewrite get_set_eq by done. by apply Nat.eqb_neq.
  - intros [r' c'] Hne. cbn [fst snd]. by rewrite get_set_ne.
Qed.

Lemma countClues_emptyCount b : countClues b + emptyCount b = 81.
Proof.
  unfold countClues, emptyCount, countIf. rewrite <- length_cells.
  induction cells as [|p l IH]; [done|]. cbn [List.filter length].
  destruct (get b p.1 p.2 =? 0); cbn [negb length]; lia.
Qed.


Lemma elem_of_getCandidates b r c num :
  num ∈ getCandidates b r c <->
  get b r c = 0 /\ 1 <= num <= 9 /\ isValidPlacement b r c num = true.
Proof.
  unfold getCandidates. destruct (Nat.eqb_spec (get b r c) 0) as [Hz|Hnz]; cbn [negb].
  - rewrite list_elem_of_In, filter_In, in_seq. split.
    + intros [Hrange Hv]. split; [done|]. split; [lia|done].
    + intros (_ & Hrange & Hv). split; [lia|done].
  - split; [by intros ?%elem_of_nil|]. intros [? _]. done.
Qed.

(** The clues of [b] are still in place in [b']. *)
Definition keeps (b b' : Board) : Prop :=
  forall r c, r < 9 -> c < 9 -> get b r c <> 0 -> get b' r c = get b r c.

Lemma keeps_refl b : keeps b b.
Proof. by intros r c _ _ _. Qed.

Lemma keeps_trans b1 b2 b3 : keeps b1 b2 -> keeps b2 b3 -> keeps b1 b3.
Proof.
  intros H1 H2 r c Hr Hc Hnz. rewrite H2, H1; try done. by rewrite H1.
Qed.

Lemma keeps_set b r c num : get b r c = 0 -> keeps b (set b r c num).
Proof.
  intros Hz r' c' Hr Hc Hnz. apply get_set_ne. intros [= -> ->]. done.
Qed.

(** The outcome of a search from [b]: a completed consistent board that
    keeps the clues, or the board as it was and no solution for it. *)
Definition searched (b : Board) (ok : bool) (b' : Board) : Prop :=
  shape9 b' /\
  (ok = true -> consistent b' /\ isSolved b' = true /\ keeps b b') /\
  (ok = false -> b' = b /\ forall sol, solution sol -> ~ extends b sol).

Lemma tryEach_spec (rec : Board -> outcome (bool * Board)) r c :
  (forall b ok b', shape9 b -> consistent b -> rec b = Done (ok, b') -> searched b ok b') ->
  r < 9 -> c < 9 ->
  forall l b ok b',
    shape9 b -> consistent b -> get b r c = 0 ->
    (forall num, num ∈ l -> isValidPlacement b r c num = true) ->
    tryEach rec r c l b = Done (ok, b') ->
    shape9 b' /\
    (ok = true -> consistent b' /\ isSolved b' = true /\ keeps b b') /\
    (ok = false ->
     b' = b /\ forall sol, solution sol -> extends b sol -> get sol r c ∉ l).
Proof.
  intros Hrec Hr Hc. induction l as [|num rest IH]; intros b ok b' Hs Hcons Hz Hvalid H;
    cbn [tryEach] in H.
  - injection H as <- <-. split; [done|]. split; [done|]. intros _. split; [done|].
    intros sol _ _ []%elem_of_nil.
  - inv_bind H. destruct a as [ok1 b1].
    apply Hrec in Ha as (Hs1 & Hok1 & Hfail1);
      [|by apply shape9_set|apply consistent_set; try done; apply Hvalid; by left].
    destruct ok1.
    + injection H as <- <-. split; [done|]. split; [|done]. intros _.
      destruct (Hok1 eq_refl) as (? & ? & Hk). split; [done|]. split; [done|].
      eapply keeps_trans; [|exact Hk]. by apply keeps_set.
    + destruct (Hfail1 eq_refl) as [-> Hnone].
      rewrite set_set in H. rewrite <- Hz in H at 1. rewrite set_get in H.
      apply IH in H as (Hs' & Hok' & Hfail'); [|done|done|done|].
      2:{ intros n Hn. apply Hvalid. by right. }
      split; [done|]. split; [done|]. intros Hf. destruct (Hfail' Hf) as [-> Hrest].
      split; [done|]. intros sol Hsol Hext [<-|Hin]%elem_of_cons; [|by eapply Hrest].
      apply (Hnone sol Hsol). by apply extends_set.
Qed.

Lemma solveBacktrackingHelper_spec (fuel : nat) :
  forall b ok b', shape9 b -> consistent b ->
    solveBacktrackingHelper fuel b = Done (ok, b') -> searched b ok b'.
Proof.
  induction fuel as [|fuel IH]; intros b ok b' Hs Hcons H; [done|].
  rewrite solveBacktrackingHelper_eq in H. destruct (firstEmpty b) as [[r c]|] eqn:Hfe.
  - apply firstEmpty_Some in Hfe as (Hr & Hc & Hz).
    eapply tryEach_spec in H as (Hs' & Hok & Hfail); [|exact IH|done..|].
    2:{ intros num Hn. by apply elem_of_getCandidates in Hn as (_ & _ & ?). }
    split; [done|]. split; [done|]. intros Hf. destruct (Hfail Hf) as [-> Hnone].
    split; [done|]. intros sol Hsol Hext. apply (Hnone sol Hsol Hext).
    apply elem_of_getCandidates. split; [done|]. split.
    + destruct Hsol as (_ & Hrange & _). apply Hrange; done.
    + by apply extends_valid.
  - injection H as <- <-. split; [done|]. split; [|done]. intros _. split; [done|].
    split; [by apply firstEmpty_None|apply keeps_refl].
Qed.

(** A search that fails hands back the board as it was. *)
Lemma solveBacktrackingHelper_false (fuel : nat) :
  forall b b', solveBacktrackingHelper fuel b = Done (false, b') -> b' = b.
Proof.
  induction fuel as [|fuel IH]; intros b b' H; [done|].
  rewrite solveBacktrackingHelper_eq in H. destruct (firstEmpty b) as [[r c]|] eqn:Hfe; [|done].
  apply firstEmpty_Some in Hfe as (_ & _ & Hz).
  revert H. generalize (getCandidates b r c). intros l.
  induction l as [|num rest IHl]; cbn [tryEach]; intros H.
  - by injection H as <-.
  - inv_bind H. destruct a as [ok1 b1]. destruct ok1; [done|].
    apply IH in Ha as ->. rewrite set_set in H. rewrite <- Hz in H at 1.
    rewrite set_get in H. by apply IHl.
Qed.

Lemma solveBacktrackingHelper_total (fuel : nat) :
  forall b, shape9 b -> emptyCount b < fuel ->
    exists r, solveBacktrackingHelper fuel b = Done r.
Proof.
  induction fuel as [|fuel IH]; intros b Hs Hfuel; [lia|].
  rewrite solveBacktrackingHelper_eq. destruct (firstEmpty b) as [[r c]|] eqn:Hfe; [|eauto].
  apply firstEmpty_Some in Hfe as (Hr & Hc & Hz).
  assert (forall num, num ∈ getCandidates b r c -> num <> 0) as Hpos.
  { intros num (_ & ? & _)%elem_of_getCandidates. lia. }
  revert Hpos. generalize (getCandidates b r c). intros l.
  induction l as [|num rest IHl]; cbn [tryEach]; intros Hpos; [eauto|].
  destruct (IH (set b r c num)) as [[ok1 b1] Hrun].
  { by apply shape9_set. }
  { pose proof (emptyCount_set b r c num Hs Hr Hc Hz (Hpos num ltac:(left))). lia. }
  rewrite Hrun. cbn [bind]. destruct ok1; [eauto|].
  apply solveBacktrackingHelper_false in Hrun as ->.
  rewrite set_set.
  assert (set b r c 0 = b) as -> by (rewrite <- Hz at 1; apply set_get).
  apply IHl.
  intros n Hn. apply Hpos. by right.
Qed.

Lemma consistent_solved_valid b :
  consistent b -> isSolved b = true -> isValidSolution b = true.
Proof.
  intros Hc Hs. apply isValidSolution_spec. split; [done|].
  intros r c Hr Hc'. apply Hc; [done..|]. by apply isSolved_spec.
Qed.

End SudokuMore.

Module SudokuSingles.
Import Sudoku SudokuFacts SudokuMore.
Local Open Scope nat_scope.

(** [b'] fills cells of [b] without losing a clue, a solution or
    consistency. *)
Definition refines (b b' : Board) : Prop :=
  shape9 b' /\ keeps b b' /\ (consistent b -> consistent b') /\
  (forall sol, solution sol -> extends b sol -> extends b' sol).

Lemma refines_refl b : shape9 b -> refines b b.
Proof. intros Hs. split; [done|]. split; [apply keeps_refl|done]. Qed.

Lemma refines_trans b1 b2 b3 : refines b1 b2 -> refines b2 b3 -> refines b1 b3.
Proof.
  intros (_ & Hk1 & Hc1 & He1) (Hs & Hk2 & Hc2 & He2).
  split; [done|]. split; [by eapply keeps_trans|]. split; [auto|]. intros sol ? ?. auto.
Qed.

(** One step of a pass: the state is as before, or a cell was filled and
    the flag is set. *)
Definition advance (st st' : Board * bool) : Prop :=
  refines st.1 st'.1 /\
  (st' = st \/ (st'.2 = true /\ emptyCount st'.1 < emptyCount st.1)).

Lemma advance_refl st : shape9 st.1 -> advance st st.
Proof. intros Hs. split; [by apply refines_refl|by left]. Qed.

Lemma advance_trans st1 st2 st3 : advance st1 st2 -> advance st2 st3 -> advance st1 st3.
Proof.
  intros [Hr1 H1] [Hr2 H2]. split; [by eapply refines_trans|].
  destruct H1 as [->|[Hf1 Hm1]]; [done|]. destruct H2 as [->|[Hf2 Hm2]]; [by right|].
  right. split; [done|lia].
Qed.

Lemma advance_shape st st' : advance st st' -> shape9 st'.1.
Proof. by intros [(Hs & _) _]. Qed.

Lemma foldl_advance {A} (step : Board * bool -> A -> Board * bool) (l : list A) :
  (forall st a, a ∈ l -> shape9 st.1 -> advance st (step st a)) ->
  forall st, shape9 st.1 -> advance st (foldl step st l).
Proof.
  induction l as [|a l IH]; intros Hstep st Hs; cbn [foldl]; [by apply advance_refl|].
  assert (advance st (step st a)) as Ha by (apply Hstep; [by left|done]).
  eapply advance_trans; [exact Ha|]. apply IH; [|by eapply advance_shape].
  intros st' a' Ha'. apply Hstep. by right.
Qed.

(** A pass that leaves the flag down has changed nothing, at any step. *)
Lemma foldl_quiet {A} (step : Board * bool -> A -> Board * bool) (l : list A) :
  (forall st a, a ∈ l -> shape9 st.1 -> advance st (step st a)) ->
  forall st, shape9 st.1 -> (foldl step st l).2 = false ->
    foldl step st l = st /\ forall a, a ∈ l -> step st a = st.
Proof.
  induction l as [|a l IH]; intros Hstep st Hs Hq; cbn [foldl] in *.
  { split; [done|]. intros a []%elem_of_nil. }
  assert (advance st (step st a)) as Ha by (apply Hstep; [by left|done]).
  assert (advance (step st a) (foldl step (step st a) l)) as Hrest.
  { apply foldl_advance; [|by eapply advance_shape]. intros st' a' Ha'. apply Hstep. by right. }
  assert (step st a = st) as E.
  { destruct Ha as [_ [E|[Hf _]]]; [done|]. exfalso.
    destruct Hrest as [_ [E|[Hf' _]]]; [|congruence]. rewrite E in Hq. congruence. }
  rewrite E in *. destruct (IH ltac:(intros st' a' Ha'; apply Hstep; by right) st Hs Hq)
    as [E' Hall].
  split; [done|]. intros a' [->|Ha']%elem_of_cons; [done|auto].
Qed.

(** Filling an empty cell with a digit that is valid there and that every
    solution has there. *)
Lemma advance_set b ch r c num :
  shape9 b -> r < 9 -> c < 9 -> get b r c = 0 -> num <> 0 ->
  isValidPlacement b r c num = true ->
  (forall sol, solution sol -> extends b sol -> get sol r c = num) ->
  advance (b, ch) (set b r c num, true).
Proof.
  intros Hs Hr Hc Hz Hn Hv Hsol. split; cbn [fst snd].
  - split; [by apply shape9_set|]. split; [by apply keeps_set|]. split.
    + intros Hcons. by apply consistent_set.
    + intros sol Hs' He. rewrite <- (Hsol sol Hs' He). by apply extends_set.
  - right. split; [done|]. pose proof (emptyCount_set b r c num Hs Hr Hc Hz Hn). lia.
Qed.

Lemma nakedStep_advance st p : p ∈ cells -> shape9 st.1 -> advance st (nakedStep st p).
Proof.
  destruct st as [b ch], p as [r c]. intros [Hr Hc]%elem_of_cells Hs. cbn [fst snd] in *.
  unfold nakedStep. cbn [fst snd].
  destruct (Nat.eqb_spec (get b r c) 0) as [Hz|]; [|by apply advance_refl].
  destruct (getCandidates b r c) as [|num [|]] eqn:Ec; try (by apply advance_refl).
  assert (num ∈ getCandidates b r c) as (_ & Hrange & Hv)%elem_of_getCandidates
    by (rewrite Ec; by left).
  apply advance_set; try done; [lia|].
  intros sol Hsol He.
  assert (get sol r c ∈ getCandidates b r c) as Hin.
  { apply elem_of_getCandidates. split; [done|]. split; [|by apply extends_valid].
    destruct Hsol as (_ & Hrg & _). by apply Hrg. }
  rewrite Ec in Hin. by apply list_elem_of_singleton in Hin.
Qed.

(** No empty cell of [b] has exactly one candidate. *)
Definition noNakedSingle (b : Board) : Prop :=
  forall r c, r < 9 -> c < 9 -> get b r c = 0 -> length (getCandidates b r c) <> 1.

Lemma nakedStep_quiet b r c :
  nakedStep (b, false) (r, c) = (b, false) -> get b r c = 0 ->
  length (getCandidates b r c) <> 1.
Proof.
  unfold nakedStep. cbn [fst snd]. intros H Hz. rewrite Hz in H. cbn in H.
  destruct (getCandidates b r c) as [|num [|]]; cbn; try lia. discriminate.
Qed.

Lemma nakedPass_spec b b' changed :
  shape9 b -> foldl nakedStep (b, false) cells = (b', changed) ->
  refines b b' /\
  (if changed then emptyCount b' < emptyCount b else b' = b /\ noNakedSingle b).
Proof.
  intros Hs H.
  pose proof (foldl_advance nakedStep cells
                (fun st a Ha Hst => nakedStep_advance st a Ha Hst) (b, false) Hs) as Hadv.
  rewrite H in Hadv. destruct Hadv as [Href Hprog]. cbn [fst snd] in *.
  split; [done|]. destruct changed.
  - destruct Hprog as [[=]|[_ ?]]; done.
  - destruct (foldl_quiet nakedStep cells
                (fun st a Ha Hst => nakedStep_advance st a Ha Hst) (b, false) Hs)
      as [E Hall]; [by rewrite H|].
    rewrite H in E. injection E as ->. split; [done|].
    intros r c Hr Hc Hz. apply nakedStep_quiet; [|done]. apply Hall. by apply elem_of_cells.
Qed.

Lemma solveNakedSingles_eq fuel b :
  solveNakedSingles (S fuel) b =
  if (foldl nakedStep (b, false) cells).2
  then solveNakedSingles fuel (foldl nakedStep (b, false) cells).1
  else Done (foldl nakedStep (b, false) cells).1.
Proof. cbn [solveNakedSingles]. by destruct (foldl nakedStep (b, false) cells). Qed.

Lemma solveNakedSingles_spec (fuel : nat) :
  forall b b', shape9 b -> solveNakedSingles fuel b = Done b' ->
    refines b b' /\ noNakedSingle b'.
Proof.
  induction fuel as [|fuel IH]; intros b b' Hs H; [discriminate H|].
  rewrite solveNakedSingles_eq in H.
  pose proof (nakedPass_spec b (foldl nakedStep (b, false) cells).1
                (foldl nakedStep (b, false) cells).2 Hs) as Hpass.
  revert H Hpass. generalize (foldl nakedStep (b, false) cells). intros [b1 changed].
  cbn [fst snd]. intros H Hpass. destruct (Hpass eq_refl) as [Href Hprog]. clear Hpass.
  destruct changed.
  - apply IH in H as [Href' Hq]; [|by destruct Href].
    split; [by eapply refines_trans|exact Hq].
  - injection H as <-. destruct Hprog as [-> Hq]. split; [exact Href|exact Hq].
Qed.

Lemma solveNakedSingles_total (fuel : nat) :
  forall b, shape9 b -> emptyCount b < fuel -> exists b', solveNakedSingles fuel b = Done b'.
Proof.
  induction fuel as [|fuel IH]; intros b Hs Hfuel; [lia|].
  rewrite solveNakedSingles_eq.
  pose proof (nakedPass_spec b (foldl nakedStep (b, false) cells).1
                (foldl nakedStep (b, false) cells).2 Hs) as Hpass.
  revert Hpass. generalize (foldl nakedStep (b, false) cells). intros [b1 changed].
  cbn [fst snd]. intros Hpass. destruct (Hpass eq_refl) as [Href Hprog]. clear Hpass.
  destruct changed; [|eauto].
  apply IH; [by destruct Href|lia].
Qed.

(** ** Houses: rows, columns and boxes *)

Definition peerb (row col r c : nat) : bool :=
  (negb (r =? row) || negb (c =? col))
  && ((r =? row) || (c =? col) || ((r / 3 =? row / 3) && (c / 3 =? col / 3))).

Lemma peerb_peer row col r c : peerb row col r c = true -> peer row col r c.
Proof.
  unfold peerb, peer. intros [H1 H2]%andb_true_iff. split.
  - apply orb_true_iff in H1 as [H%negb_true_iff%Nat.eqb_neq|H%negb_true_iff%Nat.eqb_neq];
      auto.
  - apply orb_true_iff in H2 as [H2|H2].
    + apply orb_true_iff in H2 as [H%Nat.eqb_eq|H%Nat.eqb_eq]; auto.
    + apply andb_true_iff in H2 as [Ha%Nat.eqb_eq Hb%Nat.eqb_eq]. auto.
Qed.

(** Nine different cells of the board, any two of them peers. *)
Definition house (u : list (nat * nat)) : Prop :=
  NoDup u /\ length u = 9 /\ (forall p, p ∈ u -> p.1 < 9 /\ p.2 < 9) /\
  (forall p q, p ∈ u -> q ∈ u -> p <> q -> peer p.1 p.2 q.1 q.2).

Definition houseb (u : list (nat * nat)) : bool :=
  bool_decide (NoDup u) && (length u =? 9)
  && forallb (fun p : nat * nat => (p.1 <? 9) && (p.2 <? 9)) u
  && forallb (fun p : nat * nat =>
                forallb (fun q : nat * nat =>
                           bool_decide (p = q) || peerb p.1 p.2 q.1 q.2) u) u.

Lemma houseb_house u : houseb u = true -> house u.
Proof.
  unfold houseb. intros H.
  apply andb_true_iff in H as [H H4]. apply andb_true_iff in H as [H H3].
  apply andb_true_iff in H as [H1%bool_decide_eq_true H2%Nat.eqb_eq].
  rewrite forallb_forall in H3, H4.
  split; [done|]. split; [done|]. split.
  - intros p Hp%list_elem_of_In. apply H3 in Hp as [?%Nat.ltb_lt ?%Nat.ltb_lt]%andb_true_iff.
    done.
  - intros p q Hp%list_elem_of_In Hq%list_elem_of_In Hne.
    specialize (H4 p Hp). rewrite forallb_forall in H4. specialize (H4 q Hq).
    apply orb_true_iff in H4 as [E%bool_decide_eq_true|Hpb]; [done|]. by apply peerb_peer.
Qed.

Lemma rowUnit_house r : r < 9 -> house (rowUnit r).
Proof.
  intros Hr. do 9 (destruct r as [|r]; [apply houseb_house; vm_compute; reflexivity|]). lia.
Qed.

Lemma colUnit_house c : c < 9 -> house (colUnit c).
Proof.
  intros Hc. do 9 (destruct c as [|c]; [apply houseb_house; vm_compute; reflexivity|]). lia.
Qed.

Lemma boxUnit_house boxR boxC : boxR < 3 -> boxC < 3 -> house (boxUnit boxR boxC).
Proof.
  intros Hr Hc.
  do 3 (destruct boxR as [|boxR];
        [do 3 (destruct boxC as [|boxC]; [apply houseb_house; vm_compute; reflexivity|]); lia|]).
  lia.
Qed.

(** A solution has every digit in every house. *)
Lemma house_complete u sol num :
  house u -> solution sol -> 1 <= num <= 9 ->
  exists q, q ∈ u /\ get sol q.1 q.2 = num.
Proof.
  intros (Hnd & Hlen & Hin & Hpeer) (Hs & Hrange & Hcons) Hnum.
  set (vals := (fun q : nat * nat => get sol q.1 q.2) <$> u).
  assert (NoDup vals) as Hvnd.
  { apply NoDup_fmap_2_strong; [|done]. intros p q Hp Hq Heq.
    destruct (decide (p = q)) as [|Hne]; [done|]. exfalso.
    destruct (Hin p Hp) as [Hp1 Hp2]. destruct (Hin q Hq) as [Hq1 Hq2].
    assert (get sol p.1 p.2 <> 0) as Hnz by (specialize (Hrange _ _ Hp1 Hp2); lia).
    pose proof (Hcons _ _ Hp1 Hp2 Hnz) as Hv.
    rewrite isValidPlacement_spec in Hv by done.
    apply (Hv q.1 q.2 Hq1 Hq2 (Hpeer p q Hp Hq Hne)). done. }
  assert (vals ≡ₚ seq 1 9) as Hperm.
  { apply submseteq_length_Permutation.
    - apply NoDup_submseteq; [done|]. intros v (q & -> & Hq)%list_elem_of_fmap.
      destruct (Hin q Hq) as [Hq1 Hq2]. apply elem_of_seq.
      specialize (Hrange _ _ Hq1 Hq2). lia.
    - unfold vals. rewrite length_fmap, Hlen. done. }
  assert (num ∈ vals) as (q & Hq & Hmem)%list_elem_of_fmap.
  { rewrite Hperm. apply elem_of_seq. lia. }
  exists q. done.
Qed.

Lemma hiddenStep_advance u st num :
  house u -> 1 <= num <= 9 -> shape9 st.1 -> advance st (hiddenStep u st num).
Proof.
  destruct st as [b ch]. intros Hu Hnum Hs. cbn [fst snd] in *.
  unfold hiddenStep.
  set (positions :=
         List.filter (fun p : nat * nat =>
                        (get b p.1 p.2 =? 0)
                        && existsb (Nat.eqb num) (getCandidates b p.1 p.2)) u).
  assert (forall q, q ∈ positions <->
            q ∈ u /\ get b q.1 q.2 = 0 /\ num ∈ getCandidates b q.1 q.2) as Hpos.
  { intros q. unfold positions. rewrite list_elem_of_In, filter_In, <- list_elem_of_In.
    rewrite andb_true_iff, Nat.eqb_eq, existsb_exists.
    split.
    - intros (? & ? & x & Hx%list_elem_of_In & ->%Nat.eqb_eq). done.
    - intros (? & ? & Hx). split; [done|]. split; [done|]. exists num.
      split; [by apply list_elem_of_In|by apply Nat.eqb_eq]. }
  destruct positions as [|[r c] [|]] eqn:Ep; try (by apply advance_refl).
  assert ((r, c) ∈ [(r, c)]) as (Hmem & Hz & Hcand)%Hpos by (by left).
  cbn [fst snd] in *.
  destruct Hu as (Hnd & Hlen & Hin & Hpeer).
  destruct (Hin _ Hmem) as [Hr Hc]. cbn [fst snd] in Hr, Hc.
  pose proof Hcand as (_ & _ & Hv)%elem_of_getCandidates.
  apply advance_set; try done; [lia|].
  intros sol Hsol He.
  destruct (house_complete u sol num) as ([qr qc] & Hq & Hqv); [done..|].
  cbn [fst snd] in Hqv. destruct (Hin _ Hq) as [Hq1 Hq2]. cbn [fst snd] in Hq1, Hq2.
  destruct (decide ((qr, qc) = (r, c))) as [[= -> ->]|Hne]; [done|]. exfalso.
  destruct (Nat.eq_dec (get b qr qc) 0) as [Hqz|Hqnz].
  - assert ((qr, qc) ∈ [(r, c)]) as Hq'.
    { apply Hpos. split; [done|]. split; [done|]. cbn [fst snd].
      apply elem_of_getCandidates. split; [done|]. split; [done|].
      rewrite <- Hqv. by apply extends_valid. }
    apply list_elem_of_singleton in Hq'. done.
  - rewrite isValidPlacement_spec in Hv by done.
    apply (Hv qr qc Hq1 Hq2).
    + apply (Hpeer (r, c) (qr, qc)); [done|done|]. intros E. by apply Hne.
    + rewrite (He qr qc Hq1 Hq2 Hqnz). done.
Qed.

End SudokuSingles.

Module SudokuHidden.
Import Sudoku SudokuFacts SudokuMore SudokuSingles.
Local Open Scope nat_scope.

(** The scan of one house for the digits 1 to 9. *)
Definition scanHouse (u : list (nat * nat)) (st : Board * bool) : Board * bool :=
  foldl (hiddenStep u) st (seq 1 9).

Lemma scanHouse_advance u st : house u -> shape9 st.1 -> advance st (scanHouse u st).
Proof.
  intros Hu Hs. apply foldl_advance; [|done].
  intros st' num Hn%elem_of_seq Hs'. apply hiddenStep_advance; [done|lia|done].
Qed.

(** The cells of house [u] that are empty and have [num] as a candidate. *)
Definition positionsOf (b : Board) (u : list (nat * nat)) (num : nat) : list (nat * nat) :=
  List.filter (fun p : nat * nat =>
                 (get b p.1 p.2 =? 0) && existsb (Nat.eqb num) (getCandidates b p.1 p.2))
              u.

(** No digit has exactly one place left in house [u]. *)
Definition noHiddenSingleIn (b : Board) (u : list (nat * nat)) : Prop :=
  forall num, 1 <= num <= 9 -> length (positionsOf b u num) <> 1.

Lemma scanHouse_quiet u b :
  house u -> shape9 b -> (scanHouse u (b, false)).2 = false ->
  scanHouse u (b, false) = (b, false) /\ noHiddenSingleIn b u.
Proof.
  intros Hu Hs Hq.
  destruct (foldl_quiet (hiddenStep u) (seq 1 9)) with (st := (b, false)) as [E Hall];
    [|done|exact Hq|].
  { intros st' num Hn%elem_of_seq Hs'. apply hiddenStep_advance; [done|lia|done]. }
  split; [exact E|]. intros num Hnum Hlen.
  assert (hiddenStep u (b, false) num = (b, false)) as Hstep
    by (apply Hall, elem_of_seq; lia).
  unfold hiddenStep in Hstep. fold (positionsOf b u num) in Hstep.
  destruct (positionsOf b u num) as [|p [|]]; cbn in Hlen; try lia. discriminate.
Qed.

Definition boxRowPass (boxR : nat) (st : Board * bool) : Board * bool :=
  foldl (fun st boxC => scanHouse (boxUnit boxR boxC) st) st (seq 0 3).

Definition rowsPass (st : Board * bool) : Board * bool :=
  foldl (fun st r => scanHouse (rowUnit r) st) st (seq 0 9).
Definition colsPass (st : Board * bool) : Board * bool :=
  foldl (fun st c => scanHouse (colUnit c) st) st (seq 0 9).
Definition boxesPass (st : Board * bool) : Board * bool :=
  foldl (fun st boxR => boxRowPass boxR st) st (seq 0 3).

Lemma rowsPass_eq st : rowsPass st = foldl (fun st r => scanHouse (rowUnit r) st) st (seq 0 9).
Proof. reflexivity. Qed.

Lemma colsPass_eq st : colsPass st = foldl (fun st c => scanHouse (colUnit c) st) st (seq 0 9).
Proof. reflexivity. Qed.

Lemma boxesPass_eq st : boxesPass st = foldl (fun st boxR => boxRowPass boxR st) st (seq 0 3).
Proof. reflexivity. Qed.

Lemma boxRowPass_eq boxR st :
  boxRowPass boxR st = foldl (fun st boxC => scanHouse (boxUnit boxR boxC) st) st (seq 0 3).
Proof. reflexivity. Qed.

Lemma hiddenPass_eq st : hiddenPass st = boxesPass (colsPass (rowsPass st)).
Proof.
  unfold hiddenPass, boxesPass, boxRowPass, colsPass, rowsPass, scanHouse.
  cbv zeta. reflexivity.
Qed.

Lemma rowStep_advance st r :
  r ∈ seq 0 9 -> shape9 st.1 -> advance st (scanHouse (rowUnit r) st).
Proof.
  intros Hr%elem_of_seq Hs. apply scanHouse_advance; [apply rowUnit_house; lia|done].
Qed.

Lemma colStep_advance st c :
  c ∈ seq 0 9 -> shape9 st.1 -> advance st (scanHouse (colUnit c) st).
Proof.
  intros Hc%elem_of_seq Hs. apply scanHouse_advance; [apply colUnit_house; lia|done].
Qed.

Lemma boxStep_advance boxR st boxC :
  boxR < 3 -> boxC ∈ seq 0 3 -> shape9 st.1 ->
  advance st (scanHouse (boxUnit boxR boxC) st).
Proof.
  intros Hr Hc%elem_of_seq Hs. apply scanHouse_advance; [apply boxUnit_house; lia|done].
Qed.

Lemma boxRowPass_advance st boxR :
  boxR ∈ seq 0 3 -> shape9 st.1 -> advance st (boxRowPass boxR st).
Proof.
  intros Hr%elem_of_seq Hs. rewrite boxRowPass_eq.
  apply (foldl_advance (fun st boxC => scanHouse (boxUnit boxR boxC) st)); [|done].
  intros st' boxC Hc Hs'. apply boxStep_advance; [lia|done|done].
Qed.

Lemma rowsPass_advance st : shape9 st.1 -> advance st (rowsPass st).
Proof.
  intros Hs. rewrite rowsPass_eq.
  apply (foldl_advance (fun st r => scanHouse (rowUnit r) st)); [|done].
  intros st' r Hr Hs'. by apply rowStep_advance.
Qed.

Lemma colsPass_advance st : shape9 st.1 -> advance st (colsPass st).
Proof.
  intros Hs. rewrite colsPass_eq.
  apply (foldl_advance (fun st c => scanHouse (colUnit c) st)); [|done].
  intros st' c Hc Hs'. by apply colStep_advance.
Qed.

Lemma boxesPass_advance st : shape9 st.1 -> advance st (boxesPass st).
Proof.
  intros Hs. rewrite boxesPass_eq.
  apply (foldl_advance (fun st boxR => boxRowPass boxR st)); [|done].
  intros st' boxR Hr Hs'. by apply boxRowPass_advance.
Qed.

Lemma hiddenPass_advance st : shape9 st.1 -> advance st (hiddenPass st).
Proof.
  intros Hs. rewrite hiddenPass_eq.
  pose proof (rowsPass_advance st Hs) as H1.
  pose proof (colsPass_advance _ (advance_shape _ _ H1)) as H2.
  pose proof (boxesPass_advance _ (advance_shape _ _ H2)) as H3.
  eapply advance_trans; [exact H1|]. eapply advance_trans; [exact H2|exact H3].
Qed.

(** No digit has exactly one place left in a row, a column or a box. *)
Definition noHiddenSingle (b : Board) : Prop :=
  (forall r, r < 9 -> noHiddenSingleIn b (rowUnit r)) /\
  (forall c, c < 9 -> noHiddenSingleIn b (colUnit c)) /\
  (forall boxR boxC, boxR < 3 -> boxC < 3 -> noHiddenSingleIn b (boxUnit boxR boxC)).

Lemma advance_quiet st st' : advance st st' -> st'.2 = false -> st' = st.
Proof. intros [_ [E|[Hf _]]] Hq; [done|congruence]. Qed.

Lemma rowsPass_quiet b :
  shape9 b -> rowsPass (b, false) = (b, false) ->
  forall r, r < 9 -> noHiddenSingleIn b (rowUnit r).
Proof.
  intros Hs E r Hr.
  pose proof (foldl_quiet (fun st r => scanHouse (rowUnit r) st) (seq 0 9)
                (fun st r Hr Hst => rowStep_advance st r Hr Hst) (b, false) Hs) as Hq.
  rewrite rowsPass_eq in E. rewrite E in Hq. destruct (Hq eq_refl) as [_ Hall].
  assert (r ∈ seq 0 9) as Hmem by (apply elem_of_seq; lia).
  pose proof (Hall r Hmem) as Er. cbv beta in Er.
  apply scanHouse_quiet; [by apply rowUnit_house|exact Hs|]. rewrite Er. reflexivity.
Qed.

Lemma colsPass_quiet b :
  shape9 b -> colsPass (b, false) = (b, false) ->
  forall c, c < 9 -> noHiddenSingleIn b (colUnit c).
Proof.
  intros Hs E c Hc.
  pose proof (foldl_quiet (fun st c => scanHouse (colUnit c) st) (seq 0 9)
                (fun st c Hc Hst => colStep_advance st c Hc Hst) (b, false) Hs) as Hq.
  rewrite colsPass_eq in E. rewrite E in Hq. destruct (Hq eq_refl) as [_ Hall].
  assert (c ∈ seq 0 9) as Hmem by (apply elem_of_seq; lia).
  pose proof (Hall c Hmem) as Er. cbv beta in Er.
  apply scanHouse_quiet; [by apply colUnit_house|exact Hs|]. rewrite Er. reflexivity.
Qed.

Lemma boxesPass_quiet b :
  shape9 b -> boxesPass (b, false) = (b, false) ->
  forall boxR boxC, boxR < 3 -> boxC < 3 -> noHiddenSingleIn b (boxUnit boxR boxC).
Proof.
  intros Hs E boxR boxC Hr Hc.
  pose proof (foldl_quiet (fun st boxR => boxRowPass boxR st) (seq 0 3)
                (fun st r Hr Hst => boxRowPass_advance st r Hr Hst) (b, false) Hs) as Hq.
  rewrite boxesPass_eq in E. rewrite E in Hq. destruct (Hq eq_refl) as [_ Hall].
  assert (boxR ∈ seq 0 3) as Hmem by (apply elem_of_seq; lia).
  pose proof (Hall boxR Hmem) as Er. cbv beta in Er.
  pose proof (foldl_quiet (fun st boxC => scanHouse (boxUnit boxR boxC) st) (seq 0 3)
                (fun st c Hc Hst => boxStep_advance boxR st c Hr Hc Hst) (b, false) Hs)
    as Hq'.
  rewrite boxRowPass_eq in Er. rewrite Er in Hq'. destruct (Hq' eq_refl) as [_ Hall'].
  assert (boxC ∈ seq 0 3) as Hmem' by (apply elem_of_seq; lia).
  pose proof (Hall' boxC Hmem') as Ec. cbv beta in Ec.
  apply scanHouse_quiet; [by apply boxUnit_house|exact Hs|]. rewrite Ec. reflexivity.
Qed.

Lemma hiddenPass_quiet b :
  shape9 b -> (hiddenPass (b, false)).2 = false ->
  hiddenPass (b, false) = (b, false) /\ noHiddenSingle b.
Proof.
  intros Hs Hq. rewrite hiddenPass_eq in *.
  pose proof (rowsPass_advance (b, false) Hs) as H1.
  pose proof (colsPass_advance _ (advance_shape _ _ H1)) as H2.
  pose proof (boxesPass_advance _ (advance_shape _ _ H2)) as H3.
  pose proof (advance_quiet _ _ H3 Hq) as E3. rewrite E3 in Hq.
  pose proof (advance_quiet _ _ H2 Hq) as E2. rewrite E2 in Hq.
  pose proof (advance_quiet _ _ H1 Hq) as E1.
  rewrite E1 in E2. rewrite E1, E2 in E3.
  split; [rewrite E1, E2, E3; reflexivity|].
  split; [|split].
  - exact (rowsPass_quiet b Hs E1).
  - exact (colsPass_quiet b Hs E2).
  - exact (boxesPass_quiet b Hs E3).
Qed.

Lemma hiddenRound_spec b b1 changed1 b2 changed2 :
  shape9 b ->
  foldl nakedStep (b, false) cells = (b1, changed1) ->
  hiddenPass (b1, false) = (b2, changed2) ->
  refines b b1 /\ refines b1 b2 /\
  (if changed1 then emptyCount b1 < emptyCount b
   else b1 = b /\ noNakedSingle b /\
        if changed2 then emptyCount b2 < emptyCount b
        else b2 = b /\ noHiddenSingle b).
Proof.
  intros Hs H1 H2.
  apply nakedPass_spec in H1 as [Href1 Hprog1]; [|exact Hs].
  assert (shape9 b1) as Hs1 by (by destruct Href1).
  pose proof (hiddenPass_advance (b1, false) Hs1) as Hadv. rewrite H2 in Hadv.
  destruct Hadv as [Href2 Hprog2]. cbn [fst snd] in *.
  split; [exact Href1|]. split; [exact Href2|]. destruct changed1; [exact Hprog1|].
  destruct Hprog1 as [-> Hq]. split; [reflexivity|]. split; [exact Hq|]. destruct changed2.
  - destruct Hprog2 as [[=]|[_ Hlt]]. exact Hlt.
  - destruct (hiddenPass_quiet b Hs) as [E Hnh]; [rewrite H2; reflexivity|].
    rewrite H2 in E. injection E as ->. split; [reflexivity|exact Hnh].
Qed.

Lemma solveHiddenSingles_eq fuel b :
  solveHiddenSingles (S fuel) b =
  if (foldl nakedStep (b, false) cells).2
  then solveHiddenSingles fuel (foldl nakedStep (b, false) cells).1
  else if (hiddenPass ((foldl nakedStep (b, false) cells).1, false)).2
       then solveHiddenSingles fuel
              (hiddenPass ((foldl nakedStep (b, false) cells).1, false)).1
       else Done (hiddenPass ((foldl nakedStep (b, false) cells).1, false)).1.
Proof.
  cbn [solveHiddenSingles].
  destruct (foldl nakedStep (b, false) cells) as [b1 changed1]. cbn [fst snd].
  destruct changed1; [reflexivity|].
  by destruct (hiddenPass (b1, false)).
Qed.

Lemma solveHiddenSingles_spec (fuel : nat) :
  forall b b', shape9 b -> solveHiddenSingles fuel b = Done b' ->
    refines b b' /\ noNakedSingle b' /\ noHiddenSingle b'.
Proof.
  induction fuel as [|fuel IH]; intros b b' Hs H; [discriminate H|].
  rewrite solveHiddenSingles_eq in H.
  pose proof (fun b1 c1 b2 c2 => hiddenRound_spec b b1 c1 b2 c2 Hs) as Hround.
  revert H Hround. generalize (foldl nakedStep (b, false) cells).
  intros [b1 changed1]. cbn [fst snd]. intros H Hround.
  specialize (Hround b1 changed1).
  revert H Hround. generalize (hiddenPass (b1, false)).
  intros [b2 changed2]. cbn [fst snd]. intros H Hround.
  destruct (Hround b2 changed2 eq_refl eq_refl) as (Href1 & Href2 & Hprog). clear Hround.
  destruct changed1.
  { apply IH in H as [Href' Hq]; [|by destruct Href1].
    split; [exact (refines_trans _ _ _ Href1 Href')|exact Hq]. }
  destruct Hprog as (-> & Hnn & Hprog). destruct changed2.
  { apply IH in H as [Href' Hq]; [|by destruct Href2].
    split; [exact (refines_trans _ _ _ Href2 Href')|exact Hq]. }
  injection H as <-. destruct Hprog as [-> Hnh].
  split; [exact Href1|]. split; [exact Hnn|exact Hnh].
Qed.

Lemma solveHiddenSingles_total (fuel : nat) :
  forall b, shape9 b -> emptyCount b < fuel ->
    exists b', solveHiddenSingles fuel b = Done b'.
Proof.
  induction fuel as [|fuel IH]; intros b Hs Hfuel; [lia|].
  rewrite solveHiddenSingles_eq.
  pose proof (fun b1 c1 b2 c2 => hiddenRound_spec b b1 c1 b2 c2 Hs) as Hround.
  revert Hround. generalize (foldl nakedStep (b, false) cells).
  intros [b1 changed1]. cbn [fst snd]. intros Hround.
  specialize (Hround b1 changed1).
  revert Hround. generalize (hiddenPass (b1, false)).
  intros [b2 changed2]. cbn [fst snd]. intros Hround.
  destruct (Hround b2 changed2 eq_refl eq_refl) as (Href1 & Href2 & Hprog). clear Hround.
  destruct changed1.
  { apply IH; [by destruct Href1|lia]. }
  destruct Hprog as (-> & Hnn & Hprog). destruct changed2; [|eauto].
  apply IH; [by destruct Href2|lia].
Qed.

End SudokuHidden.

Module SudokuCarve.
Import Sudoku SudokuFacts SudokuMore SudokuSingles.
Local Open Scope nat_scope.

(** Every cell of [puzzle] is empty or as in [complete]. *)
Definition within (puzzle complete : Board) : Prop :=
  forall r c, r < 9 -> c < 9 -> get puzzle r c = 0 \/ get puzzle r c = get complete r c.

Lemma countClues_clear b r c :
  shape9 b -> r < 9 -> c < 9 -> get b r c <> 0 ->
  S (countClues (set b r c 0)) = countClues b.
Proof.
  intros Hs Hr Hc Hnz. unfold countClues.
  apply (countIf_drop (fun p : nat * nat => negb (get b p.1 p.2 =? 0))
                      (fun p : nat * nat => negb (get (set b r c 0) p.1 p.2 =? 0))
                      cells (r, c)); [apply NoDup_cells|by apply elem_of_cells| | |].
  - cbn [fst snd]. apply negb_true_iff. by apply Nat.eqb_neq.
  - cbn [fst snd]. by rewrite get_set_eq.
  - intros [r' c'] Hne. cbn [fst snd]. by rewrite get_set_ne.
Qed.

Lemma countClues_solved b : isSolved b = true -> countClues b = 81.
Proof.
  intros Hs. pose proof (countClues_emptyCount b) as E.
  assert (emptyCount b = 0) as E0; [|lia].
  unfold emptyCount, countIf. apply length_zero_iff_nil.
  unfold isSolved in Hs. rewrite forallb_forall in Hs.
  induction cells as [|p l IH]; [done|]. cbn [List.filter].
  pose proof (Hs p ltac:(by left)) as Hp. apply negb_true_iff in Hp. rewrite Hp.
  apply IH. intros q Hq. apply Hs. by right.
Qed.

(** The puzzle is the complete grid, or its level was checked against the
    target when its last cell was removed. *)
Definition graded (fuel targetDifficulty : nat) (complete puzzle : Board) : Prop :=
  puzzle = complete \/
  exists level, getDifficultyLevel fuel puzzle = Done level /\ level <= targetDifficulty.

Lemma carve_clues fuel targetDifficulty minClues complete :
  shape9 complete -> isSolved complete = true ->
  forall positions puzzle currentClues result,
    shape9 puzzle -> NoDup positions ->
    (forall p, p ∈ positions ->
       p ∈ cells /\ get puzzle p.1 p.2 = get complete p.1 p.2) ->
    within puzzle complete -> countClues puzzle = currentClues ->
    minClues <= currentClues ->
    graded fuel targetDifficulty complete puzzle ->
    carve fuel targetDifficulty minClues complete positions puzzle currentClues
      = Done result ->
    shape9 result /\ within result complete /\ minClues <= countClues result /\
    graded fuel targetDifficulty complete result.
Proof.
  intros Hsc Hfull. induction positions as [|pos rest IH];
    intros puzzle clues result Hs Hnd Hpos Hw Hcount Hmin Hgr H; cbn [carve] in H.
  - injection H as <-. rewrite Hcount. done.
  - destruct (Nat.leb_spec clues minClues) as [Hle|Hgt].
    { injection H as <-. rewrite Hcount. done. }
    cbv zeta in H.
    assert (set (set puzzle pos.1 pos.2 0) pos.1 pos.2 (get puzzle pos.1 pos.2) = puzzle)
      as Hrestore by (by rewrite set_set, set_get).
    rewrite Hrestore in H.
    apply NoDup_cons in Hnd as [Hnotin Hnd].
    assert (forall p, p ∈ rest ->
              p ∈ cells /\ get puzzle p.1 p.2 = get complete p.1 p.2) as Hrest.
    { intros p Hp. apply Hpos. by right. }
    assert (forall res, carve fuel targetDifficulty minClues complete rest puzzle clues
                          = Done res ->
              shape9 res /\ within res complete /\ minClues <= countClues res /\
              graded fuel targetDifficulty complete res) as Hskip.
    { intros res Hres. eapply IH; [exact Hs|exact Hnd|exact Hrest|exact Hw|exact Hcount|lia|
                                   exact Hgr|exact Hres]. }
    inv_bind H. rename a into solved. destruct solved as [sol|]; [|by apply Hskip].
    destruct (matchesComplete sol complete); [|by apply Hskip].
    inv_bind H. rename a into difficulty.
    destruct (Nat.leb_spec difficulty targetDifficulty) as [Hd|Hd]; [|by apply Hskip].
    destruct pos as [r c].
    destruct (Hpos (r, c) ltac:(by left)) as [[Hr Hc]%elem_of_cells Hv].
    cbn [fst snd] in *.
    assert (get puzzle r c <> 0) as Hnz.
    { rewrite Hv. by apply isSolved_spec. }
    eapply IH; [| | | | | | |exact H].
    + by apply shape9_set.
    + exact Hnd.
    + intros [pr pc] Hp. destruct (Hrest _ Hp) as [Hc' Hv']. split; [done|].
      cbn [fst snd] in *. rewrite get_set_ne; [done|]. intros E. apply Hnotin.
      by rewrite <- E.
    + intros r' c' Hr' Hc'. destruct (decide ((r', c') = (r, c))) as [[= -> ->]|Hne].
      * left. by apply get_set_eq.
      * rewrite get_set_ne by done. by apply Hw.
    + pose proof (countClues_clear puzzle r c Hs Hr Hc Hnz). lia.
    + lia.
    + right. exists difficulty. done.
Qed.

(** A pass of naked singles over a full board changes nothing. *)
Lemma nakedPass_solved b (l : list (nat * nat)) :
  (forall p, p ∈ l -> get b p.1 p.2 <> 0) -> foldl nakedStep (b, false) l = (b, false).
Proof.
  induction l as [|p l IH]; intros Hfull; cbn [foldl]; [done|].
  assert (nakedStep (b, false) p = (b, false)) as ->.
  { unfold nakedStep. pose proof (Hfull p ltac:(by left)) as Hp.
    apply Nat.eqb_neq in Hp. by rewrite Hp. }
  apply IH. intros q Hq. apply Hfull. by right.
Qed.

Lemma getDifficultyLevel_solved fuel b :
  isSolved b = true -> getDifficultyLevel (S fuel) b = Done 1.
Proof.
  intros Hs. unfold getDifficultyLevel. rewrite solveNakedSingles_eq.
  rewrite nakedPass_solved.
  - cbn [fst snd bind]. by rewrite Hs.
  - intros [r c] [Hr Hc]%elem_of_cells. by apply isSolved_spec.
Qed.

Lemma generatePuzzle_inv fuel targetDifficulty rnd puzzle solution rnd' :
  generatePuzzle fuel targetDifficulty rnd = Done (puzzle, solution, rnd') ->
  shape9 puzzle /\ within puzzle solution /\
  targetClues targetDifficulty <= countClues puzzle /\
  graded fuel targetDifficulty solution puzzle /\ isSolved solution = true /\ fuel <> 0.
Proof.
  unfold generatePuzzle. intros H. inv_bind H. destruct a as [complete rnd1].
  destruct (sortRandomly cells rnd1) as [positions rnd2] eqn:Hsort.
  inv_bind H. rename a into result. injection H as <- <- <-.
  pose proof (generateCompleteSudoku_spec _ _ _ _ Ha) as (Hs & Hsolved & Hvalid).
  assert (positions ≡ₚ cells) as Hperm.
  { pose proof (sortRandomly_Permutation cells rnd1) as Hp. by rewrite Hsort in Hp. }
  assert (NoDup positions) as Hnd by (rewrite Hperm; apply NoDup_cells).
  assert (forall p, p ∈ positions ->
            p ∈ cells /\ get complete p.1 p.2 = get complete p.1 p.2) as Hpos
    by (intros p Hp; split; [by rewrite <- Hperm|done]).
  assert (within complete complete) as Hw0 by (intros r c _ _; by right).
  assert (targetClues targetDifficulty <= 81) as Hmin0
    by (destruct targetDifficulty as [|[|[|[|[|[|]]]]]]; cbn; lia).
  destruct (carve_clues fuel targetDifficulty _ complete Hs Hsolved positions complete 81
              result Hs Hnd Hpos Hw0 (countClues_solved _ Hsolved) Hmin0
              (or_introl eq_refl) Ha0) as (Hs' & Hw & Hmin & Hgr).
  split; [exact Hs'|]. split; [exact Hw|]. split; [exact Hmin|]. split; [exact Hgr|].
  split; [exact Hsolved|]. intros ->. discriminate Ha.
Qed.

End SudokuCarve.

(** * Example boards and runs *)

Module Examples.

(** A random source that replays the listed values, then zeros. *)
Definition replay (l : list nat) : rng :=
  {| draws := fun i => nth i l O; pos := O |}.

(** [new SapperGame({ width, height, mines, noGuess, maxGenerationAttempts })],
    and the game after [initGrid()]. *)
Definition newSquare (w h mines : nat) (noGuess : bool) (attempts : nat)
    : Sapper.SapperGame :=
  Sapper.constructor
    {| Sapper.o_width := Some w; Sapper.o_height := Some h;
       Sapper.o_mines := Some mines; Sapper.o_noGuess := Some noGuess;
       Sapper.o_maxGenerationAttempts := Some attempts |}.

Definition square (w h mines : nat) (noGuess : bool) (attempts : nat)
    : Sapper.SapperGame :=
  Sapper.initGrid (newSquare w h mines noGuess attempts).

(** [new SapperShapesGame(grid, { mines, noGuess, maxGenerationAttempts })],
    and the game after [initGrid()]. *)
Definition newShaped (g : Grid.GridObject) (mines : nat) (noGuess : bool) (attempts : nat)
    : SapperShapes.SapperShapesGame :=
  SapperShapes.constructor g
    {| SapperShapes.o_mines := Some mines; SapperShapes.o_noGuess := Some noGuess;
       SapperShapes.o_useExtendedNeighbors := None;
       SapperShapes.o_maxGenerationAttempts := Some attempts |} 2.

Definition shaped (g : Grid.GridObject) (mines : nat) (noGuess : bool) (attempts : nat)
    : SapperShapes.SapperShapesGame :=
  SapperShapes.initGrid (newShaped g mines noGuess attempts).

Definition hex4 : Grid.GridObject := Grid.HexGrid.new 4 4.

(** The board after a completed first click. *)
Definition afterClick {R S} (o : outcome (R * S * rng)) : outcome S :=
  '(_, s, _) <- o; Done s.

(** A square board with the mines (4,0), (4,1), (4,2), (4,3) and (2,4),
    and a hexagonal board with the mines (3,0), (1,1) and (2,1); both are
    live after the first click at (0,0). *)
Definition squareLive : outcome (Sapper.FirstClickResult * Sapper.SapperGame * rng) :=
  Sapper.handleFirstClick 30 (square 5 5 5 false 1) 0 0
    (replay [4; 0; 4; 1; 4; 2; 4; 3; 2; 4]%nat).

Definition hexLive
    : outcome (SapperShapes.FirstClickResult * SapperShapes.SapperShapesGame * rng) :=
  SapperShapes.handleFirstClick 30 (shaped hex4 3 false 1) 0 0 (replay []).


(** On the live hexagonal board: flag the mine (3,0), then reveal the mine
    (1,1). *)
Definition hexFlagThenHit : outcome SapperShapes.SapperShapesGame :=
  '(_, s1, _) <- hexLive;
  '(_, s2) <- SapperShapes.toggleFlag s1 3 0;
  '(_, s3) <- SapperShapes.revealCell 30 s2 1 1;
  Done s3.

(** On the live square board: reveal the mine (4,0). *)
Definition squareHit : outcome (Sapper.RevealResult * Sapper.SapperGame) :=
  s <- afterClick squareLive; Sapper.revealCell 1 s 4 0.

(** The live hexagonal board with a flag on the mine (1,1). *)
Definition hexFlagged : outcome SapperShapes.SapperShapesGame :=
  s <- afterClick hexLive;
  '(_, s') <- SapperShapes.toggleFlag s 1 1;
  Done s'.

(** A no-guess square board whose only attempt rings the click with mines,
    so that generation fails; the fallback then puts the mines in the
    column x = 4. *)
Definition squareFallback : outcome (Sapper.FirstClickResult * Sapper.SapperGame * rng) :=
  Sapper.handleFirstClick 30 (square 5 5 5 true 1) 0 0
    (replay [2; 0; 2; 1; 2; 2; 1; 2; 0; 2; 4; 0; 4; 1; 4; 2; 4; 3; 4; 4]%nat).

(** A first click outside a 2x2 no-guess board. *)
Definition squareOutside : outcome (Sapper.FirstClickResult * Sapper.SapperGame * rng) :=
  Sapper.handleFirstClick 30 (square 2 2 1 true 3) (-5) (-5) (replay []).

(** A puzzle of level 1 generated from a source of zeros. *)
Definition puzzle1 : outcome (Sudoku.Board * Sudoku.Board * rng) :=
  Sudoku.generatePuzzle 100 1 (replay []).

(** The live square board with flags on the mines (4,2), (4,3) and (2,4)
    around the revealed cell (3,3), which shows a 3. *)
Definition squareChord : Sapper.SapperGame :=
  Eval vm_compute in
    match (s <- afterClick squareLive;
           '(_, s1) <- Sapper.toggleFlag s 4 2;
           '(_, s2) <- Sapper.toggleFlag s1 4 3;
           '(_, s3) <- Sapper.toggleFlag s2 2 4;
           Done s3) with
    | Done s => s
    | _ => square 5 5 5 false 1
    end.

(** The same board with the third flag on the safe cell (4,4) instead of
    the mine (2,4). *)
Definition squareMisflagged : Sapper.SapperGame :=
  Eval vm_compute in
    match (s <- afterClick squareLive;
           '(_, s1) <- Sapper.toggleFlag s 4 2;
           '(_, s2) <- Sapper.toggleFlag s1 4 3;
           '(_, s3) <- Sapper.toggleFlag s2 4 4;
           Done s3) with
    | Done s => s
    | _ => square 5 5 5 false 1
    end.

(** A no-guess square board whose only attempt rings the click with mines,
    so that generation fails; the fallback then puts the mines at (4,0),
    (4,1), (4,2), (4,3) and (2,4), which leaves cells to find after the
    first click. *)
Definition squareFallbackLive
    : outcome (Sapper.FirstClickResult * Sapper.SapperGame * rng) :=
  Sapper.handleFirstClick 30 (square 5 5 5 true 1) 0 0
    (replay [2; 0; 2; 1; 2; 2; 1; 2; 0; 2; 4; 0; 4; 1; 4; 2; 4; 3; 2; 4]%nat).

(** A no-guess hexagonal board whose only attempt is rejected; the fallback
    leaves a live game. *)
Definition hexFallbackLive
    : outcome (SapperShapes.FirstClickResult * SapperShapes.SapperShapesGame * rng) :=
  SapperShapes.handleFirstClick 30 (shaped hex4 3 true 1) 0 0 (replay []).

(** No-guess boards that the first reveal does not clear: a square board
    with the mines (4,0), (4,1), (4,2), (4,3) and (2,4), and a hexagonal
    board with the mines (2,0), (1,1) and (2,1). *)
Definition squareDeduce : outcome (Sapper.FirstClickResult * Sapper.SapperGame * rng) :=
  Sapper.handleFirstClick 30 (square 5 5 5 true 1) 0 0
    (replay [4; 0; 4; 1; 4; 2; 4; 3; 2; 4]%nat).

Definition hexDeduce
    : outcome (SapperShapes.FirstClickResult * SapperShapes.SapperShapesGame * rng) :=
  SapperShapes.handleFirstClick 30 (shaped hex4 3 true 1) 0 0
    (replay (replicate 12 1%nat)).

End Examples.

Module SapperBoards.

(** The live square board of [Examples.squareLive]: 5x5 with the mines
    (4,0), (4,1), (4,2), (4,3) and (2,4), after the first click at (0,0). *)
Definition live : Sapper.SapperGame :=
  Eval vm_compute in
    match Examples.afterClick Examples.squareLive with
    | Done s => s
    | _ => Examples.square 5 5 5 false 1
    end.

End SapperBoards.

(** * The claims of the specification *)

Module Claims.
Import Deduction Inference.

(** C1: on a board configured with [noGuess], a first click that returns
    [success = true] leaves a mine layout that is solved by pure deduction.
    The numbers of the committed board are the counts of the mines around
    each cell without a mine.  A run of the deduction starts from a state
    with nothing revealed and no known mine, flood-fills the clicked cell,
    revealing a cell whatever it holds and cascading at a zero, and applies
    Rule A and Rule B to the displayed numbers up to a state where neither
    applies.  Such a run exists, and every run, in whichever order the
    rules are applied, never reveals a mine, marks mines only, and reveals
    every cell of the board without a mine.  This holds in the square-grid
    engine for the mines of the committed grid.  In the shape-grid engine
    it holds for the committed layout [mineLocations], which gives the
    mines of every cell of the board; on a board that the public methods
    reach, which holds no mine before its first click, it holds for the
    mines of the cell objects as [isMine] reports them. *)
Theorem C1_no_guess_success_is_solvable :
  (forall fuel s x y rnd r s' rnd',
     Sapper.noGuess s = true ->
     Sapper.handleFirstClick fuel s x y rnd = Done (r, s', rnd') ->
     Sapper.fc_success r = true ->
     (forall k, SapperSolve.onBoard (Sapper.width s') (Sapper.height s') k = true ->
        SapperSolve.mineIn (Sapper.grid s') k = false ->
        SapperSolve.numberIn (Sapper.grid s') k =
        minesNear (SapperSolve.around (Sapper.width s') (Sapper.height s'))
                  (SapperSolve.mineIn (Sapper.grid s')) k) /\
     deducible (SapperSolve.onBoard (Sapper.width s') (Sapper.height s'))
               (SapperSolve.around (Sapper.width s') (Sapper.height s'))
               (SapperSolve.mineIn (Sapper.grid s'))
               (coords (Sapper.width s') (Sapper.height s')) (x, y)) /\
  (forall fuel s x y rnd r s' rnd',
     SapperShapes.noGuess s = true ->
     SapperShapes.handleFirstClick fuel s x y rnd = Done (r, s', rnd') ->
     SapperShapes.fc_success r = true ->
     (forall k, k ∈ coords (SapperShapes.width s') (SapperShapes.height s') ->
        ShapesSolve.mineOf s' k = ShapesDeduce.listed s' k /\
        (ShapesDeduce.listed s' k = false ->
         ShapesSolve.numberOf s' k =
         minesNear (ShapesSolve.around s') (ShapesDeduce.listed s') k)) /\
     deducible (ShapesSolve.onBoard s') (ShapesSolve.around s') (ShapesDeduce.listed s')
               (coords (SapperShapes.width s') (SapperShapes.height s')) (x, y)) /\
  (forall fuel s x y rnd r s' rnd',
     ShapesFacts.reachable s ->
     SapperShapes.noGuess s = true ->
     SapperShapes.handleFirstClick fuel s x y rnd = Done (r, s', rnd') ->
     SapperShapes.fc_success r = true ->
     (forall k, k ∈ coords (SapperShapes.width s') (SapperShapes.height s') ->
        ShapesSolve.mineOf s' k = false ->
        ShapesSolve.numberOf s' k =
        minesNear (ShapesSolve.around s') (ShapesSolve.mineOf s') k) /\
     deducible (ShapesSolve.onBoard s') (ShapesSolve.around s') (ShapesSolve.mineOf s')
               (coords (SapperShapes.width s') (SapperShapes.height s')) (x, y)).
Proof.
  split; [|split].
  - intros fuel s x y rnd r s' rnd'. apply SapperDeduce.firstClick_deducible.
  - intros fuel s x y rnd r s' rnd' Hng H Hok.
    destruct (ShapesDeduce.shapes_firstClick_deducible fuel s x y rnd r s' rnd' Hng H Hok)
      as (Hcells & Hded & _).
    split; [exact Hcells|exact Hded].
  - intros fuel s x y rnd r s' rnd' Hreach Hng H Hok.
    destruct (ShapesDeduce.shapes_firstClick_deducible fuel s x y rnd r s' rnd' Hng H Hok)
      as (_ & _ & Hclean).
    apply Hclean. apply ShapesDeduce.reachable_clean; [done|].
    destruct (SapperShapes.minesPlaced s) eqn:E; [|done].
    rewrite ShapesFacts.shapes_handleFirstClick_again in H by done.
    injection H as <- _ _. done.
Qed.

Lemma C1_witness :
  (exists r s' rnd',
     Examples.squareDeduce = Done (r, s', rnd') /\ Sapper.fc_success r = true /\
     Sapper.gameOver s' = false /\
     deducible (SapperSolve.onBoard (Sapper.width s') (Sapper.height s'))
               (SapperSolve.around (Sapper.width s') (Sapper.height s'))
               (SapperSolve.mineIn (Sapper.grid s'))
               (coords (Sapper.width s') (Sapper.height s')) (0, 0)) /\
  (exists r s' rnd',
     Examples.hexDeduce = Done (r, s', rnd') /\ SapperShapes.fc_success r = true /\
     SapperShapes.gameOver s' = false /\
     deducible (ShapesSolve.onBoard s') (ShapesSolve.around s') (ShapesDeduce.listed s')
               (coords (SapperShapes.width s') (SapperShapes.height s')) (0, 0) /\
     deducible (ShapesSolve.onBoard s') (ShapesSolve.around s') (ShapesSolve.mineOf s')
               (coords (SapperShapes.width s') (SapperShapes.height s')) (0, 0)).
Proof.
  split.
  - assert (match Examples.squareDeduce with
            | Done (r, s', _) => Sapper.fc_success r && negb (Sapper.gameOver s')
            | _ => false
            end = true) as Hok by (vm_compute; reflexivity).
    revert Hok. unfold Examples.squareDeduce.
    destruct (Sapper.handleFirstClick 30 (Examples.square 5 5 5 true 1) 0 0
                (Examples.replay [4; 0; 4; 1; 4; 2; 4; 3; 2; 4]%nat))
      as [[[r s'] rnd']| |] eqn:E; [|discriminate..].
    intros [Hok Hlive%negb_true_iff]%andb_true_iff.
    exists r, s', rnd'. split; [reflexivity|]. split; [exact Hok|]. split; [exact Hlive|].
    exact (proj2 (proj1 C1_no_guess_success_is_solvable 30%nat
                    (Examples.square 5 5 5 true 1) 0 0
                    (Examples.replay [4; 0; 4; 1; 4; 2; 4; 3; 2; 4]%nat)
                    r s' rnd' eq_refl E Hok)).
  - assert (match Examples.hexDeduce with
            | Done (r, s', _) =>
              SapperShapes.fc_success r && negb (SapperShapes.gameOver s')
            | _ => false
            end = true) as Hok by (vm_compute; reflexivity).
    revert Hok. unfold Examples.hexDeduce.
    destruct (SapperShapes.handleFirstClick 30 (Examples.shaped Examples.hex4 3 true 1) 0 0
                (Examples.replay (replicate 12 1%nat))) as [[[r s'] rnd']| |] eqn:E;
      [|discriminate..].
    intros [Hok Hlive%negb_true_iff]%andb_true_iff.
    exists r, s', rnd'. split; [reflexivity|]. split; [exact Hok|]. split; [exact Hlive|].
    split.
    + exact (proj2 (proj1 (proj2 C1_no_guess_success_is_solvable) 30%nat
                      (Examples.shaped Examples.hex4 3 true 1) 0 0
                      (Examples.replay (replicate 12 1%nat)) r s' rnd' eq_refl E Hok)).
    + exact (proj2 (proj2 (proj2 C1_no_guess_success_is_solvable) 30%nat
                      (Examples.shaped Examples.hex4 3 true 1) 0 0
                      (Examples.replay (replicate 12 1%nat)) r s' rnd'
                      (ShapesFacts.reach_initGrid _ (ShapesFacts.reach_new _ _ _))
                      eq_refl E Hok)).
Defined.

(** C2: after [handleFirstClick(x, y)] on a fresh board, whatever the
    configuration and whichever way the mines were placed (random placement,
    a generated no-guess board, or the fallback after exhausted attempts),
    neither the clicked cell nor any of its neighbors is a mine: in the
    square engine no cell of the 3x3 block around the click, in the shape
    engine neither the cell nor any neighbor that the topology lists. *)
Theorem C2_first_click_is_safe :
  (forall fuel s0 x y rnd r s' rnd',
     Sapper.handleFirstClick fuel (Sapper.initGrid s0) x y rnd = Done (r, s', rnd') ->
     forall dx dy, -1 <= dx <= 1 -> -1 <= dy <= 1 ->
       Sapper.isMine s' (x + dx) (y + dy) = Done false) /\
  (forall fuel s0 x y rnd r s' rnd',
     SapperShapes.handleFirstClick fuel (SapperShapes.initGrid s0) x y rnd
       = Done (r, s', rnd') ->
     SapperShapes.isMine s' x y = false /\
     forall n, n ∈ SapperShapes._getNeighbors s' x y ->
       SapperShapes.isMine s' n.1 n.2 = false).
Proof.
  split.
  - intros fuel s0 x y rnd r s' rnd'. apply SapperFacts.firstClick_safe.
  - intros fuel s0 x y rnd r s' rnd'. apply ShapesFacts.shapes_firstClick_safe.
Qed.

Lemma C2_witness :
  (exists r s' rnd',
     Examples.squareLive = Done (r, s', rnd') /\
     forall dx dy, -1 <= dx <= 1 -> -1 <= dy <= 1 ->
       Sapper.isMine s' (0 + dx) (0 + dy) = Done false) /\
  (exists r s' rnd',
     Examples.hexLive = Done (r, s', rnd') /\
     SapperShapes.isMine s' 0 0 = false /\
     forall n, n ∈ SapperShapes._getNeighbors s' 0 0 ->
       SapperShapes.isMine s' n.1 n.2 = false).
Proof.
  split.
  - assert (match Examples.squareLive with Done _ => true | _ => false end = true)
      as Hok by (vm_compute; reflexivity).
    revert Hok. unfold Examples.squareLive.
    destruct (Sapper.handleFirstClick 30 (Examples.square 5 5 5 false 1) 0 0
                (Examples.replay [4; 0; 4; 1; 4; 2; 4; 3; 2; 4]%nat))
      as [[[r s'] rnd']| |] eqn:E; [|discriminate..].
    intros _. exists r, s', rnd'. split; [reflexivity|].
    exact (proj1 C2_first_click_is_safe _ _ _ _ _ _ _ _ E).
  - assert (match Examples.hexLive with Done _ => true | _ => false end = true)
      as Hok by (vm_compute; reflexivity).
    revert Hok. unfold Examples.hexLive.
    destruct (SapperShapes.handleFirstClick 30 (Examples.shaped Examples.hex4 3 false 1) 0 0
                (Examples.replay [])) as [[[r s'] rnd']| |] eqn:E; [|discriminate..].
    intros _. exists r, s', rnd'. split; [reflexivity|].
    exact (proj2 C2_first_click_is_safe _ _ _ _ _ _ _ _ E).
Defined.




(** C4 (amended): revealing an unflagged, unrevealed mine of a live board
    loses the game: [gameOver] becomes true, [won] stays false and the
    result has [hit = true] and [lost = true].  In the shape-grid engine
    every mine of the board is then revealed.  In the square-grid engine
    the clicked mine is the only cell that the call reveals; the other
    mines stay as they were. *)
Theorem C4_mine_hit_loses :
  (forall fuel s x y,
     Sapper.gameOver s = false -> Sapper.isMine s x y = Done true ->
     Sapper.isRevealed s x y = Done false -> Sapper.isFlagged s x y = Done false ->
     exists rv,
       set2 (Sapper.revealed s) x y true = Done rv /\
       Sapper.revealCell (S fuel) s x y =
         Done ({| Sapper.r_hit := true; Sapper.r_revealed := [(x, y)];
                  Sapper.r_won := false; Sapper.r_lost := true |},
               Sapper.with_over (Sapper.with_revealed s rv) true false)) /\
  (forall fuel s x y,
     ShapesFacts.reachable s -> SapperShapes.gameOver s = false ->
     Grid.isInBounds (SapperShapes.grid s) x y = true ->
     SapperShapes.isMine s x y = true -> SapperShapes.isRevealed s x y = false ->
     SapperShapes.isFlagged s x y = false ->
     exists s',
       SapperShapes.revealCell (S fuel) s x y =
         Done ({| SapperShapes.r_hit := true; SapperShapes.r_revealed := [(x, y)];
                  SapperShapes.r_won := false; SapperShapes.r_lost := true |}, s') /\
       SapperShapes.gameOver s' = true /\ SapperShapes.won s' = false /\
       forall k, SapperShapes.isMine s' k.1 k.2 = true ->
                 SapperShapes.isRevealed s' k.1 k.2 = true).
Proof.
  split.
  - intros fuel s x y. apply SapperFacts.revealCell_mine.
  - intros fuel s x y Hreach Hgo Hin Hm Hr Hf.
    apply ShapesFacts.shapes_isMine_true in Hm as (c & Hc & Hmc).
    unfold SapperShapes.isRevealed in Hr. unfold SapperShapes.isFlagged in Hf.
    rewrite Hc in Hr, Hf.
    destruct (ShapesFacts.shapes_revealCell_mine fuel s x y c
                (ShapesFacts.reachable_minesListed s Hreach) Hgo Hin Hc Hr Hf Hmc)
      as (s' & Hrev & Hover & Hwon & Hall).
    exists s'. split; [done|]. split; [done|]. split; [done|].
    intros [kx ky] Hk. apply ShapesFacts.shapes_isMine_true in Hk as (c' & Hc' & Hmc').
    unfold SapperShapes.isRevealed. cbn [fst snd] in *. rewrite Hc'. by eapply Hall.
Qed.

Lemma C4_witness :
  (exists s rv,
     Examples.afterClick Examples.squareLive = Done s /\
     set2 (Sapper.revealed s) 4 0 true = Done rv /\
     Sapper.revealCell 1 s 4 0 =
       Done ({| Sapper.r_hit := true; Sapper.r_revealed := [(4, 0)];
                Sapper.r_won := false; Sapper.r_lost := true |},
             Sapper.with_over (Sapper.with_revealed s rv) true false)) /\
  (exists s s',
     Examples.afterClick Examples.hexLive = Done s /\
     SapperShapes.revealCell 1 s 3 0 =
       Done ({| SapperShapes.r_hit := true; SapperShapes.r_revealed := [(3, 0)];
                SapperShapes.r_won := false; SapperShapes.r_lost := true |}, s') /\
     SapperShapes.gameOver s' = true /\ SapperShapes.won s' = false /\
     forall k, SapperShapes.isMine s' k.1 k.2 = true ->
               SapperShapes.isRevealed s' k.1 k.2 = true).
Proof.
  split.
  - assert (match Examples.afterClick Examples.squareLive with
            | Done s =>
              negb (Sapper.gameOver s)
              && match Sapper.isMine s 4 0 with Done true => true | _ => false end
              && match Sapper.isRevealed s 4 0 with Done false => true | _ => false end
              && match Sapper.isFlagged s 4 0 with Done false => true | _ => false end
            | _ => false
            end = true) as Hrun by (vm_compute; reflexivity).
    destruct (Examples.afterClick Examples.squareLive) as [s| |]; [|discriminate..].
    apply andb_true_iff in Hrun as [Hrun Hf]. apply andb_true_iff in Hrun as [Hrun Hr].
    apply andb_true_iff in Hrun as [Hgo Hm]. apply negb_true_iff in Hgo.
    destruct (Sapper.isMine s 4 0) as [[]| |] eqn:Em; try discriminate.
    destruct (Sapper.isRevealed s 4 0) as [[]| |] eqn:Er; try discriminate.
    destruct (Sapper.isFlagged s 4 0) as [[]| |] eqn:Ef; try discriminate.
    destruct (proj1 C4_mine_hit_loses O s 4 0 Hgo Em Er Ef) as (rv & Hset & Hrev).
    exists s, rv. split; [reflexivity|]. split; [exact Hset|exact Hrev].
  - assert (match Examples.afterClick Examples.hexLive with
            | Done s =>
              negb (SapperShapes.gameOver s)
              && Grid.isInBounds (SapperShapes.grid s) 3 0
              && SapperShapes.isMine s 3 0
              && negb (SapperShapes.isRevealed s 3 0)
              && negb (SapperShapes.isFlagged s 3 0)
            | _ => false
            end = true) as Hrun by (vm_compute; reflexivity).
    revert Hrun. unfold Examples.afterClick, Examples.hexLive.
    destruct (SapperShapes.handleFirstClick 30 (Examples.shaped Examples.hex4 3 false 1) 0 0
                (Examples.replay [])) as [[[r s] rnd']| |] eqn:E; [|discriminate..].
    cbn [bind]. intros Hrun.
    apply andb_true_iff in Hrun as [Hrun Hf%negb_true_iff].
    apply andb_true_iff in Hrun as [Hrun Hr%negb_true_iff].
    apply andb_true_iff in Hrun as [Hrun Hm].
    apply andb_true_iff in Hrun as [Hgo%negb_true_iff Hin].
    assert (ShapesFacts.reachable s) as Hreach.
    { eapply ShapesFacts.reach_handleFirstClick; [|exact E].
      apply ShapesFacts.reach_initGrid. apply ShapesFacts.reach_new. }
    destruct (proj2 C4_mine_hit_loses O s 3 0 Hreach Hgo Hin Hm Hr Hf)
      as (s' & Hrev & Hrest).
    exists s, s'. split; [reflexivity|]. split; [exact Hrev|exact Hrest].
Defined.

(** C4, as stated, fails in the square-grid engine: on a live board with
    the mines (4,0), (4,1), (4,2), (4,3) and (2,4), revealing the mine
    (4,0) loses the game and leaves the mine (4,1) unrevealed. *)
Lemma C4_counterexample :
  exists r s',
    Examples.squareHit = Done (r, s') /\
    Sapper.r_hit r = true /\ Sapper.r_lost r = true /\ Sapper.gameOver s' = true /\
    Sapper.isMine s' 4 1 = Done true /\ Sapper.isRevealed s' 4 1 = Done false.
Proof.
  assert (match Examples.squareHit with
          | Done (r, s') =>
            Sapper.r_hit r && Sapper.r_lost r && Sapper.gameOver s'
            && match Sapper.isMine s' 4 1 with Done true => true | _ => false end
            && match Sapper.isRevealed s' 4 1 with Done false => true | _ => false end
          | _ => false
          end = true) as Hrun by (vm_compute; reflexivity).
  destruct Examples.squareHit as [[r s']| |]; [|discriminate..].
  apply andb_true_iff in Hrun as [Hrun Hr]. apply andb_true_iff in Hrun as [Hrun Hm].
  apply andb_true_iff in Hrun as [Hrun Hgo]. apply andb_true_iff in Hrun as [Hhit Hlost].
  destruct (Sapper.isMine s' 4 1) as [[]| |] eqn:Em; try discriminate.
  destruct (Sapper.isRevealed s' 4 1) as [[]| |] eqn:Er; try discriminate.
  exists r, s'. done.
Qed.

(** C5 (amended): in every state that a sequence of [initGrid],
    [handleFirstClick], [revealCell], [toggleFlag] and [chordReveal] calls
    reaches from a constructed game, the square-grid engine has no cell that
    is flagged and revealed at once.  In the shape-grid engine a cell can be
    flagged and revealed only after a loss ([gameOver = true] and
    [won = false]): losing reveals every mine, flagged ones included. *)
Theorem C5_flag_reveal_invariant :
  (forall s, SapperFacts.reachable s ->
     forall x y, ~ (Sapper.isFlagged s x y = Done true /\
                    Sapper.isRevealed s x y = Done true)) /\
  (forall s, ShapesFacts.reachable s ->
     forall x y, SapperShapes.isFlagged s x y = true ->
                 SapperShapes.isRevealed s x y = true ->
                 SapperShapes.gameOver s = true /\ SapperShapes.won s = false).
Proof.
  split.
  - intros s Hreach x y [Hf%SapperFacts.isFlagged_true Hr%SapperFacts.isRevealed_true].
    by apply (SapperFacts.reachable_flagInv s Hreach x y).
  - intros s Hreach x y Hf Hr.
    unfold SapperShapes.isFlagged in Hf. unfold SapperShapes.isRevealed in Hr.
    destruct (SapperShapes.cells s !! (x, y)) as [c|] eqn:Hc; [|done].
    by apply (ShapesFacts.shapes_reachable_flagInv s Hreach (x, y) c).
Qed.

Lemma C5_witness :
  (exists s,
     Examples.afterClick Examples.squareLive = Done s /\
     forall x y, ~ (Sapper.isFlagged s x y = Done true /\
                    Sapper.isRevealed s x y = Done true)) /\
  (exists s,
     Examples.hexFlagThenHit = Done s /\
     forall x y, SapperShapes.isFlagged s x y = true ->
                 SapperShapes.isRevealed s x y = true ->
                 SapperShapes.gameOver s = true /\ SapperShapes.won s = false).
Proof.
  split.
  - assert (match Examples.squareLive with Done _ => true | _ => false end = true)
      as Hrun by (vm_compute; reflexivity).
    revert Hrun. unfold Examples.afterClick, Examples.squareLive.
    destruct (Sapper.handleFirstClick 30 (Examples.square 5 5 5 false 1) 0 0
                (Examples.replay [4; 0; 4; 1; 4; 2; 4; 3; 2; 4]%nat))
      as [[[r s] rnd']| |] eqn:E; [|discriminate..].
    intros _. exists s. split; [reflexivity|].
    apply (proj1 C5_flag_reveal_invariant).
    eapply SapperFacts.reach_handleFirstClick; [|exact E].
    apply SapperFacts.reach_initGrid. apply SapperFacts.reach_new.
  - assert (match Examples.hexFlagThenHit with Done _ => true | _ => false end = true)
      as Hrun by (vm_compute; reflexivity).
    revert Hrun. unfold Examples.hexFlagThenHit, Examples.hexLive.
    destruct (SapperShapes.handleFirstClick 30 (Examples.shaped Examples.hex4 3 false 1) 0 0
                (Examples.replay [])) as [[[r1 s1] rnd1]| |] eqn:E1; [|discriminate..].
    cbn [bind].
    destruct (SapperShapes.toggleFlag s1 3 0) as [[r2 s2]| |] eqn:E2; [|discriminate..].
    cbn [bind].
    destruct (SapperShapes.revealCell 30 s2 1 1) as [[r3 s3]| |] eqn:E3; [|discriminate..].
    cbn [bind]. intros _. exists s3. split; [reflexivity|].
    apply (proj2 C5_flag_reveal_invariant).
    eapply ShapesFacts.reach_revealCell; [|exact E3].
    eapply ShapesFacts.reach_toggleFlag; [|exact E2].
    eapply ShapesFacts.reach_handleFirstClick; [|exact E1].
    apply ShapesFacts.reach_initGrid. apply ShapesFacts.reach_new.
Defined.

(** C5, as stated, fails in the shape-grid engine: on the live hexagonal
    board with the mines (3,0), (1,1) and (2,1), flagging the mine (3,0)
    and then revealing the mine (1,1) reaches a state in which the cell
    (3,0) is flagged and revealed. *)
Lemma C5_counterexample :
  exists s,
    ShapesFacts.reachable s /\ Examples.hexFlagThenHit = Done s /\
    SapperShapes.isFlagged s 3 0 = true /\ SapperShapes.isRevealed s 3 0 = true.
Proof.
  assert (match Examples.hexFlagThenHit with
          | Done s => SapperShapes.isFlagged s 3 0 && SapperShapes.isRevealed s 3 0
          | _ => false
          end = true) as Hrun by (vm_compute; reflexivity).
  revert Hrun. unfold Examples.hexFlagThenHit, Examples.hexLive.
  destruct (SapperShapes.handleFirstClick 30 (Examples.shaped Examples.hex4 3 false 1) 0 0
              (Examples.replay [])) as [[[r1 s1] rnd1]| |] eqn:E1; [|discriminate..].
  cbn [bind].
  destruct (SapperShapes.toggleFlag s1 3 0) as [[r2 s2]| |] eqn:E2; [|discriminate..].
  cbn [bind].
  destruct (SapperShapes.revealCell 30 s2 1 1) as [[r3 s3]| |] eqn:E3; [|discriminate..].
  cbn [bind]. intros [Hf Hr]%andb_true_iff. exists s3.
  split; [|split; [reflexivity|split; [exact Hf|exact Hr]]].
  eapply ShapesFacts.reach_revealCell; [|exact E3].
  eapply ShapesFacts.reach_toggleFlag; [|exact E2].
  eapply ShapesFacts.reach_handleFirstClick; [|exact E1].
  apply ShapesFacts.reach_initGrid. apply ShapesFacts.reach_new.
Qed.

(** C6 (amended): [chordReveal(x, y)] has no effect (the empty result, the
    same state) unless the cell is revealed, its adjacency count is strictly
    positive and the number of its flagged neighbors equals that count.
    When the condition holds in a live game, the chord is the sequence of
    ordinary [revealCell] calls on exactly its unflagged neighbors, in the
    order of the neighbor loop: the state is threaded through the calls, the
    revealed cells are concatenated and a mine hit of any call is reported.
    Its effect: [lost] equals [hit] and [won] is the state's flag; after a
    hit the game is lost; without a hit every unflagged neighbor on the
    board that holds no mine is revealed, the result lists exactly the cells
    that the chord has revealed, each once, and the game is over only if it
    is won.  This holds in both engines. *)
Theorem C6_chord_reveal :
  (forall fuel s x y r s',
     Sapper.chordReveal fuel s x y = Done (r, s') ->
     ~ (Sapper.isRevealed s x y = Done true /\
        exists g, Sapper.getCell s x y = Done (Some g) /\ 0 < g /\
                  Sapper._countAdjacentFlags s x y = Done (Z.to_nat g)) ->
     r = Sapper.noEffect /\ s' = s) /\
  (forall fuel s x y g,
     SapperFacts.wf s -> Sapper.gameOver s = false ->
     Sapper.isRevealed s x y = Done true -> Sapper.getCell s x y = Done (Some g) ->
     0 < g -> Sapper._countAdjacentFlags s x y = Done (Z.to_nat g) ->
     Sapper.chordReveal fuel s x y =
     ('(s', allRevealed, hitMine) <-
        foldM (SapperFacts.revealOne fuel) (SapperFacts.unflaggedNeighbors s x y)
              (s, [], false);
      Done ({| Sapper.r_hit := hitMine; Sapper.r_revealed := allRevealed;
               Sapper.r_won := Sapper.won s'; Sapper.r_lost := hitMine |}, s'))) /\
  (forall fuel s x y g r s',
     SapperFacts.wf s -> Sapper.gameOver s = false ->
     Sapper.isRevealed s x y = Done true -> Sapper.getCell s x y = Done (Some g) ->
     0 < g -> Sapper._countAdjacentFlags s x y = Done (Z.to_nat g) ->
     Sapper.chordReveal fuel s x y = Done (r, s') ->
     NoDup (Sapper.r_revealed r) /\
     (forall px py, (px, py) ∈ Sapper.r_revealed r <->
        at2 (Sapper.revealed s) px py = Done false /\
        at2 (Sapper.revealed s') px py = Done true) /\
     Sapper.r_lost r = Sapper.r_hit r /\ Sapper.r_won r = Sapper.won s' /\
     (Sapper.r_hit r = true -> Sapper.gameOver s' = true /\ Sapper.won s' = false) /\
     (Sapper.r_hit r = false ->
      (Sapper.gameOver s' = true -> Sapper.won s' = true) /\
      forall n, n ∈ SapperFacts.unflaggedNeighbors s x y ->
        Sapper.isMine s n.1 n.2 = Done false ->
        Sapper.isRevealed s' n.1 n.2 = Done true)) /\
  (forall fuel s x y r s',
     SapperShapes.chordReveal fuel s x y = Done (r, s') ->
     ~ (SapperShapes.isRevealed s x y = true /\ (0 < SapperShapes.getCount s x y)%nat /\
        SapperShapes.countAdjacentFlags s x y = SapperShapes.getCount s x y) ->
     r = SapperShapes.noEffect /\ s' = s) /\
  (forall fuel s x y,
     SapperShapes.gameOver s = false ->
     Grid.isInBounds (SapperShapes.grid s) x y = true ->
     SapperShapes.isRevealed s x y = true -> (0 < SapperShapes.getCount s x y)%nat ->
     SapperShapes.countAdjacentFlags s x y = SapperShapes.getCount s x y ->
     SapperShapes.chordReveal fuel s x y =
     ('(s', allRevealed, hitMine) <-
        foldM (ShapesFacts.revealOne fuel) (ShapesFacts.unflaggedNeighbors s x y)
              (s, [], false);
      Done ({| SapperShapes.r_hit := hitMine; SapperShapes.r_revealed := allRevealed;
               SapperShapes.r_won := SapperShapes.won s';
               SapperShapes.r_lost := hitMine |}, s'))) /\
  (forall fuel s x y r s',
     SapperShapes.gameOver s = false ->
     Grid.isInBounds (SapperShapes.grid s) x y = true ->
     SapperShapes.isRevealed s x y = true -> (0 < SapperShapes.getCount s x y)%nat ->
     SapperShapes.countAdjacentFlags s x y = SapperShapes.getCount s x y ->
     SapperShapes.chordReveal fuel s x y = Done (r, s') ->
     SapperShapes.r_lost r = SapperShapes.r_hit r /\
     SapperShapes.r_won r = SapperShapes.won s' /\
     (SapperShapes.r_hit r = true ->
      SapperShapes.gameOver s' = true /\ SapperShapes.won s' = false) /\
     (SapperShapes.r_hit r = false ->
      NoDup (SapperShapes.r_revealed r) /\
      (forall px py, (px, py) ∈ SapperShapes.r_revealed r <->
         is_Some (SapperShapes.cells s !! (px, py)) /\
         SapperShapes.isRevealed s px py = false /\
         SapperShapes.isRevealed s' px py = true) /\
      (SapperShapes.gameOver s' = true -> SapperShapes.won s' = true) /\
      forall n, n ∈ ShapesFacts.unflaggedNeighbors s x y ->
        Grid.isInBounds (SapperShapes.grid s) n.1 n.2 = true ->
        SapperShapes.isMine s n.1 n.2 = false ->
        SapperShapes.isRevealed s' n.1 n.2 = true)).
Proof.
  split; [|split; [|split; [|split; [|split]]]].
  - intros fuel s x y r s'. apply SapperFacts.chordReveal_noop.
  - intros fuel s x y g. apply SapperFacts.chordReveal_fires.
  - intros fuel s x y g r s'. apply SapperChord.chordReveal_effect.
  - intros fuel s x y r s'. apply ShapesFacts.shapes_chordReveal_noop.
  - intros fuel s x y. apply ShapesFacts.shapes_chordReveal_fires.
  - intros fuel s x y r s'. apply ShapesChord.shapes_chordReveal_effect.
Qed.

Lemma C6_witness :
  (exists r s',
     Sapper.chordReveal 30 Examples.squareChord 3 3 = Done (r, s') /\
     Sapper.r_hit r = false /\
     Sapper.isRevealed Examples.squareChord 3 4 = Done false /\
     Sapper.isRevealed s' 3 4 = Done true /\ Sapper.isRevealed s' 4 4 = Done true) /\
  (exists s r s',
     Examples.hexFlagged = Done s /\
     SapperShapes.chordReveal 30 s 0 1 = Done (r, s') /\
     SapperShapes.r_hit r = false /\
     SapperShapes.isRevealed s 0 2 = false /\
     SapperShapes.isRevealed s' 0 2 = true /\ SapperShapes.isRevealed s' 1 2 = true).
Proof.
  split.
  - assert (match Sapper.chordReveal 30 Examples.squareChord 3 3 with
            | Done (r, _) => negb (Sapper.r_hit r)
            | _ => false
            end = true) as Hrun by (vm_compute; reflexivity).
    destruct (Sapper.chordReveal 30 Examples.squareChord 3 3) as [[r s']| |] eqn:E;
      [|discriminate Hrun..].
    apply negb_true_iff in Hrun.
    assert (SapperFacts.wf Examples.squareChord) as Hwf
      by (repeat split; repeat constructor).
    destruct (proj1 (proj2 (proj2 C6_chord_reveal)) 30%nat Examples.squareChord 3 3 3 r s'
                Hwf eq_refl eq_refl eq_refl ltac:(lia) eq_refl E)
      as (_ & _ & _ & _ & _ & Hno).
    destruct (Hno Hrun) as [_ Hall].
    exists r, s'. split; [reflexivity|]. split; [exact Hrun|]. split; [reflexivity|].
    split.
    + apply (Hall (3, 4)); [|reflexivity].
      apply (bool_decide_unpack _). vm_compute. exact I.
    + apply (Hall (4, 4)); [|reflexivity].
      apply (bool_decide_unpack _). vm_compute. exact I.
  - assert (match Examples.hexFlagged with
            | Done s =>
              negb (SapperShapes.gameOver s)
              && Grid.isInBounds (SapperShapes.grid s) 0 1
              && SapperShapes.isRevealed s 0 1
              && (0 <? SapperShapes.getCount s 0 1)%nat
              && (SapperShapes.countAdjacentFlags s 0 1 =? SapperShapes.getCount s 0 1)%nat
              && negb (SapperShapes.isRevealed s 0 2)
              && bool_decide ((0, 2) ∈ ShapesFacts.unflaggedNeighbors s 0 1)
              && bool_decide ((1, 2) ∈ ShapesFacts.unflaggedNeighbors s 0 1)
              && Grid.isInBounds (SapperShapes.grid s) 0 2
              && Grid.isInBounds (SapperShapes.grid s) 1 2
              && negb (SapperShapes.isMine s 0 2)
              && negb (SapperShapes.isMine s 1 2)
              && match SapperShapes.chordReveal 30 s 0 1 with
                 | Done (r, _) => negb (SapperShapes.r_hit r)
                 | _ => false
                 end
            | _ => false
            end = true) as Hrun by (vm_compute; reflexivity).
    destruct Examples.hexFlagged as [s| |]; [|discriminate Hrun..].
    apply andb_true_iff in Hrun as [Hrun Hch].
    apply andb_true_iff in Hrun as [Hrun Hm2%negb_true_iff].
    apply andb_true_iff in Hrun as [Hrun Hm1%negb_true_iff].
    apply andb_true_iff in Hrun as [Hrun Hi2].
    apply andb_true_iff in Hrun as [Hrun Hi1].
    apply andb_true_iff in Hrun as [Hrun Hn2%bool_decide_eq_true].
    apply andb_true_iff in Hrun as [Hrun Hn1%bool_decide_eq_true].
    apply andb_true_iff in Hrun as [Hrun Hh%negb_true_iff].
    apply andb_true_iff in Hrun as [Hrun Hc%Nat.eqb_eq].
    apply andb_true_iff in Hrun as [Hrun Hpos%Nat.ltb_lt].
    apply andb_true_iff in Hrun as [Hrun Hr].
    apply andb_true_iff in Hrun as [Hgo%negb_true_iff Hin].
    destruct (SapperShapes.chordReveal 30 s 0 1) as [[r s']| |] eqn:E;
      [|discriminate Hch..].
    apply negb_true_iff in Hch.
    destruct (proj2 (proj2 (proj2 (proj2 (proj2 C6_chord_reveal)))) 30%nat s 0 1 r s'
                Hgo Hin Hr Hpos Hc E) as (_ & _ & _ & Hno).
    destruct (Hno Hch) as (_ & _ & _ & Hall).
    exists s, r, s'. split; [reflexivity|]. split; [exact E|]. split; [exact Hch|].
    split; [exact Hh|]. split.
    + exact (Hall (0, 2) Hn1 Hi1 Hm1).
    + exact (Hall (1, 2) Hn2 Hi2 Hm2).
Defined.

(** C6, as stated, fails: a chord does not always reveal its unflagged
    neighbors.  On the live 5x5 board with the mines (4,0), (4,1), (4,2),
    (4,3) and (2,4), flag (4,2), (4,3) and the safe cell (4,4): the revealed
    cell (3,3) shows 3 and has three flagged neighbors, so the chord fires.
    Its first unflagged neighbors (2,2), (3,2) and (2,3) are revealed
    already, the next one, (2,4), is a mine, and the call on it ends the
    game; the last unflagged neighbor, (3,4), holds no mine and stays
    hidden. *)
Lemma C6_counterexample :
  exists r s',
    Sapper.gameOver Examples.squareMisflagged = false /\
    Sapper.isRevealed Examples.squareMisflagged 3 3 = Done true /\
    Sapper.getCell Examples.squareMisflagged 3 3 = Done (Some 3) /\
    Sapper._countAdjacentFlags Examples.squareMisflagged 3 3 = Done 3%nat /\
    Sapper.chordReveal 30 Examples.squareMisflagged 3 3 = Done (r, s') /\
    Sapper.r_hit r = true /\
    (3, 4) ∈ SapperFacts.unflaggedNeighbors Examples.squareMisflagged 3 3 /\
    Sapper.isMine Examples.squareMisflagged 3 4 = Done false /\
    Sapper.isRevealed s' 3 4 = Done false.
Proof.
  assert (match Sapper.chordReveal 30 Examples.squareMisflagged 3 3 with
          | Done (r, s') =>
            Sapper.r_hit r
            && match Sapper.isRevealed s' 3 4 with Done b => negb b | _ => false end
          | _ => false
          end = true) as Hrun by (vm_compute; reflexivity).
  destruct (Sapper.chordReveal 30 Examples.squareMisflagged 3 3) as [[r s']| |];
    [|discriminate Hrun..].
  apply andb_true_iff in Hrun as [Hhit Hrv].
  exists r, s'. split; [reflexivity|]. split; [reflexivity|]. split; [reflexivity|].
  split; [reflexivity|]. split; [reflexivity|]. split; [exact Hhit|].
  split; [apply (bool_decide_unpack _); vm_compute; exact I|]. split; [reflexivity|].
  destruct (Sapper.isRevealed s' 3 4) as [[]| |]; done.
Qed.

(** A grid of either class accepts only the coordinates of its cells. *)
Lemma lawful_hex (w h mines : nat) (noGuess : bool) (attempts : nat) :
  ShapesFacts.lawful (Examples.shaped (Grid.HexGrid.new w h) mines noGuess attempts).
Proof. intros x y Hin. apply elem_of_coords. by apply GridFacts.inBounds_true in Hin. Qed.

Lemma lawful_triangle (w h mines : nat) (noGuess : bool) (attempts : nat) :
  ShapesFacts.lawful (Examples.shaped (Grid.TriangleGrid.new w h) mines noGuess attempts).
Proof. intros x y Hin. apply elem_of_coords. by apply GridFacts.inBounds_true in Hin. Qed.

(** C7 (amended): when no-guess generation on a fresh board reports failure
    (every attempt was rejected and the fallback placement has returned),
    [handleFirstClick] completes without raising, in the shape engine on a
    grid whose [isInBounds] accepts only cells of the width x height
    rectangle.  The mines are those of a plain random placement;
    [minesPlaced] is true and [success = false] is returned.  The first
    reveal is performed: the result lists, each once, exactly the cells that
    are revealed afterwards, among them the clicked cell if it is on the
    board (in the square engine with every cell of the board in the 3x3
    block around it).  The game is never lost by that click, but it can
    already be over: [gameOver] equals [won], which is true exactly when
    every cell without a mine is revealed. *)
Theorem C7_fallback_after_failed_generation :
  (forall fuel s0 x y rnd s1 rnd1,
     Sapper.noGuess s0 = true -> (Sapper.width s0 * Sapper.height s0 < fuel)%nat ->
     Sapper._generateSolvableBoard fuel (Sapper.initGrid s0) x y rnd
       = Done (false, s1, rnd1) ->
     exists r s',
       Sapper.handleFirstClick fuel (Sapper.initGrid s0) x y rnd = Done (r, s', rnd1) /\
       Sapper.fc_success r = false /\ Sapper.minesPlaced s' = true /\
       Sapper.grid s' = Sapper.grid s1 /\
       Sapper.mineLocations s' = Sapper.mineLocations s1 /\
       (exists rnd0,
          Sapper._placeMinesRandomly fuel (Sapper.initGrid s0) x y rnd0
            = Done (s1, rnd1)) /\
       NoDup (Sapper.fc_revealed r) /\
       (forall px py, (px, py) ∈ Sapper.fc_revealed r <->
                      Sapper.isRevealed s' px py = Done true) /\
       (Sapper._inBounds s' x y = true ->
        forall dx dy, -1 <= dx <= 1 -> -1 <= dy <= 1 ->
          Sapper._inBounds s' (x + dx) (y + dy) = true ->
          (x + dx, y + dy) ∈ Sapper.fc_revealed r) /\
       Sapper.gameOver s' = Sapper.won s' /\
       (Sapper.won s' = true <->
        forall px py, Sapper._inBounds s' px py = true ->
                      Sapper.isMine s' px py = Done false ->
                      Sapper.isRevealed s' px py = Done true)) /\
  (forall fuel s0 x y rnd s1 rnd1,
     SapperShapes.noGuess s0 = true -> ShapesFacts.lawful s0 ->
     (SapperShapes.width s0 * SapperShapes.height s0 < fuel)%nat ->
     SapperShapes._generateSolvableBoard fuel (SapperShapes.initGrid s0) x y rnd
       = Done (false, s1, rnd1) ->
     exists r s',
       SapperShapes.handleFirstClick fuel (SapperShapes.initGrid s0) x y rnd
         = Done (r, s', rnd1) /\
       SapperShapes.fc_success r = false /\ SapperShapes.minesPlaced s' = true /\
       SapperShapes.mineLocations s' = SapperShapes.mineLocations s1 /\
       (forall px py, SapperShapes.isMine s' px py = SapperShapes.isMine s1 px py) /\
       (exists rnd0,
          SapperShapes._placeMinesRandomly (SapperShapes.initGrid s0) x y rnd0
            = Done (s1, rnd1)) /\
       NoDup (SapperShapes.fc_revealed r) /\
       (forall px py, (px, py) ∈ SapperShapes.fc_revealed r <->
                      SapperShapes.isRevealed s' px py = true) /\
       (Grid.isInBounds (SapperShapes.grid s0) x y = true ->
        (x, y) ∈ SapperShapes.fc_revealed r) /\
       SapperShapes.gameOver s' = SapperShapes.won s' /\
       (SapperShapes.won s' = true <->
        forall px py, is_Some (SapperShapes.getCell s' px py) ->
                      SapperShapes.isMine s' px py = false ->
                      SapperShapes.isRevealed s' px py = true)).
Proof.
  split.
  - intros fuel s0 x y rnd s1 rnd1. apply SapperFirst.firstClick_fallback_reveal.
  - intros fuel s0 x y rnd s1 rnd1. apply ShapesChord.shapes_firstClick_fallback_reveal.
Qed.

Lemma C7_witness :
  (exists r s' rnd',
     Examples.squareFallbackLive = Done (r, s', rnd') /\
     Sapper.fc_success r = false /\ Sapper.minesPlaced s' = true /\
     Sapper.gameOver s' = false /\ Sapper.won s' = false /\
     (1, 1) ∈ Sapper.fc_revealed r /\ Sapper.isRevealed s' 1 1 = Done true) /\
  (exists r s' rnd',
     Examples.hexFallbackLive = Done (r, s', rnd') /\
     SapperShapes.fc_success r = false /\ SapperShapes.minesPlaced s' = true /\
     SapperShapes.gameOver s' = false /\ SapperShapes.won s' = false /\
     (0, 0) ∈ SapperShapes.fc_revealed r /\ SapperShapes.isRevealed s' 0 0 = true).
Proof.
  split.
  - assert (match Sapper._generateSolvableBoard 30 (Examples.square 5 5 5 true 1) 0 0
                    (Examples.replay [2; 0; 2; 1; 2; 2; 1; 2; 0; 2;
                                      4; 0; 4; 1; 4; 2; 4; 3; 2; 4]%nat) with
            | Done (ok, _, _) => negb ok
            | _ => false
            end = true) as Hgen by (vm_compute; reflexivity).
    destruct (Sapper._generateSolvableBoard 30 (Examples.square 5 5 5 true 1) 0 0
                (Examples.replay [2; 0; 2; 1; 2; 2; 1; 2; 0; 2;
                                  4; 0; 4; 1; 4; 2; 4; 3; 2; 4]%nat))
      as [[[ok s1] rnd1]| |] eqn:E; [|discriminate Hgen..].
    destruct ok; [discriminate Hgen|].
    destruct (proj1 C7_fallback_after_failed_generation 30%nat
                (Examples.newSquare 5 5 5 true 1) 0 0 _ s1 rnd1
                eq_refl ltac:(vm_compute; lia) E)
      as (r & s' & Hrun & Hok & Hmp & _ & _ & _ & _ & Hlist & Hblock & Hover & _).
    assert (match Examples.squareFallbackLive with
            | Done (_, s, _) => negb (Sapper.won s) && Sapper._inBounds s 0 0
                                && Sapper._inBounds s 1 1
            | _ => false
            end = true) as Hlive by (vm_compute; reflexivity).
    unfold Examples.squareFallbackLive, Examples.square in Hlive.
    rewrite Hrun in Hlive.
    apply andb_true_iff in Hlive as [Hlive Hin1].
    apply andb_true_iff in Hlive as [Hw%negb_true_iff Hin0].
    exists r, s', rnd1. split; [exact Hrun|]. split; [exact Hok|]. split; [exact Hmp|].
    split; [by rewrite Hover|]. split; [exact Hw|].
    assert ((1, 1) ∈ Sapper.fc_revealed r) as Hcell
      by (apply (Hblock Hin0 1 1); [lia|lia|exact Hin1]).
    split; [exact Hcell|]. by apply Hlist.
  - assert (match SapperShapes._generateSolvableBoard 30
                    (Examples.shaped Examples.hex4 3 true 1) 0 0 (Examples.replay []) with
            | Done (ok, _, _) => negb ok
            | _ => false
            end = true) as Hgen by (vm_compute; reflexivity).
    destruct (SapperShapes._generateSolvableBoard 30
                (Examples.shaped Examples.hex4 3 true 1) 0 0 (Examples.replay []))
      as [[[ok s1] rnd1]| |] eqn:E; [|discriminate Hgen..].
    destruct ok; [discriminate Hgen|].
    destruct (proj2 C7_fallback_after_failed_generation 30%nat
                (Examples.newShaped Examples.hex4 3 true 1) 0 0 _ s1 rnd1
                eq_refl (lawful_hex 4 4 3 true 1) ltac:(vm_compute; lia) E)
      as (r & s' & Hrun & Hok & Hmp & _ & _ & _ & _ & Hlist & Hclick & Hover & _).
    assert (match Examples.hexFallbackLive with
            | Done (_, s, _) => negb (SapperShapes.won s)
            | _ => false
            end = true) as Hlive by (vm_compute; reflexivity).
    unfold Examples.hexFallbackLive, Examples.shaped in Hlive.
    rewrite Hrun in Hlive. apply negb_true_iff in Hlive.
    exists r, s', rnd1. split; [exact Hrun|]. split; [exact Hok|]. split; [exact Hmp|].
    split; [by rewrite Hover|]. split; [exact Hlive|].
    assert ((0, 0) ∈ SapperShapes.fc_revealed r) as Hcell by (apply Hclick; reflexivity).
    split; [exact Hcell|]. by apply Hlist.
Defined.

(** C7, as stated, fails: on a 5x5 no-guess board with five mines and one
    attempt, the attempt is rejected, the fallback puts the mines in the
    last column, and the first click at (0,0) reveals every other cell;
    [handleFirstClick] returns [success = false] with [gameOver = true]. *)
Lemma C7_counterexample :
  exists r s' rnd',
    Examples.squareFallback = Done (r, s', rnd') /\
    Sapper.fc_success r = false /\ Sapper.minesPlaced s' = true /\
    Sapper.gameOver s' = true /\ Sapper.won s' = true.
Proof.
  assert (match Examples.squareFallback with
          | Done (r, s', _) =>
            negb (Sapper.fc_success r) && Sapper.minesPlaced s'
            && Sapper.gameOver s' && Sapper.won s'
          | _ => false
          end = true) as Hrun by (vm_compute; reflexivity).
  destruct Examples.squareFallback as [[[r s'] rnd']| |]; [|discriminate..].
  apply andb_true_iff in Hrun as [Hrun Hwon]. apply andb_true_iff in Hrun as [Hrun Hover].
  apply andb_true_iff in Hrun as [Hok%negb_true_iff Hmp].
  exists r, s', rnd'. split; [reflexivity|]. split; [exact Hok|].
  split; [exact Hmp|]. split; [exact Hover|exact Hwon].
Qed.

(** C8 (amended): for a coordinate outside the board, [isInBounds] is false
    and the queries [getCell], [isRevealed], [isFlagged] and [isMine] of the
    square-grid engine return [null] or [false] without raising.  The
    neighbor functions of the grid classes do not raise either and list
    cells of the board only; the list is empty when the coordinate is
    farther than one step (two columns for the extended neighbors) from the
    board, but a coordinate just outside the border has the adjacent cells
    of the board as neighbors. *)
Theorem C8_out_of_bounds_queries :
  (forall w h x y,
     ~ (0 <= x < Z.of_nat w /\ 0 <= y < Z.of_nat h) -> Grid.inBounds w h x y = false) /\
  (forall w h x y n,
     n ∈ Grid.HexGrid.getNeighbors w h x y -> Grid.inBounds w h n.1 n.2 = true) /\
  (forall w h x y n,
     n ∈ Grid.TriangleGrid.getNeighbors w h x y -> Grid.inBounds w h n.1 n.2 = true) /\
  (forall w h x y n,
     n ∈ Grid.TriangleGrid.getExtendedNeighbors w h x y ->
     Grid.inBounds w h n.1 n.2 = true) /\
  (forall w h x y,
     GridFacts.far w h 1 x y ->
     Grid.HexGrid.getNeighbors w h x y = [] /\
     Grid.TriangleGrid.getNeighbors w h x y = []) /\
  (forall w h x y,
     GridFacts.far w h 2 x y -> Grid.TriangleGrid.getExtendedNeighbors w h x y = []) /\
  (forall s x y,
     ~ (0 <= x < Z.of_nat (Sapper.width s) /\ 0 <= y < Z.of_nat (Sapper.height s)) ->
     Sapper.getCell s x y = Done None /\ Sapper.isRevealed s x y = Done false /\
     Sapper.isFlagged s x y = Done false /\ Sapper.isMine s x y = Done false).
Proof.
  repeat split.
  - apply GridFacts.inBounds_outside.
  - intros w h x y n. apply GridFacts.hex_neighbors_inBounds.
  - intros w h x y n Hn. by apply GridFacts.triangle_neighbors_inBounds in Hn as [? _].
  - intros w h x y n Hn. by apply GridFacts.triangle_extended_inBounds in Hn as [? _].
  - by apply GridFacts.hex_neighbors_far.
  - by apply GridFacts.triangle_neighbors_far.
  - apply GridFacts.triangle_extended_far.
  - by apply SapperFacts.queries_outside, SapperFacts.outside_inBounds.
  - by apply SapperFacts.queries_outside, SapperFacts.outside_inBounds.
  - by apply SapperFacts.queries_outside, SapperFacts.outside_inBounds.
  - by apply SapperFacts.queries_outside, SapperFacts.outside_inBounds.
Qed.

Lemma C8_witness :
  Grid.inBounds 5 5 (-3) 7 = false /\
  Grid.HexGrid.getNeighbors 5 5 (-3) 7 = [] /\
  Grid.TriangleGrid.getNeighbors 5 5 (-3) 7 = [] /\
  Grid.TriangleGrid.getExtendedNeighbors 5 5 (-3) 7 = [] /\
  Sapper.getCell (Examples.square 5 5 5 false 1) (-3) 7 = Done None /\
  Sapper.isRevealed (Examples.square 5 5 5 false 1) (-3) 7 = Done false /\
  Sapper.isFlagged (Examples.square 5 5 5 false 1) (-3) 7 = Done false /\
  Sapper.isMine (Examples.square 5 5 5 false 1) (-3) 7 = Done false.
Proof.
  destruct C8_out_of_bounds_queries as (Hin & _ & _ & _ & Hfar & Hext & Hq).
  split; [apply Hin; lia|].
  split; [apply Hfar; unfold GridFacts.far; lia|].
  split; [apply Hfar; unfold GridFacts.far; lia|].
  split; [apply Hext; unfold GridFacts.far; lia|].
  apply Hq. simpl. lia.
Defined.

(** C8, as stated, fails for the neighbors of the topology: the coordinate
    (-1, 0) is outside a 5x5 hexagonal grid, and [getNeighbors(-1, 0)]
    returns the cell (0, 0). *)
Lemma C8_counterexample :
  Grid.inBounds 5 5 (-1) 0 = false /\
  Grid.HexGrid.getNeighbors 5 5 (-1) 0 = [(0, 0)].
Proof. split; vm_compute; reflexivity. Qed.

(** C9: for every target difficulty and every pair of a puzzle and a
    solution that [generatePuzzle] returns, [solveBacktracking(puzzle)]
    returns a grid identical to the solution, with the fuel of the
    generation and with any larger one, and [isValidSolution(solution)] is
    true. *)
Theorem C9_generated_puzzle_round_trip fuel targetDifficulty rnd puzzle solution rnd' :
  Sudoku.generatePuzzle fuel targetDifficulty rnd = Done (puzzle, solution, rnd') ->
  (forall fuel', (fuel <= fuel')%nat ->
     Sudoku.solveBacktracking fuel' puzzle = Done (Some solution)) /\
  Sudoku.isValidSolution solution = true.
Proof.
  intros H. apply SudokuFacts.generatePuzzle_spec in H as [Hsolve Hvalid].
  split; [|exact Hvalid]. intros fuel' Hle.
  by apply (SudokuFacts.solveBacktracking_mono fuel fuel').
Qed.

Lemma C9_witness :
  exists puzzle solution rnd',
    Examples.puzzle1 = Done (puzzle, solution, rnd') /\
    Sudoku.isSolved puzzle = false /\
    (forall fuel', (100 <= fuel')%nat ->
       Sudoku.solveBacktracking fuel' puzzle = Done (Some solution)) /\
    Sudoku.isValidSolution solution = true.
Proof.
  assert (match Examples.puzzle1 with
          | Done (puzzle, _, _) => negb (Sudoku.isSolved puzzle)
          | _ => false
          end = true) as Hrun by (vm_compute; reflexivity).
  revert Hrun. unfold Examples.puzzle1.
  destruct (Sudoku.generatePuzzle 100 1 (Examples.replay []))
    as [[[puzzle solution] rnd']| |] eqn:E; [|discriminate..].
  intros Hrun%negb_true_iff. exists puzzle, solution, rnd'.
  split; [reflexivity|]. split; [exact Hrun|].
  exact (C9_generated_puzzle_round_trip 100 1 (Examples.replay []) puzzle solution rnd' E).
Defined.

(** C10: a call of [handleFirstClick] on a board whose mines are already
    placed returns [{ success: false, revealed: [] }] and leaves the board
    (and the random source) as it was, in both engines.  The same record is
    a possible result of a first call that fell back to random placement
    after failed no-guess generation, so the two cases cannot be told apart
    from the result. *)
Theorem C10_second_first_click :
  (forall fuel s x y rnd,
     Sapper.minesPlaced s = true ->
     Sapper.handleFirstClick fuel s x y rnd =
       Done ({| Sapper.fc_success := false; Sapper.fc_revealed := [] |}, s, rnd)) /\
  (forall fuel s x y rnd,
     SapperShapes.minesPlaced s = true ->
     SapperShapes.handleFirstClick fuel s x y rnd =
       Done ({| SapperShapes.fc_success := false; SapperShapes.fc_revealed := [] |},
             s, rnd)) /\
  (exists s' rnd',
     Sapper.noGuess (Examples.square 2 2 1 true 3) = true /\
     Sapper.minesPlaced (Examples.square 2 2 1 true 3) = false /\
     Examples.squareOutside =
       Done ({| Sapper.fc_success := false; Sapper.fc_revealed := [] |}, s', rnd') /\
     Sapper.minesPlaced s' = true).
Proof.
  split; [|split].
  - intros fuel s x y rnd. apply SapperFacts.handleFirstClick_again.
  - intros fuel s x y rnd. apply ShapesFacts.shapes_handleFirstClick_again.
  - assert (match Examples.squareOutside with
            | Done (r, s', _) =>
              negb (Sapper.fc_success r)
              && match Sapper.fc_revealed r with [] => true | _ => false end
              && Sapper.minesPlaced s'
            | _ => false
            end = true) as Hrun by (vm_compute; reflexivity).
    destruct Examples.squareOutside as [[[[ok rev] s'] rnd']| |]; [|discriminate..].
    cbn [Sapper.fc_success Sapper.fc_revealed] in Hrun.
    apply andb_true_iff in Hrun as [Hrun Hmp]. apply andb_true_iff in Hrun as [Hok Hrev].
    destruct ok; [discriminate|]. destruct rev; [|discriminate].
    exists s', rnd'. split; [reflexivity|]. split; [reflexivity|]. split; [reflexivity|exact Hmp].
Qed.

Lemma C10_witness :
  (exists s,
     Examples.afterClick Examples.squareLive = Done s /\
     Sapper.handleFirstClick 30 s 2 2 (Examples.replay []) =
       Done ({| Sapper.fc_success := false; Sapper.fc_revealed := [] |},
             s, Examples.replay [])) /\
  (exists s,
     Examples.afterClick Examples.hexLive = Done s /\
     SapperShapes.handleFirstClick 30 s 2 2 (Examples.replay []) =
       Done ({| SapperShapes.fc_success := false; SapperShapes.fc_revealed := [] |},
             s, Examples.replay [])).
Proof.
  split.
  - assert (match Examples.afterClick Examples.squareLive with
            | Done s => Sapper.minesPlaced s
            | _ => false
            end = true) as Hrun by (vm_compute; reflexivity).
    destruct (Examples.afterClick Examples.squareLive) as [s| |]; [|discriminate..].
    exists s. split; [reflexivity|].
    exact (proj1 C10_second_first_click 30%nat s 2 2 (Examples.replay []) Hrun).
  - assert (match Examples.afterClick Examples.hexLive with
            | Done s => SapperShapes.minesPlaced s
            | _ => false
            end = true) as Hrun by (vm_compute; reflexivity).
    destruct (Examples.afterClick Examples.hexLive) as [s| |]; [|discriminate..].
    exists s. split; [reflexivity|].
    exact (proj1 (proj2 C10_second_first_click) 30%nat s 2 2 (Examples.replay []) Hrun).
Defined.

End Claims.

(** * Further properties of the code *)

Module GridProperties.
Import Grid GridFacts GridMore.

(** X1 (grid.js, HexGrid.getNeighbors): adjacency on the hexagonal grid is
    symmetric.  Whenever a cell of the grid lists [n] among its neighbors,
    [n] lists that cell among its own: the offsets of an odd row and those
    of an even row mirror each other. *)
Theorem hex_adjacency_symmetric (w h : nat) (x y : Z) (n : Z * Z) :
  inBounds w h x y = true -> n ∈ HexGrid.getNeighbors w h x y ->
  (x, y) ∈ HexGrid.getNeighbors w h n.1 n.2.
Proof.
  intros Hin Hn. pose proof Hin as Hxy%inBounds_true.
  unfold HexGrid.getNeighbors in Hn. apply elem_of_shifted in Hn as (Hnb & d & Hd & ->).
  pose proof Hnb as Hn'%inBounds_true. cbn [fst snd] in *.
  unfold HexGrid.getNeighbors.
  rewrite isOddRow_odd in Hd by lia. rewrite isOddRow_odd by lia.
  assert (forall e : Z * Z,
            e ∈ (if Z.odd (y + d.2) then HexGrid.oddOffsets else HexGrid.evenOffsets) ->
            e.1 = - d.1 -> e.2 = - d.2 ->
            (x, y) ∈ shifted w h (x + d.1) (y + d.2)
                       (if Z.odd (y + d.2) then HexGrid.oddOffsets else HexGrid.evenOffsets))
    as Hback.
  { intros e He H1 H2. apply elem_of_shifted. split; [done|]. exists e. split; [done|].
    cbn [fst snd]. f_equal; lia. }
  destruct (Z.odd y) eqn:Hodd; unfold HexGrid.oddOffsets, HexGrid.evenOffsets in Hd;
    repeat (apply elem_of_cons in Hd as [->|Hd]);
    try (by apply elem_of_nil in Hd); cbn [fst snd] in *;
    rewrite ?Z.add_0_r, ?odd_next, ?(odd_prev y), ?Hodd in *;
    try change (y + -1) with (y - 1) in *; rewrite ?(odd_prev y), ?Hodd in *; cbn [negb] in *.
  all: unfold HexGrid.oddOffsets, HexGrid.evenOffsets in Hback.
  all: first
    [ apply (Hback (1, 0)); [|reflexivity|reflexivity]
    | apply (Hback (-1, 0)); [|reflexivity|reflexivity]
    | apply (Hback (1, 1)); [|reflexivity|reflexivity]
    | apply (Hback (1, -1)); [|reflexivity|reflexivity]
    | apply (Hback (0, 1)); [|reflexivity|reflexivity]
    | apply (Hback (0, -1)); [|reflexivity|reflexivity]
    | apply (Hback (-1, 1)); [|reflexivity|reflexivity]
    | apply (Hback (-1, -1)); [|reflexivity|reflexivity] ].
  all: rewrite !elem_of_cons; auto 10.
Qed.

Lemma hex_adjacency_symmetric_witness :
  inBounds 4 4 1 1 = true /\ (2, 0) ∈ HexGrid.getNeighbors 4 4 1 1 /\
  (1, 1) ∈ HexGrid.getNeighbors 4 4 2 0.
Proof.
  assert (inBounds 4 4 1 1 = true) as H1 by reflexivity.
  assert ((2, 0) ∈ HexGrid.getNeighbors 4 4 1 1) as H2.
  { apply (bool_decide_unpack _). vm_compute. reflexivity. }
  split; [exact H1|]. split; [exact H2|].
  exact (hex_adjacency_symmetric 4 4 1 1 (2, 0) H1 H2).
Defined.

(** X2 (grid.js, HexGrid.getNeighbors): the neighbor list of any integer
    position holds at most six cells, all different from each other and from
    the position itself. *)
Theorem hex_neighbors_distinct (w h : nat) (x y : Z) :
  NoDup (HexGrid.getNeighbors w h x y) /\
((x, y) ∉ HexGrid.getNeighbors w h x y) /\
  (length (HexGrid.getNeighbors w h x y) <= 6)%nat.
Proof.
  unfold HexGrid.getNeighbors. split; [|split].
  - apply NoDup_shifted. destruct (HexGrid.isOddRow y);
      apply (bool_decide_unpack _); vm_compute; reflexivity.
  - apply self_not_shifted. destruct (HexGrid.isOddRow y);
      apply (bool_decide_unpack _); vm_compute; reflexivity.
  - etransitivity; [apply length_shifted|]. by destruct (HexGrid.isOddRow y).
Qed.

(** X3 (grid.js, HexGrid.distance): the hex distance is a metric on integer
    positions within the range in which the code computes exactly: it is
    zero exactly between a position and itself, it is symmetric, and it
    obeys the triangle inequality. *)
Theorem hex_distance_metric (x1 y1 x2 y2 x3 y3 : Z) :
  exactAt x1 y1 -> exactAt x2 y2 -> exactAt x3 y3 ->
  (HexGrid.distance x1 y1 x2 y2 = 0 <-> (x1, y1) = (x2, y2)) /\
  HexGrid.distance x1 y1 x2 y2 = HexGrid.distance x2 y2 x1 y1 /\
  HexGrid.distance x1 y1 x3 y3
    <= HexGrid.distance x1 y1 x2 y2 + HexGrid.distance x2 y2 x3 y3.
Proof.
  intros _ _ _.
  rewrite (distance_norm x1 y1 x2 y2), (distance_norm x2 y2 x1 y1),
    (distance_norm x1 y1 x3 y3), (distance_norm x2 y2 x3 y3).
  split; [|split].
  - rewrite norm_zero. split.
    + intros [Hx Hy]. assert (y1 = y2) as -> by lia. unfold cubeX in Hx. f_equal. lia.
    + intros [= -> ->]. lia.
  - rewrite <- norm_opp. f_equal; lia.
  - replace (cubeX x1 y1 - cubeX x3 y3)
      with ((cubeX x1 y1 - cubeX x2 y2) + (cubeX x2 y2 - cubeX x3 y3)) by lia.
    replace (y1 - y3) with ((y1 - y2) + (y2 - y3)) by lia.
    apply norm_triangle.
Qed.

Lemma hex_distance_metric_witness :
  exactAt 0 0 /\ exactAt 3 1 /\ exactAt 1 4 /\
  HexGrid.distance 0 0 1 4 <= HexGrid.distance 0 0 3 1 + HexGrid.distance 3 1 1 4.
Proof.
  assert (forall x y, (Z.abs x <=? 2 ^ 49) = true -> (Z.abs y <=? 2 ^ 49) = true ->
                      exactAt x y) as Hex.
  { intros x y Hx%Z.leb_le Hy%Z.leb_le. by split. }
  assert (exactAt 0 0) as H1 by (by apply Hex).
  assert (exactAt 3 1) as H2 by (by apply Hex).
  assert (exactAt 1 4) as H3 by (by apply Hex).
  split; [exact H1|]. split; [exact H2|]. split; [exact H3|].
  exact (proj2 (proj2 (hex_distance_metric 0 0 3 1 1 4 H1 H2 H3))).
Defined.

(** X4 (grid.js, HexGrid.distance and HexGrid.getNeighbors): for two cells of
    a hexagonal grid, within the range in which the code computes exactly,
    the second cell is a neighbor of the first exactly when their distance
    is one. *)
Theorem hex_distance_neighbors (w h : nat) (x y x2 y2 : Z) :
  exactAt x y -> exactAt x2 y2 ->
  inBounds w h x y = true -> inBounds w h x2 y2 = true ->
  (HexGrid.distance x y x2 y2 = 1 <-> (x2, y2) ∈ HexGrid.getNeighbors w h x y).
Proof.
  intros _ _ H1%inBounds_true H2. pose proof H2 as H2'%inBounds_true.
  rewrite hex_distance_one by lia. unfold HexGrid.getNeighbors, hexOffsets.
  rewrite elem_of_shifted. cbn [fst snd]. split.
  - intros Hd. split; [done|]. exists (x2 - x, y2 - y). split; [done|].
    cbn [fst snd]. f_equal; lia.
  - intros [_ ([dx dy] & Hd & [= -> ->])]. cbn [fst snd].
    replace (x + dx - x) with dx by lia. replace (y + dy - y) with dy by lia. done.
Qed.

Lemma hex_distance_neighbors_witness :
  inBounds 4 4 1 1 = true /\ inBounds 4 4 2 0 = true /\
  HexGrid.distance 1 1 2 0 = 1 /\ (2, 0) ∈ HexGrid.getNeighbors 4 4 1 1.
Proof.
  assert (forall x y, (Z.abs x <=? 2 ^ 49) = true -> (Z.abs y <=? 2 ^ 49) = true ->
                      exactAt x y) as Hex.
  { intros x y Hx%Z.leb_le Hy%Z.leb_le. by split. }
  assert (inBounds 4 4 1 1 = true) as H1 by reflexivity.
  assert (inBounds 4 4 2 0 = true) as H2 by reflexivity.
  assert (HexGrid.distance 1 1 2 0 = 1) as H3 by reflexivity.
  split; [exact H1|]. split; [exact H2|]. split; [exact H3|].
  exact (proj1 (hex_distance_neighbors 4 4 1 1 2 0
                  (Hex 1 1 eq_refl eq_refl) (Hex 2 0 eq_refl eq_refl) H1 H2) H3).
Defined.

(** X5 (grid.js, TriangleGrid.getNeighbors): edge adjacency on the triangle
    grid is symmetric, and a cell has at most three edge neighbors, none of
    them the cell itself.  An up-pointing triangle reaches the row below and
    the triangle below it points down, so it reaches back. *)
Theorem triangle_adjacency_symmetric (w h : nat) (x y : Z) (n : Z * Z) :
  inBounds w h x y = true -> n ∈ TriangleGrid.getNeighbors w h x y ->
  (x, y) ∈ TriangleGrid.getNeighbors w h n.1 n.2 /\ n <> (x, y) /\
  (length (TriangleGrid.getNeighbors w h x y) <= 3)%nat.
Proof.
  intros Hin Hn. pose proof Hin as Hxy%inBounds_true.
  apply elem_of_triangle in Hn as [Hnb Hn]. pose proof Hnb as Hn'%inBounds_true.
  split; [|split].
  - apply elem_of_triangle. split; [done|]. cbn [fst snd].
    destruct Hn as [-> | [-> | ->]]; cbn [fst snd] in *.
    + right; left. f_equal; lia.
    + left. f_equal; lia.
    + right; right. f_equal.
      pose proof (pointsUp_even x y ltac:(lia)) as Ee.
      destruct (TriangleGrid.pointsUp x y).
      * rewrite pointsUp_even by lia. rewrite Z.add_assoc, Z.even_add, <- Ee. cbn. lia.
      * rewrite pointsUp_even by lia.
        replace (x + (y - 1)) with (x + y - 1) by lia. rewrite Z.even_sub, <- Ee. cbn. lia.
  - destruct Hn as [-> | [-> | ->]]; intros [= H1]; try lia.
    destruct (TriangleGrid.pointsUp x y); lia.
  - unfold TriangleGrid.getNeighbors. rewrite !length_app.
    destruct (inBounds w h (x - 1) y), (inBounds w h (x + 1) y),
      (TriangleGrid.pointsUp x y), (inBounds w h x (y + 1)), (inBounds w h x (y - 1));
      cbn; lia.
Qed.

Lemma triangle_adjacency_symmetric_witness :
  inBounds 5 4 2 1 = true /\ (2, 0) ∈ TriangleGrid.getNeighbors 5 4 2 1 /\
  (2, 1) ∈ TriangleGrid.getNeighbors 5 4 2 0.
Proof.
  assert (inBounds 5 4 2 1 = true) as H1 by reflexivity.
  assert ((2, 0) ∈ TriangleGrid.getNeighbors 5 4 2 1) as H2.
  { apply (bool_decide_unpack _). vm_compute. reflexivity. }
  split; [exact H1|]. split; [exact H2|].
  exact (proj1 (triangle_adjacency_symmetric 5 4 2 1 (2, 0) H1 H2)).
Defined.

(** X6 (grid.js, TriangleGrid.getExtendedNeighbors): the extended
    neighborhood contains every edge neighbor, is symmetric between cells of
    the grid, holds at most ten cells without repetition, and never the cell
    itself. *)
Theorem triangle_extended_neighbors (w h : nat) (x y : Z) :
  (forall n, n ∈ TriangleGrid.getNeighbors w h x y ->
             n ∈ TriangleGrid.getExtendedNeighbors w h x y) /\
  (forall n, inBounds w h x y = true ->
             n ∈ TriangleGrid.getExtendedNeighbors w h x y ->
             (x, y) ∈ TriangleGrid.getExtendedNeighbors w h n.1 n.2) /\
  NoDup (TriangleGrid.getExtendedNeighbors w h x y) /\
  ((x, y) ∉ TriangleGrid.getExtendedNeighbors w h x y) /\
  (length (TriangleGrid.getExtendedNeighbors w h x y) <= 10)%nat.
Proof.
  unfold TriangleGrid.getExtendedNeighbors. split; [|split; [|split; [|split]]].
  - intros n [Hb Hn]%elem_of_triangle. apply elem_of_shifted. split; [done|].
    unfold TriangleGrid.candidates.
    destruct Hn as [-> | [-> | ->]].
    + exists (-1, 0). split; [rewrite !elem_of_cons; auto 12|cbn [fst snd]; f_equal; lia].
    + exists (1, 0). split; [rewrite !elem_of_cons; auto 12|cbn [fst snd]; f_equal; lia].
    + destruct (TriangleGrid.pointsUp x y).
      * exists (0, 1). split; [rewrite !elem_of_cons; auto 12|cbn [fst snd]; f_equal; lia].
      * exists (0, -1). split; [rewrite !elem_of_cons; auto 12|cbn [fst snd]; f_equal; lia].
  - intros n Hin (Hb & d & Hd & ->)%elem_of_shifted. cbn [fst snd].
    apply elem_of_shifted. split; [done|]. exists (- d.1, - d.2). split.
    + unfold TriangleGrid.candidates in *.
      repeat (apply elem_of_cons in Hd as [->|Hd]); try (by apply elem_of_nil in Hd);
        cbn [fst snd Z.opp]; rewrite !elem_of_cons; auto 12.
    + cbn [fst snd]. f_equal; lia.
  - apply NoDup_shifted. apply (bool_decide_unpack _). vm_compute. reflexivity.
  - apply self_not_shifted. apply (bool_decide_unpack _). vm_compute. reflexivity.
  - etransitivity; [apply length_shifted|]. done.
Qed.

End GridProperties.

Module SapperProperties.
Import Sapper SapperFacts SapperMore.

(** X7 (sapper.js, revealCell, toggleFlag, chordReveal): on a board whose
    three arrays are rectangles of the declared size, every move returns a
    result for any integer position, and leaves such a board.  No array is
    read outside its bounds, and the flood fill of a reveal nests at most
    as deep as the board has cells. *)
Theorem moves_always_return (fuel : nat) (s : SapperGame) (x y : Z) :
  wf s -> (width s * height s < fuel)%nat ->
  (exists r s', revealCell fuel s x y = Done (r, s') /\ wf s') /\
  (exists r s', toggleFlag s x y = Done (r, s') /\ wf s') /\
  (exists r s', chordReveal fuel s x y = Done (r, s') /\ wf s').
Proof.
  intros Hwf Hfuel. split; [|split].
  - destruct (revealCell_total fuel s x y Hwf Hfuel) as (r & s' & H).
    exists r, s'. split; [done|]. eapply playStep_wf; [|exact Hwf].
    by eapply revealCell_playStep.
  - by apply toggleFlag_total.
  - by apply chordReveal_total.
Qed.

Lemma moves_always_return_witness :
  wf SapperBoards.live /\
  (exists r s', revealCell 26 SapperBoards.live 7 (-2) = Done (r, s') /\ wf s').
Proof.
  assert (wf SapperBoards.live) as Hwf by (repeat split; repeat constructor).
  split; [exact Hwf|].
  exact (proj1 (moves_always_return 26 SapperBoards.live 7 (-2) Hwf
                  ltac:(vm_compute; lia))).
Defined.

(** X8 (sapper.js, revealCell and _revealCellRecursive): the list that a
    reveal returns names, without repetition, exactly the cells that the
    reveal turned from hidden to revealed. *)
Theorem reveal_lists_opened_cells (fuel : nat) (s : SapperGame) (x y : Z)
    (r : RevealResult) (s' : SapperGame) :
  revealCell fuel s x y = Done (r, s') ->
  NoDup (r_revealed r) /\
  forall px py,
    (px, py) ∈ r_revealed r <->
    at2 (revealed s) px py = Done false /\ at2 (revealed s') px py = Done true.
Proof.
  intros H. pose proof (revealCell_opened _ _ _ _ _ _ H) as Hop.
  split; [by destruct Hop|]. intros px py. by apply opened_iff.
Qed.

Lemma reveal_lists_opened_cells_witness :
  exists r s',
    revealCell 26 SapperBoards.live 3 4 = Done (r, s') /\ NoDup (r_revealed r).
Proof.
  destruct (revealCell 26 SapperBoards.live 3 4) as [[r s']| |] eqn:E;
    [|exfalso; vm_compute in E; discriminate..].
  exists r, s'. split; [reflexivity|].
  exact (proj1 (reveal_lists_opened_cells 26 SapperBoards.live 3 4 r s' E)).
Defined.

(** X9 (sapper.js, revealCell and _checkWin): a reveal on a running game
    that hits no mine reports a win exactly when, afterwards, every cell of
    the board is revealed or holds a mine; the game is over afterwards
    exactly when it reports the win.  Flags play no part. *)
Theorem reveal_wins_when_cleared (fuel : nat) (s : SapperGame) (x y : Z)
    (r : RevealResult) (s' : SapperGame) :
  revealCell fuel s x y = Done (r, s') -> gameOver s = false -> r_hit r = false ->
  (r_won r = true <->
   forall px py, _inBounds s' px py = true ->
     at2 (revealed s') px py = Done true \/ at2 (grid s') px py = Done (-1)) /\
  gameOver s' = r_won r.
Proof.
  intros H Hgo Hhit.
  destruct (revealCell_cleared _ _ _ _ _ _ H Hgo Hhit) as (Hc & Hover & _).
  split; [exact Hc|exact Hover].
Qed.

Lemma reveal_wins_when_cleared_witness :
  exists r s',
    revealCell 26 SapperBoards.live 3 4 = Done (r, s') /\ gameOver s' = r_won r.
Proof.
  destruct (revealCell 26 SapperBoards.live 3 4) as [[r s']| |] eqn:E;
    [|exfalso; vm_compute in E; discriminate..].
  exists r, s'. split; [reflexivity|].
  refine (proj2 (reveal_wins_when_cleared 26 SapperBoards.live 3 4 r s' E eq_refl _)).
  vm_compute in E. injection E as <- _. reflexivity.
Defined.

End SapperProperties.

Module SapperFlagProperties.
Import Sapper SapperFacts SapperMore SapperFlags.

(** X10 (sapper.js, toggleFlag and getFlagCount): on a running game,
    toggling a hidden cell of the board flips the flag of that cell and of
    no other, reports the new flag, and moves the flag count by exactly
    one; the boards of mines and of revealed cells are untouched. *)
Theorem toggle_flag_flips_one_cell (s : SapperGame) (x y : Z) (r : FlagResult)
    (s' : SapperGame) (c : nat) :
  toggleFlag s x y = Done (r, s') -> getFlagCount s = Done c ->
  gameOver s = false -> _inBounds s x y = true -> at2 (revealed s) x y = Done false ->
  at2 (flagged s) x y = Done (negb (f_flagged r)) /\
  at2 (flagged s') x y = Done (f_flagged r) /\
  (forall px py, (px, py) <> (x, y) -> at2 (flagged s') px py = at2 (flagged s) px py) /\
  grid s' = grid s /\ revealed s' = revealed s /\
  f_flagCount r = (if f_flagged r then S c else pred c) /\
  (f_flagged r = false -> (0 < c)%nat).
Proof.
  intros H Hc Hgo Hin Hrv. unfold toggleFlag in H. rewrite Hgo, Hin, Hrv in H.
  cbn [negb bind] in H.
  inv_bind H. rename a into f. rename Ha into Hf.
  inv_bind H. rename a into fl. rename Ha into Hset.
  inv_bind H. rename a into f1. rename Ha into Hf1.
  inv_bind H. rename a into c1. rename Ha into Hc1. injection H as <- <-.
  cbn [f_flagged f_flagCount flagged with_flagged grid revealed] in *.
  pose proof Hset as (_ & _ & Hnew & Hoth & _)%set2_Done.
  assert (f1 = negb f) as -> by congruence.
  rewrite negb_involutive. split; [done|]. split; [done|]. split; [exact Hoth|].
  split; [done|]. split; [done|].
  apply getFlagCount_count in Hc. apply getFlagCount_count in Hc1.
  cbn [flagged with_flagged width height] in Hc1.
  assert ((x, y) ∈ coords (width s) (height s)) as Hmem.
  { apply elem_of_coords. by apply inBounds_spec. }
  assert (forall a : Z * Z, a <> (x, y) ->
            SapperSolve.holds fl a = SapperSolve.holds (flagged s) a) as Hrest.
  { intros [ax ay] Hne. unfold SapperSolve.holds. cbn [fst snd]. by rewrite Hoth. }
  destruct f; cbn [negb].
  - assert (S (countIf (SapperSolve.holds fl) (coords (width s) (height s))) =
            countIf (SapperSolve.holds (flagged s)) (coords (width s) (height s))) as E.
    { apply (countIf_drop _ _ _ (x, y)); [apply NoDup_coords|done| | |done].
      - by apply holds_Done.
      - by apply holds_Done. }
    rewrite <- Hc, <- Hc1 in E. split; [lia|]. intros _. lia.
  - assert (S (countIf (SapperSolve.holds (flagged s)) (coords (width s) (height s))) =
            countIf (SapperSolve.holds fl) (coords (width s) (height s))) as E.
    { apply (countIf_drop _ _ _ (x, y)); [apply NoDup_coords|done| | |].
      - by apply holds_Done.
      - by apply holds_Done.
      - intros a Ha. symmetry. by apply Hrest. }
    rewrite <- Hc, <- Hc1 in E. split; [lia|done].
Qed.

Lemma toggle_flag_flips_one_cell_witness :
  exists r s',
    toggleFlag SapperBoards.live 4 0 = Done (r, s') /\
    at2 (flagged s') 4 0 = Done (f_flagged r).
Proof.
  destruct (toggleFlag SapperBoards.live 4 0) as [[r s']| |] eqn:E;
    [|exfalso; vm_compute in E; discriminate..].
  exists r, s'. split; [reflexivity|].
  exact (proj1 (proj2 (toggle_flag_flips_one_cell SapperBoards.live 4 0 r s' 0 E
                         eq_refl eq_refl eq_refl eq_refl))).
Defined.

(** X11 (sapper.js, toggleFlag): toggling the same position twice in a row
    restores the game, whatever the position and the state of the game, and
    the second call reports the flag count from before the first. *)
Theorem toggle_flag_twice_restores (s : SapperGame) (x y : Z) (r1 r2 : FlagResult)
    (s1 s2 : SapperGame) (c : nat) :
  toggleFlag s x y = Done (r1, s1) -> toggleFlag s1 x y = Done (r2, s2) ->
  getFlagCount s = Done c ->
  s2 = s /\ f_flagCount r2 = c.
Proof.
  intros H1 H2 Hc.
  assert (forall t r t', (n <- getFlagCount t;
            Done ({| f_flagged := false; f_flagCount := n |}, t)) = Done (r, t') ->
            t' = t /\ getFlagCount t = Done (f_flagCount r)) as Hsame.
  { intros t r t' H. inv_bind H. by injection H as <- <-. }
  assert (s2 = s /\ getFlagCount s2 = Done (f_flagCount r2)) as [-> E];
    [|split; [done|congruence]].
  unfold toggleFlag in H1.
  destruct (gameOver s) eqn:Hgo.
  { apply Hsame in H1 as [-> _]. unfold toggleFlag in H2. rewrite Hgo in H2.
    apply Hsame in H2 as [-> E]. done. }
  destruct (_inBounds s x y) eqn:Hin; cbn [negb] in H1.
  2:{ apply Hsame in H1 as [-> _]. unfold toggleFlag in H2. rewrite Hgo, Hin in H2.
      apply Hsame in H2 as [-> E]. done. }
  inv_bind H1. rename a into rv. rename Ha into Hrv. destruct rv.
  { apply Hsame in H1 as [-> _]. unfold toggleFlag in H2. rewrite Hgo, Hin, Hrv in H2.
    apply Hsame in H2 as [-> E]. done. }
  inv_bind H1. rename a into f. rename Ha into Hf.
  inv_bind H1. rename a into fl. rename Ha into Hset.
  inv_bind H1. inv_bind H1. injection H1 as <- <-.
  unfold toggleFlag in H2. cbn [gameOver with_flagged revealed flagged] in H2.
  change (_inBounds (with_flagged s fl) x y) with (_inBounds s x y) in H2.
  rewrite Hgo, Hin, Hrv in H2. cbn [negb bind] in H2.
  pose proof Hset as (_ & _ & Hnew & _ & _)%set2_Done. rewrite Hnew in H2. cbn [bind] in H2.
  rewrite negb_involutive in H2. rewrite (set2_back _ _ _ _ _ _ Hf Hset) in H2.
  cbn [bind] in H2. inv_bind H2. inv_bind H2. injection H2 as <- <-.
  assert (with_flagged (with_flagged s fl) (flagged s) = s) as Es by (by destruct s).
  rewrite Es in *. done.
Qed.

Lemma toggle_flag_twice_restores_witness :
  exists r1 s1 r2,
    toggleFlag SapperBoards.live 4 0 = Done (r1, s1) /\
    toggleFlag s1 4 0 = Done (r2, SapperBoards.live).
Proof.
  destruct (toggleFlag SapperBoards.live 4 0) as [[r1 s1]| |] eqn:E1;
    [|exfalso; vm_compute in E1; discriminate..].
  destruct (toggleFlag s1 4 0) as [[r2 s2]| |] eqn:E2;
    [|exfalso; vm_compute in E1; injection E1 as <- <-; vm_compute in E2; discriminate..].
  exists r1, s1, r2. split; [reflexivity|].
  destruct (toggle_flag_twice_restores SapperBoards.live 4 0 r1 r2 s1 s2 0 E1 E2 eq_refl)
    as [-> _].
  exact E2.
Defined.

End SapperFlagProperties.

Module SapperClickProperties.
Import Sapper SapperFacts SapperMore SapperNumbers SapperFlood SapperClick.

(** X12 (sapper.js, handleFirstClick, _placeMinesRandomly,
    _generateSolvableBoard and _calculateNumbers): after the first click on
    a fresh board, whichever way the mines were placed, every cell of the
    board holds -1 if it is a mine and otherwise the number of mines among
    its up to eight neighbors. *)
Theorem first_click_numbers_cells (fuel : nat) (s0 : SapperGame) (x y : Z) (rnd : rng)
    (r : FirstClickResult) (s' : SapperGame) (rnd' : rng) :
  handleFirstClick fuel (initGrid s0) x y rnd = Done (r, s', rnd') ->
  forall px py, _inBounds s' px py = true ->
    (isMine s' px py = Done true /\ getCell s' px py = Done (Some (-1))) \/
    (isMine s' px py = Done false /\
     getCell s' px py = Done (Some (Z.of_nat (adjacentMines s' px py)))).
Proof.
  intros H px py Hin.
  apply handleFirstClick_fresh in H
    as (ok & s1 & res & Hpl & Hrev & _ & Hwf & Hz & Hg & Hw & Hh & _).
  pose proof (placeMines_numbered _ _ _ _ _ _ _ _ Hpl (rect_replicate _ _ _)
                (zoneFree_replicate _ _ _ _)) as Hnum.
  apply revealCell_playStep in Hrev. apply (playStep_wf _ _ Hrev) in Hwf.
  destruct Hwf as (Hgr & _).
  pose proof Hin as [Hx Hy]%inBounds_spec.
  destruct (at2_rect _ _ _ px py Hgr Hx Hy) as [v Hv].
  unfold isMine, getCell. rewrite Hin, Hv. cbn [negb bind].
  destruct (Z.eqb_spec v (-1)) as [->|Hnm]; [by left|right].
  split; [done|]. do 2 f_equal.
  rewrite (adjacentMines_minesAround s' (initGrid s0)) by done.
  rewrite Hg in *. by apply Hnum.
Qed.

Lemma first_click_numbers_cells_witness :
  exists r s' rnd',
    Examples.squareLive = Done (r, s', rnd') /\
    getCell s' 3 3 = Done (Some (Z.of_nat (adjacentMines s' 3 3))).
Proof.
  assert (match Examples.squareLive with
          | Done (_, s', _) =>
            _inBounds s' 3 3
            && match isMine s' 3 3 with Done false => true | _ => false end
          | _ => false
          end = true) as Hrun by (vm_compute; reflexivity).
  revert Hrun. unfold Examples.squareLive.
  destruct (handleFirstClick 30 (Examples.square 5 5 5 false 1) 0 0
              (Examples.replay [4; 0; 4; 1; 4; 2; 4; 3; 2; 4]%nat))
    as [[[r s'] rnd']| |] eqn:E; [|discriminate..].
  intros [Hin Hm]%andb_true_iff. exists r, s', rnd'. split; [reflexivity|].
  destruct (first_click_numbers_cells 30 (Examples.newSquare 5 5 5 false 1) 0 0 _ r s' rnd'
              E 3 3 Hin) as [[Hmine _]|[_ Hcell]]; [|exact Hcell].
  rewrite Hmine in Hm. discriminate.
Defined.

(** X13 (sapper.js, revealCell and _revealCellRecursive): the flood fill
    is complete.  Around every cell that a reveal opened and that shows
    the number 0, each cell of the board is revealed or flagged
    afterwards. *)
Theorem reveal_floods_blank_cells (fuel : nat) (s : SapperGame) (x y : Z)
    (r : RevealResult) (s' : SapperGame) :
  revealCell fuel s x y = Done (r, s') ->
  forall px py, (px, py) ∈ r_revealed r -> at2 (grid s') px py = Done 0 ->
    forall dx dy, -1 <= dx <= 1 -> -1 <= dy <= 1 ->
      _inBounds s' (px + dx) (py + dy) = true ->
      at2 (revealed s') (px + dx) (py + dy) = Done true \/
      at2 (flagged s') (px + dx) (py + dy) = Done true.
Proof.
  intros H px py Hp Hg0 dx dy Hdx Hdy Hin.
  destruct (gameOver s) eqn:Hgo.
  { rewrite revealCell_over in H by done. injection H as <- <-.
    by apply elem_of_nil in Hp. }
  pose proof (revealCell_playStep _ _ _ _ _ _ H) as Hps.
  pose proof (playStep_frame _ _ Hps) as (Hfl & Hgr & Hw & Hh).
  destruct (revealCell_inner _ _ _ _ _ _ H Hgo) as (hit & s1 & Hrec & Hrv & _).
  pose proof (revealCellRecursive_opened _ _ _ _ _ _ _ _ Hrec) as (new & E & _ & Hop & _).
  cbn [app] in E. subst new. destruct (Hop _ Hp) as [Hb Ha]. cbn [fst snd] in Hb, Ha.
  rewrite Hrv.
  destruct (decide ((dx, dy) = (0, 0))) as [[= -> ->]|Hne].
  { left. by rewrite !Z.add_0_r. }
  pose proof (revealCellRecursive_step _ _ _ _ _ _ _ _ Hrec) as Hstep.
  pose proof (revealStep_frame _ _ Hstep) as (Hfl1 & _ & Hw1 & Hh1).
  rewrite Hgr in Hg0.
  pose proof (revealCellRecursive_closed _ _ _ _ _ _ _ _ Hrec px py Hb Ha Hg0) as Hc.
  rewrite Hfl, <- Hfl1. apply (Hc (dx, dy)).
  - apply elem_of_offsets. done.
  - rewrite <- Hin. apply inBounds_dims; congruence.
Qed.

Lemma reveal_floods_blank_cells_witness :
  exists r s',
    revealCell 26 (Examples.square 3 3 0 false 1) 0 0 = Done (r, s') /\
    (at2 (revealed s') 2 2 = Done true \/ at2 (flagged s') 2 2 = Done true).
Proof.
  assert (match revealCell 26 (Examples.square 3 3 0 false 1) 0 0 with
          | Done (r, s') =>
            bool_decide ((1, 1) ∈ r_revealed r)
            && match at2 (grid s') 1 1 with Done 0 => true | _ => false end
          | _ => false
          end = true) as Hrun by (vm_compute; reflexivity).
  destruct (revealCell 26 (Examples.square 3 3 0 false 1) 0 0) as [[r s']| |] eqn:E;
    [|discriminate..].
  apply andb_true_iff in Hrun as [Hmem%bool_decide_eq_true Hg].
  destruct (at2 (grid s') 1 1) as [[| |]| |] eqn:Eg; try discriminate Hg.
  exists r, s'. split; [reflexivity|].
  refine (reveal_floods_blank_cells 26 _ 0 0 r s' E 1 1 Hmem Eg 1 1 _ _ _); [lia|lia|].
  apply revealCell_playStep, playStep_frame in E as (_ & _ & Hw & Hh).
  unfold _inBounds. rewrite Hw, Hh. reflexivity.
Defined.

(** X14 (sapper.js, handleFirstClick): the first click on a cell of a fresh
    board opens that cell and every cell of the board around it, and
    reports them in its list. *)
Theorem first_click_opens_block (fuel : nat) (s0 : SapperGame) (x y : Z) (rnd : rng)
    (r : FirstClickResult) (s' : SapperGame) (rnd' : rng) :
  handleFirstClick fuel (initGrid s0) x y rnd = Done (r, s', rnd') ->
  _inBounds s' x y = true ->
  forall dx dy, -1 <= dx <= 1 -> -1 <= dy <= 1 ->
    _inBounds s' (x + dx) (y + dy) = true ->
    isRevealed s' (x + dx) (y + dy) = Done true /\ (x + dx, y + dy) ∈ fc_revealed r.
Proof. apply firstClick_block. Qed.

Lemma first_click_opens_block_witness :
  exists r s' rnd',
    Examples.squareLive = Done (r, s', rnd') /\
    isRevealed s' 1 1 = Done true /\ (1, 1) ∈ fc_revealed r.
Proof.
  assert (match Examples.squareLive with
          | Done (_, s', _) => _inBounds s' 0 0 && _inBounds s' 1 1
          | _ => false
          end = true) as Hrun by (vm_compute; reflexivity).
  revert Hrun. unfold Examples.squareLive.
  destruct (handleFirstClick 30 (Examples.square 5 5 5 false 1) 0 0
              (Examples.replay [4; 0; 4; 1; 4; 2; 4; 3; 2; 4]%nat))
    as [[[r s'] rnd']| |] eqn:E; [|discriminate..].
  intros [Hin Hin']%andb_true_iff. exists r, s', rnd'. split; [reflexivity|].
  exact (first_click_opens_block 30 (Examples.newSquare 5 5 5 false 1) 0 0 _ r s' rnd'
           E Hin 1 1 ltac:(lia) ltac:(lia) Hin').
Defined.

End SapperClickProperties.

Module SudokuProperties.
Import Sudoku SudokuFacts SudokuMore.
Local Open Scope nat_scope.




(** X17 (sudoku.js, solveBacktracking and solveBacktrackingHelper): on a
    9x9 board without a clash among its clues, the backtracking solver
    returns; it returns either a full board that passes isValidSolution and
    keeps every clue, or null, and null only if no valid grid of digits
    completes the board.  The search nests at most one call per empty
    cell. *)
Theorem backtracking_decides (fuel : nat) (b : Board) :
  shape9 b -> consistent b -> 81 < fuel ->
  (exists sol, solveBacktracking fuel b = Done (Some sol) /\
               isValidSolution sol = true /\
               forall r c, r < 9 -> c < 9 -> get b r c <> 0 -> get sol r c = get b r c) \/
  (solveBacktracking fuel b = Done None /\
   forall sol, solution sol -> ~ extends b sol).
Proof.
  intros Hs Hc Hfuel. unfold solveBacktracking.
  destruct (solveBacktrackingHelper_total fuel b Hs) as [[ok b'] Hrun].
  { pose proof (emptyCount_le b). lia. }
  rewrite Hrun. cbn [bind].
  apply solveBacktrackingHelper_spec in Hrun as (Hs' & Hok & Hfail); [|done..].
  destruct ok.
  - left. destruct (Hok eq_refl) as (Hc' & Hsolved & Hk). exists b'. split; [done|].
    split; [by apply consistent_solved_valid|exact Hk].
  - right. destruct (Hfail eq_refl) as [_ Hnone]. done.
Qed.

Lemma backtracking_decides_witness :
  (exists sol, solveBacktracking 82 (replicate 9 (replicate 9 0)) = Done (Some sol) /\
               isValidSolution sol = true /\
               forall r c, r < 9 -> c < 9 ->
                 get (replicate 9 (replicate 9 0)) r c <> 0 ->
                 get sol r c = get (replicate 9 (replicate 9 0)) r c) \/
  (solveBacktracking 82 (replicate 9 (replicate 9 0)) = Done None /\
   forall sol, solution sol -> ~ extends (replicate 9 (replicate 9 0)) sol).
Proof.
  apply (backtracking_decides 82 (replicate 9 (replicate 9 0)) shape9_empty).
  - intros r c _ _ Hnz. by rewrite get_empty in Hnz.
  - lia.
Defined.

End SudokuProperties.

Module SudokuSolverProperties.
Import Sudoku SudokuFacts SudokuMore SudokuSingles SudokuHidden.
Local Open Scope nat_scope.

(** X18 (sudoku.js, solveNakedSingles): on a 9x9 board the naked-singles
    solver returns after at most one pass per empty cell.  It keeps every
    clue, keeps a board without clashes free of clashes, loses no solution
    of the board, and stops only when no empty cell has exactly one
    candidate. *)
Theorem naked_singles_sound (fuel : nat) (b : Board) :
  shape9 b -> 81 < fuel ->
  exists b',
    solveNakedSingles fuel b = Done b' /\
    (forall r c, r < 9 -> c < 9 -> get b r c <> 0 -> get b' r c = get b r c) /\
    (consistent b -> consistent b') /\
    (forall sol, solution sol -> extends b sol -> extends b' sol) /\
    (forall r c, r < 9 -> c < 9 -> get b' r c = 0 ->
                 length (getCandidates b' r c) <> 1).
Proof.
  intros Hs Hfuel.
  destruct (solveNakedSingles_total fuel b Hs) as [b' Hrun].
  { pose proof (emptyCount_le b). lia. }
  exists b'. split; [done|].
  apply solveNakedSingles_spec in Hrun as [(_ & Hk & Hc & He) Hq]; done.
Qed.

Lemma naked_singles_sound_witness :
  exists b',
    solveNakedSingles 82 (set exampleGrid 4 4 0) = Done b' /\
    (forall sol, solution sol -> extends (set exampleGrid 4 4 0) sol -> extends b' sol).
Proof.
  destruct (naked_singles_sound 82 (set exampleGrid 4 4 0))
    as (b' & Hrun & _ & _ & He & _).
  - apply shape9_set. apply exampleGrid_solution.
  - lia.
  - exists b'. split; [exact Hrun|exact He].
Defined.

(** X19 (sudoku.js, solveHiddenSingles): on a 9x9 board the hidden-singles
    solver returns after at most one round per empty cell.  It keeps every
    clue, keeps a board without clashes free of clashes, loses no solution
    of the board, and stops only when no empty cell has exactly one
    candidate and no digit has exactly one place left in a row, a column or
    a box. *)
Theorem hidden_singles_sound (fuel : nat) (b : Board) :
  shape9 b -> 81 < fuel ->
  exists b',
    solveHiddenSingles fuel b = Done b' /\
    (forall r c, r < 9 -> c < 9 -> get b r c <> 0 -> get b' r c = get b r c) /\
    (consistent b -> consistent b') /\
    (forall sol, solution sol -> extends b sol -> extends b' sol) /\
    (forall r c, r < 9 -> c < 9 -> get b' r c = 0 ->
                 length (getCandidates b' r c) <> 1) /\
    noHiddenSingle b'.
Proof.
  intros Hs Hfuel.
  destruct (solveHiddenSingles_total fuel b Hs) as [b' Hrun].
  { pose proof (emptyCount_le b). lia. }
  exists b'. split; [done|].
  apply solveHiddenSingles_spec in Hrun as [(_ & Hk & Hc & He) [Hq Hh]]; done.
Qed.

Lemma hidden_singles_sound_witness :
  exists b',
    solveHiddenSingles 82 (set exampleGrid 4 4 0) = Done b' /\
    (forall sol, solution sol -> extends (set exampleGrid 4 4 0) sol -> extends b' sol).
Proof.
  destruct (hidden_singles_sound 82 (set exampleGrid 4 4 0))
    as (b' & Hrun & _ & _ & He & _).
  - apply shape9_set. apply exampleGrid_solution.
  - lia.
  - exists b'. split; [exact Hrun|exact He].
Defined.

End SudokuSolverProperties.

Module SudokuPuzzleProperties.
Import Sudoku SudokuFacts SudokuMore SudokuSingles SudokuCarve.
Local Open Scope nat_scope.

(** X20 (sudoku.js, generatePuzzle and countClues): a generated puzzle is
    its solution with cells blanked: every cell is empty or holds the digit
    of the solution.  It keeps at least the number of clues that the table
    gives for the requested level (30 for a level outside 1 to 5). *)
Theorem generated_puzzle_clues (fuel targetDifficulty : nat) (rnd : rng)
    (puzzle solution : Board) (rnd' : rng) :
  generatePuzzle fuel targetDifficulty rnd = Done (puzzle, solution, rnd') ->
  (forall r c, r < 9 -> c < 9 ->
     get puzzle r c = 0 \/ get puzzle r c = get solution r c) /\
  targetClues targetDifficulty <= countClues puzzle <= 81.
Proof.
  intros (_ & Hw & Hmin & _)%generatePuzzle_inv. split; [exact Hw|]. split; [exact Hmin|].
  pose proof (countClues_emptyCount puzzle). lia.
Qed.

Lemma generated_puzzle_clues_witness :
  exists puzzle solution rnd',
    Examples.puzzle1 = Done (puzzle, solution, rnd') /\
    36 <= countClues puzzle <= 81.
Proof.
  assert (match Examples.puzzle1 with Done _ => true | _ => false end = true) as Hrun
    by (vm_compute; reflexivity).
  revert Hrun. unfold Examples.puzzle1.
  destruct (generatePuzzle 100 1 (Examples.replay []))
    as [[[puzzle solution] rnd']| |] eqn:E; [|intros Hrun; discriminate Hrun..].
  intros _. exists puzzle, solution, rnd'. split; [reflexivity|].
  exact (proj2 (generated_puzzle_clues 100 1 (Examples.replay []) puzzle solution rnd' E)).
Defined.

(** X21 (sudoku.js, generatePuzzle and getDifficultyLevel): a puzzle
    generated for a level of at least 1 is never graded above that level by
    getDifficultyLevel; it may be graded below. *)
Theorem generated_puzzle_level (fuel targetDifficulty : nat) (rnd : rng)
    (puzzle solution : Board) (rnd' : rng) :
  generatePuzzle fuel targetDifficulty rnd = Done (puzzle, solution, rnd') ->
  1 <= targetDifficulty ->
  exists level, getDifficultyLevel fuel puzzle = Done level /\ level <= targetDifficulty.
Proof.
  intros (_ & _ & _ & Hgr & Hsolved & Hfuel)%generatePuzzle_inv Ht.
  destruct Hgr as [->|Hgr]; [|exact Hgr].
  destruct fuel as [|fuel]; [done|]. exists 1. split; [|exact Ht].
  by apply getDifficultyLevel_solved.
Qed.

Lemma generated_puzzle_level_witness :
  exists puzzle solution rnd' level,
    Examples.puzzle1 = Done (puzzle, solution, rnd') /\
    getDifficultyLevel 100 puzzle = Done level /\ level <= 1.
Proof.
  assert (match Examples.puzzle1 with Done _ => true | _ => false end = true) as Hrun
    by (vm_compute; reflexivity).
  revert Hrun. unfold Examples.puzzle1.
  destruct (generatePuzzle 100 1 (Examples.replay []))
    as [[[puzzle solution] rnd']| |] eqn:E; [|intros Hrun; discriminate Hrun..].
  intros _.
  destruct (generated_puzzle_level 100 1 (Examples.replay []) puzzle solution rnd' E
              ltac:(lia)) as (level & Hl & Hle).
  exists puzzle, solution, rnd', level. split; [reflexivity|]. split; [exact Hl|exact Hle].
Defined.


End SudokuPuzzleProperties.
